(** * AI platform generator: orchestration, parsing, repair and port allocation

    A shallow embedding of the generation back end of the platform:

    - [PortManager]        backend/src/services/portManager.js
    - [MultiFileGenerator] ai-engine/src/multiFileGenerator.js
                           (parser, validator/fixer)
    - [PhaseGenerator]     ai-engine/src/multiFileGenerator.js
                           (requests to the model, retries, the batch)
    - [FileStructure]      ai-engine/templates/file-structure.js
    - [Project]            backend/src/models/Project.js
    - [FileSystem]         backend/src/services/fileSystem.js
    - [Generate]           backend/src/routes/generate.js
                           (progress tracker and batch orchestrator)
    - [DeploymentManager]  backend/src/services/deploymentManager.js

    JavaScript strings are sequences of UTF-16 code units and are modelled
    as [list N]; objects used as dictionaries are [gmap]s keyed by strings;
    [Set]s are [gset]s.  Functions that throw return a sum whose left
    injection carries the error message.  The JavaScript runtime
    ([JSON.parse], [JSON.stringify]) and the outside world (the language
    model, the disk, the smoke test) are parameters of the functions that
    use them. *)

From Stdlib Require Import NArith ZArith QArith Qminmax Lqa Ascii String.
From stdpp Require Import gmap list fin_maps fin_sets.
Close Scope Q_scope.
Open Scope N_scope.


(* ===================================================================== *)
(** ** JavaScript strings                                                 *)
(* ===================================================================== *)

Abbreviation jsstring := (list N).

Module JS.

(** A string literal of the source, as code units. *)
Definition lit (s : string) : jsstring :=
  (fun a => N_of_ascii a) <$> list_ascii_of_string s.

(** [WhiteSpace] and [LineTerminator] code points (ECMA-262, 12.2 and
    12.3): what [\s] matches and what [String.prototype.trim] strips. *)
Definition isWhiteSpace (c : N) : bool :=
  (9 <=? c) && (c <=? 13)            (* TAB LF VT FF CR *)
  || (c =? 32) || (c =? 160)         (* SP, NBSP *)
  || (c =? 5760)                     (* OGHAM SPACE MARK *)
  || (8192 <=? c) && (c <=? 8202)    (* EN QUAD .. HAIR SPACE *)
  || (c =? 8232) || (c =? 8233)      (* LS, PS *)
  || (c =? 8239) || (c =? 8287)      (* NNBSP, MMSP *)
  || (c =? 12288) || (c =? 65279).   (* IDEOGRAPHIC SPACE, ZWNBSP *)

(** [s.startsWith(p)] *)
Fixpoint startsWith (p s : jsstring) : bool :=
  match p, s with
  | [], _ => true
  | _ :: _, [] => false
  | a :: p', b :: s' => (a =? b) && startsWith p' s'
  end.

(** [s.endsWith(p)] *)
Definition endsWith (p s : jsstring) : bool :=
  startsWith (reverse p) (reverse s).

(** [s.includes(p)] *)
Fixpoint includes (p s : jsstring) : bool :=
  startsWith p s ||
  match s with
  | [] => false
  | _ :: s' => includes p s'
  end.

(** [s.trimStart()], [s.trimEnd()], [s.trim()] *)
Fixpoint trimStart (s : jsstring) : jsstring :=
  match s with
  | c :: s' => if isWhiteSpace c then trimStart s' else s
  | [] => []
  end.

Definition trimEnd (s : jsstring) : jsstring :=
  reverse (trimStart (reverse s)).

Definition trim (s : jsstring) : jsstring := trimEnd (trimStart s).

(** A string is truthy when it is not empty. *)
Definition truthyString (s : jsstring) : bool :=
  match s with [] => false | _ => true end.

(** The longest prefix of [s] whose characters satisfy [p], and the rest:
    what a greedy [[class]*] consumes when nothing makes it backtrack. *)
Fixpoint span (p : N -> bool) (s : jsstring) : jsstring * jsstring :=
  match s with
  | c :: s' =>
      if p c then let '(a, b) := span p s' in (c :: a, b) else ([], s)
  | [] => ([], [])
  end.

(** [s] without its longest prefix of characters satisfying [p]. *)
Definition dropWhile (p : N -> bool) (s : jsstring) : jsstring :=
  snd (span p s).

(** The rest of [s] after the literal [p], when [s] starts with it. *)
Definition stripPrefix (p s : jsstring) : option jsstring :=
  if startsWith p s then Some (drop (length p) s) else None.

(** The text before and after the first occurrence of the literal [p]:
    what a lazy [[\s\S]*?] followed by [p] matches and leaves. *)
Fixpoint splitAtFirst (p s : jsstring) : option (jsstring * jsstring) :=
  if startsWith p s then Some ([], drop (length p) s)
  else match s with
       | [] => None
       | c :: s' =>
           match splitAtFirst p s' with
           | Some (a, b) => Some (c :: a, b)
           | None => None
           end
       end.

(** *** Global regular expressions

    One attempt of a regular expression at the start of a string yields
    the value built from its capture groups and the number of code units
    matched.  The expressions of this development all begin with a
    literal, so a match is never empty. *)
Definition matcher (A : Type) := jsstring -> option (A * nat).

(** [while ((match = regex.exec(s)) !== null)] with the [g] flag: the
    matches from left to right, each search resuming where the previous
    match ended.  [skip] counts the code units of the current match that
    are still to be passed over. *)
Fixpoint execAll {A} (m : matcher A) (skip : nat) (s : jsstring) : list A :=
  match s with
  | [] => []
  | _ :: s' =>
      match skip with
      | S k => execAll m k s'
      | O =>
          match m s with
          | Some (a, n) => a :: execAll m (pred n) s'
          | None => execAll m 0 s'
          end
      end
  end.

(** [s.replace(regex, by)] with the [g] flag and a replacement without
    [$] patterns. *)
Fixpoint replaceAll (m : matcher unit) (by_ : jsstring) (skip : nat)
  (s : jsstring) : jsstring :=
  match s with
  | [] => []
  | c :: s' =>
      match skip with
      | S k => replaceAll m by_ k s'
      | O =>
          match m s with
          | Some (_, n) => by_ ++ replaceAll m by_ (pred n) s'
          | None => c :: replaceAll m by_ 0 s'
          end
      end
  end.

(** The regular expression [/\s+/]: a maximal run of white space. *)
Definition matchSpaces : matcher unit :=
  fun s =>
    match span isWhiteSpace s with
    | ([], _) => None
    | (ws, _) => Some (tt, length ws)
    end.

(** Decimal digits of a number, as a template literal prints it. *)
Fixpoint digitsOf (fuel : nat) (n : N) (acc : jsstring) : jsstring :=
  match fuel with
  | O => acc
  | S f =>
      let acc' := (48 + n mod 10) :: acc in
      if n / 10 =? 0 then acc' else digitsOf f (n / 10) acc'
  end.

Definition numberToString (n : N) : jsstring :=
  digitsOf (S (N.to_nat (N.log2 n))) n [].

(** Code units of the two quotation marks. *)
Definition APOSTROPHE : N := 39.
Definition QUOTATION : N := 34.
Definition LINE_FEED : N := 10.
Definition isQuote (c : N) : bool := (c =? APOSTROPHE) || (c =? QUOTATION).

End JS.

Notation "'js:' s" := (JS.lit s) (at level 1, s at level 0, format "'js:' s").


(* ===================================================================== *)
(** ** portManager.js                                                     *)
(* ===================================================================== *)

Module PortManager.

Definition PLATFORM_PORTS : list N := [3000; 3001].
Definition STARTING_PORT : N := 4000.

(** One record of [port-assignments.json]. *)
Record Assignment := mkAssignment {
  projectId : jsstring;
  projectName : jsstring;
  frontend : N;
  backend : N;
  assignedAt : jsstring;
}.

(** The parsed contents of the assignment file.  [loadAssignments] reads
    it on every call and [saveAssignments] writes it back, so the file is
    the only state of the module. *)
Abbreviation Store := (list Assignment).

(** [getUsedPorts]: the reserved ports and every assigned port. *)
Definition getUsedPorts (assignments : Store) : gset N :=
  foldl (fun used a => {[backend a]} ∪ ({[frontend a]} ∪ used))
        (list_to_set PLATFORM_PORTS) assignments.

(** The [while (used.has(port)) port++] loop.  Each iteration consumes
    one unit of [fuel]; [findNextPort] supplies more than the set can
    absorb. *)
Fixpoint scanPorts (fuel : nat) (used : gset N) (port : N) : N :=
  match fuel with
  | O => port
  | S fuel' =>
      if decide (port ∈ used) then scanPorts fuel' used (port + 1) else port
  end.

(** [findNextPort(startFrom)] *)
Definition findNextPort (assignments : Store) (startFrom : N) : N :=
  let used := getUsedPorts assignments in
  scanPorts (S (size used)) used startFrom.

(** [assignments.find(a => a.projectId === projectId)] *)
Definition findAssignment (assignments : Store) (pid : jsstring)
  : option Assignment :=
  List.find (fun a => bool_decide (projectId a = pid)) assignments.

(** [assignPorts(projectId, projectName)]: the assignment returned and
    the store afterwards.  [now] is [new Date().toISOString()]. *)
Definition assignPorts (assignments : Store) (pid name now : jsstring)
  : Assignment * Store :=
  match findAssignment assignments pid with
  | Some existing => (existing, assignments)
  | None =>
      let frontendPort := findNextPort assignments STARTING_PORT in
      let backendPort := findNextPort assignments (frontendPort + 1) in
      let assignment := mkAssignment pid name frontendPort backendPort now in
      (assignment, assignments ++ [assignment])
  end.

(** [getAssignment(projectId)] *)
Definition getAssignment (assignments : Store) (pid : jsstring)
  : option Assignment :=
  findAssignment assignments pid.

(** [releasePorts(projectId)] *)
Definition releasePorts (assignments : Store) (pid : jsstring) : Store :=
  List.filter (fun a => negb (bool_decide (projectId a = pid))) assignments.

(** The stores the allocator can produce, starting from the empty file. *)
Inductive reachable : Store -> Prop :=
| reach_empty : reachable []
| reach_assign s pid name now :
    reachable s -> reachable (snd (assignPorts s pid name now))
| reach_release s pid :
    reachable s -> reachable (releasePorts s pid).

(** The ports held by an assignment. *)
Definition portsOf (a : Assignment) : list N := [frontend a; backend a].

End PortManager.

(* ===================================================================== *)
(** ** Node's [path] module (POSIX flavour)                               *)
(* ===================================================================== *)

(** Modelled on the documented behaviour of [path.dirname],
    [path.posix.join] and [path.posix.normalize] of the Node runtime, on
    a POSIX host; the repository only calls them. *)
Module Path.

Definition SLASH : N := 47.
Definition isSlash (c : N) : bool := c =? SLASH.
Definition DOT : jsstring := js:".".
Definition DOTDOT : jsstring := js:"..".

(** [s.split("/")] *)
Fixpoint splitSlash (s : jsstring) : list jsstring :=
  match s with
  | [] => [[]]
  | c :: s' =>
      if isSlash c then [] :: splitSlash s'
      else match splitSlash s' with
           | seg :: segs => (c :: seg) :: segs
           | [] => [[c]]
           end
  end.

(** [segs.join("/")] *)
Fixpoint joinSlash (segs : list jsstring) : jsstring :=
  match segs with
  | [] => []
  | [seg] => seg
  | seg :: segs' => seg ++ SLASH :: joinSlash segs'
  end.

(** [normalizeString]: the segments kept, innermost last.  Empty and
    [.] segments are dropped; [..] removes the segment before it, and is
    kept only above the start of a relative path. *)
Definition normalizeStep (allowAboveRoot : bool) (stack : list jsstring)
  (seg : jsstring) : list jsstring :=
  if bool_decide (seg = []) || bool_decide (seg = DOT) then stack
  else if bool_decide (seg = DOTDOT) then
    match reverse stack with
    | top :: below =>
        if bool_decide (top = DOTDOT)
        then (if allowAboveRoot then stack ++ [DOTDOT] else stack)
        else reverse below
    | [] => if allowAboveRoot then [DOTDOT] else []
    end
  else stack ++ [seg].

Definition normalizeString (path : jsstring) (allowAboveRoot : bool)
  : jsstring :=
  joinSlash (foldl (normalizeStep allowAboveRoot) [] (splitSlash path)).

(** [path.posix.normalize] *)
Definition normalize (path : jsstring) : jsstring :=
  match path with
  | [] => DOT
  | c0 :: _ =>
      let isAbsolute := isSlash c0 in
      let trailingSeparator :=
        match reverse path with c :: _ => isSlash c | [] => false end in
      let body := normalizeString path (negb isAbsolute) in
      match body with
      | [] =>
          if isAbsolute then [SLASH]
          else if trailingSeparator then js:"./" else DOT
      | _ =>
          let body' := if trailingSeparator then body ++ [SLASH] else body in
          if isAbsolute then SLASH :: body' else body'
      end
  end.

(** [path.posix.join(a, b)] *)
Definition join (a b : jsstring) : jsstring :=
  match a, b with
  | [], [] => DOT
  | [], _ => normalize b
  | _, [] => normalize a
  | _, _ => normalize (a ++ SLASH :: b)
  end.

(** [path.dirname] *)
Definition dirname (path : jsstring) : jsstring :=
  match path with
  | [] => DOT
  | c0 :: rest =>
      let hasRoot := isSlash c0 in
      let noTrailing := JS.dropWhile isSlash (reverse rest) in
      let noBase := JS.dropWhile (fun c => negb (isSlash c)) noTrailing in
      match noBase with
      | [] => if hasRoot then [SLASH] else DOT
      | _ :: before =>
          match before with
          | [] => if hasRoot then js:"//" else [c0]
          | _ => c0 :: reverse before
          end
      end
  end.

End Path.

(* ===================================================================== *)
(** ** JavaScript values and the runtime                                  *)
(* ===================================================================== *)

Module Value.

(** The values [JSON.parse] can return, as the code that repairs a
    manifest sees them.  An object is its own properties in insertion
    order.  An array also carries the named properties assigned to it
    ([JSON.stringify] does not print those). *)
#[local] Unset Elimination Schemes.
Inductive jsval :=
| VNull
| VBool (b : bool)
| VNum (q : Q)
| VStr (s : jsstring)
| VArr (elems : list jsval) (named : list (jsstring * jsval))
| VObj (props : list (jsstring * jsval)).
#[local] Set Elimination Schemes.

Abbreviation props := (list (jsstring * jsval)).

(** [ToBoolean]; [undefined] is [None]. *)
Definition truthy (v : option jsval) : bool :=
  match v with
  | None | Some VNull => false
  | Some (VBool b) => b
  | Some (VNum q) => negb (Qeq_bool q 0)
  | Some (VStr s) => JS.truthyString s
  | Some (VArr _ _) | Some (VObj _) => true
  end.

Fixpoint getOwn (k : jsstring) (ps : props) : option jsval :=
  match ps with
  | [] => None
  | (k', v) :: ps' => if bool_decide (k' = k) then Some v else getOwn k ps'
  end.

(** Assignment keeps the position of an existing property and appends a
    new one. *)
Fixpoint setOwn (k : jsstring) (v : jsval) (ps : props) : props :=
  match ps with
  | [] => [(k, v)]
  | (k', v') :: ps' =>
      if bool_decide (k' = k) then (k, v) :: ps' else (k', v') :: setOwn k v ps'
  end.

Fixpoint deleteOwn (k : jsstring) (ps : props) : props :=
  match ps with
  | [] => []
  | (k', v') :: ps' =>
      if bool_decide (k' = k) then deleteOwn k ps'
      else (k', v') :: deleteOwn k ps'
  end.

(** Errors thrown while a value is inspected or changed. *)
Inductive error :=
| TypeError
| SyntaxError.

(** [v[k]] for a property name [k] that is neither an array index nor a
    name defined on a prototype (the manifest fields and package names
    read by the fixer are of this kind): primitives have no such
    property, [null] cannot be read at all. *)
Definition getProp (v : jsval) (k : jsstring) : error + option jsval :=
  match v with
  | VNull => inl TypeError
  | VObj ps => inr (getOwn k ps)
  | VArr _ named => inr (getOwn k named)
  | VBool _ | VNum _ | VStr _ => inr None
  end.

(** [v[k] = x] in strict mode (the generator is an ES module): creating
    a property on a primitive throws. *)
Definition setProp (v : jsval) (k : jsstring) (x : jsval) : error + jsval :=
  match v with
  | VObj ps => inr (VObj (setOwn k x ps))
  | VArr elems named => inr (VArr elems (setOwn k x named))
  | VNull | VBool _ | VNum _ | VStr _ => inl TypeError
  end.

(** [delete v[k]] *)
Definition deleteProp (v : jsval) (k : jsstring) : error + jsval :=
  match v with
  | VObj ps => inr (VObj (deleteOwn k ps))
  | VArr elems named => inr (VArr elems (deleteOwn k named))
  | VNull => inl TypeError
  | VBool _ | VNum _ | VStr _ => inr v
  end.

End Value.

(** What the code takes from the JavaScript runtime without defining it.
    [JSON_parse] is [None] where [JSON.parse] throws a [SyntaxError]. *)
Class Runtime := {
  JSON_parse : jsstring -> option Value.jsval;
  JSON_stringify : Value.jsval -> jsstring;
  toLowerCase : jsstring -> jsstring;
}.

(* ===================================================================== *)
(** ** multiFileGenerator.js                                              *)
(* ===================================================================== *)

(** The project configuration handed to the generator. *)
Record Config := mkConfig {
  cfg_name : jsstring;
  cfg_description : jsstring;
  cfg_features : list jsstring;
  cfg_multiTenant : bool;
  cfg_authentication : jsstring;
}.

(** A map from relative file path to file content. *)
Abbreviation FileMap := (gmap jsstring jsstring).

Module MultiFileGenerator.
Import Value.

Inductive Phase := BACKEND | FRONTEND | DATABASE | INFRASTRUCTURE | DOCUMENTATION.

#[global] Instance Phase_eq_dec : EqDecision Phase.
Proof. solve_decision. Defined.

(** [GENERATION_PHASES]: the name of each phase. *)
Definition phaseName (p : Phase) : jsstring :=
  match p with
  | BACKEND => js:"backend"
  | FRONTEND => js:"frontend"
  | DATABASE => js:"database"
  | INFRASTRUCTURE => js:"infrastructure"
  | DOCUMENTATION => js:"documentation"
  end.

Definition CRITICAL_FILES (p : Phase) : list jsstring :=
  match p with
  | BACKEND =>
      [js:"backend/src/server.js"; js:"backend/package.json";
       js:"backend/src/config/index.js"; js:"backend/src/routes/index.js";
       js:"backend/src/middleware/auth.js";
       js:"backend/src/middleware/errorHandler.js"]
  | FRONTEND =>
      [js:"frontend/app/layout.tsx"; js:"frontend/package.json";
       js:"frontend/app/page.tsx"; js:"frontend/tailwind.config.js"]
  | DATABASE => [js:"database/schema.sql"]
  | INFRASTRUCTURE => []
  | DOCUMENTATION => []
  end.

(** [REQUIRED_BACKEND_PACKAGES] and [REQUIRED_FRONTEND_PACKAGES], each
    as its [dependencies] and [devDependencies] entries in order. *)
Definition REQUIRED_BACKEND_dependencies : list (jsstring * jsstring) :=
  [(js:"bcryptjs", js:"^2.4.3"); (js:"cors", js:"^2.8.5");
   (js:"dotenv", js:"^16.3.1"); (js:"express", js:"^4.18.2");
   (js:"express-rate-limit", js:"^7.1.5");
   (js:"express-validator", js:"^7.0.1"); (js:"helmet", js:"^7.1.0");
   (js:"jsonwebtoken", js:"^9.0.2"); (js:"pg", js:"^8.11.3");
   (js:"sequelize", js:"^6.35.2"); (js:"uuid", js:"^9.0.1");
   (js:"winston", js:"^3.11.0")].

Definition REQUIRED_BACKEND_devDependencies : list (jsstring * jsstring) :=
  [(js:"jest", js:"^29.7.0"); (js:"supertest", js:"^6.3.3")].

Definition REQUIRED_FRONTEND_dependencies : list (jsstring * jsstring) :=
  [(js:"next", js:"14.0.4"); (js:"react", js:"^18.2.0");
   (js:"react-dom", js:"^18.2.0"); (js:"axios", js:"^1.6.2");
   (js:"tailwindcss", js:"^3.4.0"); (js:"autoprefixer", js:"^10.4.16");
   (js:"postcss", js:"^8.4.32")].

Definition REQUIRED_FRONTEND_devDependencies : list (jsstring * jsstring) :=
  [(js:"@types/node", js:"^20.10.5"); (js:"@types/react", js:"^18.2.45");
   (js:"@types/react-dom", js:"^18.2.18"); (js:"typescript", js:"^5.3.3");
   (js:"eslint", js:"^8.56.0"); (js:"eslint-config-next", js:"14.0.4")].

(** *** parseMultiFileResponse *)

Definition FILE_OPEN : jsstring := js:"===FILE:".
Definition FILE_CLOSE : jsstring := js:"===" ++ [JS.LINE_FEED].
Definition END_FILE : jsstring := js:"===END FILE===".
Definition EQUALS_SIGN : N := 61.

(** The class [[^\s=]]. *)
Definition isPathChar (c : N) : bool :=
  negb (JS.isWhiteSpace c || (c =? EQUALS_SIGN)).

(** One attempt of
    [/===FILE:\s*([^\s=]+)\s*===\n([\s\S]*?)===END FILE===/]
    at the start of [s]: the two captures and the length of the match.
    Each greedy run is followed by something its own class excludes, so
    giving characters back never helps and the runs are maximal; the lazy
    body stops at the first end marker. *)
Definition matchFileBlock : JS.matcher (jsstring * jsstring) :=
  fun s =>
    match JS.stripPrefix FILE_OPEN s with
    | None => None
    | Some s1 =>
        let '(ws1, s2) := JS.span JS.isWhiteSpace s1 in
        let '(path, s3) := JS.span isPathChar s2 in
        match path with
        | [] => None
        | _ =>
            let '(ws2, s4) := JS.span JS.isWhiteSpace s3 in
            match JS.stripPrefix FILE_CLOSE s4 with
            | None => None
            | Some s5 =>
                match JS.splitAtFirst END_FILE s5 with
                | None => None
                | Some (body, _) =>
                    Some ((path, body),
                          (length FILE_OPEN + length ws1 + length path
                           + length ws2 + length FILE_CLOSE + length body
                           + length END_FILE)%nat)
                end
            end
        end
    end.

(** [files[filePath] = content] on the object literal [files]: the
    name [__proto__] is the accessor of [Object.prototype], whose setter
    ignores a string, so no property is created for it. *)
Definition assignFile (filePath content : jsstring) (files : FileMap)
  : FileMap :=
  if bool_decide (filePath = js:"__proto__") then files
  else <[filePath := content]> files.

(** [parseMultiFileResponse(response)] *)
Definition parseMultiFileResponse (response : jsstring) : FileMap :=
  foldl (fun (files : FileMap) '(filePath, content) =>
           assignFile (JS.trim filePath) (JS.trim content) files)
        ∅ (JS.execAll matchFileBlock 0 response).

(** [validatePhaseFiles(phase, files)]: the critical files whose entry is
    missing or empty. *)
Definition validatePhaseFiles (phase : Phase) (files : FileMap)
  : bool * list jsstring :=
  let missing :=
    List.filter (fun f => negb (from_option JS.truthyString false (files !! f)))
                (CRITICAL_FILES phase) in
  (bool_decide (missing = []), missing).

(** *** Repairing a manifest

    The body of [fixBackendPackageJson] and [fixFrontendPackageJson]
    after [JSON.parse]: statements that read and update [pkg] and push
    onto [fixes].  A [TypeError] ends the body; what was pushed before it
    stays in [fixes]. *)
Definition Fix (A : Type) : Type :=
  jsval * list jsstring -> (error + A) * (jsval * list jsstring).

#[export] Instance Fix_ret : MRet Fix := fun A a st => (inr a, st).

#[export] Instance Fix_bind : MBind Fix := fun A B f m st =>
  match m st with
  | (inr a, st') => f a st'
  | (inl e, st') => (inl e, st')
  end.

Definition lift {A} (r : error + A) : Fix A := fun st => (r, st).

(** [fixes.push(msg)] *)
Definition push (msg : jsstring) : Fix unit :=
  fun '(pkg, fixes) => (inr tt, (pkg, fixes ++ [msg])).

(** [pkg[k]] *)
Definition readField (k : jsstring) : Fix (option jsval) :=
  fun '(pkg, fixes) => (getProp pkg k, (pkg, fixes)).

(** [pkg[k] = v] *)
Definition writeField (k : jsstring) (v : jsval) : Fix unit :=
  fun '(pkg, fixes) =>
    match setProp pkg k v with
    | inr pkg' => (inr tt, (pkg', fixes))
    | inl e => (inl e, (pkg, fixes))
    end.

(** The value of [pkg[k1]] as the base of a member expression: reading
    or writing a property of [undefined] throws. *)
Definition baseOf (pkg : jsval) (k1 : jsstring) : error + jsval :=
  match getProp pkg k1 with
  | inl e => inl e
  | inr None => inl TypeError
  | inr (Some o) => inr o
  end.

(** [pkg[k1][k2]] *)
Definition readField2 (k1 k2 : jsstring) : Fix (option jsval) :=
  fun '(pkg, fixes) =>
    match baseOf pkg k1 with
    | inl e => (inl e, (pkg, fixes))
    | inr o => (getProp o k2, (pkg, fixes))
    end.

(** The object held by [pkg[k1]] is changed in place by [change]. *)
Definition updateField2 (k1 : jsstring) (change : jsval -> error + jsval)
  : Fix unit :=
  fun '(pkg, fixes) =>
    match baseOf pkg k1 with
    | inl e => (inl e, (pkg, fixes))
    | inr o =>
        match change o with
        | inl e => (inl e, (pkg, fixes))
        | inr o' =>
            match setProp pkg k1 o' with
            | inr pkg' => (inr tt, (pkg', fixes))
            | inl e => (inl e, (pkg, fixes))
            end
        end
    end.

(** [pkg[k1][k2] = v] *)
Definition writeField2 (k1 k2 : jsstring) (v : jsval) : Fix unit :=
  updateField2 k1 (fun o => setProp o k2 v).

(** [delete pkg[k1][k2]] *)
Definition deleteField2 (k1 k2 : jsstring) : Fix unit :=
  updateField2 k1 (fun o => deleteProp o k2).

(** [if (!value) { body }] *)
Definition unless (value : option jsval) (body : Fix unit) : Fix unit :=
  if truthy value then mret tt else body.

(** [if (value) { body }] *)
Definition when_ (value : option jsval) (body : Fix unit) : Fix unit :=
  if truthy value then body else mret tt.

(** [for (const [dep, version] of Object.entries(required))] with the
    body [if (!pkg[field][dep]) { pkg[field][dep] = version;
    fixes.push(label + dep) }]. *)
Fixpoint addMissing (field label : jsstring)
  (required : list (jsstring * jsstring)) : Fix unit :=
  match required with
  | [] => mret tt
  | (dep, version) :: rest =>
      cur ← readField2 field dep;
      unless cur (writeField2 field dep (VStr version);;
                  push (label ++ dep));;
      addMissing field label rest
  end.

Section WithRuntime.
Context {rt : Runtime}.

(** [config.name.toLowerCase().replace(/\s+/g, "-")] *)
Definition packageBaseName (config : Config) : jsstring :=
  JS.replaceAll JS.matchSpaces js:"-" 0 (toLowerCase (cfg_name config)).

(** The [try] block of [fixBackendPackageJson] after [JSON.parse]. *)
Definition fixBackendPackage (config : Config) : Fix unit :=
  name ← readField js:"name";
  unless name
    (writeField js:"name" (VStr (packageBaseName config ++ js:"-backend"));;
     push js:"Added package name");;
  version ← readField js:"version";
  unless version (writeField js:"version" (VStr js:"1.0.0"));;
  main ← readField js:"main";
  unless main
    (writeField js:"main" (VStr js:"src/server.js");;
     push js:"Added main entry point");;
  scripts ← readField js:"scripts";
  unless scripts (writeField js:"scripts" (VObj []));;
  start ← readField2 js:"scripts" js:"start";
  unless start
    (writeField2 js:"scripts" js:"start" (VStr js:"node src/server.js");;
     push js:"Added start script");;
  dev ← readField2 js:"scripts" js:"dev";
  unless dev
    (writeField2 js:"scripts" js:"dev" (VStr js:"node --watch src/server.js");;
     push js:"Added dev script");;
  dependencies ← readField js:"dependencies";
  unless dependencies (writeField js:"dependencies" (VObj []));;
  addMissing js:"dependencies" js:"Added missing dependency: "
    REQUIRED_BACKEND_dependencies;;
  bcrypt ← readField2 js:"dependencies" js:"bcrypt";
  when_ bcrypt
    (deleteField2 js:"dependencies" js:"bcrypt";;
     push js:"Removed bcrypt (using bcryptjs instead)");;
  devDependencies ← readField js:"devDependencies";
  unless devDependencies (writeField js:"devDependencies" (VObj []));;
  addMissing js:"devDependencies" js:"Added missing devDependency: "
    REQUIRED_BACKEND_devDependencies.

(** The [try] block of [fixFrontendPackageJson] after [JSON.parse]. *)
Definition fixFrontendPackage (config : Config) : Fix unit :=
  name ← readField js:"name";
  unless name
    (writeField js:"name" (VStr (packageBaseName config ++ js:"-frontend"));;
     push js:"Added package name");;
  scripts ← readField js:"scripts";
  unless scripts (writeField js:"scripts" (VObj []));;
  dev ← readField2 js:"scripts" js:"dev";
  unless dev
    (writeField2 js:"scripts" js:"dev" (VStr js:"next dev");;
     push js:"Added dev script");;
  build ← readField2 js:"scripts" js:"build";
  unless build
    (writeField2 js:"scripts" js:"build" (VStr js:"next build");;
     push js:"Added build script");;
  start ← readField2 js:"scripts" js:"start";
  unless start
    (writeField2 js:"scripts" js:"start" (VStr js:"next start");;
     push js:"Added start script");;
  dependencies ← readField js:"dependencies";
  unless dependencies (writeField js:"dependencies" (VObj []));;
  addMissing js:"dependencies" js:"Added missing dependency: "
    REQUIRED_FRONTEND_dependencies;;
  devDependencies ← readField js:"devDependencies";
  unless devDependencies (writeField js:"devDependencies" (VObj []));;
  addMissing js:"devDependencies" js:"Added missing devDependency: "
    REQUIRED_FRONTEND_devDependencies.

(** A repaired manifest: its text and the fixes applied. *)
Record Fixed := mkFixed {
  fixed_content : jsstring;
  fixed_fixes : list jsstring;
}.

(** The [try]/[catch] around a manifest repair: a manifest that does not
    parse is returned as it is with no fix; one whose repair throws is
    returned as it is with the fixes pushed before the error; otherwise
    the repaired value is printed. *)
Definition fixPackageJson (body : Fix unit) (content : jsstring) : Fixed :=
  match JSON_parse content with
  | None => mkFixed content []
  | Some pkg =>
      match body (pkg, []) with
      | (inr _, (pkg', fixes)) => mkFixed (JSON_stringify pkg') fixes
      | (inl _, (_, fixes)) => mkFixed content fixes
      end
  end.

(** [fixBackendPackageJson(content, config)] *)
Definition fixBackendPackageJson (content : jsstring) (config : Config)
  : Fixed :=
  fixPackageJson (fixBackendPackage config) content.

(** [fixFrontendPackageJson(content, config)] *)
Definition fixFrontendPackageJson (content : jsstring) (config : Config)
  : Fixed :=
  fixPackageJson (fixFrontendPackage config) content.

End WithRuntime.

(** *** bcrypt in backend sources *)

Definition REQUIRE_OPEN : jsstring := js:"require(".
Definition BCRYPT : jsstring := js:"bcrypt".
Definition PAREN_CLOSE : jsstring := js:")".

(** The two literals tested with [includes]. *)
Definition requireBcryptSingle : jsstring :=
  REQUIRE_OPEN ++ JS.APOSTROPHE :: BCRYPT ++ JS.APOSTROPHE :: PAREN_CLOSE.
Definition requireBcryptDouble : jsstring :=
  REQUIRE_OPEN ++ JS.QUOTATION :: BCRYPT ++ JS.QUOTATION :: PAREN_CLOSE.

(** One attempt of [/require\(Qbcrypt Q\)/], where [Q] stands for the
    class of the two quotation marks (apostrophe and double quote). *)
Definition matchRequireBcrypt : JS.matcher unit :=
  fun s =>
    match JS.stripPrefix REQUIRE_OPEN s with
    | Some (q1 :: s1) =>
        if JS.isQuote q1 then
          match JS.stripPrefix BCRYPT s1 with
          | Some (q2 :: s2) =>
              if JS.isQuote q2 && JS.startsWith PAREN_CLOSE s2
              then Some (tt, 17%nat) else None
          | _ => None
          end
        else None
    | _ => None
    end.

Definition requireBcryptjs : jsstring := js:"require('bcryptjs')".

(** The test and the rewrite applied to one entry of the file map. *)
Definition isBackendJs (filePath : jsstring) : bool :=
  JS.startsWith js:"backend/" filePath && JS.endsWith js:".js" filePath.

Definition mentionsBcrypt (content : jsstring) : bool :=
  JS.includes requireBcryptSingle content
  || JS.includes requireBcryptDouble content.

Definition replaceBcrypt (content : jsstring) : jsstring :=
  JS.replaceAll matchRequireBcrypt requireBcryptjs 0 content.

(** *** validateAndFixImports *)

(** One attempt of [/require\(Q(\.\.?\/[^Q]+)Q\)/], where [Q] stands
    for the two quotation marks: the captured import path and the length
    of the match.  The optional dot is taken when present (a slash must
    follow either way) and the run of non-quotes is maximal (a quote must
    follow it). *)
Definition matchRelativeRequire : JS.matcher jsstring :=
  fun s =>
    match JS.stripPrefix REQUIRE_OPEN s with
    | Some (q1 :: s1) =>
        if JS.isQuote q1 then
          match JS.stripPrefix js:"." s1 with
          | None => None
          | Some s2 =>
              let '(dots, s3) :=
                match JS.stripPrefix js:"." s2 with
                | Some s3 => (js:"..", s3)
                | None => (js:".", s2)
                end in
              match JS.stripPrefix js:"/" s3 with
              | None => None
              | Some s4 =>
                  let '(rest, s5) := JS.span (fun c => negb (JS.isQuote c)) s4 in
                  match rest, s5 with
                  | _ :: _, q2 :: s6 =>
                      if JS.startsWith PAREN_CLOSE s6 then
                        Some (dots ++ js:"/" ++ rest,
                              (length REQUIRE_OPEN + 1 + length dots + 1
                               + length rest + 2)%nat)
                      else None
                  | _, _ => None
                  end
              end
          end
        else None
    | _ => None
    end.

(** [resolveImportPath(fromFile, importPath)] *)
Definition resolveImportPath (fromFile importPath : jsstring) : jsstring :=
  Path.normalize (Path.join (Path.dirname fromFile) importPath).

(** The warnings of one file of [validateAndFixImports]. *)
Definition importWarnings (existingFiles : gset jsstring)
  (filePath content : jsstring) : list jsstring :=
  if negb (JS.endsWith js:".js" filePath) && negb (JS.endsWith js:".ts" filePath)
  then []
  else
    omap (fun importPath =>
            let resolvedPath := resolveImportPath filePath importPath in
            let possiblePaths :=
              [resolvedPath; resolvedPath ++ js:".js";
               resolvedPath ++ js:"/index.js"] in
            if existsb (fun p => bool_decide (p ∈ existingFiles)) possiblePaths
            then None
            else Some (js:"Warning: " ++ filePath ++ js:" imports '"
                       ++ importPath ++ js:"' but file not found at "
                       ++ resolvedPath))
         (JS.execAll matchRelativeRequire 0 content).

(** [validateAndFixImports(files)] *)
Definition validateAndFixImports (files : FileMap) : list jsstring :=
  '(filePath, content) ← map_to_list files;
  importWarnings (dom files) filePath content.

(** *** validateAndFixFiles *)

Definition BACKEND_PACKAGE_JSON : jsstring := js:"backend/package.json".
Definition FRONTEND_PACKAGE_JSON : jsstring := js:"frontend/package.json".

Section WithRuntime.
Context {rt : Runtime}.

(** Step 1 for one manifest: [if (fixedFiles[key]) { ... }]. *)
Definition fixManifest (key : jsstring)
  (fixer : jsstring -> Config -> Fixed) (config : Config)
  (st : FileMap * list jsstring) : FileMap * list jsstring :=
  let '(fixedFiles, fixes) := st in
  match fixedFiles !! key with
  | Some content =>
      if JS.truthyString content then
        let result := fixer content config in
        (<[key := fixed_content result]> fixedFiles,
         fixes ++ fixed_fixes result)
      else st
  | None => st
  end.

(** Step 2: the loop over [Object.entries(fixedFiles)]. *)
Definition fixBcryptRequires (st : FileMap * list jsstring)
  : FileMap * list jsstring :=
  foldl (fun '(fixedFiles, fixes) '(filePath, content) =>
           if isBackendJs filePath && mentionsBcrypt content then
             (<[filePath := replaceBcrypt content]> fixedFiles,
              fixes ++ [js:"Fixed bcrypt -> bcryptjs in " ++ filePath])
           else (fixedFiles, fixes))
        st (map_to_list (fst st)).

(** [validateAndFixFiles(files, config)]: the repaired map and the list
    of fixes. *)
Definition validateAndFixFiles (files : FileMap) (config : Config)
  : FileMap * list jsstring :=
  let st := (files, []) in
  let st := fixManifest BACKEND_PACKAGE_JSON fixBackendPackageJson config st in
  let st := fixManifest FRONTEND_PACKAGE_JSON fixFrontendPackageJson config st in
  let '(fixedFiles, fixes) := fixBcryptRequires st in
  let fixes := fixes ++ validateAndFixImports fixedFiles in
  let fixedFiles := delete js:"backend/.env" fixedFiles in
  let fixedFiles := delete js:"backend/.env.example" fixedFiles in
  let fixedFiles := delete js:"frontend/.env.local" fixedFiles in
  (fixedFiles, fixes).

End WithRuntime.

End MultiFileGenerator.

(* ===================================================================== *)
(** ** file-structure.js                                                  *)
(* ===================================================================== *)

Module FileStructure.

(** [isValidFilePath(filePath)]: the path starts with one of the known
    top-level names. *)
Definition validPrefixes : list jsstring :=
  [js:"backend/"; js:"frontend/"; js:"database/"; js:"docker-compose";
   js:"scripts/"; js:"docs/"; js:"README"].

Definition isValidFilePath (filePath : jsstring) : bool :=
  existsb (fun prefix => JS.startsWith prefix filePath) validPrefixes.

End FileStructure.

(* ===================================================================== *)
(** ** Project.js                                                         *)
(* ===================================================================== *)

Module Project.

(** [ProjectStatus] *)
Definition DRAFT : jsstring := js:"draft".
Definition GENERATING : jsstring := js:"generating".
Definition TESTING : jsstring := js:"testing".
Definition DEPLOYED : jsstring := js:"deployed".
Definition FAILED : jsstring := js:"failed".

(** The values of the [ProjectStatus] object. *)
Definition ProjectStatus : list jsstring :=
  [DRAFT; GENERATING; TESTING; DEPLOYED; FAILED].

(** The outcome of the smoke test as stored in [testResults]. *)
Record TestResult := mkTestResult {
  test_success : bool;
  test_error : option jsstring;
}.

(** A project record.  [features], [multiTenant] and [authentication]
    are the fields of [config] that the generator reads.  The fields
    [generationStats], [urls], [createdAt], [updatedAt] and [userId] are
    carried by the source but read by nothing modelled here; [urls] is a
    rendering of [ports]. *)
Record Project := mkProject {
  id : jsstring;
  name : jsstring;
  slug : option jsstring;
  description : jsstring;
  status : jsstring;
  features : list jsstring;
  multiTenant : bool;
  authentication : jsstring;
  generationPrompt : option jsstring;
  outputPath : option jsstring;
  generatedFiles : list jsstring;
  testResults : option TestResult;
  error : option jsstring;
  ports : option PortManager.Assignment;
}.

(** The [updates] argument of [updateProject]: the fields present in
    the object literal. *)
Record Updates := mkUpdates {
  u_status : option jsstring;
  u_generationPrompt : option jsstring;
  u_slug : option jsstring;
  u_outputPath : option jsstring;
  u_generatedFiles : option (list jsstring);
  u_testResults : option TestResult;
  u_error : option (option jsstring);
  u_ports : option PortManager.Assignment;
}.

Definition noUpdates : Updates :=
  mkUpdates None None None None None None None None.

(** The in-memory [projects] map (written through to [projects.json]). *)
Abbreviation Store := (gmap jsstring Project).

(** [{ ...project, ...updates }] *)
Definition merge (p : Project) (u : Updates) : Project :=
  {| id := id p;
     name := name p;
     slug := match u_slug u with Some s => Some s | None => slug p end;
     description := description p;
     status := default (status p) (u_status u);
     features := features p;
     multiTenant := multiTenant p;
     authentication := authentication p;
     generationPrompt :=
       match u_generationPrompt u with
       | Some g => Some g
       | None => generationPrompt p
       end;
     outputPath :=
       match u_outputPath u with Some o => Some o | None => outputPath p end;
     generatedFiles := default (generatedFiles p) (u_generatedFiles u);
     testResults :=
       match u_testResults u with Some t => Some t | None => testResults p end;
     error := default (error p) (u_error u);
     ports := match u_ports u with Some a => Some a | None => ports p end |}.

(** The [data] argument of [createProject]. *)
Record Data := mkData {
  d_name : jsstring;
  d_description : jsstring;
  d_features : list jsstring;
  d_multiTenant : bool;
  d_authentication : jsstring;
}.

(** [createProject(data)]; [newId] is the fresh [uuidv4()]. *)
Definition createProject (projects : Store) (newId : jsstring) (data : Data)
  : Project * Store :=
  let project :=
    {| id := newId;
       name := if JS.truthyString (d_name data) then d_name data
               else js:"Untitled Project";
       slug := None;
       description := d_description data;
       status := DRAFT;
       features := d_features data;
       multiTenant := d_multiTenant data;
       authentication :=
         if JS.truthyString (d_authentication data) then d_authentication data
         else js:"basic";
       generationPrompt := None;
       outputPath := None;
       generatedFiles := [];
       testResults := None;
       error := None;
       ports := None |} in
  (project, <[newId := project]> projects).

(** [getProjectById(id)] *)
Definition getProjectById (projects : Store) (pid : jsstring)
  : option Project :=
  projects !! pid.

(** [updateProject(id, updates)]: nothing happens for an unknown id. *)
Definition updateProject (projects : Store) (pid : jsstring) (u : Updates)
  : Store :=
  match projects !! pid with
  | None => projects
  | Some project => <[pid := merge project u]> projects
  end.

End Project.

(* ===================================================================== *)
(** ** The world outside the process                                      *)
(* ===================================================================== *)

(** Statistics returned with the files of one phase ([stats] of
    [generatePhase]). *)
Record PhaseStats := mkPhaseStats {
  ps_filesGenerated : nat;
  ps_lines : N;
  ps_inputTokens : N;
  ps_outputTokens : N;
}.

(** What [generateSinglePhase] resolves to. *)
Record PhaseOutput := mkPhaseOutput {
  out_files : FileMap;
  out_stats : PhaseStats;
  out_fixes : list jsstring;
}.

(** Everything the orchestrator awaits: each field answers one kind of
    request, with the message of the error when the request fails.  A
    request of the same kind with the same argument has the same answer
    throughout one run. *)
Record Env := mkEnv {
  (** [join(__dirname, "..", "..", "..", "generated-apps")] *)
  GENERATED_APPS_PATH : jsstring;
  (** [mkdir(path, { recursive: true })] where the path does not exist *)
  mkdirError : jsstring -> option jsstring;
  (** [writeFile(path, content)] *)
  writeError : jsstring -> option jsstring;
  (** [generateSinglePhase(phase, config)] *)
  generateSinglePhase :
    MultiFileGenerator.Phase -> Config -> jsstring + PhaseOutput;
  (** writing [port-assignments.json] *)
  portStoreError : option jsstring;
  (** [testCode(serverFilePath)]: the outcome of the smoke test, or the
      error of loading the executor *)
  testCode : jsstring -> jsstring + Project.TestResult;
  (** [new Date().toISOString()] *)
  isoNow : jsstring;
}.

(* ===================================================================== *)
(** ** fileSystem.js                                                      *)
(* ===================================================================== *)

Module FileSystem.

(** What a file on disk holds: the text of a generated file, or one of
    the documents the platform renders itself, kept as the data it is
    rendered from. *)
Inductive Written :=
| GeneratedFile (content : jsstring)
| BackendManifest (projectName : jsstring)
| FrontendManifest (projectName : jsstring)
| BackendEnv (ports : PortManager.Assignment) (dbSlug projectId : jsstring)
| FrontendEnv (ports : PortManager.Assignment)
| Metadata (projectId slug projectName : jsstring) (files : list jsstring)
    (totalLines totalTokens : N).

(** The files on disk, by absolute path.  Directories are not tracked:
    creating one either succeeds or throws. *)
Abbreviation Disk := (gmap jsstring Written).

(** A file-system action: it may throw, and leaves a disk either way. *)
Definition FS (A : Type) : Type := Disk -> (jsstring + A) * Disk.

#[export] Instance FS_ret : MRet FS := fun A a d => (inr a, d).
#[export] Instance FS_bind : MBind FS := fun A B f m d =>
  match m d with
  | (inr a, d') => f a d'
  | (inl e, d') => (inl e, d')
  end.

Definition throwFS {A} (e : jsstring) : FS A := fun d => (inl e, d).

(** The class [[^a-z0-9]] and a run of it. *)
Definition isSlugChar (c : N) : bool :=
  (97 <=? c) && (c <=? 122) || (48 <=? c) && (c <=? 57).

Definition matchNonSlug : JS.matcher unit :=
  fun s =>
    match JS.span (fun c => negb (isSlugChar c)) s with
    | ([], _) => None
    | (run, _) => Some (tt, length run)
    end.

Definition HYPHEN : N := 45.

(** [.replace(/^-|-$/g, "")] *)
Definition stripHyphens (s : jsstring) : jsstring :=
  let s1 := match s with
            | c :: s' => if c =? HYPHEN then s' else s
            | [] => []
            end in
  match reverse s1 with
  | c :: r => if c =? HYPHEN then reverse r else s1
  | [] => []
  end.

Section WithRuntime.
Context {rt : Runtime}.

(** [slugify(name)] *)
Definition slugify (name : jsstring) : jsstring :=
  take 50 (stripHyphens
             (JS.replaceAll matchNonSlug js:"-" 0 (toLowerCase name))).

End WithRuntime.

(** [getProjectPath(projectId, projectSlug)] for a slug passed by the
    caller.  With an empty slug the function goes on to call [require],
    which an ES module does not have. *)
Definition getProjectPath (env : Env) (projectId projectSlug : jsstring)
  : jsstring + jsstring :=
  if JS.truthyString projectSlug
  then inr (Path.join (GENERATED_APPS_PATH env)
                      (projectId ++ js:"-" ++ projectSlug))
  else inl js:"require is not defined".

Definition PROJECT_STRUCTURE : list jsstring :=
  [js:"backend/src/routes"; js:"backend/src/models";
   js:"backend/src/middleware"; js:"backend/src/services";
   js:"backend/src/utils"; js:"backend/src/config"; js:"frontend/app";
   js:"frontend/components"; js:"frontend/lib"; js:"database/migrations";
   js:"database/seeds"; js:"infrastructure"; js:"tests/unit";
   js:"tests/integration"; js:"docs"].

(** [if (!existsSync(path)) await mkdir(path, { recursive: true })] *)
Definition ensureDir (env : Env) (path : jsstring) : FS unit :=
  match mkdirError env path with
  | Some e => throwFS e
  | None => mret tt
  end.

(** [writeFile(path, content)] *)
Definition writeFile (env : Env) (path : jsstring) (content : Written)
  : FS unit :=
  fun d =>
    match writeError env path with
    | Some e => (inl e, d)
    | None => (inr tt, <[path := content]> d)
    end.

Fixpoint forEachFS {A} (body : A -> FS unit) (l : list A) : FS unit :=
  match l with
  | [] => mret tt
  | a :: l' => body a;; forEachFS body l'
  end.

Section WithRuntime.
Context {rt : Runtime}.

(** [createProjectStructure(projectId, projectName)]: the project path
    and the slug. *)
Definition createProjectStructure (env : Env)
  (projectId projectName : jsstring) : FS (jsstring * jsstring) :=
  ensureDir env (GENERATED_APPS_PATH env);;
  let projectSlug := slugify projectName in
  match getProjectPath env projectId projectSlug with
  | inl e => throwFS e
  | inr projectPath =>
      ensureDir env projectPath;;
      forEachFS (fun folder => ensureDir env (Path.join projectPath folder))
                PROJECT_STRUCTURE;;
      mret (projectPath, projectSlug)
  end.

End WithRuntime.

(** [saveFile(projectPath, relativePath, content)] *)
Definition saveFile (env : Env) (projectPath relativePath : jsstring)
  (content : Written) : FS jsstring :=
  let filePath := Path.join projectPath relativePath in
  ensureDir env (Path.dirname filePath);;
  writeFile env filePath content;;
  mret filePath.

(** [saveMultipleFiles(projectPath, files)]: the relative paths saved. *)
Definition saveMultipleFiles (env : Env) (projectPath : jsstring)
  (files : FileMap) : FS (list jsstring) :=
  forEachFS (fun '(relativePath, content) =>
               saveFile env projectPath relativePath (GeneratedFile content);;
               mret tt)
            (map_to_list files);;
  mret (map_to_list files).*1.

(** [saveProjectMetadata(projectId, metadata)] *)
Definition saveProjectMetadata (env : Env) (projectId slug : jsstring)
  (metadata : Written) : FS unit :=
  match getProjectPath env projectId slug with
  | inl e => throwFS e
  | inr projectPath =>
      ensureDir env projectPath;;
      writeFile env (Path.join projectPath js:"project.json") metadata
  end.

(** [createBackendPackageJson(projectPath, name)] *)
Definition createBackendPackageJson (env : Env)
  (projectPath name : jsstring) : FS unit :=
  saveFile env projectPath js:"backend/package.json" (BackendManifest name);;
  mret tt.

(** [createFrontendPackageJson(projectPath, name)] *)
Definition createFrontendPackageJson (env : Env)
  (projectPath name : jsstring) : FS unit :=
  saveFile env projectPath js:"frontend/package.json" (FrontendManifest name);;
  mret tt.

End FileSystem.

(* ===================================================================== *)
(** ** generate.js: progress tracking                                     *)
(* ===================================================================== *)

Module Progress.
Import MultiFileGenerator.

(** The status of one phase of a session. *)
Inductive PhaseStatus := pending | in_progress | completed | failed.

#[export] Instance PhaseStatus_eq_dec : EqDecision PhaseStatus.
Proof. solve_decision. Defined.

(** One element of [generation.phases]. *)
Record PhaseState := mkPhaseState {
  ph_id : jsstring;
  ph_label : jsstring;
  ph_weight : Q;
  ph_status : PhaseStatus;
  ph_filesGenerated : nat;
}.

(** [BATCH_PHASES]: id, label and weight. *)
Definition BATCH_PHASES : list (jsstring * jsstring * Q) :=
  [(js:"setup", js:"Setting up project structure", 5%Q);
   (js:"backend", js:"Generating backend API", 30%Q);
   (js:"frontend", js:"Building frontend components", 25%Q);
   (js:"database", js:"Creating database schema", 15%Q);
   (js:"infrastructure", js:"Setting up infrastructure", 10%Q);
   (js:"documentation", js:"Writing documentation", 10%Q);
   (js:"finalizing", js:"Finalizing project", 5%Q)].

(** [BATCH_PHASES.map((p) => ({ ...p, status: "pending",
    filesGenerated: 0 }))] *)
Definition initialPhases : list PhaseState :=
  (fun '(i, l, w) => mkPhaseState i l w pending 0) <$> BATCH_PHASES.

Inductive LogType := info | success | warning | error | thinking.

(** The log lines of the orchestrator, by the template that prints
    them. *)
Inductive LogMessage :=
| MsgCreatingStructure
| MsgProjectPath (path : jsstring)
| MsgGenerating (phase : Phase)
| MsgMayTakeAWhile
| MsgGenerated (phase : Phase) (files : nat)
| MsgCriticalMissing (phase : Phase)
| MsgPhaseFailed (phase : Phase) (message : jsstring)
| MsgFinalizing
| MsgSaving (files : nat)
| MsgCreatedManifest (path : jsstring)
| MsgAssigningPorts
| MsgPortsAssigned (frontend backend : N)
| MsgRunningTests
| MsgValidationPassed
| MsgValidationWarning (message : option jsstring)
| MsgNoServer
| MsgDone
| MsgTotal (files : nat) (lines : N)
| MsgPhasesHadErrors (failed : nat)
| MsgError (message : jsstring).

Record LogEntry := mkLogEntry {
  log_message : LogMessage;
  log_type : LogType;
}.

(** [generation.stats] *)
Record Stats := mkStats {
  backendFiles : nat;
  frontendFiles : nat;
  databaseFiles : nat;
  infraFiles : nat;
  docFiles : nat;
  totalFiles : nat;
  totalLines : N;
}.

Definition noStats : Stats := mkStats 0 0 0 0 0 0 0.

(** One element of [phaseResults]: [{ phase, ...stats }] or
    [{ phase, error }]. *)
Record PhaseResult := mkPhaseResult {
  pr_phase : Phase;
  pr_stats : option PhaseStats;
  pr_error : option jsstring;
}.

(** [finalStats] *)
Record FinalStats := mkFinalStats {
  fs_totalFiles : nat;
  fs_totalLines : N;
  fs_totalTokens : N;
  fs_phases : list PhaseResult;
}.

(** What is written to a streaming client, by the [type] of the
    event. *)
Inductive Event :=
| EvLog (log : LogEntry)
| EvPhase (phaseId : jsstring) (status : PhaseStatus) (filesGenerated : nat)
    (progress : Q) (phases : list PhaseState)
| EvStats (stats : Stats)
| EvComplete (ok : bool) (outputPath : jsstring)
    (filesGenerated : list jsstring) (stats : FinalStats)
| EvError (message : jsstring)
| EvCancelled.

(** A connected response stream. *)
Definition Client := nat.

(** One entry of [activeGenerations]. *)
Record Generation := mkGeneration {
  gen_status : jsstring;
  gen_clients : list Client;
  gen_phases : list PhaseState;
  gen_progress : Q;
  gen_logs : list LogEntry;
  gen_stats : Stats;
}.

(** The entry created when a generation is accepted. *)
Definition newGeneration : Generation :=
  mkGeneration js:"generating" [] initialPhases 0%Q [] noStats.

(** The progress value of [updatePhase]: the [forEach] that sums the
    weights, then [Math.min(100, completedWeight + inProgressWeight)]. *)
Definition sumWeights (phases : list PhaseState) : Q * Q :=
  foldl (fun '(completedWeight, inProgressWeight) p =>
           match ph_status p with
           | completed => ((completedWeight + ph_weight p)%Q, inProgressWeight)
           | in_progress =>
               (completedWeight, (inProgressWeight + ph_weight p * 0.5)%Q)
           | _ => (completedWeight, inProgressWeight)
           end)
        (0%Q, 0%Q) phases.

Definition computeProgress (phases : list PhaseState) : Q :=
  let '(completedWeight, inProgressWeight) := sumWeights phases in
  Qmin 100 (completedWeight + inProgressWeight).

(** [phase.status = status; if (filesCount > 0) phase.filesGenerated =
    filesCount] on the first phase with the given id. *)
Fixpoint setPhase (phaseId : jsstring) (status : PhaseStatus)
  (filesCount : nat) (phases : list PhaseState)
  : option (list PhaseState) :=
  match phases with
  | [] => None
  | p :: rest =>
      if bool_decide (ph_id p = phaseId) then
        Some (mkPhaseState (ph_id p) (ph_label p) (ph_weight p) status
                (if (0 <? filesCount)%nat then filesCount
                 else ph_filesGenerated p)
              :: rest)
      else cons p <$> setPhase phaseId status filesCount rest
  end.

End Progress.

(* ===================================================================== *)
(** ** The state of the backend process                                   *)
(* ===================================================================== *)

(** The module-level maps of the backend together with the files they
    are written through to, the disk and the streams of the connected
    clients. *)
Record World := mkWorld {
  (** [projects] of Project.js *)
  projects : Project.Store;
  (** [activeGenerations] of generate.js *)
  activeGenerations : gmap jsstring Progress.Generation;
  (** [port-assignments.json] *)
  portAssignments : PortManager.Store;
  (** [runningApps] of deploymentManager.js *)
  runningApps : gset jsstring;
  (** the files under [generated-apps] *)
  disk : FileSystem.Disk;
  (** every [client.write], oldest first *)
  sent : list (Progress.Client * Progress.Event);
  (** the sessions whose removal [setTimeout] has scheduled *)
  timers : list jsstring;
}.

Definition emptyWorld : World := mkWorld ∅ ∅ [] ∅ ∅ [] [].

(* ===================================================================== *)
(** ** generate.js: the batch orchestrator                                *)
(* ===================================================================== *)

Module Generate.
Import MultiFileGenerator Progress.

(** An asynchronous function of the backend: it changes the world and
    either returns or throws an error, kept as its message. *)
Definition Run (A : Type) : Type := World -> (jsstring + A) * World.

#[export] Instance Run_ret : MRet Run := fun A a w => (inr a, w).
#[export] Instance Run_bind : MBind Run := fun A B f m w =>
  match m w with
  | (inr a, w') => f a w'
  | (inl e, w') => (inl e, w')
  end.

Definition throw {A} (e : jsstring) : Run A := fun w => (inl e, w).

(** [try { body } catch (error) { handler(error.message) }] *)
Definition tryCatch {A} (body : Run A) (handler : jsstring -> Run A) : Run A :=
  fun w =>
    match body w with
    | (inr a, w') => (inr a, w')
    | (inl e, w') => handler e w'
    end.

Definition withProjects (f : Project.Store -> Project.Store) : Run unit :=
  fun w => (inr tt, mkWorld (f (projects w)) (activeGenerations w)
                      (portAssignments w) (runningApps w) (disk w) (sent w)
                      (timers w)).

Definition withGenerations
  (f : gmap jsstring Generation -> gmap jsstring Generation) : Run unit :=
  fun w => (inr tt, mkWorld (projects w) (f (activeGenerations w))
                      (portAssignments w) (runningApps w) (disk w) (sent w)
                      (timers w)).

Definition withPorts (f : PortManager.Store -> PortManager.Store) : Run unit :=
  fun w => (inr tt, mkWorld (projects w) (activeGenerations w)
                      (f (portAssignments w)) (runningApps w) (disk w) (sent w)
                      (timers w)).

Definition write (c : Client) (ev : Event) : Run unit :=
  fun w => (inr tt, mkWorld (projects w) (activeGenerations w)
                      (portAssignments w) (runningApps w) (disk w)
                      (sent w ++ [(c, ev)]) (timers w)).

Definition setTimeout (projectId : jsstring) : Run unit :=
  fun w => (inr tt, mkWorld (projects w) (activeGenerations w)
                      (portAssignments w) (runningApps w) (disk w) (sent w)
                      (timers w ++ [projectId])).

(** A file-system action, run on the disk of the world. *)
Definition onDisk {A} (m : FileSystem.FS A) : Run A :=
  fun w =>
    let '(r, d) := m (disk w) in
    (r, mkWorld (projects w) (activeGenerations w) (portAssignments w)
          (runningApps w) d (sent w) (timers w)).

Fixpoint forEach {A} (body : A -> Run unit) (l : list A) : Run unit :=
  match l with
  | [] => mret tt
  | a :: l' => body a;; forEach body l'
  end.

(** [activeGenerations.get(projectId)] *)
Definition getGeneration (projectId : jsstring) : Run (option Generation) :=
  fun w => (inr (activeGenerations w !! projectId), w).

(** [sendProgressUpdate(projectId, eventData)] *)
Definition sendProgressUpdate (projectId : jsstring) (eventData : Event)
  : Run unit :=
  generation ← getGeneration projectId;
  match generation with
  | Some g => forEach (fun client => write client eventData) (gen_clients g)
  | None => mret tt
  end.

(** [addLog(projectId, message, type)] *)
Definition addLog (projectId : jsstring) (message : LogMessage)
  (type : LogType) : Run unit :=
  generation ← getGeneration projectId;
  match generation with
  | Some g =>
      let logEntry := mkLogEntry message type in
      withGenerations
        <[projectId := mkGeneration (gen_status g) (gen_clients g)
                         (gen_phases g) (gen_progress g)
                         (gen_logs g ++ [logEntry]) (gen_stats g)]>;;
      sendProgressUpdate projectId (EvLog logEntry)
  | None => mret tt
  end.

(** [updatePhase(projectId, phaseId, status, filesCount = 0)] *)
Definition updatePhase (projectId phaseId : jsstring) (status : PhaseStatus)
  (filesCount : nat) : Run unit :=
  generation ← getGeneration projectId;
  match generation with
  | None => mret tt
  | Some g =>
      match setPhase phaseId status filesCount (gen_phases g) with
      | None => mret tt
      | Some phases =>
          let progress := computeProgress phases in
          withGenerations
            <[projectId := mkGeneration (gen_status g) (gen_clients g) phases
                             progress (gen_logs g) (gen_stats g)]>;;
          sendProgressUpdate projectId
            (EvPhase phaseId status filesCount progress phases)
      end
  end.

(** [updateStats(projectId, updates)]; [updates] is given as the effect
    of [Object.assign(generation.stats, updates)]. *)
Definition updateStats (projectId : jsstring) (updates : Stats -> Stats)
  : Run unit :=
  generation ← getGeneration projectId;
  match generation with
  | Some g =>
      let stats := updates (gen_stats g) in
      withGenerations
        <[projectId := mkGeneration (gen_status g) (gen_clients g)
                         (gen_phases g) (gen_progress g) (gen_logs g) stats]>;;
      sendProgressUpdate projectId (EvStats stats)
  | None => mret tt
  end.

(** [updateProject(projectId, updates)] *)
Definition updateProject (projectId : jsstring) (u : Project.Updates)
  : Run unit :=
  withProjects (fun ps => Project.updateProject ps projectId u).

(** [assignPorts(projectId, name)]: the only failure is that of writing
    the assignment file. *)
Definition assignPorts (env : Env) (projectId name : jsstring)
  : Run PortManager.Assignment :=
  fun w =>
    let '(a, s) :=
      PortManager.assignPorts (portAssignments w) projectId name (isoNow env) in
    match PortManager.findAssignment (portAssignments w) projectId,
          portStoreError env with
    | None, Some e => (inl e, w)
    | _, _ => (withPorts (fun _ => s);; mret a) w
    end.

(** The result of [runBatchGeneration]. *)
Record BatchResult := mkBatchResult {
  res_success : bool;
  res_error : option jsstring;
  res_outputPath : option jsstring;
  res_filesGenerated : list jsstring;
  res_phaseResults : list PhaseResult;
  res_testResults : option Project.TestResult;
}.

(** The local variables [allFiles] and [phaseResults]. *)
Record Locals := mkLocals {
  allFiles : FileMap;
  phaseResults : list PhaseResult;
}.

(** [p.lines || 0], [p.inputTokens || 0], [p.outputTokens || 0] *)
Definition linesOf (p : PhaseResult) : N :=
  from_option ps_lines 0 (pr_stats p).
Definition tokensOf (p : PhaseResult) : N :=
  from_option (fun s => ps_inputTokens s + ps_outputTokens s) 0 (pr_stats p).

Definition sumLines (results : list PhaseResult) : N :=
  foldl (fun sum p => sum + linesOf p) 0 results.
Definition sumTokens (results : list PhaseResult) : N :=
  foldl (fun sum p => sum + tokensOf p) 0 results.

(** What differs between the five content-phase blocks: the file whose
    absence is warned about, whether the second waiting line is logged,
    and the fields of the [updateStats] call, given the number of files
    of the phase, the size of [allFiles], the lines of the phase and
    [phaseResults]. *)
Record Block := mkBlock {
  blk_phase : Phase;
  blk_waits : bool;
  blk_critical : option jsstring;
  blk_stats : nat -> nat -> N -> list PhaseResult -> Stats -> Stats;
}.

Definition backendBlock : Block :=
  mkBlock BACKEND true (Some js:"server.js")
    (fun n total lines _ s =>
       mkStats n (frontendFiles s) (databaseFiles s) (infraFiles s)
         (docFiles s) total lines).

Definition frontendBlock : Block :=
  mkBlock FRONTEND true (Some js:"layout.tsx")
    (fun n total _ results s =>
       mkStats (backendFiles s) n (databaseFiles s) (infraFiles s)
         (docFiles s) total (sumLines results)).

Definition databaseBlock : Block :=
  mkBlock DATABASE false None
    (fun n total _ _ s =>
       mkStats (backendFiles s) (frontendFiles s) n (infraFiles s)
         (docFiles s) total (totalLines s)).

Definition infrastructureBlock : Block :=
  mkBlock INFRASTRUCTURE false None
    (fun n total _ _ s =>
       mkStats (backendFiles s) (frontendFiles s) (databaseFiles s) n
         (docFiles s) total (totalLines s)).

Definition documentationBlock : Block :=
  mkBlock DOCUMENTATION false None
    (fun n total _ _ s =>
       mkStats (backendFiles s) (frontendFiles s) (databaseFiles s)
         (infraFiles s) n total (totalLines s)).

(** The content phases in the order the orchestrator runs them. *)
Definition contentBlocks : list Block :=
  [backendBlock; frontendBlock; databaseBlock; infrastructureBlock;
   documentationBlock].

(** One content phase: the phase is announced, generated inside its own
    [try], and on an error marked failed; the next statement of the
    orchestrator runs either way. *)
Definition runBlock (env : Env) (projectId : jsstring) (config : Config)
  (b : Block) (l : Locals) : Run Locals :=
  let phaseId := phaseName (blk_phase b) in
  updatePhase projectId phaseId in_progress 0;;
  addLog projectId (MsgGenerating (blk_phase b)) thinking;;
  (if blk_waits b then addLog projectId MsgMayTakeAWhile info else mret tt);;
  tryCatch
    (match generateSinglePhase env (blk_phase b) config with
     | inl e => throw e
     | inr result =>
         let files := (map_to_list (out_files result)).*1 in
         (* Object.assign(allFiles, result.files) *)
         let allFiles' := out_files result ∪ allFiles l in
         let phaseResults' :=
           phaseResults l
             ++ [mkPhaseResult (blk_phase b) (Some (out_stats result)) None] in
         addLog projectId (MsgGenerated (blk_phase b) (length files)) success;;
         match blk_critical b with
         | Some needle =>
             if existsb (JS.includes needle) files then mret tt
             else addLog projectId (MsgCriticalMissing (blk_phase b)) warning
         | None => mret tt
         end;;
         updateStats projectId
           (blk_stats b (length files) (size allFiles')
              (ps_lines (out_stats result)) phaseResults');;
         updatePhase projectId phaseId completed (length files);;
         mret (mkLocals allFiles' phaseResults')
     end)
    (fun message =>
       addLog projectId (MsgPhaseFailed (blk_phase b) message) error;;
       updatePhase projectId phaseId failed 0;;
       mret (mkLocals (allFiles l)
               (phaseResults l
                  ++ [mkPhaseResult (blk_phase b) None (Some message)]))).

Fixpoint runBlocks (env : Env) (projectId : jsstring) (config : Config)
  (blocks : list Block) (l : Locals) : Run Locals :=
  match blocks with
  | [] => mret l
  | b :: rest =>
      l' ← runBlock env projectId config b l;
      runBlocks env projectId config rest l'
  end.

(** [phaseResults.filter((p) => p.error)] *)
Definition failedPhases (results : list PhaseResult) : list PhaseResult :=
  List.filter (fun p => from_option JS.truthyString false (pr_error p)) results.

(** The conditional expression that picks [finalStatus]. *)
Definition finalStatus (results : list PhaseResult) (testSuccess : bool)
  : jsstring :=
  if (length (failedPhases results) =? 0)%nat && testSuccess
  then Project.DEPLOYED
  else if (length (failedPhases results) =? length results)%nat
       then Project.FAILED
       else Project.DEPLOYED.

(** [failedPhases.length > 0 ? `${failedPhases.length} phase(s) had
    errors` : null] *)
Definition finalError (results : list PhaseResult) : option jsstring :=
  if (0 <? length (failedPhases results))%nat
  then Some (JS.numberToString (N.of_nat (length (failedPhases results)))
             ++ js:" phase(s) had errors")
  else None.

Definition NO_FILES : jsstring :=
  js:"No files were generated across all phases".

Section WithRuntime.
Context {rt : Runtime}.

(** The [try] block of [runBatchGeneration], in its three stretches.

    Phase 0: the folder structure is created. *)
Definition setupPhase (env : Env) (projectId : jsstring) (config : Config)
  : Run (jsstring * jsstring) :=
  updatePhase projectId js:"setup" in_progress 0;;
  addLog projectId MsgCreatingStructure info;;
  '(projectPath, projectSlug) ←
    onDisk (FileSystem.createProjectStructure env projectId (cfg_name config));
  addLog projectId (MsgProjectPath projectPath) info;;
  updatePhase projectId js:"setup" completed 0;;
  mret (projectPath, projectSlug).

(** Phase 6, finalizing, statement by statement.

    [if (!generatedFilePaths.some((f) => f === manifest)) { ... }]: a
    default manifest is written when the model produced none. *)
Definition ensureManifest (env : Env) (projectId : jsstring) (config : Config)
  (projectPath : jsstring) (allFiles : FileMap) (backend : bool)
  (savedFiles : list jsstring) : Run (list jsstring) :=
  let manifest :=
    if backend then js:"backend/package.json" else js:"frontend/package.json" in
  if bool_decide (is_Some (allFiles !! manifest)) then mret savedFiles
  else
    onDisk (if backend
            then FileSystem.createBackendPackageJson env projectPath
                   (cfg_name config)
            else FileSystem.createFrontendPackageJson env projectPath
                   (cfg_name config));;
    addLog projectId (MsgCreatedManifest manifest) info;;
    mret (savedFiles ++ [manifest]).

(** Ports are assigned and the two environment files written. *)
Definition writeEnvFiles (env : Env) (projectId : jsstring) (config : Config)
  (projectPath : jsstring) : Run PortManager.Assignment :=
  addLog projectId MsgAssigningPorts info;;
  ports ← assignPorts env projectId (cfg_name config);
  onDisk (FileSystem.writeFile env
            (Path.join projectPath js:"backend/.env")
            (FileSystem.BackendEnv ports (FileSystem.slugify (cfg_name config))
               projectId));;
  onDisk (FileSystem.writeFile env
            (Path.join projectPath js:"frontend/.env.local")
            (FileSystem.FrontendEnv ports));;
  addLog projectId
    (MsgPortsAssigned (PortManager.frontend ports) (PortManager.backend ports))
    success;;
  mret ports.

(** [savedFiles.find((f) => f.endsWith("server.js") ||
    f.includes("backend/src/server.js"))] *)
Definition findServerFile (savedFiles : list jsstring) : option jsstring :=
  List.find (fun f => JS.endsWith js:"server.js" f
                      || JS.includes js:"backend/src/server.js" f)
            savedFiles.

(** The smoke test of the main server file, if there is one; without
    one the test counts as passed. *)
Definition smokeTest (env : Env) (projectId projectPath : jsstring)
  (savedFiles : list jsstring) : Run Project.TestResult :=
  match findServerFile savedFiles with
  | Some serverFile =>
      addLog projectId MsgRunningTests thinking;;
      match testCode env (Path.join projectPath serverFile) with
      | inl e => throw e
      | inr testResult =>
          (if Project.test_success testResult
           then addLog projectId MsgValidationPassed success
           else addLog projectId
                  (MsgValidationWarning (Project.test_error testResult))
                  warning);;
          mret testResult
      end
  | None =>
      addLog projectId MsgNoServer info;;
      mret (Project.mkTestResult true None)
  end.

(** The final status is determined and stored, the completion event
    sent, and the removal of the session scheduled. *)
Definition conclude (projectId projectPath : jsstring)
  (savedFiles : list jsstring) (finalStats : FinalStats)
  (testResult : Project.TestResult) : Run BatchResult :=
  let phaseResults := fs_phases finalStats in
  let totalLines := fs_totalLines finalStats in
  let status := finalStatus phaseResults (Project.test_success testResult) in
  updateProject projectId
    (Project.mkUpdates (Some status) None None None None (Some testResult)
       (Some (finalError phaseResults)) None);;
  addLog projectId MsgDone success;;
  addLog projectId (MsgTotal (length savedFiles) totalLines) success;;
  (if (0 <? length (failedPhases phaseResults))%nat
   then addLog projectId
          (MsgPhasesHadErrors (length (failedPhases phaseResults))) warning
   else mret tt);;
  sendProgressUpdate projectId
    (EvComplete (bool_decide (status = Project.DEPLOYED)) projectPath
       savedFiles finalStats);;
  setTimeout projectId;;
  mret (mkBatchResult (bool_decide (status = Project.DEPLOYED)) None
          (Some projectPath) savedFiles phaseResults (Some testResult)).

(** Phase 6 as a whole. *)
Definition finalizePhase (env : Env) (projectId : jsstring) (config : Config)
  (projectPath projectSlug : jsstring) (l : Locals) : Run BatchResult :=
  let allFiles := allFiles l in
  let phaseResults := phaseResults l in
  updatePhase projectId js:"finalizing" in_progress 0;;
  addLog projectId MsgFinalizing thinking;;
  (if bool_decide (size allFiles = 0%nat) then throw NO_FILES else mret tt);;
  addLog projectId (MsgSaving (size allFiles)) info;;
  savedFiles ← onDisk (FileSystem.saveMultipleFiles env projectPath allFiles);
  savedFiles ←
    ensureManifest env projectId config projectPath allFiles true savedFiles;
  savedFiles ←
    ensureManifest env projectId config projectPath allFiles false savedFiles;
  ports ← writeEnvFiles env projectId config projectPath;
  let savedFiles := savedFiles ++ [js:"backend/.env"; js:"frontend/.env.local"] in
  let finalStats :=
    mkFinalStats (length savedFiles) (sumLines phaseResults)
      (sumTokens phaseResults) phaseResults in
  onDisk (FileSystem.saveProjectMetadata env projectId projectSlug
            (FileSystem.Metadata projectId projectSlug (cfg_name config)
               savedFiles (fs_totalLines finalStats)
               (fs_totalTokens finalStats)));;
  let savedFiles := savedFiles ++ [js:"project.json"] in
  updateProject projectId
    (Project.mkUpdates (Some Project.TESTING) None (Some projectSlug)
       (Some projectPath) (Some savedFiles) None None (Some ports));;
  testResult ← smokeTest env projectId projectPath savedFiles;
  updatePhase projectId js:"finalizing" completed 0;;
  conclude projectId projectPath savedFiles finalStats testResult.

(** The [try] block as a whole: setup, the five content phases, and the
    finalizing phase. *)
Definition runBatchBody (env : Env) (projectId : jsstring) (config : Config)
  : Run BatchResult :=
  '(projectPath, projectSlug) ← setupPhase env projectId config;
  l ← runBlocks env projectId config contentBlocks (mkLocals ∅ []);
  finalizePhase env projectId config projectPath projectSlug l.

(** The [catch] block of [runBatchGeneration]. *)
Definition runBatchCatch (projectId message : jsstring) : Run BatchResult :=
  addLog projectId (MsgError message) error;;
  updateProject projectId
    (Project.mkUpdates (Some Project.FAILED) None None None None None
       (Some (Some message)) None);;
  sendProgressUpdate projectId (EvError message);;
  withGenerations (delete projectId);;
  mret (mkBatchResult false (Some message) None [] [] None).

(** [runBatchGeneration(projectId, config)] *)
Definition runBatchGeneration (env : Env) (projectId : jsstring)
  (config : Config) : Run BatchResult :=
  tryCatch (runBatchBody env projectId config) (runBatchCatch projectId).

End WithRuntime.

(** *** Route handlers *)

(** The HTTP status of a response. *)
Inductive Response := Ok200 | Accepted202 | BadRequest400 | NotFound404
                    | Conflict409.

(** [POST /api/generate] up to the response: the project enters
    [generating] and its session is created.  [prompt] is the optional
    prompt of the request; the request carries no [config] of its own,
    so the configuration is the one stored with the project. *)
Definition startGeneration (projectId : jsstring) (prompt : option jsstring)
  (w : World) : Response * option Config * World :=
  match Project.getProjectById (projects w) projectId with
  | None => (NotFound404, None, w)
  | Some project =>
      if bool_decide (Project.status project = Project.GENERATING)
      then (Conflict409, None, w)
      else
        let description :=
          match prompt with
          | Some p => if JS.truthyString p then p else Project.description project
          | None => Project.description project
          end in
        let generationConfig :=
          mkConfig (Project.name project) description
            (Project.features project) (Project.multiTenant project)
            (if JS.truthyString (Project.authentication project)
             then Project.authentication project else js:"basic") in
        let '(_, w') :=
          (updateProject projectId
             (Project.mkUpdates (Some Project.GENERATING) (Some description)
                None None None None None None);;
           withGenerations <[projectId := newGeneration]>) w in
        (Accepted202, Some generationConfig, w')
  end.

(** [GET /api/generate/:projectId/stream]: the client joins the session,
    which is created if there is none. *)
Definition subscribe (projectId : jsstring) (client : Client) (w : World)
  : Response * World :=
  match Project.getProjectById (projects w) projectId with
  | None => (NotFound404, w)
  | Some project =>
      let generation :=
        match activeGenerations w !! projectId with
        | Some g => g
        | None =>
            mkGeneration
              (if bool_decide (Project.status project = Project.GENERATING)
               then js:"generating" else js:"idle")
              [] initialPhases 0%Q [] noStats
        end in
      let generation' :=
        mkGeneration (gen_status generation)
          (gen_clients generation ++ [client]) (gen_phases generation)
          (gen_progress generation) (gen_logs generation)
          (gen_stats generation) in
      (Ok200, snd (withGenerations <[projectId := generation']> w))
  end.

(** The [close] handler of a stream. *)
Definition unsubscribe (projectId : jsstring) (client : Client) (w : World)
  : World :=
  match activeGenerations w !! projectId with
  | Some g =>
      snd (withGenerations
             <[projectId := mkGeneration (gen_status g)
                              (List.filter (fun c => negb (bool_decide (c = client)))
                                 (gen_clients g))
                              (gen_phases g) (gen_progress g) (gen_logs g)
                              (gen_stats g)]> w)
  | None => w
  end.

(** [POST /api/generate/:projectId/cancel] *)
Definition cancel (projectId : jsstring) (w : World) : Response * World :=
  match Project.getProjectById (projects w) projectId with
  | None => (NotFound404, w)
  | Some project =>
      if negb (bool_decide (Project.status project = Project.GENERATING))
      then (BadRequest400, w)
      else
        (Ok200,
         snd ((sendProgressUpdate projectId EvCancelled;;
               withGenerations (delete projectId);;
               updateProject projectId
                 (Project.mkUpdates (Some Project.DRAFT) None None None None
                    None (Some (Some js:"Generation cancelled by user")) None))
                w))
  end.

(** The callback of [setTimeout(..., 5000)]. *)
Definition expire (projectId : jsstring) (w : World) : World :=
  snd (withGenerations (delete projectId) w).

End Generate.

(* ===================================================================== *)
(** ** deploymentManager.js                                               *)
(* ===================================================================== *)

Module DeploymentManager.
Import Generate.

Definition STOPPED : jsstring := js:"stopped".

Definition withRunningApps (f : gset jsstring -> gset jsstring) : Run unit :=
  fun w => (inr tt, mkWorld (projects w) (activeGenerations w)
                      (portAssignments w) (f (runningApps w)) (disk w) (sent w)
                      (timers w)).

(** The outcome of [deployLocal]. *)
Inductive Deployed := AlreadyRunning | DeployedSuccessfully.

(** [deployLocal(projectId)].  [installError] is the error of the two
    [npm install] commands, if one fails. *)
Definition deployLocal (installError : option jsstring) (projectId : jsstring)
  : Run Deployed :=
  fun w =>
    match Project.getProjectById (projects w) projectId with
    | None => (inl js:"Project not found", w)
    | Some project =>
        match PortManager.getAssignment (portAssignments w) projectId with
        | None => (inl js:"No ports assigned to project", w)
        | Some ports =>
            if bool_decide (projectId ∈ runningApps w)
            then (inr AlreadyRunning, w)
            else
              match installError with
              | Some e => (inl e, w)
              | None =>
                  (withRunningApps (fun apps => {[projectId]} ∪ apps);;
                   updateProject projectId
                     (Project.mkUpdates (Some Project.DEPLOYED) None None None
                        None None None None);;
                   mret DeployedSuccessfully) w
              end
        end
    end.

(** The [exit] handler of the backend process. *)
Definition backendExited (projectId : jsstring) (w : World) : World :=
  snd (withRunningApps (fun apps => apps ∖ {[projectId]}) w).

(** [stopApp(projectId)]: [true] when an app was stopped. *)
Definition stopApp (projectId : jsstring) (w : World) : bool * World :=
  if bool_decide (projectId ∈ runningApps w) then
    (true,
     snd ((withRunningApps (fun apps => apps ∖ {[projectId]});;
           updateProject projectId
             (Project.mkUpdates (Some STOPPED) None None None None None None
                None)) w))
  else (false, w).

End DeploymentManager.

(* ===================================================================== *)
(** ** The operations of the platform                                     *)
(* ===================================================================== *)

Module Platform.
Import Generate.

(** [deleteProject(id)] of Project.js: the record, the folder of
    generated files and the port assignment go. *)
Definition deleteProject (projectId : jsstring) (w : World) : bool * World :=
  match projects w !! projectId with
  | None => (false, w)
  | Some project =>
      let disk' :=
        match Project.outputPath project with
        | Some dir =>
            filter (fun '(path, _) => ~ (dir ++ js:"/") `prefix_of` path)
                   (disk w)
        | None => disk w
        end in
      (true,
       mkWorld (delete projectId (projects w)) (activeGenerations w)
         (PortManager.releasePorts (portAssignments w) projectId)
         (runningApps w) disk' (sent w) (timers w))
  end.

(** One request or event handled by the backend. *)
Inductive Op :=
| OpCreate (newId : jsstring) (data : Project.Data)
| OpStart (projectId : jsstring) (prompt : option jsstring)
| OpRun (env : Env) (projectId : jsstring) (config : Config)
| OpSubscribe (projectId : jsstring) (client : Progress.Client)
| OpUnsubscribe (projectId : jsstring) (client : Progress.Client)
| OpCancel (projectId : jsstring)
| OpExpire (projectId : jsstring)
| OpDeploy (installError : option jsstring) (projectId : jsstring)
| OpBackendExited (projectId : jsstring)
| OpStop (projectId : jsstring)
| OpDelete (projectId : jsstring).

Section WithRuntime.
Context {rt : Runtime}.

Definition step (op : Op) (w : World) : World :=
  match op with
  | OpCreate newId data =>
      mkWorld (snd (Project.createProject (projects w) newId data))
        (activeGenerations w) (portAssignments w) (runningApps w) (disk w)
        (sent w) (timers w)
  | OpStart projectId prompt => snd (startGeneration projectId prompt w)
  | OpRun env projectId config => snd (runBatchGeneration env projectId config w)
  | OpSubscribe projectId client => snd (subscribe projectId client w)
  | OpUnsubscribe projectId client => unsubscribe projectId client w
  | OpCancel projectId => snd (cancel projectId w)
  | OpExpire projectId => expire projectId w
  | OpDeploy installError projectId =>
      snd (DeploymentManager.deployLocal installError projectId w)
  | OpBackendExited projectId => DeploymentManager.backendExited projectId w
  | OpStop projectId => snd (DeploymentManager.stopApp projectId w)
  | OpDelete projectId => snd (deleteProject projectId w)
  end.

(** The world after a sequence of operations, oldest first. *)
Definition run (ops : list Op) (w : World) : World :=
  foldl (fun w op => step op w) w ops.

(** The worlds the backend can be in. *)
Definition reachable (w : World) : Prop :=
  exists ops, w = run ops emptyWorld.

End WithRuntime.

End Platform.

(* ===================================================================== *)
(** ** multiFileGenerator.js: asking the model                            *)
(* ===================================================================== *)

Module PhaseGenerator.
Import MultiFileGenerator.

(** [message.content[0]] as the generator reads it: a block of type
    [text] with its text, or a block of another type. *)
Inductive ContentBlock :=
| TextBlock (text : jsstring)
| OtherBlock.

(** What [anthropic.messages.create] resolves to: the first block of
    [content], if there is one, and [usage?.input_tokens] and
    [usage?.output_tokens]. *)
Record Message := mkMessage {
  msg_content : option ContentBlock;
  msg_inputTokens : option N;
  msg_outputTokens : option N;
}.

(** The model behind the API: the answer to a request for a phase of a
    configuration (the prompt is built from these two), given the
    number of requests made before it.  A request is rejected with the
    message of an error, or resolved. *)
Definition Api := Phase -> Config -> nat -> jsstring + Message.

(** The errors thrown while a message is read. *)
Definition UNEXPECTED_RESPONSE : jsstring := js:"Unexpected response type".
Definition NO_CONTENT : jsstring :=
  js:"Cannot read properties of undefined (reading 'type')".

(** [c.split("\n").length] *)
Definition lineCount (c : jsstring) : N :=
  N.of_nat (S (length (List.filter (fun x => x =? JS.LINE_FEED) c))).

(** [Object.values(files).reduce((sum, c) => sum + c.split("\n").length, 0)]
    and the same with [c.length]. *)
Definition totalLinesOf (files : FileMap) : N :=
  foldl (fun sum entry => sum + lineCount entry.2) 0 (map_to_list files).

Definition totalCharsOf (files : FileMap) : N :=
  foldl (fun sum entry => sum + N.of_nat (length entry.2)) 0
        (map_to_list files).

(** What [generatePhase] resolves to.  [stats.phase] is the phase asked
    for. *)
Record Generated := mkGenerated {
  g_files : FileMap;
  g_stats : PhaseStats;
}.

(** [generatePhase(phase, config, retryCount)], started when [calls]
    requests have been made: the outcome and the number of requests
    made by then.  [fuel] bounds the depth of the recursion; the
    function retries only while [retryCount < 2]. *)
Fixpoint generatePhase (fuel : nat) (api : Api) (phase : Phase)
  (config : Config) (retryCount : nat) (calls : nat)
  : option ((jsstring + Generated) * nat) :=
  match fuel with
  | O => None
  | S fuel' =>
      match api phase config calls with
      | inl e => Some (inl e, S calls)
      | inr message =>
          match msg_content message with
          | None => Some (inl NO_CONTENT, S calls)
          | Some OtherBlock => Some (inl UNEXPECTED_RESPONSE, S calls)
          | Some (TextBlock text) =>
              let files := parseMultiFileResponse text in
              let validation := validatePhaseFiles phase files in
              if negb (fst validation) && (retryCount <? 2)%nat then
                generatePhase fuel' api phase config (retryCount + 1) (S calls)
              else
                let stats :=
                  mkPhaseStats (size files) (totalLinesOf files)
                    (default 0 (msg_inputTokens message))
                    (default 0 (msg_outputTokens message)) in
                Some (inr (mkGenerated files stats), S calls)
          end
      end
  end.

Section WithRuntime.
Context {rt : Runtime}.

(** [generateSinglePhase(phase, config)] *)
Definition generateSinglePhase (fuel : nat) (api : Api) (phase : Phase)
  (config : Config) (calls : nat)
  : option ((jsstring + PhaseOutput) * nat) :=
  match generatePhase fuel api phase config 0 calls with
  | None => None
  | Some (inl e, calls') => Some (inl e, calls')
  | Some (inr result, calls') =>
      let '(fixedFiles, fixes) :=
        validateAndFixFiles (g_files result) config in
      Some (inr (mkPhaseOutput fixedFiles (g_stats result) fixes), calls')
  end.

End WithRuntime.

(** *** generateMultipleFiles *)

(** An argument of [onProgress]. *)
Inductive ReportStatus :=
| Generating
| Completed
| Failed (error : jsstring).

Record Report := mkReport {
  rep_phase : Phase;
  rep_status : ReportStatus;
  (** absent from a [failed] report *)
  rep_filesGenerated : option nat;
  rep_phaseIndex : nat;
  rep_totalPhases : nat;
}.

(** An entry of [phaseStats]: the statistics of the phase, or
    [{ phase, filesGenerated: 0, error }]. *)
Record PhaseEntry := mkPhaseEntry {
  pe_phase : Phase;
  pe_outcome : jsstring + PhaseStats;
}.

(** The variables of the loop, the reports made to [onProgress] so far
    (oldest first) and the number of requests made. *)
Record Batch := mkBatch {
  b_allFiles : FileMap;
  b_phaseStats : list PhaseEntry;
  b_totalInputTokens : N;
  b_totalOutputTokens : N;
  b_reports : list Report;
  b_calls : nat;
}.

Definition phases : list Phase :=
  [BACKEND; FRONTEND; DATABASE; INFRASTRUCTURE; DOCUMENTATION].

(** One turn of the loop, for [phases[i]]. *)
Definition batchTurn (fuel : nat) (api : Api) (config : Config)
  (st : Batch) (i : nat) (phase : Phase) : option Batch :=
  let generating :=
    mkReport phase Generating (Some (size (b_allFiles st))) i (length phases) in
  match generatePhase fuel api phase config 0 (b_calls st) with
  | None => None
  | Some (inr result, calls') =>
      let allFiles := g_files result ∪ b_allFiles st in
      Some (mkBatch allFiles
              (b_phaseStats st ++ [mkPhaseEntry phase (inr (g_stats result))])
              (b_totalInputTokens st + ps_inputTokens (g_stats result))
              (b_totalOutputTokens st + ps_outputTokens (g_stats result))
              (b_reports st
                 ++ [generating;
                     mkReport phase Completed (Some (size allFiles)) i
                       (length phases)])
              calls')
  | Some (inl message, calls') =>
      Some (mkBatch (b_allFiles st)
              (b_phaseStats st ++ [mkPhaseEntry phase (inl message)])
              (b_totalInputTokens st) (b_totalOutputTokens st)
              (b_reports st
                 ++ [generating;
                     mkReport phase (Failed message) None i (length phases)])
              calls')
  end.

(** The loop from index [i] on. *)
Fixpoint batchLoop (fuel : nat) (api : Api) (config : Config)
  (st : Batch) (i : nat) (rest : list Phase) : option Batch :=
  match rest with
  | [] => Some st
  | phase :: rest' =>
      match batchTurn fuel api config st i phase with
      | None => None
      | Some st' => batchLoop fuel api config st' (S i) rest'
      end
  end.

(** [stats] of the result. *)
Record BatchStats := mkBatchStats {
  bs_totalFiles : nat;
  bs_totalLines : N;
  bs_totalChars : N;
  bs_inputTokens : N;
  bs_outputTokens : N;
  bs_phases : list PhaseEntry;
  bs_fixes : list jsstring;
  bs_filesByFolder : gmap jsstring nat;
}.

Record BatchOutput := mkBatchOutput {
  bo_files : FileMap;
  bo_stats : BatchStats;
  bo_phases : list PhaseEntry;
}.

(** [filePath.split("/")[0]] counted over the paths. *)
Definition countByFolder (paths : list jsstring) : gmap jsstring nat :=
  foldl (fun (byFolder : gmap jsstring nat) filePath =>
           let folder := default [] (head (Path.splitSlash filePath)) in
           <[folder := S (default 0%nat (byFolder !! folder))]> byFolder)
        ∅ paths.

Definition API_KEY_NOT_SET : jsstring := js:"ANTHROPIC_API_KEY is not set".

Section WithRuntime.
Context {rt : Runtime}.

(** [generateMultipleFiles(config, onProgress)] for an [onProgress] that
    returns: the outcome, what was reported, and the number of requests
    made.  [apiKey] is [process.env.ANTHROPIC_API_KEY]. *)
Definition generateMultipleFiles (fuel : nat) (api : Api)
  (apiKey : option jsstring) (config : Config) (calls : nat)
  : option ((jsstring + BatchOutput) * list Report * nat) :=
  if negb (from_option JS.truthyString false apiKey)
  then Some (inl API_KEY_NOT_SET, [], calls)
  else
    match batchLoop fuel api config (mkBatch ∅ [] 0 0 [] calls) 0 phases with
    | None => None
    | Some st =>
        let '(fixedFiles, fixes) :=
          validateAndFixFiles (b_allFiles st) config in
        let stats :=
          mkBatchStats (size fixedFiles) (totalLinesOf fixedFiles)
            (totalCharsOf fixedFiles) (b_totalInputTokens st)
            (b_totalOutputTokens st) (b_phaseStats st) fixes
            (countByFolder (map_to_list fixedFiles).*1) in
        Some (inr (mkBatchOutput fixedFiles stats (b_phaseStats st)),
              b_reports st, b_calls st)
    end.

End WithRuntime.

End PhaseGenerator.

(* ===================================================================== *)
(** ** A runtime to run examples with                                     *)
(* ===================================================================== *)

(** A small instance of [Runtime], used where a property is exercised on
    concrete input: JSON text without white space or escape sequences,
    numbers written as natural numbers, and lower-casing of the letters
    A to Z. *)
Module Sample.
Import Value.

Definition lowerChar (c : N) : N :=
  if (65 <=? c) && (c <=? 90) then c + 32 else c.

Definition isDigit (c : N) : bool := (48 <=? c) && (c <=? 57).

Definition printNumber (q : Q) : jsstring :=
  match Qnum q, Qden q with
  | Zpos n, 1%positive => JS.numberToString (Npos n)
  | Z0, _ => js:"0"
  | _, _ => js:"null"
  end.

Definition quoted (s : jsstring) : jsstring :=
  JS.QUOTATION :: s ++ [JS.QUOTATION].

Fixpoint stringify (v : jsval) : jsstring :=
  match v with
  | VNull => js:"null"
  | VBool true => js:"true"
  | VBool false => js:"false"
  | VNum q => printNumber q
  | VStr s => quoted s
  | VArr elems _ =>
      js:"["
      ++ (fix items (l : list jsval) : jsstring :=
            match l with
            | [] => []
            | [x] => stringify x
            | x :: l' => stringify x ++ js:"," ++ items l'
            end) elems
      ++ js:"]"
  | VObj props =>
      js:"{"
      ++ (fix members (l : list (jsstring * jsval)) : jsstring :=
            match l with
            | [] => []
            | [(k, x)] => quoted k ++ js:":" ++ stringify x
            | (k, x) :: l' =>
                quoted k ++ js:":" ++ stringify x ++ js:"," ++ members l'
            end) props
      ++ js:"}"
  end.

Definition readNumber (s : jsstring) : Q * jsstring :=
  let '(digits, rest) := JS.span isDigit s in
  (inject_Z (Z.of_N (foldl (fun n d => 10 * n + (d - 48)) 0 digits)), rest).

Definition readString (s : jsstring) : option (jsstring * jsstring) :=
  let '(chars, rest) := JS.span (fun c => negb (c =? JS.QUOTATION)) s in
  match rest with
  | _ :: rest' => Some (chars, rest')
  | [] => None
  end.

(** Recursive descent; every call spends one unit of [fuel]. *)
Fixpoint parseValue (fuel : nat) (s : jsstring) : option (jsval * jsstring) :=
  match fuel with
  | O => None
  | S f =>
      match s with
      | [] => None
      | c :: s' =>
          if c =? JS.QUOTATION then
            match readString s' with
            | Some (chars, rest) => Some (VStr chars, rest)
            | None => None
            end
          else if isDigit c then
            let '(q, rest) := readNumber s in Some (VNum q, rest)
          else if c =? 91 then
            match s' with
            | 93 :: rest => Some (VArr [] [], rest)
            | _ => parseElems f s' []
            end
          else if c =? 123 then
            match s' with
            | 125 :: rest => Some (VObj [], rest)
            | _ => parseMembers f s' []
            end
          else
            match JS.stripPrefix js:"null" s, JS.stripPrefix js:"true" s,
                  JS.stripPrefix js:"false" s with
            | Some rest, _, _ => Some (VNull, rest)
            | _, Some rest, _ => Some (VBool true, rest)
            | _, _, Some rest => Some (VBool false, rest)
            | _, _, _ => None
            end
      end
  end
with parseElems (fuel : nat) (s : jsstring) (acc : list jsval)
  : option (jsval * jsstring) :=
  match fuel with
  | O => None
  | S f =>
      match parseValue f s with
      | Some (x, 44 :: rest) => parseElems f rest (acc ++ [x])
      | Some (x, 93 :: rest) => Some (VArr (acc ++ [x]) [], rest)
      | _ => None
      end
  end
with parseMembers (fuel : nat) (s : jsstring) (acc : list (jsstring * jsval))
  : option (jsval * jsstring) :=
  match fuel with
  | O => None
  | S f =>
      match s with
      | 34 :: s1 =>
          match readString s1 with
          | Some (k, 58 :: s2) =>
              match parseValue f s2 with
              | Some (x, 44 :: rest) => parseMembers f rest (setOwn k x acc)
              | Some (x, 125 :: rest) => Some (VObj (setOwn k x acc), rest)
              | _ => None
              end
          | _ => None
          end
      | _ => None
      end
  end.

Definition parse (s : jsstring) : option jsval :=
  match parseValue (S (length s)) s with
  | Some (v, []) => Some v
  | _ => None
  end.

#[export] Instance runtime : Runtime := {|
  JSON_parse := parse;
  JSON_stringify := stringify;
  toLowerCase := fmap lowerChar;
|}.

End Sample.

(* ===================================================================== *)
(** ** Example projects, environments and worlds                          *)
(* ===================================================================== *)

Module Example.
Import MultiFileGenerator Progress Generate.

Definition config : Config :=
  mkConfig js:"my shop" js:"a web shop" [] false js:"basic".

Definition data : Project.Data :=
  Project.mkData js:"my shop" js:"a web shop" [] false js:"basic".

(** An environment in which the disk and the port store work unless
    [writeError] says otherwise, and the smoke test answers
    [testSuccess]. *)
Definition env
  (generate : Phase -> jsstring + PhaseOutput)
  (writeError : jsstring -> option jsstring) (testSuccess : bool) : Env :=
  {| GENERATED_APPS_PATH := js:"/srv/generated-apps";
     mkdirError := fun _ => None;
     writeError := writeError;
     generateSinglePhase := fun phase _ => generate phase;
     portStoreError := None;
     testCode := fun _ =>
       inr (Project.mkTestResult testSuccess
              (if testSuccess then None else Some js:"health check failed"));
     isoNow := js:"2024-01-01T00:00:00.000Z" |}.

Definition output (files : list (jsstring * jsstring)) : PhaseOutput :=
  mkPhaseOutput (list_to_map files)
    (mkPhaseStats (length files) (N.of_nat (length files)) 100 200) [].

(** Every phase produces one file. *)
Definition allSucceed (phase : Phase) : jsstring + PhaseOutput :=
  match phase with
  | BACKEND => inr (output [(js:"backend/src/server.js", js:"listen()")])
  | FRONTEND => inr (output [(js:"frontend/app/page.tsx", js:"<main/>")])
  | DATABASE => inr (output [(js:"database/schema.sql", js:"CREATE")])
  | INFRASTRUCTURE => inr (output [(js:"docker-compose.yml", js:"services:")])
  | DOCUMENTATION => inr (output [(js:"README.md", js:"# shop")])
  end.

(** The backend phase throws, the others produce one file each. *)
Definition backendThrows (phase : Phase) : jsstring + PhaseOutput :=
  match phase with
  | BACKEND => inl js:"rate limited"
  | _ => allSucceed phase
  end.

(** Every phase throws. *)
Definition allThrow (phase : Phase) : jsstring + PhaseOutput :=
  inl js:"rate limited".

(** No phase throws and none produces a file. *)
Definition allEmpty (phase : Phase) : jsstring + PhaseOutput :=
  inr (output []).

Definition diskWorks (path : jsstring) : option jsstring := None.

(** Writing the schema fails. *)
Definition schemaUnwritable (path : jsstring) : option jsstring :=
  if JS.endsWith js:"schema.sql" path then Some js:"ENOSPC" else None.

(** Project [p1] was created, its generation accepted, and a client
    numbered 7 listens to the stream. *)
Definition accepted : World :=
  Platform.run (rt := Sample.runtime)
    [Platform.OpCreate js:"p1" data;
     Platform.OpStart js:"p1" None;
     Platform.OpSubscribe js:"p1" 7%nat]
    emptyWorld.

(** Two files without white space at the ends of their contents. *)
Definition twoFiles : FileMap :=
  {[ js:"backend/src/a.js" := js:"x = 1;"; js:"README.md" := js:"# Title" ]}.

(** A text file that ends with a line feed. *)
Definition readme : FileMap :=
  {[ js:"README.md" := js:"# Title" ++ [JS.LINE_FEED] ]}.

(** A backend with a manifest that lists [bcrypt] and a source file
    that requires it. *)
Definition bcryptBackend : FileMap :=
  {[ js:"backend/package.json" :=
       js:"{" ++ Sample.quoted js:"dependencies" ++ js:":{"
       ++ Sample.quoted js:"bcrypt" ++ js:":" ++ Sample.quoted js:"^5.1.0"
       ++ js:"}}";
     js:"backend/src/auth.js" := js:"const b = require('bcrypt');" ]}.



(** A backend source file that requires a file the map does not have. *)
Definition danglingRequire : FileMap :=
  {[ js:"backend/src/app.js" := js:"const c = require('./config');" ]}.

(** Project [p1] is created, generated, deployed and stopped. *)
Definition stopped : World :=
  Platform.run (rt := Sample.runtime)
    [Platform.OpCreate js:"p1" data;
     Platform.OpStart js:"p1" None;
     Platform.OpRun (env allSucceed diskWorks true) js:"p1" config;
     Platform.OpDeploy None js:"p1";
     Platform.OpStop js:"p1"]
    emptyWorld.

(** The batch run of [p1] in an environment. *)
Definition batch (e : Env) : (jsstring + BatchResult) * World :=
  runBatchGeneration (rt := Sample.runtime) e js:"p1" config accepted.

(** The phase events written to client 7, in order: the phase, its new
    status and the progress in lowest terms. *)
Definition readings (w : World) : list (jsstring * PhaseStatus * Q) :=
  omap (fun '(_, ev) =>
          match ev with
          | EvPhase phaseId status _ progress _ =>
              Some (phaseId, status, Qred progress)
          | _ => None
          end)
       (sent w).

(** Three projects, one of them released and the slot reused. *)
Definition sampleStore : PortManager.Store :=
  let s1 := snd (PortManager.assignPorts [] js:"p1" js:"shop" js:"t1") in
  let s2 := snd (PortManager.assignPorts s1 js:"p2" js:"blog" js:"t2") in
  let s3 := PortManager.releasePorts s2 js:"p1" in
  snd (PortManager.assignPorts s3 js:"p3" js:"crm" js:"t3").

End Example.

(* ===================================================================== *)
(** ** Notions used to state the properties                               *)
(* ===================================================================== *)

(** *** Port allocation *)

(** [p] is the first port at or above [start] that [used] does not hold. *)
Definition firstFree (used : gset N) (start p : N) : Prop :=
  start <= p /\ (p ∉ used) /\ forall q, start <= q < p -> q ∈ used.

(** The invariant of the assignment file. *)
Record storeOk (s : PortManager.Store) : Prop := {
  ok_ids : NoDup (PortManager.projectId <$> s);
  ok_ports : NoDup (s ≫= PortManager.portsOf);
  ok_range : forall a p,
    a ∈ s -> p ∈ PortManager.portsOf a -> PortManager.STARTING_PORT <= p;
}.

(** *** Progress *)

(** The share of its weight that a phase in a given status adds to the
    progress. *)
Definition contributes (s : Progress.PhaseStatus) : Q :=
  match s with
  | Progress.completed => 1%Q
  | Progress.in_progress => 0.5%Q
  | Progress.pending | Progress.failed => 0%Q
  end.

(** The weighted sum the progress is computed from. *)
Definition weighted (phases : list Progress.PhaseState) : Q :=
  foldr (fun p acc => (Progress.ph_weight p * contributes (Progress.ph_status p)
                       + acc)%Q)
        0%Q phases.

(** The status of the phase called [phaseId]. *)
Definition statusOf (phaseId : jsstring) (phases : list Progress.PhaseState)
  : option Progress.PhaseStatus :=
  Progress.ph_status
    <$> List.find (fun p => bool_decide (Progress.ph_id p = phaseId)) phases.

(** The phases are those of [BATCH_PHASES], whatever their status. *)
Definition batchPhases (phases : list Progress.PhaseState) : Prop :=
  (fun p => (Progress.ph_id p, Progress.ph_label p, Progress.ph_weight p))
    <$> phases = Progress.BATCH_PHASES.

(** The progress stored with a session. *)
Definition progressOf (w : World) (projectId : jsstring) : Q :=
  from_option Progress.gen_progress 0%Q (activeGenerations w !! projectId).

(** *** What a stretch of the orchestrator leaves alone *)

(** The phases and the clients of the session of a project. *)
Definition phasesAt (w : World) (projectId : jsstring)
  : option (list Progress.PhaseState) :=
  Progress.gen_phases <$> activeGenerations w !! projectId.

Definition clientsAt (w : World) (projectId : jsstring)
  : list Progress.Client :=
  from_option Progress.gen_clients [] (activeGenerations w !! projectId).

(** [setPhase] where the phase exists, nothing otherwise: the change
    [updatePhase] makes to the phases of a session. *)
Definition markPhase (phaseId : jsstring) (status : Progress.PhaseStatus)
  (filesCount : nat) (phases : list Progress.PhaseState)
  : list Progress.PhaseState :=
  default phases (Progress.setPhase phaseId status filesCount phases).

(** From [w] to [w'] only the session records and the client streams
    changed: the same sessions exist with the same clients, the phases
    of the session of [projectId] went through [change], and the streams
    were only appended to. *)
Record tracked (projectId : jsstring)
  (change : list Progress.PhaseState -> list Progress.PhaseState)
  (w w' : World) : Prop := {
  tr_projects : projects w' = projects w;
  tr_ports : portAssignments w' = portAssignments w;
  tr_apps : runningApps w' = runningApps w;
  tr_disk : disk w' = disk w;
  tr_timers : timers w' = timers w;
  tr_clients : forall q,
    Progress.gen_clients <$> activeGenerations w' !! q
    = Progress.gen_clients <$> activeGenerations w !! q;
  tr_phases : phasesAt w' projectId = change <$> phasesAt w projectId;
  tr_sent : sent w `prefix_of` sent w';
}.

(** Every file of [d] is still a file of [d']. *)
Definition grows (d d' : FileSystem.Disk) : Prop :=
  forall path, is_Some (d !! path) -> is_Some (d' !! path).

(** The status of a project. *)
Definition statusAt (w : World) (projectId : jsstring) : option jsstring :=
  Project.status <$> projects w !! projectId.

(** From [w] to [w'] files were only added or overwritten, the status of
    the project went through [onStatus] and the phases of its session
    through [change]. *)
Record stepped (projectId : jsstring)
  (change : list Progress.PhaseState -> list Progress.PhaseState)
  (onStatus : jsstring -> jsstring)
  (w w' : World) : Prop := {
  st_status : statusAt w' projectId = onStatus <$> statusAt w projectId;
  st_disk : grows (disk w) (disk w');
  st_phases : phasesAt w' projectId = change <$> phasesAt w projectId;
}.

(** *** The content phases *)

(** The local variables after one content phase. *)
Definition blockLocals (env : Env) (config : Config) (b : Generate.Block)
  (l : Generate.Locals) : Generate.Locals :=
  match generateSinglePhase env (Generate.blk_phase b) config with
  | inr result =>
      Generate.mkLocals (out_files result ∪ Generate.allFiles l)
        (Generate.phaseResults l
           ++ [Progress.mkPhaseResult (Generate.blk_phase b)
                 (Some (out_stats result)) None])
  | inl message =>
      Generate.mkLocals (Generate.allFiles l)
        (Generate.phaseResults l
           ++ [Progress.mkPhaseResult (Generate.blk_phase b) None
                 (Some message)])
  end.

(** What one content phase does to the phases of the session. *)
Definition blockMarks (env : Env) (config : Config) (b : Generate.Block)
  (phases : list Progress.PhaseState) : list Progress.PhaseState :=
  let phaseId := MultiFileGenerator.phaseName (Generate.blk_phase b) in
  let started := markPhase phaseId Progress.in_progress 0 phases in
  match generateSinglePhase env (Generate.blk_phase b) config with
  | inr result =>
      markPhase phaseId Progress.completed (size (out_files result)) started
  | inl _ => markPhase phaseId Progress.failed 0 started
  end.

(** The content phases whose generation throws. *)
Definition thrown (env : Env) (config : Config) : list Generate.Block :=
  List.filter
    (fun b =>
       match generateSinglePhase env (Generate.blk_phase b) config with
       | inl _ => true
       | inr _ => false
       end)
    Generate.contentBlocks.

(** The files a content phase produces: none when it throws. *)
Definition produced (env : Env) (config : Config)
  (phase : MultiFileGenerator.Phase) : FileMap :=
  match generateSinglePhase env phase config with
  | inr result => out_files result
  | inl _ => ∅
  end.


(** *** The marker format *)

(** The format the system prompt of the generator asks the model for,
    one block for each file:
    [===FILE: path===], the content on the following lines, and
    [===END FILE===] on a line of its own. *)
Definition serializeEntry (entry : jsstring * jsstring) : jsstring :=
  MultiFileGenerator.FILE_OPEN ++ js:" " ++ entry.1
  ++ MultiFileGenerator.FILE_CLOSE ++ entry.2 ++ [JS.LINE_FEED]
  ++ MultiFileGenerator.END_FILE ++ [JS.LINE_FEED].

Definition serialize (files : FileMap) : jsstring :=
  map_to_list files ≫= serializeEntry.

(** A path the parser reads back as it is: not empty, without white
    space or equals sign, and not the name [__proto__]. *)
Definition plainPath (path : jsstring) : Prop :=
  path <> [] /\ Forall (fun c => MultiFileGenerator.isPathChar c = true) path
  /\ path <> js:"__proto__".

(** A content the parser reads back as it is: without white space at
    either end and without the end marker. *)
Definition plainContent (content : jsstring) : Prop :=
  JS.trim content = content
  /\ JS.includes MultiFileGenerator.END_FILE content = false.

(* ===================================================================== *)
(** ** Notions used in the proofs                                         *)
(* ===================================================================== *)

(** *** Steps of the orchestrator *)

Section RunNotions.
Import MultiFileGenerator Progress Generate.

(** A computation that cannot fail, returns [a] and only tracks. *)
Definition yields {A} pid change (m : Run A) (a : A) : Prop :=
  forall w, fst (m w) = inr a /\ tracked pid change w (snd (m w)).

Definition tracks pid change (m : Run unit) : Prop := yields pid change m tt.

(** A computation that keeps a property of the project store, whether
    it returns or throws. *)
Definition keeps {A : Type} (P : Project.Store -> Prop) (m : Run A) : Prop :=
  forall w, P (projects w) -> P (projects (snd (m w))).

(** The phases of the session after a sequence of content phases. *)
Definition blocksMarks (env : Env) (config : Config) (blocks : list Block)
  (phases : list PhaseState) : list PhaseState :=
  foldl (fun phases b => blockMarks env config b phases) phases blocks.

(** What the phases of the session go through during setup. *)
Definition setupMarks (phases : list PhaseState) : list PhaseState :=
  markPhase js:"setup" completed 0 (markPhase js:"setup" in_progress 0 phases).

(** The local variables when the finalizing phase starts. *)
Definition finalLocals (env : Env) (config : Config) : Locals :=
  foldl (fun l b => blockLocals env config b l) (mkLocals ∅ []) contentBlocks.

(** What the phases of the session go through when the run returns. *)
Definition batchMarks (env : Env) (config : Config)
  (phases : list PhaseState) : list PhaseState :=
  markPhase js:"finalizing" completed 0
    (markPhase js:"finalizing" in_progress 0
       (blocksMarks env config contentBlocks (setupMarks phases))).


End RunNotions.

(** The statuses of the projects of a store are among [allowed]. *)
Definition within (allowed : list jsstring) (ps : Project.Store) : Prop :=
  forall pid project,
    ps !! pid = Some project -> Project.status project ∈ allowed.

(** *** File-system actions *)

Section DiskNotions.
Import FileSystem.

(** An action that writes no file, and one that removes none. *)
Definition writesNothing {A} (m : FS A) : Prop := forall d, snd (m d) = d.
Definition removesNothing {A} (m : FS A) : Prop :=
  forall d, grows d (snd (m d)).

End DiskNotions.

(** *** The validator/fixer *)

Section FixerNotions.
Import Value MultiFileGenerator.

(** What step 2 makes of one entry. *)
Definition bcryptFixed (filePath content : jsstring) : jsstring :=
  if isBackendJs filePath && mentionsBcrypt content
  then replaceBcrypt content else content.

(** The note step 2 pushes for one entry. *)
Definition bcryptNote (entry : jsstring * jsstring) : option jsstring :=
  if isBackendJs entry.1 && mentionsBcrypt entry.2
  then Some (js:"Fixed bcrypt -> bcryptjs in " ++ entry.1) else None.

Definition bcryptStep (st : FileMap * list jsstring)
  (entry : jsstring * jsstring) : FileMap * list jsstring :=
  let '(fixedFiles, fixes) := st in
  let '(filePath, content) := entry in
  if isBackendJs filePath && mentionsBcrypt content then
    (<[filePath := replaceBcrypt content]> fixedFiles,
     fixes ++ [js:"Fixed bcrypt -> bcryptjs in " ++ filePath])
  else (fixedFiles, fixes).

(** Step 1 replaces the content of a manifest that is there and not
    empty. *)
Definition manifestFixed (fixer : jsstring -> Config -> Fixed)
  (config : Config) (content : jsstring) : jsstring :=
  if JS.truthyString content then fixed_content (fixer content config)
  else content.

(** The three paths step 4 deletes. *)
Definition ENV_FILES : gset jsstring :=
  {[ js:"backend/.env"; js:"backend/.env.example"; js:"frontend/.env.local" ]}.

(** The strings the expression matches at their start. *)
Definition isRequireBcrypt (s : jsstring) : Prop :=
  exists q1 q2 rest,
    JS.isQuote q1 = true /\ JS.isQuote q2 = true
    /\ s = REQUIRE_OPEN ++ q1 :: BCRYPT ++ q2 :: PAREN_CLOSE ++ rest.

(** The three kinds of statement of a repair:
    [if (!pkg[k]) { pkg[k] = v; fixes.push(msg) }] (some without the
    push), [if (!pkg[k1][k2]) { pkg[k1][k2] = v; fixes.push(msg) }],
    and [if (pkg[k1][k2]) { delete pkg[k1][k2]; fixes.push(msg) }]. *)
Inductive RepairOp :=
| Ensure1 (k : jsstring) (v : jsval) (msg : option jsstring)
| Ensure2 (k1 k2 : jsstring) (v : jsval) (msg : jsstring)
| Remove2 (k1 k2 : jsstring) (msg : jsstring).

Definition runOp (op : RepairOp) : Fix unit :=
  match op with
  | Ensure1 k v msg =>
      cur ← readField k;
      unless cur
        (writeField k v;;
         match msg with Some m => push m | None => mret tt end)
  | Ensure2 k1 k2 v msg =>
      cur ← readField2 k1 k2;
      unless cur (writeField2 k1 k2 v;; push msg)
  | Remove2 k1 k2 msg =>
      cur ← readField2 k1 k2;
      when_ cur (deleteField2 k1 k2;; push msg)
  end.

Fixpoint runOps (ops : list RepairOp) : Fix unit :=
  match ops with
  | [] => mret tt
  | op :: rest => runOp op;; runOps rest
  end.

(** The statements of the loop over required packages. *)
Definition ensureAll (field label : jsstring)
  (required : list (jsstring * jsstring)) : list RepairOp :=
  (fun '(dep, version) => Ensure2 field dep (VStr version) (label ++ dep))
    <$> required.

(** Objects and arrays, the values that have properties. *)
Definition composite (v : jsval) : Prop :=
  match v with
  | VObj _ | VArr _ _ => True
  | _ => False
  end.

(** [pkg[k1][k2]] *)
Definition read2 (pkg : jsval) (k1 k2 : jsstring) : error + option jsval :=
  match baseOf pkg k1 with
  | inl e => inl e
  | inr o => getProp o k2
  end.

(** The condition of the statement is false. *)
Definition settled (pkg : jsval) (op : RepairOp) : Prop :=
  match op with
  | Ensure1 k _ _ => exists r, getProp pkg k = inr r /\ truthy r = true
  | Ensure2 k1 k2 _ _ => exists r, read2 pkg k1 k2 = inr r /\ truthy r = true
  | Remove2 k1 k2 _ => exists r, read2 pkg k1 k2 = inr r /\ truthy r = false
  end.

(** The value a statement assigns is truthy. *)
Definition assignsTruthy (op : RepairOp) : Prop :=
  match op with
  | Ensure1 _ v _ | Ensure2 _ _ v _ => truthy (Some v) = true
  | Remove2 _ _ _ => True
  end.

(** [later] does not undo what [op] has settled. *)
Definition compatible (op later : RepairOp) : bool :=
  match op, later with
  | Ensure2 a b _ _, Remove2 a' b' _ =>
      negb (bool_decide (a = a') && bool_decide (b = b'))
  | Remove2 a b _, Ensure2 a' b' _ _ =>
      negb (bool_decide (a = a') && bool_decide (b = b'))
  | Remove2 a _ _, Ensure1 k _ _ => negb (bool_decide (a = k))
  | _, _ => true
  end.

Fixpoint compatibleAll (ops : list RepairOp) : bool :=
  match ops with
  | [] => true
  | op :: rest => forallb (compatible op) rest && compatibleAll rest
  end.

(** What a statement that returns has done: nothing, its condition
    being false, or one assignment [pkg[k] = x] of a truthy [x]. *)
Inductive acted (op : RepairOp) (pkg pkg' : jsval) : Prop :=
| acted_Ensure1 k v msg r :
    op = Ensure1 k v msg ->
    getProp pkg k = inr r -> truthy r = false ->
    setProp pkg k v = inr pkg' -> acted op pkg pkg'
| acted_Ensure2 k1 k2 v msg o r o' :
    op = Ensure2 k1 k2 v msg ->
    baseOf pkg k1 = inr o -> getProp o k2 = inr r -> truthy r = false ->
    setProp o k2 v = inr o' -> setProp pkg k1 o' = inr pkg' ->
    acted op pkg pkg'
| acted_Remove2 k1 k2 msg o r o' :
    op = Remove2 k1 k2 msg ->
    baseOf pkg k1 = inr o -> getProp o k2 = inr r -> truthy r = true ->
    deleteProp o k2 = inr o' -> setProp pkg k1 o' = inr pkg' ->
    acted op pkg pkg'.

(** The property a statement reads first. *)
Definition baseKey (op : RepairOp) : jsstring :=
  match op with
  | Ensure1 k _ _ => k
  | Ensure2 k1 _ _ _ | Remove2 k1 _ _ => k1
  end.

Context {rt : Runtime}.

(** The content of an entry after steps 1 and 2. *)
Definition entryFixed (config : Config) (k content : jsstring) : jsstring :=
  let c1 :=
    if bool_decide (k = BACKEND_PACKAGE_JSON)
    then manifestFixed fixBackendPackageJson config content else content in
  let c2 :=
    if bool_decide (k = FRONTEND_PACKAGE_JSON)
    then manifestFixed fixFrontendPackageJson config c1 else c1 in
  bcryptFixed k c2.

Definition backendOps (config : Config) : list RepairOp :=
  [Ensure1 js:"name" (VStr (packageBaseName config ++ js:"-backend"))
     (Some js:"Added package name");
   Ensure1 js:"version" (VStr js:"1.0.0") None;
   Ensure1 js:"main" (VStr js:"src/server.js")
     (Some js:"Added main entry point");
   Ensure1 js:"scripts" (VObj []) None;
   Ensure2 js:"scripts" js:"start" (VStr js:"node src/server.js")
     js:"Added start script";
   Ensure2 js:"scripts" js:"dev" (VStr js:"node --watch src/server.js")
     js:"Added dev script";
   Ensure1 js:"dependencies" (VObj []) None]
  ++ ensureAll js:"dependencies" js:"Added missing dependency: "
       REQUIRED_BACKEND_dependencies
  ++ [Remove2 js:"dependencies" js:"bcrypt"
        js:"Removed bcrypt (using bcryptjs instead)";
      Ensure1 js:"devDependencies" (VObj []) None]
  ++ ensureAll js:"devDependencies" js:"Added missing devDependency: "
       REQUIRED_BACKEND_devDependencies.

Definition frontendOps (config : Config) : list RepairOp :=
  [Ensure1 js:"name" (VStr (packageBaseName config ++ js:"-frontend"))
     (Some js:"Added package name");
   Ensure1 js:"scripts" (VObj []) None;
   Ensure2 js:"scripts" js:"dev" (VStr js:"next dev") js:"Added dev script";
   Ensure2 js:"scripts" js:"build" (VStr js:"next build")
     js:"Added build script";
   Ensure2 js:"scripts" js:"start" (VStr js:"next start")
     js:"Added start script";
   Ensure1 js:"dependencies" (VObj []) None]
  ++ ensureAll js:"dependencies" js:"Added missing dependency: "
       REQUIRED_FRONTEND_dependencies
  ++ [Ensure1 js:"devDependencies" (VObj []) None]
  ++ ensureAll js:"devDependencies" js:"Added missing devDependency: "
       REQUIRED_FRONTEND_devDependencies.

(** The manifest parses to a value whose repair returns, and the repaired
    value is printed to a text that parses back to it; or the manifest
    does not parse at all. *)
Definition repairable (body : Fix unit) (content : jsstring) : Prop :=
  match JSON_parse content with
  | None => True
  | Some pkg =>
      exists pkg' fixes,
        body (pkg, []) = (inr tt, (pkg', fixes))
        /\ JSON_parse (JSON_stringify pkg') = Some pkg'
  end.

End FixerNotions.

(* ===================================================================== *)
(** ** Notions used to state further properties                           *)
(* ===================================================================== *)

(** Every record of the project store is filed under its own id. *)
Definition keyed (ps : Project.Store) : Prop :=
  forall k project, ps !! k = Some project -> Project.id project = k.

(** *** What a run may change *)

(** A session record in order: its phases are those of [BATCH_PHASES]
    and the progress stored with them is the value computed from
    them. *)
Definition soundSession (g : Progress.Generation) : Prop :=
  batchPhases (Progress.gen_phases g)
  /\ Progress.gen_progress g
     = Progress.computeProgress (Progress.gen_phases g).

(** The session of [q], if there is one, is in order. *)
Definition synced (w : World) (q : jsstring) : Prop :=
  forall g, activeGenerations w !! q = Some g -> soundSession g.

(** The ports written in the record of project [q] are those the port
    store holds for it. *)
Definition recorded (w : World) (q : jsstring) : Prop :=
  forall project a,
    projects w !! q = Some project ->
    Project.ports project = Some a ->
    PortManager.getAssignment (portAssignments w) q = Some a.

(** From [w] to [w'], at most this happened: the record of [projectId]
    was updated and its ports, if new, taken from the port store; its
    session was updated with the same clients and a progress that follows
    its phases; ports were assigned to it; files were written; events
    were sent.  Other projects and sessions, the running apps and the
    timers are as they were. *)
Record evolves (projectId : jsstring) (w w' : World) : Prop := {
  ev_others : forall q, q <> projectId -> projects w' !! q = projects w !! q;
  ev_exists : is_Some (projects w' !! projectId)
              <-> is_Some (projects w !! projectId);
  ev_recorded : recorded w projectId -> recorded w' projectId;
  ev_sessions : forall q,
    q <> projectId -> activeGenerations w' !! q = activeGenerations w !! q;
  ev_clients :
    Progress.gen_clients <$> activeGenerations w' !! projectId
    = Progress.gen_clients <$> activeGenerations w !! projectId;
  ev_synced : synced w projectId -> synced w' projectId;
  ev_allocated :
    portAssignments w' = portAssignments w
    \/ exists name now,
         portAssignments w'
         = snd (PortManager.assignPorts (portAssignments w) projectId name now);
  ev_apps : runningApps w' = runningApps w;
  ev_disk : grows (disk w) (disk w');
  ev_timers : timers w' = timers w;
  ev_sent : sent w `prefix_of` sent w';
}.

Section TripleNotions.
Import Generate.

(** A computation that, whether it returns or throws, leaves a world
    that evolved from the one it started in. *)
Definition evolving {A} (projectId : jsstring) (m : Run A) : Prop :=
  forall w, evolves projectId w (snd (m w)).

(** From a world that satisfies [P], the computation returns [a] in a
    world that satisfies [Q a], or throws in one that satisfies [E]. *)
Definition triple {A} (P : World -> Prop) (m : Run A)
  (Q : A -> World -> Prop) (E : World -> Prop) : Prop :=
  forall w, P w ->
    match m w with
    | (inr a, w') => Q a w'
    | (inl _, w') => E w'
    end.

(** The port store holds [a] for [projectId]. *)
Definition assigned (projectId : jsstring) (a : PortManager.Assignment)
  (w : World) : Prop :=
  PortManager.getAssignment (portAssignments w) projectId = Some a.

(** [setTimeout(() => activeGenerations.delete(projectId), 5000)] and
    [activeGenerations.delete(projectId)], the last statement of a run
    that returned and of one that threw. *)
Definition addTimer (projectId : jsstring) (w : World) : World :=
  mkWorld (projects w) (activeGenerations w) (portAssignments w)
    (runningApps w) (disk w) (sent w) (timers w ++ [projectId]).

Definition dropSession (projectId : jsstring) (w : World) : World :=
  mkWorld (projects w) (delete projectId (activeGenerations w))
    (portAssignments w) (runningApps w) (disk w) (sent w) (timers w).

(** What a whole run does: the world evolves, and then either the
    removal of the session is scheduled or the session is removed. *)
Definition ran (projectId : jsstring) (w w' : World) : Prop :=
  exists w1,
    evolves projectId w w1
    /\ (w' = addTimer projectId w1 \/ w' = dropSession projectId w1).

End TripleNotions.

(** *** What a run that returned has done *)

(** From [w] to [w'] files were written and events sent; the project
    store, the port store, the running apps, the timers and the clients
    of the sessions are as they were. *)
Record wrote (w w' : World) : Prop := {
  wr_projects : projects w' = projects w;
  wr_ports : portAssignments w' = portAssignments w;
  wr_apps : runningApps w' = runningApps w;
  wr_timers : timers w' = timers w;
  wr_clients : forall q,
    Progress.gen_clients <$> activeGenerations w' !! q
    = Progress.gen_clients <$> activeGenerations w !! q;
  wr_disk : grows (disk w) (disk w');
  wr_sent : sent w `prefix_of` sent w';
}.

(** The manifests the finalizing phase creates: those the model did not
    produce. *)
Definition defaultManifests (files : FileMap) : list jsstring :=
  (if bool_decide (is_Some (files !! js:"backend/package.json")) then []
   else [js:"backend/package.json"])
  ++ (if bool_decide (is_Some (files !! js:"frontend/package.json")) then []
      else [js:"frontend/package.json"]).

(** [savedFiles] when the metadata is written, and at the end of the
    run. *)
Definition savedBeforeMetadata (files : FileMap) : list jsstring :=
  (map_to_list files).*1 ++ defaultManifests files
  ++ [js:"backend/.env"; js:"frontend/.env.local"].

Definition savedFiles (files : FileMap) : list jsstring :=
  savedBeforeMetadata files ++ [js:"project.json"].

(** The two updates of the project record in a run that returned. *)
Definition testingUpdate (projectPath projectSlug : jsstring)
  (files : FileMap) (ports : PortManager.Assignment) : Project.Updates :=
  Project.mkUpdates (Some Project.TESTING) None (Some projectSlug)
    (Some projectPath) (Some (savedFiles files)) None None (Some ports).

Definition finalUpdate (results : list Progress.PhaseResult)
  (test : Project.TestResult) : Project.Updates :=
  Project.mkUpdates
    (Some (Generate.finalStatus results (Project.test_success test)))
    None None None None (Some test) (Some (Generate.finalError results)) None.

(** [finalStats] *)
Definition finalStatsOf (files : FileMap)
  (results : list Progress.PhaseResult) : Progress.FinalStats :=
  Progress.mkFinalStats (length (savedBeforeMetadata files))
    (Generate.sumLines results) (Generate.sumTokens results) results.

Section ReturnedNotions.
Import Generate.
Context {rt : Runtime}.

(** What a run that returned has done to the world [w] it started in:
    [test] is the outcome of the smoke test, [d] the disk when the
    generated files and the default manifests were saved, [earlier] the
    events sent before the completion event. *)
Record returnedWith (env : Env) (projectId : jsstring) (config : Config)
  (projectPath projectSlug : jsstring) (l : Locals)
  (test : Project.TestResult) (d : FileSystem.Disk)
  (earlier : list (Progress.Client * Progress.Event))
  (w w' : World) (res : BatchResult) : Prop := {
  rw_res :
    res = mkBatchResult
            (bool_decide
               (finalStatus (phaseResults l) (Project.test_success test)
                = Project.DEPLOYED))
            None (Some projectPath) (savedFiles (allFiles l))
            (phaseResults l) (Some test);
  rw_ports :
    portAssignments w'
    = snd (PortManager.assignPorts (portAssignments w) projectId
             (cfg_name config) (isoNow env));
  rw_projects :
    projects w'
    = Project.updateProject
        (Project.updateProject (projects w) projectId
           (testingUpdate projectPath projectSlug (allFiles l)
              (fst (PortManager.assignPorts (portAssignments w) projectId
                      (cfg_name config) (isoNow env)))))
        projectId (finalUpdate (phaseResults l) test);
  rw_apps : runningApps w' = runningApps w;
  rw_timers : timers w' = timers w ++ [projectId];
  rw_clients : forall q,
    Progress.gen_clients <$> activeGenerations w' !! q
    = Progress.gen_clients <$> activeGenerations w !! q;
  rw_sent :
    sent w'
    = sent w ++ earlier
      ++ ((fun client =>
             (client,
              Progress.EvComplete
                (bool_decide
                   (finalStatus (phaseResults l) (Project.test_success test)
                    = Project.DEPLOYED))
                projectPath (savedFiles (allFiles l))
                (finalStatsOf (allFiles l) (phaseResults l))))
            <$> clientsAt w projectId);
  rw_disk :
    disk w'
    = <[Path.join projectPath js:"project.json" :=
          FileSystem.Metadata projectId projectSlug (cfg_name config)
            (savedBeforeMetadata (allFiles l))
            (sumLines (phaseResults l)) (sumTokens (phaseResults l))]>
        (<[Path.join projectPath js:"frontend/.env.local" :=
             FileSystem.FrontendEnv
               (fst (PortManager.assignPorts (portAssignments w) projectId
                       (cfg_name config) (isoNow env)))]>
           (<[Path.join projectPath js:"backend/.env" :=
                FileSystem.BackendEnv
                  (fst (PortManager.assignPorts (portAssignments w) projectId
                          (cfg_name config) (isoNow env)))
                  (FileSystem.slugify (cfg_name config)) projectId]> d));
  rw_grown : grows (disk w) d;
  rw_saved : forall rel,
    is_Some (allFiles l !! rel) -> is_Some (d !! Path.join projectPath rel);
  rw_manifests : forall manifest,
    manifest ∈ defaultManifests (allFiles l) ->
    is_Some (d !! Path.join projectPath manifest);
}.

End ReturnedNotions.

(** *** The shape of a slug *)

(** Every hyphen of the string is its last character or stands before
    a letter or digit. *)
Fixpoint hyphenated (s : jsstring) : Prop :=
  match s with
  | [] => True
  | c :: s' =>
      (FileSystem.isSlugChar c = true
       \/ (c = FileSystem.HYPHEN
           /\ match s' with
              | [] => True
              | c' :: _ => FileSystem.isSlugChar c' = true
              end))
      /\ hyphenated s'
  end.

(** *** Saving files *)


(** *** A complete manifest *)



(** *** Requests to the model *)

Section GeneratorNotions.
Import MultiFileGenerator PhaseGenerator.

(** What request number [i] gives: the error thrown while it is made or
    its answer is read, or the message and the files parsed from its
    text. *)
Definition attempt (api : Api) (phase : Phase) (config : Config) (i : nat)
  : jsstring + (Message * FileMap) :=
  match api phase config i with
  | inl e => inl e
  | inr message =>
      match msg_content message with
      | None => inl NO_CONTENT
      | Some OtherBlock => inl UNEXPECTED_RESPONSE
      | Some (TextBlock text) => inr (message, parseMultiFileResponse text)
      end
  end.

(** [stats] for the files parsed from a message. *)
Definition statsOf (message : Message) (files : FileMap) : PhaseStats :=
  mkPhaseStats (size files) (totalLinesOf files)
    (default 0 (msg_inputTokens message))
    (default 0 (msg_outputTokens message)).

(** The status of the report that ends the turn of a phase. *)
Definition finishStatus (entry : PhaseEntry) : ReportStatus :=
  match pe_outcome entry with
  | inl message => Failed message
  | inr _ => Completed
  end.

End GeneratorNotions.

(** *** A run without a session *)

(** A computation that, started without a session for [projectId],
    creates none and writes to no client, whether it returns or
    throws. *)
Definition quiet {A} (projectId : jsstring) (m : Generate.Run A) : Prop :=
  forall w,
    activeGenerations w !! projectId = None ->
    activeGenerations (snd (m w)) !! projectId = None
    /\ sent (snd (m w)) = sent w.

(* ===================================================================== *)
(** ** Further example worlds                                             *)
(* ===================================================================== *)

Module Scenario.
Import MultiFileGenerator Progress Generate.


(** A model that rejects the requests for the backend, answers those
    for the database with a schema, and answers the others with a text
    that has no file in it. *)
Definition api : PhaseGenerator.Api :=
  fun phase _ _ =>
    match phase with
    | BACKEND => inl js:"rate limited"
    | DATABASE =>
        inr (PhaseGenerator.mkMessage
               (Some (PhaseGenerator.TextBlock
                        (serialize {[ js:"database/schema.sql" := js:"CREATE" ]})))
               (Some 100) (Some 200))
    | _ =>
        inr (PhaseGenerator.mkMessage
               (Some (PhaseGenerator.TextBlock js:"Here are the files."))
               None None)
    end.

End Scenario.

(* ===================================================================== *)
(** ** Facts about the port allocator                                     *)
(* ===================================================================== *)

Section PortManagerFacts.
Import PortManager.

Lemma scanPorts_ge fuel used port : port <= scanPorts fuel used port.
Proof.
  revert port. induction fuel as [|fuel IH]; intros port; simpl; [lia|].
  destruct (decide (port ∈ used)); [|lia].
  specialize (IH (port + 1)). lia.
Qed.

Lemma scanPorts_below fuel used port q :
  port <= q < scanPorts fuel used port -> q ∈ used.
Proof.
  revert port. induction fuel as [|fuel IH]; intros port; simpl; [lia|].
  destruct (decide (port ∈ used)) as [Hin|Hout]; [|lia].
  intros Hq. destruct (decide (q = port)) as [->|Hne]; [done|].
  apply (IH (port + 1)). lia.
Qed.

(** The loop leaves the set before the fuel runs out: every iteration
    removes one element from the ports of [used] that are still ahead. *)
Lemma scanPorts_free fuel (used : gset N) (port : N) :
  (size (filter (fun x : N => (port <= x)%N) used) < fuel)%nat ->
  scanPorts fuel used port ∉ used.
Proof.
  revert port. induction fuel as [|fuel IH]; intros port Hsz; [lia|].
  simpl. destruct (decide (port ∈ used)) as [Hin|Hout]; [|done].
  apply IH.
  assert (filter (fun x : N => port + 1 <= x) used ⊂ filter (fun x : N => port <= x) used)
    as Hsub.
  { split.
    - intros x. rewrite !elem_of_filter. intros [? ?]. split; [lia|done].
    - intros Hback. specialize (Hback port).
      rewrite !elem_of_filter in Hback.
      destruct Hback as [Hlt _]; [split; [lia|done]|]. lia. }
  apply subset_size in Hsub. lia.
Qed.

Lemma findNextPort_firstFree s start :
  firstFree (getUsedPorts s) start (findNextPort s start).
Proof.
  unfold findNextPort, firstFree. split; [apply scanPorts_ge|]. split.
  - apply scanPorts_free.
    assert (filter (fun x : N => start <= x) (getUsedPorts s) ⊆ getUsedPorts s)
      as Hle by (intros x; rewrite elem_of_filter; tauto).
    apply subseteq_size in Hle. lia.
  - intros q. apply scanPorts_below.
Qed.

Lemma firstFree_unique used start p q :
  firstFree used start p -> firstFree used start q -> p = q.
Proof.
  intros (Hp1 & Hp2 & Hp3) (Hq1 & Hq2 & Hq3).
  destruct (N.lt_trichotomy p q) as [Hlt|[->|Hgt]]; [|done|].
  - exfalso. apply Hp2, Hq3. lia.
  - exfalso. apply Hq2, Hp3. lia.
Qed.

Lemma elem_of_getUsedPorts_acc (s : Store) (acc : gset N) p :
  p ∈ foldl (fun used a => {[backend a]} ∪ ({[frontend a]} ∪ used)) acc s
  <-> p ∈ acc \/ exists a, a ∈ s /\ p ∈ portsOf a.
Proof.
  revert acc. induction s as [|a s IH]; intros acc; simpl.
  - split; [auto|]. intros [?|(a & Ha & _)]; [done|]. by apply elem_of_nil in Ha.
  - rewrite IH. unfold portsOf. split.
    + intros [Hp|(b & Hb & Hp)].
      * apply elem_of_union in Hp as [Hp|Hp].
        { apply elem_of_singleton in Hp as ->. right. exists a.
          split; [left|]. set_solver. }
        apply elem_of_union in Hp as [Hp|Hp]; [|by left].
        apply elem_of_singleton in Hp as ->. right. exists a.
        split; [left|]. set_solver.
      * right. exists b. split; [by right|done].
    + intros [Hp|(b & Hb & Hp)]; [left; set_solver|].
      apply elem_of_cons in Hb as [->|Hb].
      * left. set_solver.
      * right. by exists b.
Qed.

Lemma elem_of_getUsedPorts (s : Store) p :
  p ∈ getUsedPorts s
  <-> p ∈ PLATFORM_PORTS \/ exists a, a ∈ s /\ p ∈ portsOf a.
Proof.
  unfold getUsedPorts. rewrite elem_of_getUsedPorts_acc.
  by rewrite elem_of_list_to_set.
Qed.

Lemma findAssignment_None s pid :
  findAssignment s pid = None <-> pid ∉ (projectId <$> s).
Proof.
  unfold findAssignment. induction s as [|a s IH]; simpl.
  - split; [intros _; apply not_elem_of_nil|done].
  - rewrite not_elem_of_cons. case_bool_decide as Ha.
    + split; [done|]. intros [Hne _]. by subst.
    + rewrite IH. split; [|tauto]. intros ?. split; [congruence|done].
Qed.

Lemma findAssignment_Some s pid a :
  findAssignment s pid = Some a -> a ∈ s /\ projectId a = pid.
Proof.
  unfold findAssignment. intros H. apply find_some in H as [Hin Hb].
  apply bool_decide_eq_true in Hb. split; [by apply list_elem_of_In|done].
Qed.

Lemma storeOk_assign s pid name now :
  storeOk s -> storeOk (snd (assignPorts s pid name now)).
Proof.
  intros [Hids Hports Hrange]. unfold assignPorts.
  destruct (findAssignment s pid) as [existing|] eqn:Hfind; simpl; [done|].
  pose proof (findNextPort_firstFree s STARTING_PORT) as (Hf1 & Hf2 & _).
  pose proof (findNextPort_firstFree s (findNextPort s STARTING_PORT + 1))
    as (Hb1 & Hb2 & _).
  set (f := findNextPort s STARTING_PORT) in *.
  set (b := findNextPort s (f + 1)) in *.
  rewrite elem_of_getUsedPorts in Hf2, Hb2.
  split.
  - rewrite fmap_app. simpl. apply NoDup_app. split; [done|]. split.
    + intros x Hx Hx'. apply list_elem_of_singleton in Hx' as ->.
      by apply findAssignment_None in Hfind.
    + apply NoDup_singleton.
  - rewrite bind_app. simpl. apply NoDup_app. split; [done|]. split.
    + intros p Hp Hp'. apply list_elem_of_bind in Hp as (a & Hpa & Ha).
      apply elem_of_cons in Hp' as [->|Hp'].
      * apply Hf2. right. by exists a.
      * apply list_elem_of_singleton in Hp' as ->. apply Hb2. right. by exists a.
    + apply NoDup_cons. split; [|apply NoDup_singleton].
      rewrite list_elem_of_singleton. lia.
  - intros a p Ha Hp. apply elem_of_app in Ha as [Ha|Ha]; [by eapply Hrange|].
    apply list_elem_of_singleton in Ha as ->. unfold portsOf in Hp. simpl in Hp.
    apply elem_of_cons in Hp as [->|Hp]; [done|].
    apply list_elem_of_singleton in Hp as ->. lia.
Qed.

Lemma storeOk_release s pid : storeOk s -> storeOk (releasePorts s pid).
Proof.
  intros [Hids Hports Hrange]. unfold releasePorts.
  induction s as [|a s IH]; simpl; [by split|].
  rewrite fmap_cons in Hids. apply NoDup_cons in Hids as [Ha Hids].
  rewrite bind_cons in Hports. apply NoDup_app in Hports as (Hpa & Hdisj & Hps).
  destruct (IH Hids Hps) as [IHids IHports IHrange].
  { intros b p Hb. apply Hrange. by right. }
  assert (forall b, b ∈ List.filter
            (fun a => negb (bool_decide (projectId a = pid))) s -> b ∈ s) as Hsub.
  { intros b Hb. apply list_elem_of_In, filter_In in Hb as [Hb _].
    by apply list_elem_of_In. }
  destruct (negb (bool_decide (projectId a = pid))); [|by split].
  split.
  - rewrite fmap_cons. apply NoDup_cons. split; [|done].
    intros Hin. apply Ha. apply list_elem_of_fmap in Hin as (b & -> & Hb).
    apply list_elem_of_fmap. exists b. split; [done|]. by apply Hsub.
  - rewrite bind_cons. apply NoDup_app. split; [done|]. split; [|done].
    intros p Hp Hp'. apply (Hdisj p Hp).
    apply list_elem_of_bind in Hp' as (b & Hpb & Hb).
    apply list_elem_of_bind. exists b. split; [done|]. by apply Hsub.
  - intros b p Hb. apply elem_of_cons in Hb as [->|Hb].
    + apply Hrange. by left.
    + apply Hrange. right. by apply Hsub.
Qed.

Lemma reachable_storeOk s : reachable s -> storeOk s.
Proof.
  induction 1 as [|s pid name now _ IH|s pid _ IH].
  - split; simpl; [constructor|constructor|].
    intros a p Ha. by apply elem_of_nil in Ha.
  - by apply storeOk_assign.
  - by apply storeOk_release.
Qed.

(** Two different records of a duplicate-free bind have disjoint images. *)
Lemma NoDup_bind_disjoint (s : Store) a b p :
  NoDup (projectId <$> s) -> NoDup (s ≫= portsOf) ->
  a ∈ s -> b ∈ s -> projectId a <> projectId b ->
  p ∈ portsOf a -> p ∉ portsOf b.
Proof.
  induction s as [|c s IH]; intros Hids Hports Ha Hb Hne Hpa Hpb.
  { by apply elem_of_nil in Ha. }
  rewrite fmap_cons in Hids. apply NoDup_cons in Hids as [Hc Hids].
  rewrite bind_cons in Hports. apply NoDup_app in Hports as (_ & Hdisj & Hps).
  apply elem_of_cons in Ha as [->|Ha]; apply elem_of_cons in Hb as [->|Hb].
  - done.
  - apply (Hdisj p Hpa). apply list_elem_of_bind. by exists b.
  - apply (Hdisj p Hpb). apply list_elem_of_bind. by exists a.
  - by apply (IH Hids Hps Ha Hb Hne Hpa).
Qed.

End PortManagerFacts.

(** C9.  In every store the allocator can produce, two assignments of
    different projects hold disjoint port pairs and no assigned port is a
    reserved platform port (3000, 3001); the assignment returned by
    [assignPorts] is a record of the store it leaves; and for a project
    without an assignment the frontend port is the first free port found
    scanning upward from the starting port 4000 and the backend port is
    the first free port found scanning upward from the frontend port
    plus one, free meaning outside the reserved ports and the ports
    already assigned. *)
Theorem port_allocation_unique (s : PortManager.Store) :
  PortManager.reachable s ->
  (forall a b p,
      a ∈ s -> b ∈ s ->
      PortManager.projectId a <> PortManager.projectId b ->
      p ∈ PortManager.portsOf a -> p ∉ PortManager.portsOf b)
  /\ (forall a p,
      a ∈ s -> p ∈ PortManager.portsOf a ->
      p ∉ PortManager.PLATFORM_PORTS)
  /\ (forall pid name now,
      fst (PortManager.assignPorts s pid name now)
        ∈ snd (PortManager.assignPorts s pid name now))
  /\ (forall pid name now,
      PortManager.getAssignment s pid = None ->
      let a := fst (PortManager.assignPorts s pid name now) in
      PortManager.STARTING_PORT = 4000
      /\ firstFree (PortManager.getUsedPorts s) PortManager.STARTING_PORT
           (PortManager.frontend a)
      /\ firstFree (PortManager.getUsedPorts s) (PortManager.frontend a + 1)
           (PortManager.backend a)).
Proof.
  intros Hreach. destruct (reachable_storeOk s Hreach) as [Hids Hports Hrange].
  split; [|split; [|split]].
  - intros a b p Ha Hb Hne Hp. by apply (NoDup_bind_disjoint s a b p).
  - intros a p Ha Hp Hres. specialize (Hrange a p Ha Hp).
    unfold PortManager.PLATFORM_PORTS, PortManager.STARTING_PORT in *.
    apply elem_of_cons in Hres as [->|Hres]; [lia|].
    apply list_elem_of_singleton in Hres as ->. lia.
  - intros pid name now. unfold PortManager.assignPorts.
    destruct (PortManager.findAssignment s pid) as [e|] eqn:Hfind; simpl.
    + by apply findAssignment_Some in Hfind as [? _].
    + apply elem_of_app. right. by apply list_elem_of_singleton.
  - intros pid name now Hnone a. unfold PortManager.getAssignment in Hnone.
    unfold a, PortManager.assignPorts. rewrite Hnone. simpl.
    split; [reflexivity|]. split; apply findNextPort_firstFree.
Qed.

Lemma port_allocation_unique_witness :
  PortManager.reachable Example.sampleStore
  /\ ((PortManager.portsOf <$> Example.sampleStore) = [[4002; 4003]; [4000; 4001]]
      /\ forall a b p,
          a ∈ Example.sampleStore -> b ∈ Example.sampleStore ->
          PortManager.projectId a <> PortManager.projectId b ->
          p ∈ PortManager.portsOf a -> p ∉ PortManager.portsOf b).
Proof.
  assert (PortManager.reachable Example.sampleStore) as Hreach.
  { unfold Example.sampleStore. cbv zeta.
    apply PortManager.reach_assign, PortManager.reach_release,
      PortManager.reach_assign, PortManager.reach_assign,
      PortManager.reach_empty. }
  split; [exact Hreach|].
  split; [vm_compute; reflexivity|].
  exact (proj1 (port_allocation_unique Example.sampleStore Hreach)).
Defined.

(* ===================================================================== *)
(** ** Facts about the progress value                                     *)
(* ===================================================================== *)

Section ProgressFacts.
Import Progress.
Local Open Scope Q_scope.

Lemma contributes_bounds s : 0 <= contributes s /\ contributes s <= 1.
Proof. destruct s; simpl; split; lra. Qed.

Lemma contributes_full s : contributes s == 1 -> s = completed.
Proof. destruct s; simpl; intros H; try reflexivity; lra. Qed.

(** The two accumulators of the [forEach] add up to the weighted sum. *)
Lemma sumWeights_acc phases c i :
  fst (foldl (fun '(completedWeight, inProgressWeight) p =>
           match ph_status p with
           | completed => (completedWeight + ph_weight p, inProgressWeight)
           | in_progress =>
               (completedWeight, inProgressWeight + ph_weight p * 0.5)
           | _ => (completedWeight, inProgressWeight)
           end) (c, i) phases)
  + snd (foldl (fun '(completedWeight, inProgressWeight) p =>
           match ph_status p with
           | completed => (completedWeight + ph_weight p, inProgressWeight)
           | in_progress =>
               (completedWeight, inProgressWeight + ph_weight p * 0.5)
           | _ => (completedWeight, inProgressWeight)
           end) (c, i) phases)
  == c + i + weighted phases.
Proof.
  revert c i. induction phases as [|p phases IH]; intros c i; simpl.
  - lra.
  - destruct (ph_status p); rewrite IH; simpl; lra.
Qed.

Lemma computeProgress_weighted phases :
  computeProgress phases == Qmin 100 (weighted phases).
Proof.
  unfold computeProgress, sumWeights.
  pose proof (sumWeights_acc phases 0 0) as H.
  destruct (foldl _ _ phases) as [c i]. simpl in H.
  apply Q.min_compat; [reflexivity|]. rewrite H. lra.
Qed.

(** *** Changing one phase *)

Lemma setPhase_statusOf phaseId status n phases phases' other :
  setPhase phaseId status n phases = Some phases' ->
  statusOf other phases'
  = if bool_decide (other = phaseId) then Some status
    else statusOf other phases.
Proof.
  unfold statusOf. revert phases'.
  induction phases as [|p phases IH]; intros phases'; simpl; [done|].
  destruct (decide (ph_id p = phaseId)) as [Hp|Hp].
  - rewrite (bool_decide_true _ Hp). intros [= <-]. simpl.
    destruct (decide (other = phaseId)) as [->|Hne].
    + by rewrite !bool_decide_true.
    + rewrite !bool_decide_false by congruence. done.
  - rewrite (bool_decide_false _ Hp).
    destruct (setPhase phaseId status n phases) as [rest|] eqn:Hrest; [|done].
    simpl. intros [= <-]. simpl. specialize (IH rest eq_refl).
    destruct (decide (ph_id p = other)) as [Hq|Hq].
    + rewrite (bool_decide_true _ Hq).
      by rewrite bool_decide_false by congruence.
    + by rewrite (bool_decide_false _ Hq).
Qed.

Lemma setPhase_found phaseId status n phases :
  is_Some (statusOf phaseId phases) ->
  is_Some (setPhase phaseId status n phases).
Proof.
  unfold statusOf. induction phases as [|p phases IH]; simpl.
  - by intros [? ?].
  - case_bool_decide; [eauto|]. intros Hs. destruct (IH Hs) as [r ->]. eauto.
Qed.

Lemma setPhase_batchPhases phaseId status n phases phases' :
  setPhase phaseId status n phases = Some phases' ->
  batchPhases phases -> batchPhases phases'.
Proof.
  unfold batchPhases. generalize BATCH_PHASES as spec. revert phases'.
  induction phases as [|p phases IH]; intros phases' spec; simpl; [done|].
  case_bool_decide.
  - by intros [= <-].
  - destruct (setPhase phaseId status n phases) as [rest|] eqn:Hrest; [|done].
    simpl. intros [= <-]. destruct spec as [|x spec]; [done|].
    rewrite !fmap_cons. intros [= ? Hspec]. f_equal; [done|].
    by apply (IH rest).
Qed.

(** The weighted sum moves with the share of the phase that changed. *)
Lemma setPhase_weighted phaseId status n phases phases' old :
  setPhase phaseId status n phases = Some phases' ->
  statusOf phaseId phases = Some old ->
  exists weight,
    In weight (ph_weight <$> phases)
    /\ weighted phases'
       == weighted phases + weight * (contributes status - contributes old).
Proof.
  unfold statusOf. revert phases'.
  induction phases as [|p phases IH]; intros phases'; simpl; [done|].
  case_bool_decide.
  - intros [= <-] [= <-]. exists (ph_weight p). split; [by left|]. simpl. lra.
  - destruct (setPhase phaseId status n phases) as [rest|] eqn:Hrest; [|done].
    simpl. intros [= <-] Hold.
    destruct (IH rest eq_refl Hold) as (weight & Hin & Heq).
    exists weight. split; [by right|]. simpl. rewrite Heq. lra.
Qed.

(** *** The phases of a session *)

Lemma batchPhases_inv phases :
  batchPhases phases ->
  exists s1 s2 s3 s4 s5 s6 s7 n1 n2 n3 n4 n5 n6 n7,
    phases =
      [mkPhaseState js:"setup" js:"Setting up project structure" 5 s1 n1;
       mkPhaseState js:"backend" js:"Generating backend API" 30 s2 n2;
       mkPhaseState js:"frontend" js:"Building frontend components" 25 s3 n3;
       mkPhaseState js:"database" js:"Creating database schema" 15 s4 n4;
       mkPhaseState js:"infrastructure" js:"Setting up infrastructure" 10 s5 n5;
       mkPhaseState js:"documentation" js:"Writing documentation" 10 s6 n6;
       mkPhaseState js:"finalizing" js:"Finalizing project" 5 s7 n7].
Proof.
  unfold batchPhases, BATCH_PHASES. intros H.
  repeat (destruct phases as [|[? ? ? ? ?] phases]; [discriminate H|]).
  destruct phases; [|discriminate H].
  simpl in H. simplify_eq. by repeat eexists.
Qed.

Lemma batchPhases_weight phases weight :
  batchPhases phases -> In weight (ph_weight <$> phases) -> 0 < weight.
Proof.
  intros H Hin. apply batchPhases_inv in H.
  destruct H as (s1 & s2 & s3 & s4 & s5 & s6 & s7 & n1 & n2 & n3 & n4 & n5
                 & n6 & n7 & ->).
  simpl in Hin. repeat (destruct Hin as [<-|Hin]; [lra|]). done.
Qed.

(** With the weights of [BATCH_PHASES] the weighted sum reaches 100 only
    when every phase is completed. *)
Lemma batchPhases_full phases :
  batchPhases phases ->
  weighted phases <= 100
  /\ (weighted phases == 100 <-> Forall (fun p => ph_status p = completed) phases).
Proof.
  intros H. apply batchPhases_inv in H.
  destruct H as (s1 & s2 & s3 & s4 & s5 & s6 & s7 & n1 & n2 & n3 & n4 & n5
                 & n6 & n7 & ->).
  unfold weighted. simpl.
  pose proof (contributes_bounds s1) as B1.
  pose proof (contributes_bounds s2) as B2.
  pose proof (contributes_bounds s3) as B3.
  pose proof (contributes_bounds s4) as B4.
  pose proof (contributes_bounds s5) as B5.
  pose proof (contributes_bounds s6) as B6.
  pose proof (contributes_bounds s7) as B7.
  split; [lra|]. split.
  - intros Hsum.
    assert (contributes s1 == 1) as E1 by lra.
    assert (contributes s2 == 1) as E2 by lra.
    assert (contributes s3 == 1) as E3 by lra.
    assert (contributes s4 == 1) as E4 by lra.
    assert (contributes s5 == 1) as E5 by lra.
    assert (contributes s6 == 1) as E6 by lra.
    assert (contributes s7 == 1) as E7 by lra.
    apply contributes_full in E1, E2, E3, E4, E5, E6, E7. subst.
    repeat constructor.
  - intros Hall. repeat (apply Forall_cons in Hall as [? Hall]).
    simpl in *. subst. simpl. lra.
Qed.

End ProgressFacts.

(* ===================================================================== *)
(** ** Facts about the steps of the orchestrator                          *)
(* ===================================================================== *)

Section RunFacts.
Import Progress Generate.

Lemma run_bind {A B} (m : Run A) (k : A -> Run B) w :
  (m ≫= k) w
  = match m w with
    | (inr a, w') => k a w'
    | (inl e, w') => (inl e, w')
    end.
Proof. reflexivity. Qed.

Lemma run_bind_inr {A B} (m : Run A) (k : A -> Run B) w a w1 :
  m w = (inr a, w1) -> (m ≫= k) w = k a w1.
Proof. intros H. by rewrite run_bind, H. Qed.

Lemma run_bind_inv {A B} (m : Run A) (k : A -> Run B) w r w' :
  (m ≫= k) w = (r, w') ->
  (exists e, m w = (inl e, w') /\ r = inl e)
  \/ (exists a w1, m w = (inr a, w1) /\ k a w1 = (r, w')).
Proof.
  rewrite run_bind. destruct (m w) as [[e|a] w1].
  - intros [= <- <-]. left. by exists e.
  - intros H. right. by exists a, w1.
Qed.

Lemma tracked_refl pid w : tracked pid id w w.
Proof.
  split; try done. unfold phasesAt. by destruct (activeGenerations w !! pid).
Qed.

Lemma tracked_trans pid f g w1 w2 w3 :
  tracked pid f w1 w2 -> tracked pid g w2 w3 -> tracked pid (g ∘ f) w1 w3.
Proof.
  intros [P1 Q1 A1 D1 T1 C1 H1 S1] [P2 Q2 A2 D2 T2 C2 H2 S2].
  split; [congruence..| | |].
  - intros q. by rewrite C2, C1.
  - rewrite H2, H1. by destruct (phasesAt w1 pid).
  - by etrans.
Qed.

Lemma tracked_ext pid f g w w' :
  (forall phases, f phases = g phases) -> tracked pid f w w' -> tracked pid g w w'.
Proof.
  intros Hfg [P1 Q1 A1 D1 T1 C1 H1 S1]. split; try done. rewrite H1.
  destruct (phasesAt w pid); simpl; [by rewrite Hfg|done].
Qed.

Lemma yields_inv {A} pid change (m : Run A) a w r w1 :
  yields pid change m a -> m w = (r, w1) ->
  r = inr a /\ tracked pid change w w1.
Proof. intros Hm Hw. destruct (Hm w) as [Hr Ht]. by rewrite Hw in Hr, Ht. Qed.

Lemma yields_ret {A} pid (a : A) : yields pid id (mret a) a.
Proof. intros w. split; [done|apply tracked_refl]. Qed.

Lemma yields_bind {A B} pid f g (m : Run A) (k : A -> Run B) a b :
  yields pid f m a -> yields pid g (k a) b -> yields pid (g ∘ f) (m ≫= k) b.
Proof.
  intros Hm Hk w. destruct (Hm w) as [Hr Ht].
  rewrite run_bind. destruct (m w) as [[e|a'] w1]; simpl in *; [done|].
  injection Hr as ->. destruct (Hk w1) as [Hr' Ht'].
  split; [done|]. by eapply tracked_trans.
Qed.

Lemma yields_ext {A} pid f g (m : Run A) a :
  (forall phases, f phases = g phases) -> yields pid f m a -> yields pid g m a.
Proof.
  intros Hfg Hm w. destruct (Hm w). split; [done|]. by eapply tracked_ext.
Qed.

(** A [try] whose body cannot fail, and one whose body throws at once. *)
Lemma yields_tryCatch {A} pid f (body : Run A) handler a :
  yields pid f body a -> yields pid f (tryCatch body handler) a.
Proof.
  intros Hm w. destruct (Hm w) as [Hr Ht]. unfold tryCatch.
  destruct (body w) as [[e|a'] w1]; simpl in *; [done|]. by split.
Qed.

Lemma yields_tryCatch_throw {A} pid f (handler : jsstring -> Run A) e a :
  yields pid f (handler e) a -> yields pid f (tryCatch (throw e) handler) a.
Proof. intros Hm w. apply Hm. Qed.

Lemma tracks_ret pid : tracks pid id (mret tt).
Proof. intros w. split; [done|apply tracked_refl]. Qed.

Lemma tracks_bind pid f g (m k : Run unit) :
  tracks pid f m -> tracks pid g k -> tracks pid (g ∘ f) (m;; k).
Proof.
  intros Hm Hk w. destruct (Hm w) as [Hr Ht].
  rewrite run_bind. destruct (m w) as [[e|[]] w1]; simpl in *; [done|].
  destruct (Hk w1) as [Hr' Ht']. split; [done|]. by eapply tracked_trans.
Qed.

Lemma tracks_ext pid f g m :
  (forall phases, f phases = g phases) -> tracks pid f m -> tracks pid g m.
Proof.
  intros Hfg Hm w. destruct (Hm w). split; [done|]. by eapply tracked_ext.
Qed.

Lemma tracks_if pid f (b : bool) (m k : Run unit) :
  tracks pid f m -> tracks pid f k -> tracks pid f (if b then m else k).
Proof. by destruct b. Qed.

Lemma tracks_write pid c ev : tracks pid id (write c ev).
Proof.
  intros w. split; [done|]. split; simpl; try done.
  - unfold phasesAt. simpl. by destruct (activeGenerations w !! pid).
  - by apply prefix_app_r.
Qed.

Lemma tracks_forEach_write pid ev clients :
  tracks pid id (forEach (fun client => write client ev) clients).
Proof.
  induction clients as [|c clients IH]; simpl; [apply tracks_ret|].
  eapply tracks_ext; [|eapply tracks_bind; [apply tracks_write|apply IH]]. done.
Qed.

Lemma tracks_sendProgressUpdate pid q ev : tracks pid id (sendProgressUpdate q ev).
Proof.
  intros w. unfold sendProgressUpdate, getGeneration. rewrite run_bind.
  destruct (activeGenerations w !! q).
  - apply tracks_forEach_write.
  - apply tracks_ret.
Qed.

(** Replacing the record of a session by one with the same clients. *)
Lemma tracked_replace pid q g g' change w :
  activeGenerations w !! q = Some g ->
  gen_clients g' = gen_clients g ->
  (q = pid -> gen_phases g' = change (gen_phases g)) ->
  (q <> pid -> forall phases, change phases = phases) ->
  tracked pid change w
    (snd (withGenerations <[q := g']> w)).
Proof.
  intros Hg Hc Hp Hid. split; simpl; try done.
  - intros q'. destruct (decide (q = q')) as [<-|Hne].
    + by rewrite lookup_insert_eq, Hg; simpl; rewrite Hc.
    + by rewrite lookup_insert_ne.
  - unfold phasesAt. simpl. destruct (decide (q = pid)) as [->|Hne].
    + rewrite lookup_insert_eq, Hg. simpl. by rewrite Hp.
    + rewrite lookup_insert_ne by done.
      destruct (activeGenerations w !! pid); simpl; [|done].
      by rewrite Hid.
Qed.

Lemma tracks_addLog pid q msg ty : tracks pid id (addLog q msg ty).
Proof.
  intros w. unfold addLog, getGeneration. rewrite run_bind.
  destruct (activeGenerations w !! q) as [g|] eqn:Hg; [|apply tracks_ret].
  rewrite run_bind. simpl.
  destruct (tracks_sendProgressUpdate pid q
              (EvLog {| log_message := msg; log_type := ty |})
              (snd (withGenerations
                      <[q := mkGeneration (gen_status g) (gen_clients g)
                               (gen_phases g) (gen_progress g)
                               (gen_logs g ++ [mkLogEntry msg ty])
                               (gen_stats g)]> w))) as [Hr Ht].
  split; [exact Hr|].
  eapply (tracked_trans pid id id); [|exact Ht].
  by eapply tracked_replace.
Qed.

Lemma tracks_updateStats pid q updates : tracks pid id (updateStats q updates).
Proof.
  intros w. unfold updateStats, getGeneration. rewrite run_bind.
  destruct (activeGenerations w !! q) as [g|] eqn:Hg; [|apply tracks_ret].
  rewrite run_bind. simpl.
  destruct (tracks_sendProgressUpdate pid q (EvStats (updates (gen_stats g)))
              (snd (withGenerations
                      <[q := mkGeneration (gen_status g) (gen_clients g)
                               (gen_phases g) (gen_progress g) (gen_logs g)
                               (updates (gen_stats g))]> w))) as [Hr Ht].
  split; [exact Hr|].
  eapply (tracked_trans pid id id); [|exact Ht].
  by eapply tracked_replace.
Qed.

Lemma tracks_updatePhase pid phaseId status n :
  tracks pid (markPhase phaseId status n) (updatePhase pid phaseId status n).
Proof.
  intros w. unfold updatePhase, getGeneration. rewrite run_bind.
  destruct (activeGenerations w !! pid) as [g|] eqn:Hg.
  - destruct (setPhase phaseId status n (gen_phases g)) as [phases|] eqn:Hset.
    + rewrite run_bind. simpl.
      destruct (tracks_sendProgressUpdate pid pid
                  (EvPhase phaseId status n (computeProgress phases) phases)
                  (snd (withGenerations
                          <[pid := mkGeneration (gen_status g) (gen_clients g)
                                     phases (computeProgress phases)
                                     (gen_logs g) (gen_stats g)]> w)))
        as [Hr Ht].
      split; [exact Hr|].
      eapply tracked_ext; [|eapply tracked_trans; [|exact Ht]].
      * intros phases'. reflexivity.
      * eapply tracked_replace; [done|done| |done].
        intros _. simpl. unfold markPhase. by rewrite Hset.
    + split; [done|]. simpl. split; try done.
      * unfold phasesAt. rewrite Hg. simpl. unfold markPhase. by rewrite Hset.
    - split; [done|]. simpl. split; try done. unfold phasesAt. by rewrite Hg.
Qed.

End RunFacts.

Section ProgressClaim.
Import Progress Generate.

Lemma forEach_write_generations ev clients w :
  activeGenerations (snd (forEach (fun client => write client ev) clients w))
  = activeGenerations w.
Proof.
  revert w. induction clients as [|c clients IH]; intros w; simpl; [done|].
  rewrite run_bind. simpl. by rewrite IH.
Qed.

Lemma sendProgressUpdate_generations q ev w :
  activeGenerations (snd (sendProgressUpdate q ev w)) = activeGenerations w.
Proof.
  unfold sendProgressUpdate, getGeneration. rewrite run_bind.
  destruct (activeGenerations w !! q); [|done].
  apply forEach_write_generations.
Qed.

Lemma updatePhase_session pid phaseId status n w g phases :
  activeGenerations w !! pid = Some g ->
  setPhase phaseId status n (gen_phases g) = Some phases ->
  activeGenerations (snd (updatePhase pid phaseId status n w)) !! pid
  = Some (mkGeneration (gen_status g) (gen_clients g) phases
            (computeProgress phases) (gen_logs g) (gen_stats g)).
Proof.
  intros Hg Hset. unfold updatePhase, getGeneration.
  rewrite run_bind, Hg, Hset, run_bind. simpl.
  rewrite sendProgressUpdate_generations. simpl. apply lookup_insert_eq.
Qed.

End ProgressClaim.

(** C4 (as amended).  Every [updatePhase] on a phase of a session stores
    the new status and recomputes the progress as the weights of the
    completed phases plus half the weights of the phases in progress
    (pending and failed phases add nothing), capped at 100.  With the
    phases of [BATCH_PHASES] the progress is 100 exactly when every phase
    is completed.  When the new status of the phase does not contribute
    less than its old status (the phase does not leave [completed], and
    does not go from [in_progress] to [pending] or [failed]), the new
    progress is not below the old one. *)
Theorem progress_recomputed_monotone
  (w : World) (projectId phaseId : jsstring)
  (status old : Progress.PhaseStatus) (filesCount : nat)
  (g : Progress.Generation) :
  activeGenerations w !! projectId = Some g ->
  batchPhases (Progress.gen_phases g) ->
  statusOf phaseId (Progress.gen_phases g) = Some old ->
  exists g',
    activeGenerations
      (snd (Generate.updatePhase projectId phaseId status filesCount w))
      !! projectId = Some g'
    /\ batchPhases (Progress.gen_phases g')
    /\ (forall other,
          statusOf other (Progress.gen_phases g')
          = if bool_decide (other = phaseId) then Some status
            else statusOf other (Progress.gen_phases g))
    /\ (Progress.gen_progress g'
        == Qmin 100 (weighted (Progress.gen_phases g')))%Q
    /\ ((Progress.gen_progress g' == 100)%Q
        <-> Forall (fun p => Progress.ph_status p = Progress.completed)
              (Progress.gen_phases g'))
    /\ ((Progress.gen_progress g
         == Qmin 100 (weighted (Progress.gen_phases g)))%Q ->
        (contributes old <= contributes status)%Q ->
        (Progress.gen_progress g <= Progress.gen_progress g')%Q).
Proof.
  intros Hg Hbatch Hold.
  destruct (setPhase_found phaseId status filesCount (Progress.gen_phases g))
    as [phases Hset]; [by rewrite Hold|].
  eexists. split; [by eapply updatePhase_session|]. simpl.
  pose proof (setPhase_batchPhases _ _ _ _ _ Hset Hbatch) as Hbatch'.
  destruct (batchPhases_full _ Hbatch') as [Hle Hfull].
  split; [done|]. split; [intros other; by eapply setPhase_statusOf|].
  split; [apply computeProgress_weighted|]. split.
  - rewrite computeProgress_weighted, <- Hfull. split.
    + intros Hmin. apply Qle_antisym; [done|].
      rewrite <- Hmin. apply Q.le_min_r.
    + intros ->. by apply Q.min_l.
  - intros Hcons Hrank. rewrite Hcons, computeProgress_weighted.
    apply Q.min_le_compat_l.
    destruct (setPhase_weighted _ _ _ _ _ _ Hset Hold) as (weight & Hin & ->).
    pose proof (batchPhases_weight _ _ Hbatch Hin) as Hpos.
    assert (0 <= weight * (contributes status - contributes old))%Q; [|lra].
    apply Qmult_le_0_compat; lra.
Qed.


Lemma progress_recomputed_monotone_witness :
  activeGenerations Example.accepted !! js:"p1" <> None
  /\ (progressOf Example.accepted js:"p1"
      <= progressOf
           (snd (Generate.updatePhase js:"p1" js:"backend"
                   Progress.in_progress 0 Example.accepted))
           js:"p1")%Q.
Proof.
  destruct (activeGenerations Example.accepted !! js:"p1") as [g|] eqn:Hg;
    [|vm_compute in Hg; discriminate Hg].
  split; [discriminate|].
  assert (Some g = Some (Progress.mkGeneration js:"generating" [7%nat]
                           Progress.initialPhases 0%Q [] Progress.noStats))
    as [= ->] by (rewrite <- Hg; vm_compute; reflexivity).
  destruct (progress_recomputed_monotone Example.accepted js:"p1" js:"backend"
              Progress.in_progress Progress.pending 0 _ Hg)
    as (g' & Hg' & _ & _ & _ & _ & Hmono);
    [reflexivity|reflexivity|].
  unfold progressOf. rewrite Hg, Hg'. simpl. apply Hmono.
  - vm_compute. reflexivity.
  - vm_compute. discriminate.
Defined.

(** A run in which the backend phase throws: the progress written to the
    client falls from 20 to 5 when the phase is marked failed, although
    no phase ever leaves [completed]. *)
Lemma progress_falls_when_phase_fails :
  Example.readings
    (snd (Example.batch
            (Example.env Example.backendThrows Example.diskWorks true)))
  = [(js:"setup", Progress.in_progress, 5 # 2);
     (js:"setup", Progress.completed, 5 # 1);
     (js:"backend", Progress.in_progress, 20 # 1);
     (js:"backend", Progress.failed, 5 # 1);
     (js:"frontend", Progress.in_progress, 35 # 2);
     (js:"frontend", Progress.completed, 30 # 1);
     (js:"database", Progress.in_progress, 75 # 2);
     (js:"database", Progress.completed, 45 # 1);
     (js:"infrastructure", Progress.in_progress, 50 # 1);
     (js:"infrastructure", Progress.completed, 55 # 1);
     (js:"documentation", Progress.in_progress, 60 # 1);
     (js:"documentation", Progress.completed, 65 # 1);
     (js:"finalizing", Progress.in_progress, 135 # 2);
     (js:"finalizing", Progress.completed, 70 # 1)]%Q
  /\ ~ (20 # 1 <= 5 # 1)%Q.
Proof. split; [vm_compute; reflexivity|vm_compute; congruence]. Qed.

(* ===================================================================== *)
(** ** Facts about the file-system service                                *)
(* ===================================================================== *)

Section FileSystemFacts.
Import FileSystem.

Lemma fs_bind {A B} (m : FS A) (k : A -> FS B) d :
  (m ≫= k) d
  = match m d with
    | (inr a, d') => k a d'
    | (inl e, d') => (inl e, d')
    end.
Proof. reflexivity. Qed.

Lemma grows_refl d : grows d d.
Proof. by intros path. Qed.

Lemma grows_trans d1 d2 d3 : grows d1 d2 -> grows d2 d3 -> grows d1 d3.
Proof. intros H12 H23 path H. by apply H23, H12. Qed.

Lemma grows_insert (d : Disk) path content : grows d (<[path := content]> d).
Proof.
  intros p H. destruct (decide (path = p)) as [->|Hne].
  - rewrite lookup_insert_eq. eauto.
  - by rewrite lookup_insert_ne.
Qed.

Lemma writesNothing_bind {A B} (m : FS A) (k : A -> FS B) :
  writesNothing m -> (forall a, writesNothing (k a)) -> writesNothing (m ≫= k).
Proof.
  intros Hm Hk d. rewrite fs_bind. specialize (Hm d).
  destruct (m d) as [[e|a] d1]; simpl in Hm; subst; [done|]. apply Hk.
Qed.

Lemma removesNothing_bind {A B} (m : FS A) (k : A -> FS B) :
  removesNothing m -> (forall a, removesNothing (k a)) ->
  removesNothing (m ≫= k).
Proof.
  intros Hm Hk d. rewrite fs_bind. specialize (Hm d).
  destruct (m d) as [[e|a] d1]; simpl in Hm; [done|].
  eapply grows_trans; [exact Hm|apply Hk].
Qed.

Lemma writesNothing_removesNothing {A} (m : FS A) :
  writesNothing m -> removesNothing m.
Proof. intros Hm d. rewrite Hm. apply grows_refl. Qed.

Lemma writesNothing_ret {A} (a : A) : writesNothing (mret a).
Proof. by intros d. Qed.

Lemma writesNothing_throw {A} e : writesNothing (@throwFS A e).
Proof. by intros d. Qed.

Lemma writesNothing_ensureDir env path : writesNothing (ensureDir env path).
Proof. intros d. unfold ensureDir. by destruct (mkdirError env path). Qed.

Lemma writesNothing_forEach {A} (body : A -> FS unit) l :
  (forall a, writesNothing (body a)) -> writesNothing (forEachFS body l).
Proof.
  intros Hbody. induction l as [|a l IH]; simpl.
  - apply writesNothing_ret.
  - apply writesNothing_bind; [apply Hbody|]. by intros _.
Qed.

Lemma removesNothing_forEach {A} (body : A -> FS unit) l :
  (forall a, removesNothing (body a)) -> removesNothing (forEachFS body l).
Proof.
  intros Hbody. induction l as [|a l IH]; simpl.
  - apply writesNothing_removesNothing, writesNothing_ret.
  - apply removesNothing_bind; [apply Hbody|]. by intros _.
Qed.

(** Creating the folder structure writes no file. *)
Lemma createProjectStructure_disk {rt : Runtime} env pid name :
  writesNothing (createProjectStructure env pid name).
Proof.
  unfold createProjectStructure.
  apply writesNothing_bind; [apply writesNothing_ensureDir|]. intros _.
  destruct (getProjectPath env pid (slugify name)) as [e|path];
    [apply writesNothing_throw|].
  apply writesNothing_bind; [apply writesNothing_ensureDir|]. intros _.
  apply writesNothing_bind; [|intros _; apply writesNothing_ret].
  apply writesNothing_forEach. intros folder. apply writesNothing_ensureDir.
Qed.

Lemma removesNothing_writeFile env path content :
  removesNothing (writeFile env path content).
Proof.
  intros d. unfold writeFile. destruct (writeError env path); simpl.
  - apply grows_refl.
  - apply grows_insert.
Qed.

Lemma writeFile_written (env : Env) (path : jsstring)
  (content : Written) (d d' : Disk) :
  writeFile env path content d = (inr tt, d') -> is_Some (d' !! path).
Proof.
  unfold writeFile. destruct (writeError env path); [done|].
  intros [= <-]. rewrite lookup_insert_eq. eauto.
Qed.

Lemma removesNothing_saveFile env base rel content :
  removesNothing (saveFile env base rel content).
Proof.
  unfold saveFile. apply removesNothing_bind.
  { apply writesNothing_removesNothing, writesNothing_ensureDir. }
  intros _. apply removesNothing_bind; [apply removesNothing_writeFile|].
  intros _. apply writesNothing_removesNothing, writesNothing_ret.
Qed.

Lemma saveFile_written (env : Env) (base rel : jsstring)
  (content : Written) (d d' : Disk) (path : jsstring) :
  saveFile env base rel content d = (inr path, d') ->
  is_Some (d' !! Path.join base rel).
Proof.
  unfold saveFile. rewrite fs_bind.
  pose proof (writesNothing_ensureDir env
                (Path.dirname (Path.join base rel)) d) as Hd.
  destruct (ensureDir env _ d) as [[e|[]] d1]; [done|].
  cbn [snd] in Hd. subst d1. rewrite fs_bind.
  destruct (writeFile env _ content d) as [[e|[]] d1] eqn:Hw; [done|].
  intros [= _ <-]. by eapply writeFile_written.
Qed.

Lemma removesNothing_saveEach env base (entries : list (jsstring * jsstring)) :
  removesNothing
    (forEachFS (fun '(rel, content) =>
                  saveFile env base rel (GeneratedFile content);; mret tt)
               entries).
Proof.
  apply removesNothing_forEach. intros [rel content].
  apply removesNothing_bind; [apply removesNothing_saveFile|].
  intros _. apply writesNothing_removesNothing, writesNothing_ret.
Qed.

Lemma saveEach_written (env : Env) (base : jsstring)
  (entries : list (jsstring * jsstring)) (d d' : Disk)
  (rel content : jsstring) :
  forEachFS (fun '(rel, content) =>
               saveFile env base rel (GeneratedFile content);; mret tt)
            entries d = (inr tt, d') ->
  (rel, content) ∈ entries ->
  is_Some (d' !! Path.join base rel).
Proof.
  revert d. induction entries as [|[rel' content'] entries IH]; intros d.
  { intros _ Hin. by apply elem_of_nil in Hin. }
  cbn [forEachFS]. rewrite !fs_bind.
  destruct (saveFile env base rel' _ d) as [[e|p] d1] eqn:Hsave; [done|].
  change ((mret tt : FS unit) d1) with (@inr jsstring unit tt, d1).
  cbv beta iota. intros Hrest Hin.
  apply elem_of_cons in Hin as [[= -> ->]|Hin].
  - pose proof (removesNothing_saveEach env base entries d1) as Hg.
    rewrite Hrest in Hg. apply Hg. by eapply saveFile_written.
  - by eapply IH.
Qed.

Lemma removesNothing_saveMultipleFiles env (base : jsstring) files :
  removesNothing (saveMultipleFiles env base files).
Proof.
  unfold saveMultipleFiles.
  apply removesNothing_bind; [apply removesNothing_saveEach|].
  intros _. apply writesNothing_removesNothing, writesNothing_ret.
Qed.

(** When every file is saved, the saved paths are the keys of the map
    and each one is on disk. *)
Lemma saveMultipleFiles_saved (env : Env) (base : jsstring) (files : FileMap)
  (d d' : Disk) (saved : list jsstring) :
  saveMultipleFiles env base files d = (inr saved, d') ->
  saved = (map_to_list files).*1
  /\ forall rel, is_Some (files !! rel) -> is_Some (d' !! Path.join base rel).
Proof.
  unfold saveMultipleFiles. rewrite fs_bind.
  destruct (forEachFS _ (map_to_list files) d) as [[e|[]] d1] eqn:Hall; [done|].
  intros [= <- <-]. split; [done|]. intros rel [content Hrel].
  eapply saveEach_written; [exact Hall|].
  by apply elem_of_map_to_list.
Qed.

Lemma removesNothing_saveProjectMetadata env pid slug metadata :
  removesNothing (saveProjectMetadata env pid slug metadata).
Proof.
  unfold saveProjectMetadata.
  destruct (getProjectPath env pid slug) as [e|path].
  { apply writesNothing_removesNothing, writesNothing_throw. }
  apply removesNothing_bind.
  { apply writesNothing_removesNothing, writesNothing_ensureDir. }
  intros _. apply removesNothing_writeFile.
Qed.

Lemma removesNothing_createBackendPackageJson env base name :
  removesNothing (createBackendPackageJson env base name).
Proof.
  unfold createBackendPackageJson.
  apply removesNothing_bind; [apply removesNothing_saveFile|].
  intros _. apply writesNothing_removesNothing, writesNothing_ret.
Qed.

Lemma removesNothing_createFrontendPackageJson env base name :
  removesNothing (createFrontendPackageJson env base name).
Proof.
  unfold createFrontendPackageJson.
  apply removesNothing_bind; [apply removesNothing_saveFile|].
  intros _. apply writesNothing_removesNothing, writesNothing_ret.
Qed.

End FileSystemFacts.

(* ===================================================================== *)
(** ** The content phases never abort the run                             *)
(* ===================================================================== *)

Section Blocks.
Import MultiFileGenerator Progress Generate.

Lemma yields_if {A} pid f (c : bool) (m k : Run A) a :
  yields pid f m a -> yields pid f k a -> yields pid f (if c then m else k) a.
Proof. by destruct c. Qed.

(** One content phase: whether the generator throws or not, the block
    returns the local variables of [blockLocals] and leaves the phases
    of the session as [blockMarks] says. *)
Lemma runBlock_yields env pid config b l :
  yields pid (blockMarks env config b) (runBlock env pid config b l)
    (blockLocals env config b l).
Proof.
  unfold runBlock, blockMarks, blockLocals.
  destruct (generateSinglePhase env (blk_phase b) config) as [e|result].
  - eapply yields_ext; cycle 1.
    + eapply yields_bind; [apply tracks_updatePhase|].
      eapply yields_bind; [apply tracks_addLog|].
      eapply yields_bind.
      { apply yields_if; [apply tracks_addLog|apply tracks_ret]. }
      apply yields_tryCatch_throw.
      eapply yields_bind; [apply tracks_addLog|].
      eapply yields_bind; [apply tracks_updatePhase|].
      apply yields_ret.
    + done.
  - eapply yields_ext; cycle 1.
    + eapply yields_bind; [apply tracks_updatePhase|].
      eapply yields_bind; [apply tracks_addLog|].
      eapply yields_bind.
      { apply yields_if; [apply tracks_addLog|apply tracks_ret]. }
      apply yields_tryCatch.
      eapply yields_bind; [apply tracks_addLog|].
      eapply yields_bind.
      { destruct (blk_critical b) as [needle|]; [|apply tracks_ret].
        apply yields_if; [apply tracks_ret|apply tracks_addLog]. }
      eapply yields_bind; [apply tracks_updateStats|].
      eapply yields_bind; [apply tracks_updatePhase|].
      apply yields_ret.
    + intros phases. simpl. by rewrite length_fmap, length_map_to_list.
Qed.

Lemma runBlocks_yields env pid config blocks l :
  yields pid (blocksMarks env config blocks)
    (runBlocks env pid config blocks l)
    (foldl (fun l b => blockLocals env config b l) l blocks).
Proof.
  revert l. induction blocks as [|b blocks IH]; intros l; simpl.
  - apply yields_ret.
  - eapply yields_ext; [|eapply yields_bind; [apply runBlock_yields|apply IH]].
    done.
Qed.

(** *** The local variables after the content phases *)

Lemma blockLocals_phaseResults env config blocks l :
  pr_phase <$> phaseResults (foldl (fun l b => blockLocals env config b l) l blocks)
  = (pr_phase <$> phaseResults l) ++ (blk_phase <$> blocks).
Proof.
  revert l. induction blocks as [|b blocks IH]; intros l; simpl.
  - by rewrite app_nil_r.
  - rewrite IH. unfold blockLocals.
    destruct (generateSinglePhase env (blk_phase b) config); simpl;
      by rewrite fmap_app, <- app_assoc.
Qed.

(** The accumulated files are those of the phases that produced some:
    a path is a key of [allFiles] exactly when a phase produced it. *)
Lemma blockLocals_allFiles env config blocks l path :
  is_Some (allFiles (foldl (fun l b => blockLocals env config b l) l blocks)
             !! path)
  <-> is_Some (allFiles l !! path)
      \/ exists b, b ∈ blocks
                   /\ is_Some (produced env config (blk_phase b) !! path).
Proof.
  revert l. induction blocks as [|b blocks IH]; intros l; simpl.
  - split; [by left|]. intros [H|(b & Hb & _)]; [done|].
    by apply elem_of_nil in Hb.
  - rewrite IH. unfold blockLocals, produced.
    destruct (generateSinglePhase env (blk_phase b) config) as [e|result] eqn:Hg;
      simpl.
    + split.
      * intros [H|(b' & Hb' & H)]; [by left|].
        right. exists b'. split; [by apply elem_of_cons; right|done].
      * intros [H|(b' & Hb' & H)]; [by left|].
        apply elem_of_cons in Hb' as [->|Hb'].
        -- rewrite Hg in H. rewrite lookup_empty in H. by destruct H.
        -- right. by exists b'.
    + rewrite lookup_union_is_Some. split.
      * intros [[H|H]|(b' & Hb' & H)].
        -- right. exists b. split; [by apply elem_of_cons; left|].
           by rewrite Hg.
        -- by left.
        -- right. exists b'. split; [by apply elem_of_cons; right|done].
      * intros [H|(b' & Hb' & H)]; [by left; right|].
        apply elem_of_cons in Hb' as [->|Hb'].
        -- rewrite Hg in H. by left; left.
        -- right. by exists b'.
Qed.

(** The entries of [phaseResults] that carry an error are among those of
    the phases that threw. *)
Lemma blockLocals_failedPhases env config blocks l :
  (length (failedPhases
             (phaseResults (foldl (fun l b => blockLocals env config b l) l
                              blocks)))
   <= length (failedPhases (phaseResults l))
      + length (List.filter
                  (fun b =>
                     match generateSinglePhase env (blk_phase b) config with
                     | inl _ => true
                     | inr _ => false
                     end) blocks))%nat.
Proof.
  revert l. induction blocks as [|b blocks IH]; intros l; simpl; [lia|].
  etrans; [apply IH|]. unfold blockLocals, failedPhases.
  destruct (generateSinglePhase env (blk_phase b) config) as [e|result]; simpl;
    rewrite List.filter_app, length_app; simpl.
  - destruct (JS.truthyString e); simpl; lia.
  - lia.
Qed.

End Blocks.

(* ===================================================================== *)
(** ** The finalizing phase                                               *)
(* ===================================================================== *)

Section Finalize.
Import MultiFileGenerator Progress Generate.
Context {rt : Runtime}.

Lemma stepped_refl pid w : stepped pid id id w w.
Proof.
  split.
  - unfold statusAt. by destruct (projects w !! pid).
  - apply grows_refl.
  - unfold phasesAt. by destruct (activeGenerations w !! pid).
Qed.

Lemma stepped_trans pid f g p q w1 w2 w3 :
  stepped pid f p w1 w2 -> stepped pid g q w2 w3 ->
  stepped pid (g ∘ f) (q ∘ p) w1 w3.
Proof.
  intros [S1 D1 P1] [S2 D2 P2]. split.
  - rewrite S2, S1. by destruct (statusAt w1 pid).
  - by eapply grows_trans.
  - rewrite P2, P1. by destruct (phasesAt w1 pid).
Qed.

Lemma stepped_ext pid f g p q w w' :
  (forall phases, f phases = g phases) -> (forall s, p s = q s) ->
  stepped pid f p w w' -> stepped pid g q w w'.
Proof.
  intros Hfg Hpq [S1 D1 P1]. split; [|done|].
  - rewrite S1. destruct (statusAt w pid); simpl; by rewrite ?Hpq.
  - rewrite P1. destruct (phasesAt w pid); simpl; by rewrite ?Hfg.
Qed.

Lemma tracked_stepped pid f w w' : tracked pid f w w' -> stepped pid f id w w'.
Proof.
  intros [P Q A D T C H S]. split; [| |done].
  - unfold statusAt. rewrite P. by destruct (projects w !! pid).
  - rewrite D. apply grows_refl.
Qed.

Lemma yields_stepped {A} pid f (m : Run A) a w r w' :
  yields pid f m a -> m w = (r, w') -> r = inr a /\ stepped pid f id w w'.
Proof.
  intros Hm Hw. destruct (yields_inv _ _ _ _ _ _ _ Hm Hw) as [-> Ht].
  split; [done|]. by apply tracked_stepped.
Qed.

(** A file-system action that removes nothing. *)
Lemma onDisk_stepped {A} pid (m : FileSystem.FS A) w r w' :
  removesNothing m -> onDisk m w = (r, w') ->
  stepped pid id id w w' /\ m (disk w) = (r, disk w').
Proof.
  intros Hm. unfold onDisk. specialize (Hm (disk w)).
  destruct (m (disk w)) as [r' d]. intros [= <- <-]. split; [|done].
  split; simpl.
  - unfold statusAt. simpl. by destruct (projects w !! pid).
  - exact Hm.
  - unfold phasesAt. simpl. by destruct (activeGenerations w !! pid).
Qed.

Lemma statusAt_updateProject (ps : Project.Store) pid u :
  Project.status <$> Project.updateProject ps pid u !! pid
  = (fun s => default s (Project.u_status u)) <$> (Project.status <$> ps !! pid).
Proof.
  unfold Project.updateProject. destruct (ps !! pid) as [p|] eqn:Hp.
  - by rewrite lookup_insert_eq.
  - by rewrite Hp.
Qed.

Lemma updateProject_stepped pid u w r w' :
  updateProject pid u w = (r, w') ->
  r = inr tt
  /\ stepped pid id (fun s => default s (Project.u_status u)) w w'.
Proof.
  intros [= <- <-]. split; [done|]. split; simpl.
  - unfold statusAt. simpl. apply statusAt_updateProject.
  - apply grows_refl.
  - unfold phasesAt. simpl. by destruct (activeGenerations w !! pid).
Qed.

Lemma assignPorts_stepped env pid name w r w' :
  assignPorts env pid name w = (r, w') -> stepped pid id id w w'.
Proof.
  unfold assignPorts.
  destruct (PortManager.assignPorts _ _ _ _) as [a s].
  destruct (PortManager.findAssignment _ _), (portStoreError env);
    intros [= <- <-]; try apply stepped_refl;
    (split; simpl;
     [unfold statusAt; simpl; by destruct (projects w !! pid)
     |apply grows_refl
     |unfold phasesAt; simpl; by destruct (activeGenerations w !! pid)]).
Qed.

Lemma setTimeout_stepped pid w r w' :
  setTimeout pid w = (r, w') -> stepped pid id id w w'.
Proof.
  intros [= <- <-]. split; simpl.
  - unfold statusAt. simpl. by destruct (projects w !! pid).
  - apply grows_refl.
  - unfold phasesAt. simpl. by destruct (activeGenerations w !! pid).
Qed.

(** Inversion of a sequence that returned: its first step returned. *)
Tactic Notation "run_ok" hyp(H) "as" ident(a) ident(w1) ident(Hm) :=
  apply run_bind_inv in H as [(? & _ & [=]) | (a & w1 & Hm & H)];
  cbv beta in H.

(** The same when the first step cannot fail and only tracks. *)
Tactic Notation "run_quiet" hyp(H) "as" ident(w1) ident(Hs) "by" uconstr(lem) :=
  let a := fresh "a" in
  let Hm := fresh "Hm" in
  run_ok H as a w1 Hm;
  eapply yields_stepped in Hm as [_ Hs]; [|by apply lem].

Lemma ensureManifest_stepped env pid config path files backend saved w saved' w' :
  ensureManifest env pid config path files backend saved w = (inr saved', w') ->
  stepped pid id id w w' /\ exists extra, saved' = saved ++ extra.
Proof.
  unfold ensureManifest. case_bool_decide as Hin.
  - intros [= <- <-]. split; [apply stepped_refl|]. exists []. by rewrite app_nil_r.
  - intros H. run_ok H as a w1 Hm.
    apply (onDisk_stepped pid) in Hm as [Hs1 _]; cycle 1.
    { destruct backend;
        [apply removesNothing_createBackendPackageJson
        |apply removesNothing_createFrontendPackageJson]. }
    run_quiet H as w2 Hs2 by tracks_addLog.
    injection H as <- <-. split; [|by eexists].
    eapply stepped_ext; [| |exact (stepped_trans _ _ _ _ _ _ _ _ Hs1 Hs2)]; done.
Qed.

Lemma writeEnvFiles_stepped env pid config path w ports w' :
  writeEnvFiles env pid config path w = (inr ports, w') ->
  stepped pid id id w w'.
Proof.
  unfold writeEnvFiles. intros H.
  run_quiet H as w1 Hs1 by tracks_addLog.
  run_ok H as ports' w2 Hm2. apply (assignPorts_stepped _ pid) in Hm2.
  run_ok H as a3 w3 Hm3.
  apply (onDisk_stepped pid) in Hm3 as [Hs3 _];
    [|apply removesNothing_writeFile].
  run_ok H as a4 w4 Hm4.
  apply (onDisk_stepped pid) in Hm4 as [Hs4 _];
    [|apply removesNothing_writeFile].
  run_quiet H as w5 Hs5 by tracks_addLog.
  injection H as <- <-.
  pose proof (stepped_trans _ _ _ _ _ _ _ _ Hs1 Hm2) as Hs.
  pose proof (stepped_trans _ _ _ _ _ _ _ _ Hs Hs3) as Hs'.
  pose proof (stepped_trans _ _ _ _ _ _ _ _ Hs' Hs4) as Hs''.
  eapply stepped_ext; [| |exact (stepped_trans _ _ _ _ _ _ _ _ Hs'' Hs5)]; done.
Qed.

Lemma smokeTest_stepped env pid path saved w test w' :
  smokeTest env pid path saved w = (inr test, w') -> stepped pid id id w w'.
Proof.
  unfold smokeTest. destruct (findServerFile saved) as [serverFile|]; intros H.
  - run_quiet H as w1 Hs1 by tracks_addLog.
    destruct (testCode env _) as [e|testResult]; [done|].
    run_quiet H as w2 Hs2
      by (yields_if pid id (Project.test_success testResult) _ _ tt
            (tracks_addLog _ _ _ _) (tracks_addLog _ _ _ _)).
    injection H as <- <-.
    eapply stepped_ext; [| |exact (stepped_trans _ _ _ _ _ _ _ _ Hs1 Hs2)]; done.
  - run_quiet H as w1 Hs1 by tracks_addLog.
    by injection H as <- <-.
Qed.

(** The last stretch cannot fail: it stores the final status. *)
Lemma conclude_stepped pid path saved stats test w r w' :
  conclude pid path saved stats test w = (r, w') ->
  let status :=
    finalStatus (fs_phases stats) (Project.test_success test) in
  r = inr (mkBatchResult (bool_decide (status = Project.DEPLOYED)) None
             (Some path) saved (fs_phases stats) (Some test))
  /\ stepped pid id (fun _ => status) w w'.
Proof.
  intros H status. unfold conclude in H. fold status in H.
  rewrite run_bind in H.
  destruct (updateProject pid _ w) as [r1 w1] eqn:Hm1.
  apply updateProject_stepped in Hm1 as [Hr Hs1]. subst.
  rewrite run_bind in H.
  destruct (addLog pid MsgDone success w1) as [r2 w2] eqn:Hm2.
  eapply (yields_stepped pid) in Hm2 as [Hr Hs2]; [|apply tracks_addLog]. subst.
  rewrite run_bind in H.
  destruct (addLog pid _ success w2) as [r3 w3] eqn:Hm3.
  eapply (yields_stepped pid) in Hm3 as [Hr Hs3]; [|apply tracks_addLog]. subst.
  rewrite run_bind in H.
  destruct ((if (0 <? length (failedPhases (fs_phases stats)))%nat
             then addLog pid _ warning else mret tt) w3) as [r4 w4] eqn:Hm4.
  eapply (yields_stepped pid) in Hm4 as [Hr Hs4];
    [|apply yields_if; [apply tracks_addLog|apply tracks_ret]]. subst.
  rewrite run_bind in H.
  destruct (sendProgressUpdate pid _ w4) as [r5 w5] eqn:Hm5.
  eapply (yields_stepped pid) in Hm5 as [Hr Hs5];
    [|apply tracks_sendProgressUpdate]. subst.
  rewrite run_bind in H.
  destruct (setTimeout pid w5) as [r6 w6] eqn:Hm6.
  pose proof (setTimeout_stepped _ _ _ _ Hm6) as Hs6.
  unfold setTimeout in Hm6. injection Hm6 as <- _.
  injection H as <- <-. split; [done|].
  pose proof (stepped_trans _ _ _ _ _ _ _ _ Hs1 Hs2) as Ha.
  pose proof (stepped_trans _ _ _ _ _ _ _ _ Ha Hs3) as Hb.
  pose proof (stepped_trans _ _ _ _ _ _ _ _ Hb Hs4) as Hc.
  pose proof (stepped_trans _ _ _ _ _ _ _ _ Hc Hs5) as Hd.
  eapply stepped_ext; [| |exact (stepped_trans _ _ _ _ _ _ _ _ Hd Hs6)]; done.
Qed.

(** What phase 6 has done when it returns. *)
Lemma finalizePhase_returns env pid config path slug l w res w' :
  finalizePhase env pid config path slug l w = (inr res, w') ->
  size (allFiles l) <> 0%nat
  /\ exists test,
       let status :=
         finalStatus (phaseResults l) (Project.test_success test) in
       res_testResults res = Some test
       /\ res_phaseResults res = phaseResults l
       /\ res_error res = None
       /\ res_outputPath res = Some path
       /\ res_success res = bool_decide (status = Project.DEPLOYED)
       /\ (forall rel,
             is_Some (allFiles l !! rel) ->
             rel ∈ res_filesGenerated res
             /\ is_Some (disk w' !! Path.join path rel))
       /\ stepped pid
            (markPhase js:"finalizing" completed 0
             ∘ markPhase js:"finalizing" in_progress 0)
            (fun _ => status) w w'.
Proof.
  unfold finalizePhase. intros H.
  run_quiet H as w1 Hs1 by (tracks_updatePhase pid).
  run_quiet H as w2 Hs2 by (tracks_addLog pid).
  case_bool_decide as Hsize.
  { apply run_bind_inv in H as [(? & _ & [=]) | (? & ? & [=] & _)]. }
  split; [done|].
  run_ok H as a3 w3 Hm3. injection Hm3 as _ <-.
  run_quiet H as w4 Hs4 by (tracks_addLog pid).
  run_ok H as saved0 w5 Hm5.
  apply (onDisk_stepped pid) in Hm5 as [Hs5 Hsaved];
    [|apply removesNothing_saveMultipleFiles].
  apply saveMultipleFiles_saved in Hsaved as [-> Hdisk5].
  run_ok H as saved1 w6 Hm6.
  apply ensureManifest_stepped in Hm6 as [Hs6 [extra1 ->]].
  run_ok H as saved2 w7 Hm7.
  apply ensureManifest_stepped in Hm7 as [Hs7 [extra2 ->]].
  run_ok H as ports w8 Hm8. apply writeEnvFiles_stepped in Hm8.
  run_ok H as a9 w9 Hm9.
  apply (onDisk_stepped pid) in Hm9 as [Hs9 _];
    [|apply removesNothing_saveProjectMetadata].
  run_ok H as a10 w10 Hm10. apply (updateProject_stepped pid) in Hm10 as [_ Hs10].
  run_ok H as test w11 Hm11. apply (smokeTest_stepped _ pid) in Hm11.
  run_quiet H as w12 Hs12 by (tracks_updatePhase pid).
  apply conclude_stepped in H as [[= ->] Hs13]. simpl in Hs13.
  exists test. simpl. repeat (split; [done|]).
  pose proof (stepped_trans _ _ _ _ _ _ _ _ Hs1 Hs2) as Ha.
  pose proof (stepped_trans _ _ _ _ _ _ _ _ Ha Hs4) as Hb.
  pose proof (stepped_trans _ _ _ _ _ _ _ _ Hs6 Hs7) as Hc.
  pose proof (stepped_trans _ _ _ _ _ _ _ _ Hc Hm8) as Hd.
  pose proof (stepped_trans _ _ _ _ _ _ _ _ Hd Hs9) as He.
  pose proof (stepped_trans _ _ _ _ _ _ _ _ He Hs10) as Hf.
  pose proof (stepped_trans _ _ _ _ _ _ _ _ Hf Hm11) as Hg.
  pose proof (stepped_trans _ _ _ _ _ _ _ _ Hg Hs12) as Hh.
  pose proof (stepped_trans _ _ _ _ _ _ _ _ Hh Hs13) as Hi.
  split.
  - intros rel Hrel. split.
    + rewrite !elem_of_app. do 4 left.
      destruct Hrel as [content Hrel].
      apply list_elem_of_fmap. exists (rel, content).
      split; [done|]. by apply elem_of_map_to_list.
    + apply (st_disk _ _ _ _ _ Hi). by apply Hdisk5.
  - pose proof (stepped_trans _ _ _ _ _ _ _ _ Hb Hs5) as Hj.
    eapply stepped_ext;
      [| |exact (stepped_trans _ _ _ _ _ _ _ _ Hj Hi)]; done.
Qed.

End Finalize.

(* ===================================================================== *)
(** ** The batch run as a whole                                           *)
(* ===================================================================== *)

Section Batch.
Import MultiFileGenerator Progress Generate.
Context {rt : Runtime}.

(** A file-system action that writes nothing leaves the world alone. *)
Lemma onDisk_tracked {A} pid (m : FileSystem.FS A) w :
  writesNothing m -> tracked pid id w (snd (onDisk m w)).
Proof.
  intros Hm. unfold onDisk. specialize (Hm (disk w)).
  destruct (m (disk w)) as [r d]. simpl in *. subst d.
  split; simpl; try done.
  unfold phasesAt. simpl. by destruct (activeGenerations w !! pid).
Qed.

(** Setup only tracks, whether it returns or throws. *)
Lemma setupPhase_tracked env pid config w :
  match setupPhase env pid config w with
  | (inr _, w1) => tracked pid setupMarks w w1
  | (inl _, w1) => tracked pid (markPhase js:"setup" in_progress 0) w w1
  end.
Proof.
  unfold setupPhase. rewrite run_bind.
  destruct (updatePhase pid js:"setup" in_progress 0 w) as [r1 w1] eqn:H1.
  eapply (yields_inv pid) in H1 as [Hr1 T1]; [|apply tracks_updatePhase]. subst r1.
  rewrite run_bind.
  destruct (addLog pid MsgCreatingStructure info w1) as [r2 w2] eqn:H2.
  eapply (yields_inv pid) in H2 as [Hr2 T2]; [|apply tracks_addLog]. subst r2.
  rewrite run_bind.
  pose proof (onDisk_tracked pid _ w2
                (createProjectStructure_disk env pid (cfg_name config))) as T3.
  destruct (onDisk _ w2) as [[e|[path slug]] w3]; simpl in T3.
  - eapply tracked_ext; [|exact (tracked_trans _ _ _ _ _ _
                                  (tracked_trans _ _ _ _ _ _ T1 T2) T3)].
    done.
  - rewrite run_bind.
    destruct (addLog pid (MsgProjectPath path) info w3) as [r4 w4] eqn:H4.
    eapply (yields_inv pid) in H4 as [Hr4 T4]; [|apply tracks_addLog]. subst r4.
    rewrite run_bind.
    destruct (updatePhase pid js:"setup" completed 0 w4) as [r5 w5] eqn:H5.
    eapply (yields_inv pid) in H5 as [Hr5 T5]; [|apply tracks_updatePhase]. subst r5.
    simpl.
    eapply tracked_ext;
      [|exact (tracked_trans _ _ _ _ _ _
                 (tracked_trans _ _ _ _ _ _
                    (tracked_trans _ _ _ _ _ _
                       (tracked_trans _ _ _ _ _ _ T1 T2) T3) T4) T5)].
    done.
Qed.

(** A run whose [try] block returns: the body ran to its end. *)
Lemma runBatchBody_returns env pid config w res w' :
  runBatchBody env pid config w = (inr res, w') ->
  let l := finalLocals env config in
  size (allFiles l) <> 0%nat
  /\ exists test path,
       let status :=
         finalStatus (phaseResults l) (Project.test_success test) in
       res_testResults res = Some test
       /\ res_phaseResults res = phaseResults l
       /\ res_error res = None
       /\ res_outputPath res = Some path
       /\ res_success res = bool_decide (status = Project.DEPLOYED)
       /\ (forall rel,
             is_Some (allFiles l !! rel) ->
             rel ∈ res_filesGenerated res
             /\ is_Some (disk w' !! Path.join path rel))
       /\ stepped pid (batchMarks env config) (fun _ => status) w w'.
Proof.
  intros H l. unfold runBatchBody in H.
  rewrite run_bind in H.
  pose proof (setupPhase_tracked env pid config w) as T1.
  destruct (setupPhase env pid config w) as [[e|[path slug]] w1]; [done|].
  rewrite run_bind in H.
  destruct (runBlocks env pid config contentBlocks (mkLocals ∅ []) w1)
    as [r2 w2] eqn:H2.
  eapply (yields_inv pid) in H2 as [Hr2 T2]; [|apply runBlocks_yields]. subst r2.
  fold (finalLocals env config) in H. fold l in H.
  apply (finalizePhase_returns env pid) in H
    as [Hsize (test & Htest & Hres & Herr & Hpath & Hok & Hfiles & Hs)].
  split; [done|]. exists test, path. cbv zeta. repeat (split; [done|]).
  apply tracked_stepped in T1, T2.
  eapply stepped_ext;
    [| |exact (stepped_trans _ _ _ _ _ _ _ _
                 (stepped_trans _ _ _ _ _ _ _ _ T1 T2) Hs)]; done.
Qed.

(** *** The [catch] block *)

Lemma forEach_write ev clients w :
  forEach (fun client => write client ev) clients w
  = (inr tt,
     mkWorld (projects w) (activeGenerations w) (portAssignments w)
       (runningApps w) (disk w)
       (sent w ++ ((fun client => (client, ev)) <$> clients)) (timers w)).
Proof.
  revert w. induction clients as [|c clients IH]; intros w; simpl.
  - rewrite app_nil_r. by destruct w.
  - rewrite run_bind. simpl. rewrite IH. simpl. by rewrite <- app_assoc.
Qed.

(** Every client of the session is written the event, and nothing else
    happens. *)
Lemma sendProgressUpdate_sent pid ev w :
  sendProgressUpdate pid ev w
  = (inr tt,
     mkWorld (projects w) (activeGenerations w) (portAssignments w)
       (runningApps w) (disk w)
       (sent w ++ ((fun client => (client, ev)) <$> clientsAt w pid))
       (timers w)).
Proof.
  unfold sendProgressUpdate, getGeneration, clientsAt. rewrite run_bind.
  destruct (activeGenerations w !! pid) as [g|]; simpl.
  - apply forEach_write.
  - rewrite app_nil_r. by destruct w.
Qed.

(** The [catch] block cannot fail.  After the log line the project is
    marked failed with the message, every client of the session is
    written the error event, and the session is removed. *)
Lemma runBatchCatch_result pid message w :
  exists w1 change,
    tracked pid change w w1
    /\ runBatchCatch pid message w
       = (inr (mkBatchResult false (Some message) None [] [] None),
          mkWorld
            (Project.updateProject (projects w1) pid
               (Project.mkUpdates (Some Project.FAILED) None None None None
                  None (Some (Some message)) None))
            (delete pid (activeGenerations w1)) (portAssignments w1)
            (runningApps w1) (disk w1)
            (sent w1
               ++ ((fun client => (client, EvError message))
                     <$> clientsAt w1 pid))
            (timers w1)).
Proof.
  unfold runBatchCatch. rewrite run_bind.
  destruct (addLog pid (MsgError message) error w) as [r1 w1] eqn:H1.
  eapply (yields_inv pid) in H1 as [Hr1 T1]; [|apply tracks_addLog]. subst r1.
  exists w1, id. split; [done|].
  rewrite run_bind. simpl. rewrite run_bind, sendProgressUpdate_sent.
  reflexivity.
Qed.

(** A run that reports no error is one whose [try] block returned. *)
Lemma runBatchGeneration_returned env pid config w res w' :
  runBatchGeneration env pid config w = (inr res, w') ->
  res_error res = None ->
  runBatchBody env pid config w = (inr res, w').
Proof.
  unfold runBatchGeneration, tryCatch.
  destruct (runBatchBody env pid config w) as [[e|res'] w1]; [|done].
  destruct (runBatchCatch_result pid e w1) as (w2 & change & _ & ->).
  by intros [= <- <-].
Qed.

(** Without a single file the [try] block throws before anything is
    written, whether setup failed or the finalizing phase found
    [allFiles] empty. *)
Lemma runBatchBody_without_files env pid config w :
  (forall phase, produced env config phase = ∅) ->
  exists message w1 change,
    runBatchBody env pid config w = (inl message, w1)
    /\ tracked pid change w w1.
Proof.
  intros Hnone. unfold runBatchBody. rewrite run_bind.
  pose proof (setupPhase_tracked env pid config w) as T1.
  destruct (setupPhase env pid config w) as [[e|[path slug]] w1].
  { by exists e, w1, (markPhase js:"setup" in_progress 0). }
  rewrite run_bind.
  destruct (runBlocks env pid config contentBlocks (mkLocals ∅ []) w1)
    as [r2 w2] eqn:H2.
  eapply (yields_inv pid) in H2 as [Hr2 T2]; [|apply runBlocks_yields]. subst r2.
  fold (finalLocals env config).
  assert (allFiles (finalLocals env config) = ∅) as Hempty.
  { apply map_eq. intros rel. rewrite lookup_empty.
    apply eq_None_not_Some. unfold finalLocals.
    rewrite blockLocals_allFiles. simpl. rewrite lookup_empty.
    intros [[? [=]]|(b & _ & Hb)]. rewrite Hnone, lookup_empty in Hb.
    by destruct Hb. }
  unfold finalizePhase. rewrite Hempty, run_bind.
  destruct (updatePhase pid js:"finalizing" in_progress 0 w2) as [r3 w3] eqn:H3.
  eapply (yields_inv pid) in H3 as [Hr3 T3]; [|apply tracks_updatePhase]. subst r3.
  rewrite run_bind.
  destruct (addLog pid MsgFinalizing thinking w3) as [r4 w4] eqn:H4.
  eapply (yields_inv pid) in H4 as [Hr4 T4]; [|apply tracks_addLog]. subst r4.
  rewrite run_bind. simpl.
  exists NO_FILES, w4. eexists. split; [done|].
  exact (tracked_trans _ _ _ _ _ _
           (tracked_trans _ _ _ _ _ _
              (tracked_trans _ _ _ _ _ _ T1 T2) T3) T4).
Qed.

End Batch.

(* ===================================================================== *)
(** ** The phases of a session during a run                               *)
(* ===================================================================== *)

Section Marks.
Import MultiFileGenerator Progress Generate.













End Marks.

(* ===================================================================== *)
(** ** The outcome of a batch run                                         *)
(* ===================================================================== *)

Section Outcome.
Import MultiFileGenerator Progress Generate.

Lemma filter_length_lt {A} (f : A -> bool) (l : list A) x :
  x ∈ l -> f x = false -> (length (List.filter f l) < length l)%nat.
Proof.
  intros Hin Hx. induction l as [|y l IH]; [by apply elem_of_nil in Hin|].
  simpl. pose proof (List.filter_length_le f l) as Hle.
  apply elem_of_cons in Hin as [<-|Hin].
  - rewrite Hx. lia.
  - specialize (IH Hin). destruct (f y); simpl; lia.
Qed.


Lemma finalLocals_length env config :
  length (phaseResults (finalLocals env config)) = length contentBlocks.
Proof.
  unfold finalLocals.
  rewrite <- (length_fmap pr_phase), blockLocals_phaseResults.
  by rewrite length_app, !length_fmap.
Qed.

Lemma finalLocals_failed env config :
  (length (failedPhases (phaseResults (finalLocals env config)))
   <= length (thrown env config))%nat.
Proof.
  unfold finalLocals, thrown.
  etrans; [apply blockLocals_failedPhases|]. simpl. lia.
Qed.

(** The accumulated files are those the phases produced. *)
Lemma finalLocals_allFiles env config rel :
  is_Some (allFiles (finalLocals env config) !! rel)
  <-> exists b, b ∈ contentBlocks
                /\ is_Some (produced env config (blk_phase b) !! rel).
Proof.
  unfold finalLocals. rewrite blockLocals_allFiles. simpl.
  rewrite lookup_empty. split; [|by right].
  intros [[? [=]]|H]; done.
Qed.

(** With a file to save, some phase did not throw. *)
Lemma files_not_all_thrown env config :
  size (allFiles (finalLocals env config)) <> 0%nat ->
  (length (thrown env config) < length contentBlocks)%nat.
Proof.
  intros Hsize. apply map_size_ne_0_lookup in Hsize as [rel Hrel].
  apply finalLocals_allFiles in Hrel as (b & Hb & Hrel).
  unfold thrown. apply (filter_length_lt _ _ b); [done|].
  unfold produced in Hrel.
  destruct (generateSinglePhase env (blk_phase b) config); [|done].
  rewrite lookup_empty in Hrel. by destruct Hrel.
Qed.

(** With a file to save the status picked is always [deployed]. *)
Lemma finalStatus_with_files env config testSuccess :
  size (allFiles (finalLocals env config)) <> 0%nat ->
  finalStatus (phaseResults (finalLocals env config)) testSuccess
  = Project.DEPLOYED.
Proof.
  intros Hsize. apply files_not_all_thrown in Hsize.
  pose proof (finalLocals_failed env config) as Hle.
  unfold finalStatus. rewrite finalLocals_length.
  destruct (_ && _); [done|].
  destruct (Nat.eqb_spec
              (length (failedPhases (phaseResults (finalLocals env config))))
              (length contentBlocks)); [lia|done].
Qed.


End Outcome.


(** C1.  A run of [runBatchGeneration] that reports no error is one that
    reached the finalizing phase with at least one accumulated file and
    whose finalizing phase raised no exception.  For a project of the
    store, the status stored at the end of such a run is [deployed]
    when no content phase threw and the smoke test passed, [failed]
    when every content phase threw, and [deployed] in every other
    case, a failed smoke test with no failed phase included; the
    [success] flag of the result says whether the status is
    [deployed]. *)
Theorem final_status_determined {rt : Runtime}
  (env : Env) (projectId : jsstring) (config : Config) (w w' : World)
  (res : Generate.BatchResult) :
  Generate.runBatchGeneration env projectId config w = (inr res, w') ->
  Generate.res_error res = None ->
  is_Some (projects w !! projectId) ->
  let failed := length (thrown env config) in
  exists test,
    let status :=
      if (failed =? 0)%nat && Project.test_success test
      then Project.DEPLOYED
      else if (failed =? length Generate.contentBlocks)%nat
           then Project.FAILED
           else Project.DEPLOYED in
    Generate.res_testResults res = Some test
    /\ statusAt w' projectId = Some status
    /\ Generate.res_success res = bool_decide (status = Project.DEPLOYED).
Proof.
  intros Hrun Herr [project Hproject] failed.
  apply runBatchGeneration_returned in Hrun; [|done].
  apply (runBatchBody_returns env projectId) in Hrun
    as [Hsize (test & path & Htest & _ & _ & _ & Hok & _ & Hs)].
  exists test. cbv zeta in *.
  rewrite (finalStatus_with_files env config _ Hsize) in Hok, Hs.
  apply files_not_all_thrown in Hsize. fold failed in Hsize.
  assert ((if (failed =? 0)%nat && Project.test_success test
           then Project.DEPLOYED
           else if (failed =? length Generate.contentBlocks)%nat
                then Project.FAILED else Project.DEPLOYED)
          = Project.DEPLOYED) as ->.
  { destruct (_ && _); [done|].
    destruct (Nat.eqb_spec failed (length Generate.contentBlocks)); [lia|done]. }
  split; [done|]. split; [|done].
  rewrite (st_status _ _ _ _ _ Hs). unfold statusAt. by rewrite Hproject.
Qed.

Lemma final_status_determined_witness :
  statusAt
    (snd (Example.batch
            (Example.env Example.allSucceed Example.diskWorks false)))
    js:"p1"
  = Some Project.DEPLOYED.
Proof.
  assert (match fst (Example.batch
                       (Example.env Example.allSucceed Example.diskWorks
                          false)) with
          | inr res =>
              Generate.res_error res = None
              /\ Generate.res_testResults res
                 = Some (Project.mkTestResult false
                           (Some js:"health check failed"))
          | inl _ => False
          end) as Hres by (vm_compute; split; reflexivity).
  destruct (Example.batch _) as [[message|res] w'] eqn:Hrun;
    cbn [fst snd] in *; [destruct Hres|].
  destruct Hres as [Herr Htest]. unfold Example.batch in Hrun.
  destruct (final_status_determined (rt := Sample.runtime) _ _ _ _ _ _
              Hrun Herr)
    as (test & Htest' & Hstatus & _).
  { vm_compute. eauto. }
  rewrite Htest in Htest'. injection Htest' as <-.
  exact Hstatus.
Defined.




(** C3.  When the content phases together produce no file, the run
    returns a result without success and with an error message; the
    project, if it is in the store, has status [failed] and that
    message as its error; the disk is as before the run; the last
    events written are the error event, once to each client of the
    session; the session is removed, and no removal was scheduled. *)
Theorem no_files_run_fails {rt : Runtime}
  (env : Env) (projectId : jsstring) (config : Config) (w : World) :
  (forall phase, produced env config phase = ∅) ->
  is_Some (projects w !! projectId) ->
  exists res message w',
    Generate.runBatchGeneration env projectId config w = (inr res, w')
    /\ Generate.res_success res = false
    /\ Generate.res_error res = Some message
    /\ (exists project,
          projects w' !! projectId = Some project
          /\ Project.status project = Project.FAILED
          /\ Project.error project = Some message)
    /\ disk w' = disk w
    /\ (exists earlier,
          sent w'
          = earlier ++ ((fun client => (client, Progress.EvError message))
                          <$> clientsAt w projectId))
    /\ activeGenerations w' !! projectId = None
    /\ timers w' = timers w.
Proof.
  intros Hnone [project Hproject].
  destruct (runBatchBody_without_files env projectId config w Hnone)
    as (message & w1 & change1 & Hbody & T1).
  destruct (runBatchCatch_result projectId message w1)
    as (w2 & change2 & T2 & Hcatch).
  pose proof (tracked_trans _ _ _ _ _ _ T1 T2) as [P Q A D T C _ S].
  eexists _, message, _. split.
  { unfold Generate.runBatchGeneration, Generate.tryCatch.
    rewrite Hbody. exact Hcatch. }
  simpl. repeat (split; [done|]). split; [|split; [|split; [|split]]].
  - exists (Project.merge project
              (Project.mkUpdates (Some Project.FAILED) None None None None
                 None (Some (Some message)) None)).
    unfold Project.updateProject. rewrite P, Hproject.
    by rewrite lookup_insert_eq.
  - done.
  - exists (sent w2). f_equal. f_equal. unfold clientsAt.
    specialize (C projectId).
    by destruct (activeGenerations w2 !! projectId),
                (activeGenerations w !! projectId); simplify_eq/=.
  - apply lookup_delete_eq.
  - done.
Qed.

Lemma no_files_run_fails_witness :
  exists res w',
    Example.batch (Example.env Example.allEmpty Example.diskWorks true)
    = (inr res, w')
    /\ Generate.res_error res = Some Generate.NO_FILES
    /\ statusAt w' js:"p1" = Some Project.FAILED
    /\ disk w' = ∅.
Proof.
  destruct (no_files_run_fails (rt := Sample.runtime)
              (Example.env Example.allEmpty Example.diskWorks true) js:"p1"
              Example.config Example.accepted)
    as (res & message & w' & Hrun & _ & Herr & (project & Hp & Hs & _) & Hdisk
        & _).
  { intros phase. reflexivity. }
  { vm_compute. eauto. }
  exists res, w'. split; [exact Hrun|].
  assert (match fst (Example.batch
                       (Example.env Example.allEmpty Example.diskWorks
                          true)) with
          | inr res => Generate.res_error res = Some Generate.NO_FILES
          | inl _ => False
          end) as Hres by (vm_compute; reflexivity).
  unfold Example.batch in Hres. rewrite Hrun in Hres. cbn [fst] in Hres.
  split; [exact Hres|]. split.
  - unfold statusAt. by rewrite Hp, <- Hs.
  - rewrite Hdisk. vm_compute. reflexivity.
Defined.

(* ===================================================================== *)
(** ** The statuses the operations store                                  *)
(* ===================================================================== *)

Section Statuses.
Import MultiFileGenerator Progress Generate.
Context {rt : Runtime}.

Section Keeps.
Variable P : Project.Store -> Prop.

Lemma keeps_ret {A : Type} (a : A) : keeps P (mret a).
Proof. by intros w. Qed.

Lemma keeps_throw {A : Type} e : keeps P (@throw A e).
Proof. by intros w. Qed.

Lemma keeps_bind {A B : Type} (m : Run A) (k : A -> Run B) :
  keeps P m -> (forall a, keeps P (k a)) -> keeps P (m ≫= k).
Proof.
  intros Hm Hk w Hw. rewrite run_bind. specialize (Hm w Hw).
  destruct (m w) as [[e|a] w1]; [done|]. by apply Hk.
Qed.

Lemma keeps_tryCatch {A : Type} (body : Run A) handler :
  keeps P body -> (forall e, keeps P (handler e)) ->
  keeps P (tryCatch body handler).
Proof.
  intros Hm Hk w Hw. unfold tryCatch. specialize (Hm w Hw).
  destruct (body w) as [[e|a] w1]; [|done]. by apply Hk.
Qed.

Lemma keeps_yields {A : Type} pid f (m : Run A) a : yields pid f m a -> keeps P m.
Proof. intros Hm w Hw. destruct (Hm w) as [_ [-> _ _ _ _ _ _ _]]. done. Qed.

Lemma keeps_onDisk {A : Type} (m : FileSystem.FS A) : keeps P (onDisk m).
Proof. intros w Hw. unfold onDisk. by destruct (m (disk w)). Qed.

Lemma keeps_assignPorts env pid name : keeps P (assignPorts env pid name).
Proof.
  intros w Hw. unfold assignPorts.
  destruct (PortManager.assignPorts _ _ _ _) as [a s].
  by destruct (PortManager.findAssignment _ _), (portStoreError env).
Qed.

Lemma keeps_setTimeout pid : keeps P (setTimeout pid).
Proof. by intros w. Qed.

Lemma keeps_withGenerations f : keeps P (withGenerations f).
Proof. by intros w. Qed.

Lemma keeps_addLog pid message type : keeps P (addLog pid message type).
Proof. eapply keeps_yields, (tracks_addLog pid). Qed.

Lemma keeps_updatePhase pid phaseId status n :
  keeps P (updatePhase pid phaseId status n).
Proof. eapply keeps_yields, tracks_updatePhase. Qed.

Lemma keeps_sendProgressUpdate pid ev : keeps P (sendProgressUpdate pid ev).
Proof. eapply keeps_yields, (tracks_sendProgressUpdate pid). Qed.

(** The statuses the run may store. *)
Hypothesis P_update : forall ps pid u,
  Project.u_status u ∈ [Some Project.TESTING; Some Project.DEPLOYED;
                        Some Project.FAILED] ->
  P ps -> P (Project.updateProject ps pid u).

Lemma keeps_setupPhase env pid config : keeps P (setupPhase env pid config).
Proof.
  unfold setupPhase.
  apply keeps_bind; [apply keeps_updatePhase|intros _].
  apply keeps_bind; [apply keeps_addLog|intros _].
  apply keeps_bind; [apply keeps_onDisk|intros [path slug]].
  apply keeps_bind; [apply keeps_addLog|intros _].
  apply keeps_bind; [apply keeps_updatePhase|intros _].
  apply keeps_ret.
Qed.

Lemma keeps_ensureManifest env pid config path files backend saved :
  keeps P (ensureManifest env pid config path files backend saved).
Proof.
  unfold ensureManifest. case_bool_decide; [apply keeps_ret|].
  apply keeps_bind; [apply keeps_onDisk|intros _].
  apply keeps_bind; [apply keeps_addLog|intros _].
  apply keeps_ret.
Qed.

Lemma keeps_writeEnvFiles env pid config path :
  keeps P (writeEnvFiles env pid config path).
Proof.
  unfold writeEnvFiles.
  apply keeps_bind; [apply keeps_addLog|intros _].
  apply keeps_bind; [apply keeps_assignPorts|intros ports].
  apply keeps_bind; [apply keeps_onDisk|intros _].
  apply keeps_bind; [apply keeps_onDisk|intros _].
  apply keeps_bind; [apply keeps_addLog|intros _].
  apply keeps_ret.
Qed.

Lemma keeps_smokeTest env pid path saved :
  keeps P (smokeTest env pid path saved).
Proof.
  unfold smokeTest. destruct (findServerFile saved) as [serverFile|].
  - apply keeps_bind; [apply keeps_addLog|intros _].
    destruct (testCode env _) as [e|testResult]; [apply keeps_throw|].
    apply keeps_bind; [|intros _; apply keeps_ret].
    destruct (Project.test_success testResult); apply keeps_addLog.
  - apply keeps_bind; [apply keeps_addLog|intros _]. apply keeps_ret.
Qed.

Lemma keeps_updateProject pid u :
  Project.u_status u ∈ [Some Project.TESTING; Some Project.DEPLOYED;
                        Some Project.FAILED] ->
  keeps P (updateProject pid u).
Proof. intros Hu w Hw. simpl. by apply P_update. Qed.

Lemma finalStatus_cases results testSuccess :
  finalStatus results testSuccess = Project.DEPLOYED
  \/ finalStatus results testSuccess = Project.FAILED.
Proof.
  unfold finalStatus. destruct (_ && _); [by left|].
  destruct (_ =? _)%nat; [by right|by left].
Qed.

Lemma keeps_conclude pid path saved stats test :
  keeps P (conclude pid path saved stats test).
Proof.
  unfold conclude.
  apply keeps_bind; [|intros _].
  { apply keeps_updateProject. simpl.
    destruct (finalStatus_cases (fs_phases stats) (Project.test_success test))
      as [-> | ->]; set_solver. }
  apply keeps_bind; [apply keeps_addLog|intros _].
  apply keeps_bind; [apply keeps_addLog|intros _].
  apply keeps_bind; [|intros _].
  { destruct (_ <? _)%nat; [apply keeps_addLog|apply keeps_ret]. }
  apply keeps_bind; [apply keeps_sendProgressUpdate|intros _].
  apply keeps_bind; [apply keeps_setTimeout|intros _].
  apply keeps_ret.
Qed.

Lemma keeps_finalizePhase env pid config path slug l :
  keeps P (finalizePhase env pid config path slug l).
Proof.
  unfold finalizePhase.
  apply keeps_bind; [apply keeps_updatePhase|intros _].
  apply keeps_bind; [apply keeps_addLog|intros _].
  apply keeps_bind; [|intros _].
  { case_bool_decide; [apply keeps_throw|apply keeps_ret]. }
  apply keeps_bind; [apply keeps_addLog|intros _].
  apply keeps_bind; [apply keeps_onDisk|intros saved0].
  apply keeps_bind; [apply keeps_ensureManifest|intros saved1].
  apply keeps_bind; [apply keeps_ensureManifest|intros saved2].
  apply keeps_bind; [apply keeps_writeEnvFiles|intros ports].
  apply keeps_bind; [apply keeps_onDisk|intros _].
  apply keeps_bind; [|intros _].
  { apply keeps_updateProject. simpl. set_solver. }
  apply keeps_bind; [apply keeps_smokeTest|intros test].
  apply keeps_bind; [apply keeps_updatePhase|intros _].
  apply keeps_conclude.
Qed.

Lemma keeps_runBatchGeneration env pid config :
  keeps P (runBatchGeneration env pid config).
Proof.
  unfold runBatchGeneration. apply keeps_tryCatch.
  - unfold runBatchBody.
    apply keeps_bind; [apply keeps_setupPhase|intros [path slug]].
    apply keeps_bind; [|intros l; apply keeps_finalizePhase].
    eapply keeps_yields, (runBlocks_yields env pid).
  - intros message. unfold runBatchCatch.
    apply keeps_bind; [apply keeps_addLog|intros _].
    apply keeps_bind; [|intros _].
    { apply keeps_updateProject. simpl. set_solver. }
    apply keeps_bind; [apply keeps_sendProgressUpdate|intros _].
    apply keeps_bind; [apply keeps_withGenerations|intros _].
    apply keeps_ret.
Qed.

End Keeps.

(** *** The statuses of the projects *)

Lemma within_updateProject allowed ps pid u :
  (forall s, Project.u_status u = Some s -> s ∈ allowed) ->
  within allowed ps -> within allowed (Project.updateProject ps pid u).
Proof.
  intros Hu Hps q project. unfold Project.updateProject.
  destruct (ps !! pid) as [p|] eqn:Hp; [|apply Hps].
  destruct (decide (pid = q)) as [->|Hne].
  - rewrite lookup_insert_eq. intros [= <-]. simpl.
    destruct (Project.u_status u) as [s|]; simpl; [by apply Hu|by eapply Hps].
  - rewrite lookup_insert_ne by done. apply Hps.
Qed.

(** Every operation of the platform keeps the statuses among those of
    [ProjectStatus] and [stopped]. *)
Lemma step_within op w :
  within (Project.ProjectStatus ++ [DeploymentManager.STOPPED]) (projects w) ->
  within (Project.ProjectStatus ++ [DeploymentManager.STOPPED])
    (projects (Platform.step op w)).
Proof.
  set (allowed := Project.ProjectStatus ++ [DeploymentManager.STOPPED]).
  assert (forall s, s ∈ allowed ->
            forall ps pid u, Project.u_status u = Some s ->
              within allowed ps ->
              within allowed (Project.updateProject ps pid u)) as Hupd.
  { intros s Hs ps pid u Hu. apply within_updateProject.
    intros s'. rewrite Hu. by intros [= <-]. }
  intros Hw. destruct op as [newId data|pid prompt|env pid config|pid client
                             |pid client|pid|pid|installError pid|pid|pid|pid];
    simpl.
  - intros q project. destruct (decide (newId = q)) as [->|Hne].
    + rewrite lookup_insert_eq. intros [= <-]. simpl.
      unfold allowed, Project.ProjectStatus. set_solver.
    + rewrite lookup_insert_ne by done. apply Hw.
  - unfold startGeneration.
    destruct (Project.getProjectById _ _) as [project|]; [|done].
    case_bool_decide; [done|]. simpl.
    eapply (Hupd Project.GENERATING); [|done|done].
    unfold allowed, Project.ProjectStatus. set_solver.
  - apply (keeps_runBatchGeneration (within allowed)); [|done].
    intros ps q u Hu. apply within_updateProject. intros s Hs.
    rewrite Hs in Hu. unfold allowed, Project.ProjectStatus.
    set_solver.
  - unfold subscribe.
    by destruct (Project.getProjectById _ _) as [project|].
  - unfold unsubscribe. by destruct (activeGenerations w !! pid).
  - unfold cancel.
    destruct (Project.getProjectById _ _) as [project|]; [|done].
    destruct (negb _); [done|]. simpl.
    rewrite run_bind, sendProgressUpdate_sent. simpl.
    eapply (Hupd Project.DRAFT); [|done|done].
    unfold allowed, Project.ProjectStatus. set_solver.
  - done.
  - unfold DeploymentManager.deployLocal.
    destruct (Project.getProjectById _ _) as [project|]; [|done].
    destruct (PortManager.getAssignment _ _) as [ports|]; [|done].
    case_bool_decide; [done|]. destruct installError; [done|]. simpl.
    eapply (Hupd Project.DEPLOYED); [|done|done].
    unfold allowed, Project.ProjectStatus. set_solver.
  - done.
  - unfold DeploymentManager.stopApp. case_bool_decide; [|done]. simpl.
    eapply (Hupd DeploymentManager.STOPPED); [|done|done].
    unfold allowed. set_solver.
  - unfold Platform.deleteProject.
    destruct (projects w !! pid) as [project|] eqn:Hp; [|done]. simpl.
    intros q p Hq. apply lookup_delete_Some in Hq as [_ Hq]. by eapply Hw.
Qed.

End Statuses.


(** C10 (as amended).  In every world the backend can reach through its
    operations (create, start and run a generation, subscribe and
    unsubscribe, cancel, expire, deploy, exit of the backend process,
    stop, delete), the status of every project of the store is one of
    [draft], [generating], [testing], [deployed], [failed] or
    [stopped]. *)
Theorem status_in_enum_or_stopped {rt : Runtime}
  (w : World) (projectId : jsstring) (project : Project.Project) :
  Platform.reachable w ->
  projects w !! projectId = Some project ->
  Project.status project
    ∈ Project.ProjectStatus ++ [DeploymentManager.STOPPED].
Proof.
  intros [ops ->]. revert projectId project.
  induction ops as [|op ops IH] using rev_ind.
  - intros pid project. simpl. by rewrite lookup_empty.
  - unfold Platform.run. rewrite foldl_app. simpl. by apply step_within.
Qed.

Lemma status_in_enum_or_stopped_witness :
  exists project,
    projects Example.accepted !! js:"p1" = Some project
    /\ Project.status project
         ∈ Project.ProjectStatus ++ [DeploymentManager.STOPPED].
Proof.
  destruct (projects Example.accepted !! js:"p1") as [project|] eqn:Hproject;
    [|by vm_compute in Hproject].
  exists project. split; [reflexivity|].
  apply (status_in_enum_or_stopped (rt := Sample.runtime) Example.accepted
           js:"p1" project); [|exact Hproject].
  unfold Example.accepted. by eexists.
Defined.

(** A project that was generated, deployed and stopped has the status
    [stopped], which is not a value of [ProjectStatus]. *)
Lemma stopped_project_leaves_enum :
  Project.status <$> projects Example.stopped !! js:"p1" = Some js:"stopped"
  /\ js:"stopped" ∉ Project.ProjectStatus.
Proof.
  split; [vm_compute; reflexivity|].
  intros H. unfold Project.ProjectStatus in H.
  repeat (apply elem_of_cons in H as [H|H]; [by vm_compute in H|]).
  by apply elem_of_nil in H.
Qed.

(* ===================================================================== *)
(** ** Facts about the validator/fixer                                    *)
(* ===================================================================== *)

Section FixerFacts.
Import MultiFileGenerator.
Context {rt : Runtime}.

Lemma fixBcryptRequires_unfold (st : FileMap * list jsstring) :
  fixBcryptRequires st = foldl bcryptStep st (map_to_list st.1).
Proof.
  unfold fixBcryptRequires. generalize (map_to_list st.1) as l. intros l.
  revert st. induction l as [|[k c] l IH]; intros [m fx]; [done|].
  simpl. by rewrite <- IH.
Qed.

Lemma bcryptStep_other (l : list (jsstring * jsstring))
  (acc : FileMap) (fx : list jsstring) (k : jsstring) :
  k ∉ l.*1 -> (foldl bcryptStep (acc, fx) l).1 !! k = acc !! k.
Proof.
  revert acc fx. induction l as [|[k' c] l IH]; intros acc fx Hk; [done|].
  rewrite fmap_cons in Hk. apply not_elem_of_cons in Hk as [Hne Hk].
  simpl in *. destruct (isBackendJs k' && mentionsBcrypt c); rewrite IH by done.
  - by rewrite lookup_insert_ne.
  - done.
Qed.

Lemma bcryptStep_entry (l : list (jsstring * jsstring))
  (acc : FileMap) (fx : list jsstring) (k c : jsstring) :
  NoDup l.*1 -> (k, c) ∈ l -> acc !! k = Some c ->
  (foldl bcryptStep (acc, fx) l).1 !! k = Some (bcryptFixed k c).
Proof.
  revert acc fx. induction l as [|[k' c'] l IH]; intros acc fx Hnd Hin Hacc.
  { by apply elem_of_nil in Hin. }
  rewrite fmap_cons in Hnd. apply NoDup_cons in Hnd as [Hk' Hnd].
  apply elem_of_cons in Hin as [[= <- <-]|Hin]; simpl.
  - unfold bcryptFixed.
    destruct (isBackendJs k && mentionsBcrypt c); rewrite bcryptStep_other
      by done; [by rewrite lookup_insert_eq|done].
  - assert (k <> k') as Hne.
    { intros ->. apply Hk'. apply list_elem_of_fmap. by exists (k', c). }
    destruct (isBackendJs k' && mentionsBcrypt c'); apply IH; try done.
    by rewrite lookup_insert_ne.
Qed.

(** Step 2 rewrites each entry on its own. *)
Lemma fixBcryptRequires_lookup (m : FileMap) (fx : list jsstring)
  (k : jsstring) :
  (fixBcryptRequires (m, fx)).1 !! k = bcryptFixed k <$> m !! k.
Proof.
  rewrite fixBcryptRequires_unfold. simpl.
  destruct (m !! k) as [c|] eqn:Hk; simpl.
  - apply bcryptStep_entry; [apply NoDup_fst_map_to_list| |done].
    by apply elem_of_map_to_list.
  - rewrite bcryptStep_other; [done|].
    intros Hin. apply list_elem_of_fmap in Hin as ([k' c] & -> & Hin).
    apply elem_of_map_to_list in Hin. simpl in Hk. congruence.
Qed.

Lemma fixBcryptRequires_fixes (m : FileMap) (fx : list jsstring) :
  (fixBcryptRequires (m, fx)).2 = fx ++ omap bcryptNote (map_to_list m).
Proof.
  rewrite fixBcryptRequires_unfold. simpl.
  generalize (map_to_list m) as l. intros l. generalize m at 1 as acc.
  revert fx. induction l as [|[k c] l IH]; intros fx acc; simpl.
  - by rewrite app_nil_r.
  - unfold bcryptNote at 1. simpl.
    destruct (isBackendJs k && mentionsBcrypt c); rewrite IH.
    + by rewrite <- app_assoc.
    + done.
Qed.

Lemma fixManifest_lookup (key : jsstring)
  (fixer : jsstring -> Config -> Fixed) (config : Config) (m : FileMap)
  (fx : list jsstring) (k : jsstring) :
  (fixManifest key fixer config (m, fx)).1 !! k
  = if bool_decide (k = key) then manifestFixed fixer config <$> m !! k
    else m !! k.
Proof.
  unfold fixManifest, manifestFixed.
  destruct (decide (k = key)) as [Hk|Hk].
  - rewrite bool_decide_true by done. subst k.
    destruct (m !! key) as [c|] eqn:Hc; [|simpl; by rewrite Hc].
    destruct (JS.truthyString c) eqn:Ht; cbn [fst];
      [rewrite lookup_insert_eq|rewrite Hc]; simpl; by rewrite Ht.
  - rewrite bool_decide_false by done. destruct (m !! key) as [c|]; [|done].
    destruct (JS.truthyString c); cbn [fst]; [by rewrite lookup_insert_ne|done].
Qed.

(** The fixer works entry by entry: an entry of the three paths is
    dropped, any other is kept with its content repaired. *)
Lemma validateAndFixFiles_lookup (files : FileMap) (config : Config)
  (k : jsstring) :
  (validateAndFixFiles files config).1 !! k
  = if bool_decide (k ∈ ENV_FILES) then None
    else entryFixed config k <$> files !! k.
Proof.
  unfold validateAndFixFiles.
  destruct (fixManifest BACKEND_PACKAGE_JSON _ config (files, []))
    as [m1 fx1] eqn:H1.
  destruct (fixManifest FRONTEND_PACKAGE_JSON _ config (m1, fx1))
    as [m2 fx2] eqn:H2.
  destruct (fixBcryptRequires (m2, fx2)) as [m3 fx3] eqn:H3. simpl.
  assert (m3 !! k = entryFixed config k <$> files !! k) as Hk.
  { change m3 with (m3, fx3).1. rewrite <- H3, fixBcryptRequires_lookup.
    change m2 with (m2, fx2).1. rewrite <- H2, fixManifest_lookup.
    change m1 with (m1, fx1).1. rewrite <- H1, fixManifest_lookup.
    unfold entryFixed.
    destruct (files !! k) as [c|]; simpl; repeat case_bool_decide; done. }
  unfold ENV_FILES. case_bool_decide as Henv.
  - apply elem_of_union in Henv as [Henv|Henv];
      [apply elem_of_union in Henv as [Henv|Henv]|];
      apply elem_of_singleton in Henv as ->.
    + rewrite lookup_delete_ne by (by vm_compute).
      rewrite lookup_delete_ne by (by vm_compute).
      apply lookup_delete_eq.
    + rewrite lookup_delete_ne by (by vm_compute).
      apply lookup_delete_eq.
    + apply lookup_delete_eq.
  - rewrite !lookup_delete_ne; [done|set_solver..].
Qed.

End FixerFacts.


(** C6 (as amended).  The file map the validator/fixer returns has no
    entry for [backend/.env], [backend/.env.example] and
    [frontend/.env.local], and has an entry for every other path of the
    map it was given, and for no other path. *)
Theorem env_files_removed {rt : Runtime} (files : FileMap) (config : Config) :
  dom (MultiFileGenerator.validateAndFixFiles files config).1
  = dom files
      ∖ {[ js:"backend/.env"; js:"backend/.env.example";
           js:"frontend/.env.local" ]}.
Proof.
  apply set_eq. intros k.
  rewrite elem_of_difference, !elem_of_dom, validateAndFixFiles_lookup.
  fold ENV_FILES. case_bool_decide as Henv.
  - split; [by intros [? ?]|by intros [_ ?]].
  - rewrite fmap_is_Some. split; [by intros ?|by intros [? _]].
Qed.

(** A [.env] file of the frontend stays in the map. *)
Lemma frontend_env_survives :
  JS.endsWith js:".env" js:"frontend/.env" = true
  /\ (MultiFileGenerator.validateAndFixFiles (rt := Sample.runtime)
        {[ js:"frontend/.env" := js:"PORT=3000" ]} Example.config).1
     !! js:"frontend/.env"
     = Some js:"PORT=3000".
Proof. split; vm_compute; reflexivity. Qed.

(* ===================================================================== *)
(** ** The rewrite of [require('bcrypt')]                                 *)
(* ===================================================================== *)

Section Bcrypt.
Import MultiFileGenerator.

Lemma startsWith_app (p s : jsstring) :
  JS.startsWith p s = true <-> exists rest, s = p ++ rest.
Proof.
  revert s. induction p as [|a p IH]; intros s; simpl.
  - split; [by exists s|done].
  - destruct s as [|b s]; [split; [done|by intros [? ?]]|].
    rewrite andb_true_iff, N.eqb_eq, IH. split.
    + intros [-> [rest ->]]. by exists rest.
    + intros [rest [= -> ->]]. split; [done|by exists rest].
Qed.

Lemma includes_drop (p s : jsstring) :
  JS.includes p s = true <-> exists i, JS.startsWith p (drop i s) = true.
Proof.
  induction s as [|c s IH]; simpl.
  - rewrite orb_false_r. split; [by exists 0%nat|].
    intros [i H]. by rewrite drop_nil in H.
  - rewrite orb_true_iff, IH. split.
    + intros [H|[i H]]; [by exists 0%nat|by exists (S i)].
    + intros [[|i] H]; [by left|right; by exists i].
Qed.

Lemma stripPrefix_Some (p s t : jsstring) :
  JS.stripPrefix p s = Some t <-> s = p ++ t.
Proof.
  unfold JS.stripPrefix. destruct (JS.startsWith p s) eqn:Hp.
  - apply startsWith_app in Hp as [rest ->].
    rewrite drop_app_length. split; [by intros [= ->]|].
    by intros ->%app_inv_head.
  - split; [done|]. intros ->.
    assert (JS.startsWith p (p ++ t) = true) as Htrue
        by (apply startsWith_app; by exists t).
    congruence.
Qed.

Lemma isQuote_cases (c : N) :
  JS.isQuote c = true <-> c = JS.APOSTROPHE \/ c = JS.QUOTATION.
Proof. unfold JS.isQuote. by rewrite orb_true_iff, !N.eqb_eq. Qed.

Lemma matchRequireBcrypt_Some (s : jsstring) r :
  matchRequireBcrypt s = Some r -> isRequireBcrypt s.
Proof.
  unfold matchRequireBcrypt.
  destruct (JS.stripPrefix REQUIRE_OPEN s) as [[|q1 s1]|] eqn:H1; try done.
  apply stripPrefix_Some in H1 as ->.
  destruct (JS.isQuote q1) eqn:Hq1; [|done].
  destruct (JS.stripPrefix BCRYPT s1) as [[|q2 s2]|] eqn:H2; try done.
  apply stripPrefix_Some in H2 as ->.
  destruct (JS.isQuote q2) eqn:Hq2; [|done]. cbn [andb].
  destruct (JS.startsWith PAREN_CLOSE s2) eqn:H3; [|done].
  apply startsWith_app in H3 as [rest ->]. intros _.
  by exists q1, q2, rest.
Qed.

Lemma matchRequireBcrypt_matches (s : jsstring) :
  isRequireBcrypt s -> matchRequireBcrypt s = Some (tt, 17%nat).
Proof.
  intros (q1 & q2 & rest & Hq1 & Hq2 & ->).
  apply isQuote_cases in Hq1 as [-> | ->];
    apply isQuote_cases in Hq2 as [-> | ->]; reflexivity.
Qed.

(** The two literals tested with [includes] are matches of the
    expression. *)
Lemma requireBcrypt_matched (s : jsstring) :
  JS.startsWith requireBcryptSingle s = true
  \/ JS.startsWith requireBcryptDouble s = true ->
  matchRequireBcrypt s = Some (tt, 17%nat).
Proof.
  rewrite !startsWith_app. intros [[rest ->]|[rest ->]]; reflexivity.
Qed.

(** No match begins inside the replacement, whatever follows it. *)
Lemma requireBcryptjs_clean (i : nat) (t : jsstring) :
  (i < length requireBcryptjs)%nat ->
  matchRequireBcrypt (drop i (requireBcryptjs ++ t)) = None.
Proof.
  intros Hi. do 19 (destruct i as [|i]; [reflexivity|]).
  vm_compute in Hi. lia.
Qed.

(** The output of a replacement and its input begin alike: with a
    common stretch of [n] code units, or up to the end of both, or up to
    the first replacement. *)
Lemma replaceBcrypt_shape (n : nat) (s : jsstring) :
  exists p r r',
    s = p ++ r' /\ replaceBcrypt s = p ++ r
    /\ (length p = n
        \/ (r' = [] /\ r = [])
        \/ ((length p < n)%nat /\ exists r'', r = requireBcryptjs ++ r'')).
Proof.
  unfold replaceBcrypt. revert s. induction n as [|n IH]; intros s.
  { exists [], (JS.replaceAll matchRequireBcrypt requireBcryptjs 0 s), s.
    by repeat split; try left. }
  destruct s as [|c s].
  { exists [], [], []. repeat split; try done. by right; left. }
  simpl. destruct (matchRequireBcrypt (c :: s)) as [[[] k]|] eqn:Hm.
  - exists [], (requireBcryptjs
                  ++ JS.replaceAll matchRequireBcrypt requireBcryptjs
                       (pred k) s), (c :: s).
    repeat split; try done. right; right. split; [simpl; lia|by eexists].
  - destruct (IH s) as (p & r & r' & -> & -> & Hcases).
    exists (c :: p), r, r'. repeat split; try done.
    destruct Hcases as [Hlen|[Hend|[Hlen Hby]]].
    + left. simpl. by rewrite Hlen.
    + by right; left.
    + right; right. split; [simpl; lia|done].
Qed.

(** A replacement that begins within the next sixteen code units cannot
    complete a match that begins here. *)
Lemma matchRequireBcrypt_before (c : N) (p t : jsstring) :
  (length p < 16)%nat ->
  matchRequireBcrypt (c :: p ++ requireBcryptjs ++ t) = None.
Proof.
  intros Hlen.
  destruct (matchRequireBcrypt _) as [r|] eqn:Hm; [exfalso|done].
  apply matchRequireBcrypt_Some in Hm as (q1 & q2 & rest & _ & _ & Heq).
  do 16 (destruct p as [|? p]; [by vm_compute in Heq|]).
  simpl in Hlen. lia.
Qed.

(** *** The output has no match left *)

Lemma replaceAll_no_match (s : jsstring) (skip i : nat) :
  matchRequireBcrypt
    (drop i (JS.replaceAll matchRequireBcrypt requireBcryptjs skip s))
  = None.
Proof.
  revert skip i. induction s as [|c s IH]; intros skip i.
  { simpl. by rewrite drop_nil. }
  cbn [JS.replaceAll]. destruct skip as [|skip]; [|apply IH].
  destruct (matchRequireBcrypt (c :: s)) as [[[] k]|] eqn:Hm.
  - destruct (decide (i < length requireBcryptjs)%nat) as [Hlt|Hge].
    + by apply requireBcryptjs_clean.
    + rewrite drop_app_ge by lia. apply IH.
  - destruct i as [|i]; [|apply IH]. rewrite drop_0.
    destruct (replaceBcrypt_shape 16 s)
      as (p & r & r' & -> & Hout & [Hlen|[[-> ->]|[Hlen [r'' ->]]]]).
    + unfold replaceBcrypt in Hout. rewrite Hout.
      destruct (matchRequireBcrypt (c :: p ++ r)) as [x|] eqn:Hm'; [|done].
      apply matchRequireBcrypt_Some in Hm' as (q1 & q2 & rest & Hq1 & Hq2 & Heq).
      assert (c :: p = REQUIRE_OPEN ++ q1 :: BCRYPT ++ q2 :: PAREN_CLOSE)
        as Hpat.
      { change (c :: p ++ r) with ((c :: p) ++ r) in Heq.
        replace (REQUIRE_OPEN ++ q1 :: BCRYPT ++ q2 :: PAREN_CLOSE ++ rest)
          with ((REQUIRE_OPEN ++ q1 :: BCRYPT ++ q2 :: PAREN_CLOSE) ++ rest)
          in Heq by (by rewrite <- !app_assoc).
        apply app_inj_1 in Heq as [Heq _]; [done|]. simpl. by rewrite Hlen. }
      rewrite matchRequireBcrypt_matches in Hm; [done|].
      exists q1, q2, r'. repeat split; try done.
      change (c :: p ++ r') with ((c :: p) ++ r'). rewrite Hpat.
      by rewrite <- !app_assoc.
    + unfold replaceBcrypt in Hout. rewrite Hout. by rewrite app_nil_r in *.
    + unfold replaceBcrypt in Hout. rewrite Hout.
      by apply matchRequireBcrypt_before.
Qed.

(** After the rewrite neither literal occurs. *)
Lemma replaceBcrypt_clean (content : jsstring) :
  mentionsBcrypt (replaceBcrypt content) = false.
Proof.
  assert (forall literal,
            (forall s, JS.startsWith literal s = true ->
                       matchRequireBcrypt s = Some (tt, 17%nat)) ->
            JS.includes literal (replaceBcrypt content) = false) as Hclean.
  { intros literal Hmatch. apply not_true_is_false. intros Hin.
    apply includes_drop in Hin as [i Hi]. apply Hmatch in Hi.
    unfold replaceBcrypt in Hi. rewrite replaceAll_no_match in Hi.
    discriminate Hi. }
  unfold mentionsBcrypt. apply orb_false_iff. split; apply Hclean.
  - intros s Hs. apply requireBcrypt_matched. by left.
  - intros s Hs. apply requireBcrypt_matched. by right.
Qed.

End Bcrypt.

(* ===================================================================== *)
(** ** The repair of a manifest as a list of operations                   *)
(* ===================================================================== *)

Section Manifest.
Import Value MultiFileGenerator.

Context {rt : Runtime}.

(** *** The two forms of a repair agree *)

Lemma fix_bind {A B} (m : Fix A) (k : A -> Fix B) st :
  (m ≫= k) st
  = match m st with
    | (inr a, st') => k a st'
    | (inl e, st') => (inl e, st')
    end.
Proof. reflexivity. Qed.

Lemma fix_bind_assoc {A B C} (m : Fix A) (f : A -> Fix B) (g : B -> Fix C) st :
  ((m ≫= f) ≫= g) st = (m ≫= (fun a => f a ≫= g)) st.
Proof. rewrite !fix_bind. by destruct (m st) as [[e|a] st']. Qed.

Lemma fix_bind_ext {A B} (m m' : Fix A) (f g : A -> Fix B) st :
  (forall st, m st = m' st) -> (forall a st, f a st = g a st) ->
  (m ≫= f) st = (m' ≫= g) st.
Proof.
  intros Hm Hfg. rewrite !fix_bind, Hm.
  destruct (m' st) as [[e|a] st']; [done|apply Hfg].
Qed.

Lemma fix_bind_ret (m : Fix unit) st : (m;; mret tt) st = m st.
Proof. rewrite fix_bind. by destruct (m st) as [[e|[]] st']. Qed.

Lemma runOps_app ops1 ops2 st :
  runOps (ops1 ++ ops2) st = (runOps ops1;; runOps ops2) st.
Proof.
  revert st. induction ops1 as [|op ops1 IH]; intros st; simpl.
  - done.
  - rewrite fix_bind_assoc. apply fix_bind_ext; [done|]. intros _ st'.
    apply IH.
Qed.

Lemma addMissing_runOps field label required st :
  addMissing field label required st
  = runOps (ensureAll field label required) st.
Proof.
  revert st. induction required as [|[dep version] required IH]; intros st.
  - done.
  - simpl. rewrite fix_bind_assoc. apply fix_bind_ext; [done|].
    intros cur st'. apply fix_bind_ext; [done|]. intros _ st''. apply IH.
Qed.

(** One statement in front of the rest of a repair, for each form the
    statements of the two repairs take. *)
Lemma runOps_Ensure1 k v msg (rest : Fix unit) ops st :
  (forall st, rest st = runOps ops st) ->
  (cur ← readField k; unless cur (writeField k v;; push msg);; rest) st
  = runOps (Ensure1 k v (Some msg) :: ops) st.
Proof.
  intros Hrest. simpl. rewrite fix_bind_assoc.
  apply fix_bind_ext; [done|]. intros cur st'.
  apply fix_bind_ext; [done|]. by intros _.
Qed.

Lemma runOps_Ensure1_silent k v (rest : Fix unit) ops st :
  (forall st, rest st = runOps ops st) ->
  (cur ← readField k; unless cur (writeField k v);; rest) st
  = runOps (Ensure1 k v None :: ops) st.
Proof.
  intros Hrest. simpl. rewrite fix_bind_assoc.
  apply fix_bind_ext; [done|]. intros cur st'.
  apply fix_bind_ext; [|by intros _]. intros st''. unfold unless.
  destruct (truthy cur); [done|]. by rewrite fix_bind_ret.
Qed.

Lemma runOps_Ensure2 k1 k2 v msg (rest : Fix unit) ops st :
  (forall st, rest st = runOps ops st) ->
  (cur ← readField2 k1 k2; unless cur (writeField2 k1 k2 v;; push msg);; rest)
    st
  = runOps (Ensure2 k1 k2 v msg :: ops) st.
Proof.
  intros Hrest. simpl. rewrite fix_bind_assoc.
  apply fix_bind_ext; [done|]. intros cur st'.
  apply fix_bind_ext; [done|]. by intros _.
Qed.

Lemma runOps_Remove2 k1 k2 msg (rest : Fix unit) ops st :
  (forall st, rest st = runOps ops st) ->
  (cur ← readField2 k1 k2; when_ cur (deleteField2 k1 k2;; push msg);; rest) st
  = runOps (Remove2 k1 k2 msg :: ops) st.
Proof.
  intros Hrest. simpl. rewrite fix_bind_assoc.
  apply fix_bind_ext; [done|]. intros cur st'.
  apply fix_bind_ext; [done|]. by intros _.
Qed.

Lemma runOps_ensureAll field label required (rest : Fix unit) ops st :
  (forall st, rest st = runOps ops st) ->
  (addMissing field label required;; rest) st
  = runOps (ensureAll field label required ++ ops) st.
Proof.
  intros Hrest. rewrite runOps_app.
  apply fix_bind_ext; [apply addMissing_runOps|by intros _].
Qed.

Lemma fixBackendPackage_runOps config st :
  fixBackendPackage config st = runOps (backendOps config) st.
Proof.
  unfold fixBackendPackage, backendOps. cbn [app]. revert st.
  intros st; apply runOps_Ensure1; clear st.
  intros st; apply runOps_Ensure1_silent; clear st.
  intros st; apply runOps_Ensure1; clear st.
  intros st; apply runOps_Ensure1_silent; clear st.
  intros st; apply runOps_Ensure2; clear st.
  intros st; apply runOps_Ensure2; clear st.
  intros st; apply runOps_Ensure1_silent; clear st.
  intros st; apply runOps_ensureAll; clear st.
  intros st; apply runOps_Remove2; clear st.
  intros st; apply runOps_Ensure1_silent; clear st.
  intros st. apply addMissing_runOps.
Qed.

Lemma fixFrontendPackage_runOps config st :
  fixFrontendPackage config st = runOps (frontendOps config) st.
Proof.
  unfold fixFrontendPackage, frontendOps. cbn [app]. revert st.
  intros st; apply runOps_Ensure1; clear st.
  intros st; apply runOps_Ensure1_silent; clear st.
  intros st; apply runOps_Ensure2; clear st.
  intros st; apply runOps_Ensure2; clear st.
  intros st; apply runOps_Ensure2; clear st.
  intros st; apply runOps_Ensure1_silent; clear st.
  intros st; apply runOps_ensureAll; clear st.
  intros st; apply runOps_Ensure1_silent; clear st.
  intros st. apply addMissing_runOps.
Qed.

End Manifest.

(* ===================================================================== *)
(** ** A repair leaves nothing for a second repair                        *)
(* ===================================================================== *)

Section Repair.
Import Value MultiFileGenerator.

(** *** Properties of objects *)

Lemma getOwn_setOwn (k k' : jsstring) v ps :
  getOwn k (setOwn k' v ps)
  = if bool_decide (k = k') then Some v else getOwn k ps.
Proof.
  induction ps as [|[k0 v0] ps IH]; simpl.
  - destruct (decide (k = k')) as [->|Hne].
    + by rewrite !bool_decide_true.
    + rewrite !bool_decide_false; done.
  - destruct (decide (k0 = k')) as [->|Hne0].
    + rewrite (bool_decide_true (k' = k')) by done. simpl.
      destruct (decide (k = k')) as [->|Hne].
      * by rewrite !bool_decide_true.
      * rewrite !bool_decide_false; done.
    + rewrite (bool_decide_false (k0 = k')) by done. simpl. rewrite IH.
      destruct (decide (k0 = k)) as [->|Hne1].
      * rewrite (bool_decide_true (k = k)) by done.
        rewrite bool_decide_false; done.
      * by rewrite (bool_decide_false (k0 = k)).
Qed.

Lemma getOwn_deleteOwn (k k' : jsstring) ps :
  getOwn k (deleteOwn k' ps)
  = if bool_decide (k = k') then None else getOwn k ps.
Proof.
  induction ps as [|[k0 v0] ps IH]; simpl.
  - by case_bool_decide.
  - destruct (decide (k0 = k')) as [->|Hne0].
    + rewrite (bool_decide_true (k' = k')) by done. rewrite IH.
      destruct (decide (k = k')) as [->|Hne].
      * by rewrite !bool_decide_true.
      * rewrite !bool_decide_false; done.
    + rewrite (bool_decide_false (k0 = k')) by done. simpl. rewrite IH.
      destruct (decide (k0 = k)) as [->|Hne1].
      * rewrite (bool_decide_true (k = k)) by done.
        rewrite bool_decide_false; done.
      * by rewrite (bool_decide_false (k0 = k)).
Qed.

Lemma composite_truthy v : composite v -> truthy (Some v) = true.
Proof. by destruct v. Qed.

Lemma getProp_truthy v k r :
  getProp v k = inr r -> truthy r = true -> composite v.
Proof. destruct v; simpl; intros [= <-]; done. Qed.

Lemma setProp_inr v k x v' :
  setProp v k x = inr v' ->
  composite v'
  /\ forall k', getProp v' k'
                = if bool_decide (k' = k) then inr (Some x) else getProp v k'.
Proof.
  destruct v; simpl; intros [= <-]; (split; [done|]); intros k'; simpl;
    rewrite getOwn_setOwn; by case_bool_decide.
Qed.

Lemma deleteProp_inr v k v' :
  deleteProp v k = inr v' ->
  (composite v -> composite v')
  /\ forall k', getProp v' k'
                = if bool_decide (k' = k) then inr None else getProp v k'.
Proof.
  destruct v; simpl; intros [= <-]; (split; [done|]); intros k'; simpl;
    rewrite ?getOwn_deleteOwn; by case_bool_decide.
Qed.

(** *** Statements that have nothing to do *)

Lemma readField2_run k1 k2 pkg fixes :
  readField2 k1 k2 (pkg, fixes) = (read2 pkg k1 k2, (pkg, fixes)).
Proof. unfold readField2, read2. by destruct (baseOf pkg k1). Qed.

Lemma runOp_settled op pkg fixes :
  settled pkg op -> runOp op (pkg, fixes) = (inr tt, (pkg, fixes)).
Proof.
  destruct op as [k v msg|k1 k2 v msg|k1 k2 msg]; simpl;
    intros (r & Hr & Ht); rewrite fix_bind.
  - unfold readField. rewrite Hr. unfold unless. by rewrite Ht.
  - rewrite readField2_run, Hr. unfold unless. by rewrite Ht.
  - rewrite readField2_run, Hr. unfold when_. by rewrite Ht.
Qed.

Lemma updateField2_inv k1 change pkg fixes pkg' fixes' :
  updateField2 k1 change (pkg, fixes) = (inr tt, (pkg', fixes')) ->
  exists o o',
    baseOf pkg k1 = inr o /\ change o = inr o'
    /\ setProp pkg k1 o' = inr pkg' /\ fixes' = fixes.
Proof.
  unfold updateField2. destruct (baseOf pkg k1) as [e|o] eqn:Ho; [done|].
  destruct (change o) as [e|o'] eqn:Ho'; [done|].
  destruct (setProp pkg k1 o') as [e|pkg''] eqn:Hset; [done|].
  intros [= <- <-]. by exists o, o'.
Qed.

Lemma runOp_inv op pkg fixes pkg' fixes' :
  runOp op (pkg, fixes) = (inr tt, (pkg', fixes')) ->
  (settled pkg op /\ pkg' = pkg) \/ acted op pkg pkg'.
Proof.
  destruct op as [k v msg|k1 k2 v msg|k1 k2 msg]; simpl; rewrite fix_bind.
  - unfold readField. destruct (getProp pkg k) as [e|r] eqn:Hr; [done|].
    unfold unless. destruct (truthy r) eqn:Ht.
    { intros [= <- <-]. left. split; [by exists r|done]. }
    rewrite fix_bind. unfold writeField.
    destruct (setProp pkg k v) as [e|pkg''] eqn:Hset; [done|].
    intros Hrest. right. eapply acted_Ensure1; try done.
    destruct msg; by injection Hrest as <- _.
  - rewrite readField2_run. unfold read2.
    destruct (baseOf pkg k1) as [e|o] eqn:Ho; [done|].
    destruct (getProp o k2) as [e|r] eqn:Hr; [done|].
    unfold unless. destruct (truthy r) eqn:Ht.
    { intros [= <- <-]. left. split; [by exists r|done]. }
    rewrite fix_bind. unfold writeField2.
    destruct (updateField2 _ _ _) as [[e|[]] [pkg'' fixes'']] eqn:Hupd;
      [done|].
    apply updateField2_inv in Hupd as (o1 & o' & Ho1 & Hset & Hpkg & _).
    rewrite Ho in Ho1. injection Ho1 as <-.
    intros [= <- _]. right. by eapply acted_Ensure2.
  - rewrite readField2_run. unfold read2.
    destruct (baseOf pkg k1) as [e|o] eqn:Ho; [done|].
    destruct (getProp o k2) as [e|r] eqn:Hr; [done|].
    unfold when_. destruct (truthy r) eqn:Ht; cycle 1.
    { intros [= <- <-]. left. split; [by exists r|done]. }
    rewrite fix_bind. unfold deleteField2.
    destruct (updateField2 _ _ _) as [[e|[]] [pkg'' fixes'']] eqn:Hupd;
      [done|].
    apply updateField2_inv in Hupd as (o1 & o' & Ho1 & Hset & Hpkg & _).
    rewrite Ho in Ho1. injection Ho1 as <-.
    intros [= <- _]. right. by eapply acted_Remove2.
Qed.

Lemma baseOf_setProp pkg kk x pkg' k :
  setProp pkg kk x = inr pkg' ->
  baseOf pkg' k = if bool_decide (k = kk) then inr x else baseOf pkg k.
Proof.
  intros [_ Hget]%setProp_inr. unfold baseOf. rewrite Hget.
  by case_bool_decide.
Qed.

Lemma baseOf_getProp pkg k o : baseOf pkg k = inr o -> getProp pkg k = inr (Some o).
Proof.
  unfold baseOf. destruct (getProp pkg k) as [e|[o'|]]; by intros [= ->].
Qed.

(** A statement that acts assigns a truthy value to its first
    property. *)
Lemma acted_assign op pkg pkg' :
  acted op pkg pkg' -> assignsTruthy op ->
  exists x, setProp pkg (baseKey op) x = inr pkg' /\ truthy (Some x) = true.
Proof.
  intros [k v msg r -> Hr Ht Hset|k1 k2 v msg o r o' -> Ho Hr Ht Hset Hpkg
          |k1 k2 msg o r o' -> Ho Hr Ht Hdel Hpkg] Hv; simpl in *.
  - by exists v.
  - exists o'. split; [done|].
    apply composite_truthy. by apply setProp_inr in Hset as [? _].
  - exists o'. split; [done|]. apply composite_truthy.
    apply deleteProp_inr in Hdel as [Hc _]. apply Hc.
    by eapply getProp_truthy.
Qed.

Lemma acted_settles op pkg pkg' :
  acted op pkg pkg' -> assignsTruthy op -> settled pkg' op.
Proof.
  intros [k v msg r -> Hr Ht Hset|k1 k2 v msg o r o' -> Ho Hr Ht Hset Hpkg
          |k1 k2 msg o r o' -> Ho Hr Ht Hdel Hpkg] Hv; simpl in *.
  - apply setProp_inr in Hset as [_ Hget]. exists (Some v).
    by rewrite Hget, bool_decide_true.
  - exists (Some v). unfold read2.
    rewrite (baseOf_setProp _ _ _ _ _ Hpkg), bool_decide_true by done.
    apply setProp_inr in Hset as [_ Hget].
    by rewrite Hget, bool_decide_true.
  - exists None. unfold read2.
    rewrite (baseOf_setProp _ _ _ _ _ Hpkg), bool_decide_true by done.
    apply deleteProp_inr in Hdel as [_ Hget].
    by rewrite Hget, bool_decide_true.
Qed.

(** A statement that acts keeps what compatible statements before it
    have settled. *)
Lemma acted_preserves op later pkg pkg' :
  settled pkg op -> compatible op later = true -> assignsTruthy later ->
  acted later pkg pkg' -> settled pkg' op.
Proof.
  intros Hop Hcompat Hv Hacted.
  destruct op as [k v msg|a b v msg|a b msg]; simpl in Hop.
  - destruct (acted_assign _ _ _ Hacted Hv) as (x & Hset & Hx).
    apply setProp_inr in Hset as [_ Hget]. simpl. rewrite Hget.
    case_bool_decide; [by exists (Some x)|done].
  - destruct Hop as (r & Hread & Hr). unfold read2 in Hread.
    destruct (baseOf pkg a) as [e|o] eqn:Ho; [done|].
    pose proof (getProp_truthy _ _ _ Hread Hr) as Hcomp.
    simpl. unfold read2.
    destruct Hacted as [k v' msg' r' -> Hr' Ht' Hset
                       |k1 k2 v' msg' o1 r' o' -> Ho1 Hr' Ht' Hset Hpkg
                       |k1 k2 msg' o1 r' o' -> Ho1 Hr' Ht' Hdel Hpkg].
    + rewrite (baseOf_setProp _ _ _ _ _ Hset).
      case_bool_decide as Hk; [|rewrite Ho; by exists r].
      subst k. rewrite (baseOf_getProp _ _ _ Ho) in Hr'.
      injection Hr' as <-. by rewrite composite_truthy in Ht'.
    + rewrite (baseOf_setProp _ _ _ _ _ Hpkg).
      case_bool_decide as Hk; [|rewrite Ho; by exists r].
      subst k1. rewrite Ho in Ho1. injection Ho1 as <-.
      apply setProp_inr in Hset as [_ Hget]. rewrite Hget.
      case_bool_decide; [by exists (Some v')|by exists r].
    + rewrite (baseOf_setProp _ _ _ _ _ Hpkg).
      case_bool_decide as Hk; [|rewrite Ho; by exists r].
      subst k1. rewrite Ho in Ho1. injection Ho1 as <-.
      apply deleteProp_inr in Hdel as [_ Hget]. rewrite Hget.
      simpl in Hcompat. rewrite bool_decide_true in Hcompat by done.
      destruct (decide (b = k2)) as [->|Hb];
        [by rewrite bool_decide_true in Hcompat|].
      rewrite bool_decide_false by done. by exists r.
  - destruct Hop as (r & Hread & Hr). unfold read2 in Hread.
    destruct (baseOf pkg a) as [e|o] eqn:Ho; [done|].
    simpl. unfold read2.
    destruct Hacted as [k v' msg' r' -> Hr' Ht' Hset
                       |k1 k2 v' msg' o1 r' o' -> Ho1 Hr' Ht' Hset Hpkg
                       |k1 k2 msg' o1 r' o' -> Ho1 Hr' Ht' Hdel Hpkg].
    + rewrite (baseOf_setProp _ _ _ _ _ Hset). simpl in Hcompat.
      destruct (decide (a = k)) as [->|Hk];
        [by rewrite bool_decide_true in Hcompat|].
      rewrite bool_decide_false, Ho by done. by exists r.
    + rewrite (baseOf_setProp _ _ _ _ _ Hpkg).
      case_bool_decide as Hk; [|rewrite Ho; by exists r].
      subst k1. rewrite Ho in Ho1. injection Ho1 as <-.
      apply setProp_inr in Hset as [_ Hget]. rewrite Hget.
      simpl in Hcompat. rewrite bool_decide_true in Hcompat by done.
      destruct (decide (b = k2)) as [->|Hb];
        [by rewrite bool_decide_true in Hcompat|].
      rewrite bool_decide_false by done. by exists r.
    + rewrite (baseOf_setProp _ _ _ _ _ Hpkg).
      case_bool_decide as Hk; [|rewrite Ho; by exists r].
      subst k1. rewrite Ho in Ho1. injection Ho1 as <-.
      apply deleteProp_inr in Hdel as [_ Hget]. rewrite Hget.
      case_bool_decide; [by exists None|by exists r].
Qed.

(** *** Sequences of statements *)

Lemma runOps_cons_inv op rest pkg fixes pkg' fixes' :
  runOps (op :: rest) (pkg, fixes) = (inr tt, (pkg', fixes')) ->
  exists pkg1 fixes1,
    runOp op (pkg, fixes) = (inr tt, (pkg1, fixes1))
    /\ runOps rest (pkg1, fixes1) = (inr tt, (pkg', fixes')).
Proof.
  simpl. rewrite fix_bind.
  destruct (runOp op (pkg, fixes)) as [[e|[]] [pkg1 fixes1]]; [done|].
  intros H. by exists pkg1, fixes1.
Qed.

Lemma runOp_preserves op later pkg fixes pkg' fixes' :
  settled pkg op -> compatible op later = true -> assignsTruthy later ->
  runOp later (pkg, fixes) = (inr tt, (pkg', fixes')) -> settled pkg' op.
Proof.
  intros Hop Hcompat Hv [[_ ->]|Hacted]%runOp_inv; [done|].
  by eapply acted_preserves.
Qed.

Lemma runOps_preserves op rest pkg fixes pkg' fixes' :
  settled pkg op -> forallb (compatible op) rest = true ->
  Forall assignsTruthy rest ->
  runOps rest (pkg, fixes) = (inr tt, (pkg', fixes')) -> settled pkg' op.
Proof.
  revert pkg fixes. induction rest as [|later rest IH];
    intros pkg fixes Hop Hcompat Hv Hrun.
  { by injection Hrun as <- _. }
  simpl in Hcompat. apply andb_true_iff in Hcompat as [Hc Hcompat].
  apply Forall_cons in Hv as [Hv Hvs].
  apply runOps_cons_inv in Hrun as (pkg1 & fixes1 & Hone & Hrest).
  eapply IH; [|done|done|exact Hrest]. by eapply runOp_preserves.
Qed.

(** After a repair every one of its statements is settled. *)
Lemma runOps_settles ops pkg fixes pkg' fixes' :
  Forall assignsTruthy ops -> compatibleAll ops = true ->
  runOps ops (pkg, fixes) = (inr tt, (pkg', fixes')) ->
  Forall (settled pkg') ops.
Proof.
  revert pkg fixes. induction ops as [|op ops IH];
    intros pkg fixes Hv Hcompat Hrun; [done|].
  simpl in Hcompat. apply andb_true_iff in Hcompat as [Hc Hcompat].
  apply Forall_cons in Hv as [Hv Hvs].
  apply runOps_cons_inv in Hrun as (pkg1 & fixes1 & Hone & Hrest).
  apply Forall_cons. split; [|by eapply (IH pkg1 fixes1)].
  eapply runOps_preserves; [|done|done|exact Hrest].
  apply runOp_inv in Hone as [[Hs ->]|Hacted]; [done|].
  by eapply acted_settles.
Qed.

(** A repair all of whose statements are settled changes nothing and
    reports nothing. *)
Lemma runOps_settled ops pkg fixes :
  Forall (settled pkg) ops -> runOps ops (pkg, fixes) = (inr tt, (pkg, fixes)).
Proof.
  induction 1 as [|op ops Hop Hops IH]; [done|].
  simpl. rewrite fix_bind, runOp_settled by done. exact IH.
Qed.

Theorem runOps_idempotent ops pkg fixes pkg' fixes' :
  Forall assignsTruthy ops -> compatibleAll ops = true ->
  runOps ops (pkg, fixes) = (inr tt, (pkg', fixes')) ->
  runOps ops (pkg', []) = (inr tt, (pkg', [])).
Proof. intros Hv Hc Hrun. by eapply runOps_settled, runOps_settles. Qed.

End Repair.

(* ===================================================================== *)
(** ** The fixer applied to its own output                                *)
(* ===================================================================== *)

Section FixTwice.
Import Value MultiFileGenerator.
Context {rt : Runtime}.

Lemma truthyString_app_r (s t : jsstring) :
  JS.truthyString t = true -> JS.truthyString (s ++ t) = true.
Proof. by destruct s, t. Qed.

Lemma ensureAll_assignsTruthy field label required :
  Forall (fun entry => JS.truthyString entry.2 = true) required ->
  Forall assignsTruthy (ensureAll field label required).
Proof.
  intros H. unfold ensureAll. apply Forall_fmap.
  eapply Forall_impl; [exact H|]. by intros [dep version].
Qed.

Lemma backendOps_assignsTruthy config :
  Forall assignsTruthy (backendOps config).
Proof.
  unfold backendOps. repeat apply Forall_app_2.
  - repeat (apply Forall_cons; split; [try done|]); [|apply Forall_nil_2].
    simpl. by apply truthyString_app_r.
  - apply ensureAll_assignsTruthy.
    repeat (apply Forall_cons; split; [done|]). apply Forall_nil_2.
  - repeat (apply Forall_cons; split; [done|]). apply Forall_nil_2.
  - apply ensureAll_assignsTruthy.
    repeat (apply Forall_cons; split; [done|]). apply Forall_nil_2.
Qed.

Lemma frontendOps_assignsTruthy config :
  Forall assignsTruthy (frontendOps config).
Proof.
  unfold frontendOps. repeat apply Forall_app_2.
  - repeat (apply Forall_cons; split; [try done|]); [|apply Forall_nil_2].
    simpl. by apply truthyString_app_r.
  - apply ensureAll_assignsTruthy.
    repeat (apply Forall_cons; split; [done|]). apply Forall_nil_2.
  - repeat (apply Forall_cons; split; [done|]). apply Forall_nil_2.
  - apply ensureAll_assignsTruthy.
    repeat (apply Forall_cons; split; [done|]). apply Forall_nil_2.
Qed.

Lemma backendOps_compatible config : compatibleAll (backendOps config) = true.
Proof. vm_compute. reflexivity. Qed.

Lemma frontendOps_compatible config : compatibleAll (frontendOps config) = true.
Proof. vm_compute. reflexivity. Qed.

Lemma fixPackageJson_again (body : Fix unit) ops (content : jsstring) :
  (forall st, body st = runOps ops st) ->
  Forall assignsTruthy ops -> compatibleAll ops = true ->
  repairable body content ->
  fixPackageJson body (fixed_content (fixPackageJson body content))
  = mkFixed (fixed_content (fixPackageJson body content)) [].
Proof.
  intros Hops Hv Hc. unfold repairable, fixPackageJson.
  destruct (JSON_parse content) as [pkg|] eqn:Hparse.
  - intros (pkg' & fixes & Hbody & Hround). rewrite Hbody. simpl.
    rewrite Hround. rewrite Hops in Hbody.
    by rewrite Hops, (runOps_idempotent _ _ _ _ _ Hv Hc Hbody).
  - intros _. simpl. by rewrite Hparse.
Qed.

Lemma fixBackendPackageJson_again (content : jsstring) (config : Config) :
  repairable (fixBackendPackage config) content ->
  fixBackendPackageJson
    (fixed_content (fixBackendPackageJson content config)) config
  = mkFixed (fixed_content (fixBackendPackageJson content config)) [].
Proof.
  apply (fixPackageJson_again _ (backendOps config));
    [apply fixBackendPackage_runOps|apply backendOps_assignsTruthy
    |apply backendOps_compatible].
Qed.

Lemma fixFrontendPackageJson_again (content : jsstring) (config : Config) :
  repairable (fixFrontendPackage config) content ->
  fixFrontendPackageJson
    (fixed_content (fixFrontendPackageJson content config)) config
  = mkFixed (fixed_content (fixFrontendPackageJson content config)) [].
Proof.
  apply (fixPackageJson_again _ (frontendOps config));
    [apply fixFrontendPackage_runOps|apply frontendOps_assignsTruthy
    |apply frontendOps_compatible].
Qed.

(** Step 1 on a manifest that step 1 has produced. *)
Lemma fixManifest_again (key : jsstring)
  (fixer : jsstring -> Config -> Fixed) (config : Config) (m : FileMap)
  (content : jsstring) :
  m !! key = Some (manifestFixed fixer config content) ->
  (JS.truthyString content = true ->
   fixer (fixed_content (fixer content config)) config
   = mkFixed (fixed_content (fixer content config)) []) ->
  fixManifest key fixer config (m, []) = (m, []).
Proof.
  intros Hkey Hagain. unfold manifestFixed in Hkey. unfold fixManifest.
  destruct (JS.truthyString content) eqn:Ht; rewrite Hkey;
    [|by rewrite Ht].
  destruct (JS.truthyString (fixed_content (fixer content config))); [|done].
  rewrite Hagain by done. simpl. f_equal. by apply insert_id.
Qed.

(** Step 2 on an entry that step 2 has produced. *)
Lemma bcryptFixed_again (k c : jsstring) :
  isBackendJs k && mentionsBcrypt (bcryptFixed k c) = false.
Proof.
  unfold bcryptFixed.
  destruct (isBackendJs k); [|done]. simpl.
  destruct (mentionsBcrypt c) eqn:Hc; [|done]. apply replaceBcrypt_clean.
Qed.

Lemma omap_none {A B} (f : A -> option B) (l : list A) :
  (forall x, x ∈ l -> f x = None) -> omap f l = [].
Proof.
  induction l as [|x l IH]; intros H; [done|]. simpl.
  rewrite (H x) by (by apply elem_of_cons; left).
  apply IH. intros y Hy. apply H. by apply elem_of_cons; right.
Qed.

Lemma fixBcryptRequires_again (m : FileMap) :
  (forall k c, m !! k = Some c -> isBackendJs k && mentionsBcrypt c = false) ->
  fixBcryptRequires (m, []) = (m, []).
Proof.
  intros Hm.
  destruct (fixBcryptRequires (m, [])) as [m' fx] eqn:Hfix.
  assert (m' = (fixBcryptRequires (m, [])).1) as -> by (by rewrite Hfix).
  assert (fx = (fixBcryptRequires (m, [])).2) as -> by (by rewrite Hfix).
  f_equal.
  - apply map_eq. intros k. rewrite fixBcryptRequires_lookup.
    destruct (m !! k) as [c|] eqn:Hk; [|done]. simpl.
    unfold bcryptFixed. by rewrite (Hm k c Hk).
  - rewrite fixBcryptRequires_fixes. simpl. apply omap_none.
    intros [k c] Hin. apply elem_of_map_to_list in Hin.
    unfold bcryptNote. simpl. by rewrite (Hm k c Hin).
Qed.

Lemma fixManifest_absent (key : jsstring)
  (fixer : jsstring -> Config -> Fixed) (config : Config) (m : FileMap)
  (fixes : list jsstring) :
  m !! key = None -> fixManifest key fixer config (m, fixes) = (m, fixes).
Proof. intros Hkey. unfold fixManifest. by rewrite Hkey. Qed.

(** The two manifests after the fixer. *)
Lemma entryFixed_backend (config : Config) (content : jsstring) :
  entryFixed config BACKEND_PACKAGE_JSON content
  = manifestFixed fixBackendPackageJson config content.
Proof.
  unfold entryFixed, bcryptFixed.
  rewrite (bool_decide_true (BACKEND_PACKAGE_JSON = BACKEND_PACKAGE_JSON))
    by done.
  rewrite (bool_decide_false (BACKEND_PACKAGE_JSON = FRONTEND_PACKAGE_JSON))
    by (intros H; by vm_compute in H).
  by replace (isBackendJs BACKEND_PACKAGE_JSON) with false
    by (vm_compute; reflexivity).
Qed.

Lemma entryFixed_frontend (config : Config) (content : jsstring) :
  entryFixed config FRONTEND_PACKAGE_JSON content
  = manifestFixed fixFrontendPackageJson config content.
Proof.
  unfold entryFixed, bcryptFixed.
  rewrite (bool_decide_false (FRONTEND_PACKAGE_JSON = BACKEND_PACKAGE_JSON))
    by (intros H; by vm_compute in H).
  rewrite (bool_decide_true (FRONTEND_PACKAGE_JSON = FRONTEND_PACKAGE_JSON))
    by done.
  by replace (isBackendJs FRONTEND_PACKAGE_JSON) with false
    by (vm_compute; reflexivity).
Qed.

Lemma manifest_kept (key : jsstring) :
  key ∈ [BACKEND_PACKAGE_JSON; FRONTEND_PACKAGE_JSON] -> key ∉ ENV_FILES.
Proof.
  intros Hkey Henv. unfold ENV_FILES in Henv.
  repeat (apply elem_of_cons in Hkey as [->|Hkey]);
    [| |by apply elem_of_nil in Hkey];
    repeat (apply elem_of_union in Henv as [Henv|Henv]);
    apply elem_of_singleton in Henv; by vm_compute in Henv.
Qed.

End FixTwice.


(** C5 (as amended).  Suppose each manifest of the map either does not
    parse, or parses to a value that the repair handles without an
    error and prints to a text that parses back to the repaired value.
    Then applying the validator/fixer to the file map it returned
    returns the same file map, and the fixes it reports are exactly the
    import warnings of that map: no manifest fix and no bcrypt fix is
    reported a second time, and the list is empty when every relative
    [require] of the map resolves. *)
Theorem fix_twice {rt : Runtime} (files : FileMap) (config : Config) :
  (forall content,
     files !! MultiFileGenerator.BACKEND_PACKAGE_JSON = Some content ->
     repairable (MultiFileGenerator.fixBackendPackage config) content) ->
  (forall content,
     files !! MultiFileGenerator.FRONTEND_PACKAGE_JSON = Some content ->
     repairable (MultiFileGenerator.fixFrontendPackage config) content) ->
  let once := MultiFileGenerator.validateAndFixFiles files config in
  MultiFileGenerator.validateAndFixFiles once.1 config
  = (once.1, MultiFileGenerator.validateAndFixImports once.1).
Proof.
  intros Hbackend Hfrontend once. set (m := once.1).
  assert (forall k, m !! k
                    = if bool_decide (k ∈ ENV_FILES) then None
                      else entryFixed config k <$> files !! k) as Hm.
  { intros k. apply validateAndFixFiles_lookup. }
  unfold MultiFileGenerator.validateAndFixFiles at 1.
  assert (MultiFileGenerator.fixManifest
            MultiFileGenerator.BACKEND_PACKAGE_JSON
            MultiFileGenerator.fixBackendPackageJson config (m, [])
          = (m, [])) as ->.
  { pose proof (Hm MultiFileGenerator.BACKEND_PACKAGE_JSON) as Hk.
    rewrite bool_decide_false in Hk by (apply manifest_kept; set_solver).
    destruct (files !! MultiFileGenerator.BACKEND_PACKAGE_JSON)
      as [content|] eqn:Hfile; simpl in Hk.
    - rewrite entryFixed_backend in Hk.
      eapply fixManifest_again; [exact Hk|]. intros _.
      by apply fixBackendPackageJson_again, Hbackend.
    - by apply fixManifest_absent. }
  assert (MultiFileGenerator.fixManifest
            MultiFileGenerator.FRONTEND_PACKAGE_JSON
            MultiFileGenerator.fixFrontendPackageJson config (m, [])
          = (m, [])) as ->.
  { pose proof (Hm MultiFileGenerator.FRONTEND_PACKAGE_JSON) as Hk.
    rewrite bool_decide_false in Hk by (apply manifest_kept; set_solver).
    destruct (files !! MultiFileGenerator.FRONTEND_PACKAGE_JSON)
      as [content|] eqn:Hfile; simpl in Hk.
    - rewrite entryFixed_frontend in Hk.
      eapply fixManifest_again; [exact Hk|]. intros _.
      by apply fixFrontendPackageJson_again, Hfrontend.
    - by apply fixManifest_absent. }
  rewrite fixBcryptRequires_again; cycle 1.
  { intros k c Hk. rewrite Hm in Hk. case_bool_decide; [done|].
    destruct (files !! k) as [c0|]; [|done]. injection Hk as <-.
    apply bcryptFixed_again. }
  simpl. f_equal.
  assert (forall k, k ∈ ENV_FILES -> delete k m = m) as Hdel.
  { intros k Hk. apply delete_id. by rewrite Hm, bool_decide_true. }
  rewrite !Hdel; [done|unfold ENV_FILES; set_solver..].
Qed.

Lemma fix_twice_witness :
  let once :=
    MultiFileGenerator.validateAndFixFiles (rt := Sample.runtime)
      Example.bcryptBackend Example.config in
  MultiFileGenerator.validateAndFixFiles (rt := Sample.runtime) once.1
    Example.config
  = (once.1, []).
Proof.
  cbv zeta.
  rewrite (fix_twice (rt := Sample.runtime) Example.bcryptBackend
             Example.config).
  - apply (f_equal (pair _)). vm_compute. reflexivity.
  - intros content Hc. vm_compute in Hc. injection Hc as <-.
    unfold repairable.
    destruct (JSON_parse _) as [pkg|] eqn:Hp; [|done].
    vm_compute in Hp. injection Hp as <-.
    eexists _, _. split; vm_compute; reflexivity.
  - intros content Hc. vm_compute in Hc. discriminate Hc.
Defined.

(** A file requires a module that the map does not hold: the warning is
    reported when the fixer runs, and again when it runs on its own
    output. *)
Lemma second_pass_repeats_warning :
  let once :=
    MultiFileGenerator.validateAndFixFiles (rt := Sample.runtime)
      Example.danglingRequire Example.config in
  (MultiFileGenerator.validateAndFixFiles (rt := Sample.runtime) once.1
     Example.config).2
  = [js:"Warning: backend/src/app.js imports './config' but file not found at backend/src/config"].
Proof. vm_compute. reflexivity. Qed.




(* ===================================================================== *)
(** ** The parser on the marker format                                    *)
(* ===================================================================== *)

Section Parser.
Import MultiFileGenerator.

(** *** Strings *)

Lemma span_app (p : N -> bool) (l r : jsstring) :
  Forall (fun c => p c = true) l ->
  (match r with [] => True | c :: _ => p c = false end) ->
  JS.span p (l ++ r) = (l, r).
Proof.
  intros Hl Hr. induction Hl as [|c l Hc Hl IH]; simpl.
  - destruct r as [|c r]; [done|]. simpl. by rewrite Hr.
  - by rewrite Hc, IH.
Qed.

Lemma span_none (p : N -> bool) (r : jsstring) :
  (match r with [] => True | c :: _ => p c = false end) ->
  JS.span p r = ([], r).
Proof. intros Hr. by apply (span_app p [] r). Qed.

Lemma stripPrefix_app (p s : jsstring) : JS.stripPrefix p (p ++ s) = Some s.
Proof. by apply stripPrefix_Some. Qed.

(** A literal that begins in [u] and runs into a code unit it does not
    contain does not begin there. *)
Lemma startsWith_cut (p u rest : jsstring) (x : N) :
  x ∉ p -> JS.startsWith p (u ++ x :: rest) = true ->
  JS.startsWith p u = true.
Proof.
  revert u. induction p as [|a p IH]; intros u Hx; [done|].
  apply not_elem_of_cons in Hx as [Hne Hx].
  destruct u as [|b u]; simpl.
  - rewrite andb_true_iff, N.eqb_eq. by intros [-> _].
  - rewrite !andb_true_iff. intros [Hab Hrest]. split; [done|]. by apply IH.
Qed.

Lemma includes_cons (p s : jsstring) (c : N) :
  JS.includes p (c :: s) = false ->
  JS.startsWith p (c :: s) = false /\ JS.includes p s = false.
Proof. simpl. by rewrite orb_false_iff. Qed.

Lemma splitAtFirst_unfold (p s : jsstring) :
  JS.splitAtFirst p s
  = if JS.startsWith p s then Some ([], drop (length p) s)
    else match s with
         | [] => None
         | c :: s' =>
             match JS.splitAtFirst p s' with
             | Some (a, b) => Some (c :: a, b)
             | None => None
             end
         end.
Proof. by destruct s. Qed.

(** The lazy body ends at the marker that follows the content. *)
Lemma splitAtFirst_marker (p content rest : jsstring) (x : N) :
  x ∉ p -> p <> [] -> JS.includes p content = false ->
  JS.splitAtFirst p (content ++ x :: p ++ rest)
  = Some (content ++ [x], rest).
Proof.
  intros Hx Hp. induction content as [|c content IH]; intros Hin.
  - cbn [app]. rewrite splitAtFirst_unfold.
    destruct (JS.startsWith p (x :: p ++ rest)) eqn:Hstart.
    { apply (startsWith_cut p [] _ x Hx) in Hstart. by destruct p. }
    rewrite splitAtFirst_unfold.
    assert (JS.startsWith p (p ++ rest) = true) as ->
        by (apply startsWith_app; by eexists).
    by rewrite drop_app_length.
  - apply includes_cons in Hin as [Hhere Hin].
    cbn [app]. rewrite splitAtFirst_unfold.
    destruct (JS.startsWith p (c :: content ++ x :: p ++ rest)) eqn:Hstart.
    { apply (startsWith_cut p (c :: content) _ x Hx) in Hstart. congruence. }
    by rewrite IH.
Qed.

Lemma trimStart_length (s : jsstring) :
  (length (JS.trimStart s) <= length s)%nat.
Proof.
  induction s as [|c s IH]; simpl; [done|].
  destruct (JS.isWhiteSpace c); simpl; lia.
Qed.

Lemma trimStart_fixed (s : jsstring) :
  length (JS.trimStart s) = length s -> JS.trimStart s = s.
Proof.
  destruct s as [|c s]; simpl; [done|].
  pose proof (trimStart_length s).
  destruct (JS.isWhiteSpace c); simpl; [lia|done].
Qed.

Lemma trimEnd_length (s : jsstring) :
  (length (JS.trimEnd s) <= length s)%nat.
Proof.
  unfold JS.trimEnd. rewrite length_reverse.
  etrans; [apply trimStart_length|]. by rewrite length_reverse.
Qed.

Lemma trim_fixed (s : jsstring) :
  JS.trim s = s -> JS.trimStart s = s /\ JS.trimEnd s = s.
Proof.
  unfold JS.trim. intros Htrim.
  assert (JS.trimStart s = s) as Hstart.
  { apply trimStart_fixed. pose proof (trimStart_length s).
    pose proof (trimEnd_length (JS.trimStart s)). rewrite Htrim in *. lia. }
  by rewrite Hstart in Htrim.
Qed.

Lemma trimStart_head (c : N) (s : jsstring) :
  JS.trimStart (c :: s) = c :: s -> JS.isWhiteSpace c = false.
Proof.
  simpl. destruct (JS.isWhiteSpace c); [|done]. intros H.
  pose proof (trimStart_length s) as Hlen. rewrite H in Hlen. simpl in Hlen.
  lia.
Qed.

(** The content and the line feed that follows it, trimmed. *)
Lemma trim_content (content : jsstring) :
  JS.trim content = content ->
  JS.trim (content ++ [JS.LINE_FEED]) = content.
Proof.
  intros [Hstart Hend]%trim_fixed. unfold JS.trim.
  destruct content as [|c content]; [done|].
  pose proof (trimStart_head _ _ Hstart) as Hc.
  cbn [app JS.trimStart]. rewrite Hc.
  unfold JS.trimEnd in *.
  change (c :: content ++ [JS.LINE_FEED])
    with ((c :: content) ++ [JS.LINE_FEED]).
  rewrite reverse_app. exact Hend.
Qed.

Lemma isPathChar_not_space (c : N) :
  isPathChar c = true -> JS.isWhiteSpace c = false.
Proof.
  unfold isPathChar. rewrite negb_true_iff, orb_false_iff. by intros [? _].
Qed.

Lemma trimStart_plain (path : jsstring) :
  Forall (fun c => isPathChar c = true) path -> JS.trimStart path = path.
Proof.
  intros [|c rest Hc _]; [done|]. simpl.
  by rewrite (isPathChar_not_space _ Hc).
Qed.

Lemma trim_path (path : jsstring) :
  Forall (fun c => isPathChar c = true) path -> JS.trim path = path.
Proof.
  intros Hpath. unfold JS.trim, JS.trimEnd.
  rewrite (trimStart_plain _ Hpath), trimStart_plain.
  - apply reverse_involutive.
  - by apply Forall_reverse.
Qed.

(** *** One block *)

(** The expression matches a block at its start: the captures are the
    path and the content with its line feed, and the match ends with the
    end marker. *)
Lemma matchFileBlock_entry (path content rest : jsstring) :
  plainPath path -> plainContent content ->
  matchFileBlock (serializeEntry (path, content) ++ rest)
  = Some ((path, content ++ [JS.LINE_FEED]),
          pred (length (serializeEntry (path, content)))).
Proof.
  intros (Hne & Hchars & _) (_ & Hmarker).
  unfold matchFileBlock, serializeEntry. cbn [fst snd].
  rewrite <- !app_assoc, stripPrefix_app.
  rewrite (span_app JS.isWhiteSpace js:" "); cycle 1.
  { by repeat constructor. }
  { destruct path as [|c path]; [done|]. simpl.
    apply Forall_cons in Hchars as [Hc _]. by apply isPathChar_not_space. }
  rewrite (span_app isPathChar path); [|done|done].
  destruct path as [|c path]; [done|].
  rewrite span_none by done.
  rewrite stripPrefix_app.
  change ([JS.LINE_FEED] ++ END_FILE ++ [JS.LINE_FEED] ++ rest)
    with (JS.LINE_FEED :: END_FILE ++ [JS.LINE_FEED] ++ rest).
  rewrite splitAtFirst_marker; [| |done|done]; cycle 1.
  { vm_compute. set_solver. }
  f_equal. f_equal. rewrite !length_app. simpl. lia.
Qed.

(** *** A sequence of blocks *)

Lemma execAll_skip {A} (m : JS.matcher A) (s : jsstring) (k : nat) :
  JS.execAll m k s = JS.execAll m 0 (drop k s).
Proof.
  revert k. induction s as [|c s IH]; intros k; [by destruct k|].
  destruct k as [|k]; [done|]. simpl. apply IH.
Qed.

Lemma execAll_match {A} (m : JS.matcher A) (s : jsstring) (a : A) (n : nat) :
  m s = Some (a, n) -> (0 < n)%nat -> s <> [] ->
  JS.execAll m 0 s = a :: JS.execAll m 0 (drop n s).
Proof.
  intros Hm Hn Hs. destruct s as [|c s]; [done|].
  destruct n as [|n]; [lia|]. simpl. rewrite Hm. simpl.
  by rewrite execAll_skip.
Qed.

(** What the loop of the parser sees in a sequence of blocks. *)
Lemma execAll_serialize (entries : list (jsstring * jsstring)) :
  Forall (fun entry => plainPath entry.1 /\ plainContent entry.2) entries ->
  JS.execAll matchFileBlock 0 (entries ≫= serializeEntry)
  = (fun entry => (entry.1, entry.2 ++ [JS.LINE_FEED])) <$> entries.
Proof.
  induction 1 as [|[path content] entries [Hpath Hcontent] _ IH]; [done|].
  rewrite bind_cons, fmap_cons. cbn [fst snd].
  pose proof (matchFileBlock_entry path content (entries ≫= serializeEntry)
                Hpath Hcontent) as Hm.
  assert (exists body,
            serializeEntry (path, content) = body ++ [JS.LINE_FEED]
            /\ (0 < length body)%nat)
    as (body & Hbody & Hlen).
  { unfold serializeEntry. eexists. split; [by rewrite !app_assoc|].
    rewrite !length_app. unfold FILE_OPEN. simpl. lia. }
  rewrite Hbody in Hm |- *. rewrite length_app in Hm.
  replace (pred (length body + length [JS.LINE_FEED])) with (length body)
    in Hm by (simpl; lia).
  rewrite (execAll_match _ _ _ _ Hm) by (done || by destruct body).
  f_equal. rewrite <- app_assoc, drop_app_length. simpl. exact IH.
Qed.

Lemma foldl_assign (entries : list (jsstring * jsstring)) (acc : FileMap) :
  Forall (fun entry => plainPath entry.1 /\ plainContent entry.2) entries ->
  foldl (fun (files : FileMap) '(filePath, content) =>
           assignFile (JS.trim filePath) (JS.trim content) files)
        acc ((fun entry => (entry.1, entry.2 ++ [JS.LINE_FEED])) <$> entries)
  = foldl (fun (files : FileMap) entry => <[entry.1 := entry.2]> files)
          acc entries.
Proof.
  intros H. revert acc.
  induction H as [|[path content] entries [Hpath Hcontent] _ IH];
    intros acc; [done|].
  simpl. rewrite IH. f_equal.
  destruct Hpath as (_ & Hchars & Hproto). destruct Hcontent as [Htrim _].
  rewrite trim_path, trim_content by done.
  unfold assignFile. by rewrite bool_decide_false.
Qed.

Lemma foldl_insert_lookup (entries : list (jsstring * jsstring))
  (acc : FileMap) (k : jsstring) :
  NoDup entries.*1 ->
  foldl (fun (files : FileMap) entry => <[entry.1 := entry.2]> files)
        acc entries !! k
  = match (list_to_map entries : FileMap) !! k with
    | Some v => Some v
    | None => acc !! k
    end.
Proof.
  revert acc. induction entries as [|[k' v'] entries IH]; intros acc Hnd.
  { simpl. by rewrite lookup_empty. }
  rewrite fmap_cons in Hnd. apply NoDup_cons in Hnd as [Hk' Hnd].
  simpl. rewrite IH by done.
  destruct (decide (k' = k)) as [->|Hne].
  - rewrite !lookup_insert_eq.
    by rewrite (not_elem_of_list_to_map_1 _ _ Hk').
  - by rewrite !lookup_insert_ne.
Qed.

Lemma foldl_insert_map_to_list (files : FileMap) :
  foldl (fun (acc : FileMap) entry => <[entry.1 := entry.2]> acc)
        ∅ (map_to_list files)
  = files.
Proof.
  apply map_eq. intros k.
  rewrite foldl_insert_lookup by apply NoDup_fst_map_to_list.
  rewrite list_to_map_to_list, lookup_empty. by destruct (files !! k).
Qed.

End Parser.

(** C8 (as amended).  Take a file map in which every path is not empty,
    has no white space and no equals sign and is not [__proto__], and
    every content has no white space at either end and does not contain
    the end marker.  Writing each entry as [===FILE: path===], the
    content and [===END FILE===], each on lines of their own, and
    parsing the concatenation gives back the file map: the same paths,
    each with its content code unit for code unit. *)
Theorem parse_serialize (files : FileMap) :
  (forall path content,
     files !! path = Some content -> plainPath path /\ plainContent content) ->
  MultiFileGenerator.parseMultiFileResponse (serialize files) = files.
Proof.
  intros Hplain.
  assert (Forall (fun entry => plainPath entry.1 /\ plainContent entry.2)
            (map_to_list files)) as Hall.
  { apply Forall_forall. intros [path content] Hin.
    apply elem_of_map_to_list in Hin. by apply Hplain. }
  unfold MultiFileGenerator.parseMultiFileResponse, serialize.
  rewrite execAll_serialize, foldl_assign by done.
  apply foldl_insert_map_to_list.
Qed.

Lemma parse_serialize_witness :
  MultiFileGenerator.parseMultiFileResponse (serialize Example.twoFiles)
  = Example.twoFiles.
Proof.
  apply parse_serialize. intros path content Hfile.
  unfold Example.twoFiles in Hfile.
  apply lookup_insert_Some in Hfile as [[<- <-]|[_ Hfile]];
    [|apply lookup_singleton_Some in Hfile as [<- <-]];
    (split; [split; [|split]|split]);
    try (vm_compute; congruence);
    try (vm_compute; reflexivity);
    vm_compute; repeat constructor.
Defined.

(** A file that ends with a line feed has a path the repository counts
    as valid, and comes back from the parser without the line feed. *)
Lemma trailing_newline_lost :
  FileStructure.isValidFilePath js:"README.md" = true
  /\ Example.readme !! js:"README.md" = Some (js:"# Title" ++ [JS.LINE_FEED])
  /\ MultiFileGenerator.parseMultiFileResponse (serialize Example.readme)
       !! js:"README.md"
     = Some js:"# Title".
Proof. repeat split; vm_compute; reflexivity. Qed.

(* ===================================================================== *)
(** ** portManager.js: looking up, re-assigning and releasing             *)
(* ===================================================================== *)

Section PortsMore.
Import PortManager.

Lemma findAssignment_release s pid q :
  findAssignment (releasePorts s pid) q
  = if decide (q = pid) then None else findAssignment s q.
Proof.
  unfold findAssignment, releasePorts.
  induction s as [|a s IH]; simpl; [by destruct (decide _)|].
  destruct (decide (projectId a = pid)) as [Ha|Ha].
  - rewrite (bool_decide_true _ Ha). simpl. rewrite IH.
    destruct (decide (q = pid)) as [->|Hq]; [done|].
    rewrite bool_decide_false; [done|congruence].
  - rewrite (bool_decide_false _ Ha). simpl.
    destruct (decide (projectId a = q)) as [Haq|Haq].
    + rewrite (bool_decide_true _ Haq).
      destruct (decide (q = pid)); [congruence|done].
    + by rewrite (bool_decide_false _ Haq).
Qed.

Lemma releasePorts_absent s pid :
  findAssignment s pid = None -> releasePorts s pid = s.
Proof.
  unfold findAssignment, releasePorts.
  induction s as [|a s IH]; simpl; [done|].
  case_bool_decide; [done|]. simpl. intros Hrest. by rewrite IH.
Qed.

Lemma findAssignment_app s t q :
  findAssignment (s ++ t) q
  = match findAssignment s q with
    | Some a => Some a
    | None => findAssignment t q
    end.
Proof.
  unfold findAssignment. induction s as [|a s IH]; simpl; [done|].
  by case_bool_decide.
Qed.

(** X1.  After [releasePorts(projectId)], [getAssignment] finds nothing
    for that project and, for every other project, what it found
    before; when the project had no assignment the store is left as it
    was. *)
Theorem release_then_lookup (s : Store) (pid : jsstring) :
  (forall q,
      getAssignment (releasePorts s pid) q
      = if decide (q = pid) then None else getAssignment s q)
  /\ (getAssignment s pid = None -> releasePorts s pid = s).
Proof.
  split.
  - intros q. apply findAssignment_release.
  - apply releasePorts_absent.
Qed.

Lemma assignPorts_found s pid name now :
  findAssignment (snd (assignPorts s pid name now)) pid
  = Some (fst (assignPorts s pid name now)).
Proof.
  unfold assignPorts.
  destruct (findAssignment s pid) as [existing|] eqn:Hfind; simpl; [done|].
  rewrite findAssignment_app, Hfind. unfold findAssignment. simpl.
  by rewrite bool_decide_true.
Qed.

Lemma assignPorts_again s pid name now name' now' :
  assignPorts (snd (assignPorts s pid name now)) pid name' now'
  = assignPorts s pid name now.
Proof.
  pose proof (assignPorts_found s pid name now) as Hfound.
  unfold assignPorts at 1. rewrite Hfound.
  by destruct (assignPorts s pid name now).
Qed.

Lemma assignPorts_others s pid name now q :
  q <> pid ->
  findAssignment (snd (assignPorts s pid name now)) q = findAssignment s q.
Proof.
  intros Hq. unfold assignPorts.
  destruct (findAssignment s pid); simpl; [done|].
  rewrite findAssignment_app. destruct (findAssignment s q); [done|].
  unfold findAssignment. simpl.
  rewrite bool_decide_false; [done|]. simpl. congruence.
Qed.

Lemma assignPorts_kept s pid name now q a :
  findAssignment s q = Some a ->
  findAssignment (snd (assignPorts s pid name now)) q = Some a.
Proof.
  intros Ha. unfold assignPorts.
  destruct (findAssignment s pid); simpl; [done|].
  by rewrite findAssignment_app, Ha.
Qed.

(** X2.  [assignPorts] is sticky: the assignment it returns is the one
    [getAssignment] finds afterwards; calling it again for the same
    project, under whatever name and at whatever time, returns that same
    assignment and leaves the store as it is; and the assignments of the
    other projects are what they were. *)
Theorem assign_is_sticky (s : Store) (pid name now name' now' : jsstring) :
  let a := fst (assignPorts s pid name now) in
  let s' := snd (assignPorts s pid name now) in
  getAssignment s' pid = Some a
  /\ assignPorts s' pid name' now' = (a, s')
  /\ forall q, q <> pid -> getAssignment s' q = getAssignment s q.
Proof.
  cbv zeta. unfold getAssignment. split; [apply assignPorts_found|]. split.
  - rewrite assignPorts_again. by destruct (assignPorts s pid name now).
  - intros q. apply assignPorts_others.
Qed.

(** X3.  In a store the allocator can produce, the two ports of a
    project are free again once the project is released: they are not
    among the used ports that the next search scans. *)
Theorem released_ports_are_free (s : Store) (pid : jsstring)
  (a : Assignment) (p : N) :
  reachable s ->
  getAssignment s pid = Some a ->
  p ∈ portsOf a ->
  p ∉ getUsedPorts (releasePorts s pid).
Proof.
  intros Hreach Hfind Hp.
  destruct (reachable_storeOk s Hreach) as [Hids Hports Hrange].
  apply findAssignment_Some in Hfind as [Ha Hpid].
  rewrite elem_of_getUsedPorts. intros [Hres|(b & Hb & Hpb)].
  - specialize (Hrange a p Ha Hp).
    unfold PLATFORM_PORTS, STARTING_PORT in *.
    apply elem_of_cons in Hres as [->|Hres]; [lia|].
    apply list_elem_of_singleton in Hres as ->. lia.
  - unfold releasePorts in Hb.
    apply list_elem_of_In, filter_In in Hb as [Hb Hne].
    apply list_elem_of_In in Hb. apply negb_true_iff in Hne.
    apply bool_decide_eq_false in Hne.
    eapply (NoDup_bind_disjoint s a b p); try done. congruence.
Qed.

Lemma released_ports_are_free_witness :
  let s := snd (assignPorts
                  (snd (assignPorts [] js:"p1" js:"shop" js:"t1"))
                  js:"p2" js:"blog" js:"t2") in
  reachable s
  /\ getUsedPorts (releasePorts s js:"p1") = {[ 3000; 3001; 4002; 4003 ]}
  /\ 4000 ∉ getUsedPorts (releasePorts s js:"p1").
Proof.
  cbv zeta.
  assert (reachable (snd (assignPorts
                            (snd (assignPorts [] js:"p1" js:"shop" js:"t1"))
                            js:"p2" js:"blog" js:"t2"))) as Hreach.
  { do 2 apply reach_assign. apply reach_empty. }
  split; [exact Hreach|]. split.
  - apply set_eq. intros x. rewrite elem_of_getUsedPorts.
    vm_compute releasePorts. unfold PLATFORM_PORTS.
    set_solver.
  - apply (released_ports_are_free _ js:"p1"
             (mkAssignment js:"p1" js:"shop" 4000 4001 js:"t1") 4000 Hreach).
    + reflexivity.
    + unfold portsOf. simpl. set_solver.
Defined.

End PortsMore.

(* ===================================================================== *)
(** ** Project.js: the store across the operations of the platform        *)
(* ===================================================================== *)

Section StoreMore.
Import Generate.
Context {rt : Runtime}.

Lemma keyed_updateProject ps pid u :
  keyed ps -> keyed (Project.updateProject ps pid u).
Proof.
  intros Hps k project. unfold Project.updateProject.
  destruct (ps !! pid) as [p|] eqn:Hp; [|apply Hps].
  destruct (decide (pid = k)) as [->|Hne].
  - rewrite lookup_insert_eq. intros [= <-]. simpl. by apply Hps.
  - rewrite lookup_insert_ne by done. apply Hps.
Qed.

Lemma step_keyed op w :
  keyed (projects w) -> keyed (projects (Platform.step op w)).
Proof.
  intros Hw. destruct op as [newId data|pid prompt|env pid config|pid client
                             |pid client|pid|pid|installError pid|pid|pid|pid];
    simpl.
  - intros k project. destruct (decide (newId = k)) as [->|Hne].
    + rewrite lookup_insert_eq. by intros [= <-].
    + rewrite lookup_insert_ne by done. apply Hw.
  - unfold startGeneration.
    destruct (Project.getProjectById _ _) as [project|]; [|done].
    case_bool_decide; [done|]. simpl. by apply keyed_updateProject.
  - apply (keeps_runBatchGeneration keyed); [|done].
    intros ps q u _. apply keyed_updateProject.
  - unfold subscribe.
    by destruct (Project.getProjectById _ _) as [project|].
  - unfold unsubscribe. by destruct (activeGenerations w !! pid).
  - unfold cancel.
    destruct (Project.getProjectById _ _) as [project|]; [|done].
    destruct (negb _); [done|]. simpl.
    rewrite run_bind, sendProgressUpdate_sent. simpl.
    by apply keyed_updateProject.
  - done.
  - unfold DeploymentManager.deployLocal.
    destruct (Project.getProjectById _ _) as [project|]; [|done].
    destruct (PortManager.getAssignment _ _) as [ports|]; [|done].
    case_bool_decide; [done|]. destruct installError; [done|]. simpl.
    by apply keyed_updateProject.
  - done.
  - unfold DeploymentManager.stopApp. case_bool_decide; [|done]. simpl.
    by apply keyed_updateProject.
  - unfold Platform.deleteProject.
    destruct (projects w !! pid) as [project|] eqn:Hp; [|done]. simpl.
    intros q p Hq. apply lookup_delete_Some in Hq as [_ Hq]. by eapply Hw.
Qed.

(** X4.  Whatever requests the backend has served (create, start and
    run a generation, subscribe, unsubscribe, cancel, expire, deploy,
    exit of a backend process, stop, delete), the record that
    [getProjectById(id)] returns has that very [id]: no update moves a
    record to another key or changes the id it carries. *)
Theorem project_found_under_its_id (w : World) (k : jsstring)
  (project : Project.Project) :
  Platform.reachable w ->
  Project.getProjectById (projects w) k = Some project ->
  Project.id project = k.
Proof.
  intros [ops ->]. unfold Project.getProjectById. revert k project.
  induction ops as [|op ops IH] using rev_ind.
  - intros k project. simpl. by rewrite lookup_empty.
  - unfold Platform.run. rewrite foldl_app. simpl. by apply step_keyed.
Qed.

End StoreMore.

Lemma project_found_under_its_id_witness :
  exists project,
    Project.getProjectById (projects Example.stopped) js:"p1" = Some project
    /\ Project.id project = js:"p1".
Proof.
  assert (is_Some (Project.getProjectById (projects Example.stopped) js:"p1"))
    as [project Hproject] by (vm_compute; eauto).
  exists project. split; [exact Hproject|].
  apply (project_found_under_its_id (rt := Sample.runtime) Example.stopped).
  - by eexists.
  - exact Hproject.
Defined.

(* ===================================================================== *)
(** ** What the steps of a run may change                                 *)
(* ===================================================================== *)

Section Evolves.
Import MultiFileGenerator Progress Generate.

Lemma evolves_refl pid w : evolves pid w w.
Proof. split; try done; [by left|apply grows_refl]. Qed.

Lemma evolves_trans pid w1 w2 w3 :
  evolves pid w1 w2 -> evolves pid w2 w3 -> evolves pid w1 w3.
Proof.
  intros [O1 X1 R1 S1 C1 Y1 A1 P1 D1 T1 N1] [O2 X2 R2 S2 C2 Y2 A2 P2 D2 T2 N2].
  split.
  - intros q Hq. by rewrite O2, O1.
  - by rewrite X2.
  - auto.
  - intros q Hq. by rewrite S2, S1.
  - by rewrite C2.
  - auto.
  - destruct A1 as [E1|(name & now & E1)], A2 as [E2|(name' & now' & E2)].
    + left. congruence.
    + right. exists name', now'. congruence.
    + right. exists name, now. congruence.
    + right. exists name, now. rewrite E2, E1.
      by rewrite assignPorts_again.
  - congruence.
  - by eapply grows_trans.
  - congruence.
  - by etrans.
Qed.

(** Only the streams were appended to. *)
Lemma evolves_sent pid w events :
  evolves pid w
    (mkWorld (projects w) (activeGenerations w) (portAssignments w)
       (runningApps w) (disk w) (sent w ++ events) (timers w)).
Proof.
  split; simpl; try done; [by left|apply grows_refl|by apply prefix_app_r].
Qed.

(** The session was replaced by one with the same clients and a
    progress that follows its phases if it did before. *)
Lemma evolves_session pid w g g' :
  activeGenerations w !! pid = Some g ->
  gen_clients g' = gen_clients g ->
  (soundSession g -> soundSession g') ->
  evolves pid w (snd (withGenerations <[pid := g']> w)).
Proof.
  intros Hg Hc Hp. split; simpl; try done.
  - intros q Hq. by rewrite lookup_insert_ne.
  - by rewrite lookup_insert_eq, Hg; simpl; rewrite Hc.
  - intros Hs g''. unfold synced in *. simpl. rewrite lookup_insert_eq.
    intros [= <-]. by apply Hp, Hs.
  - by left.
  - apply grows_refl.
Qed.

Lemma evolves_updateProject pid u w :
  (forall a, Project.u_ports u = Some a ->
             PortManager.getAssignment (portAssignments w) pid = Some a) ->
  evolves pid w (snd (updateProject pid u w)).
Proof.
  intros Hu. split; simpl; try done.
  - intros q Hq. unfold Project.updateProject.
    destruct (projects w !! pid); [|done]. by rewrite lookup_insert_ne.
  - unfold Project.updateProject.
    destruct (projects w !! pid) as [p|] eqn:Hp; simpl.
    + rewrite lookup_insert_eq. split; eauto.
    + by rewrite Hp.
  - intros Hr project a. unfold recorded in *. simpl.
    unfold Project.updateProject.
    destruct (projects w !! pid) as [p|] eqn:Hp; simpl.
    + rewrite lookup_insert_eq. intros [= <-]. simpl.
      destruct (Project.u_ports u) as [b|] eqn:Hb.
      * intros [= <-]. by apply Hu.
      * by apply Hr.
    + by rewrite Hp.
  - by left.
  - apply grows_refl.
Qed.

Lemma evolves_assignPorts env pid name w :
  evolves pid w (snd (assignPorts env pid name w)).
Proof.
  unfold assignPorts.
  destruct (PortManager.assignPorts (portAssignments w) pid name (isoNow env))
    as [a s] eqn:Ha.
  assert (evolves pid w
            (mkWorld (projects w) (activeGenerations w) s (runningApps w)
               (disk w) (sent w) (timers w))) as Hnew.
  { split; simpl; try done.
    - intros Hr project b Hp Hb. unfold recorded in *. simpl in *.
      specialize (Hr project b Hp Hb).
      unfold PortManager.getAssignment in *.
      replace s with (snd (PortManager.assignPorts (portAssignments w) pid
                             name (isoNow env))) by (by rewrite Ha).
      by apply assignPorts_kept.
    - right. exists name, (isoNow env). by rewrite Ha.
    - apply grows_refl. }
  destruct (PortManager.findAssignment (portAssignments w) pid),
           (portStoreError env); simpl; try done.
  apply evolves_refl.
Qed.

Lemma evolves_onDisk {A} pid (m : FileSystem.FS A) w :
  removesNothing m -> evolves pid w (snd (onDisk m w)).
Proof.
  intros Hm. unfold onDisk. specialize (Hm (disk w)).
  destruct (m (disk w)) as [r d]. simpl in *.
  split; simpl; try done. by left.
Qed.

(** *** Computations that only let the world evolve *)

Lemma evolving_ret {A} pid (a : A) : evolving pid (mret a).
Proof. intros w. apply evolves_refl. Qed.

Lemma evolving_throw {A} pid e : evolving pid (@throw A e).
Proof. intros w. apply evolves_refl. Qed.

Lemma evolving_bind {A B} pid (m : Run A) (k : A -> Run B) :
  evolving pid m -> (forall a, evolving pid (k a)) -> evolving pid (m ≫= k).
Proof.
  intros Hm Hk w. rewrite run_bind. specialize (Hm w).
  destruct (m w) as [[e|a] w1]; [done|].
  eapply evolves_trans; [exact Hm|apply Hk].
Qed.

Lemma evolving_tryCatch {A} pid (body : Run A) handler :
  evolving pid body -> (forall e, evolving pid (handler e)) ->
  evolving pid (tryCatch body handler).
Proof.
  intros Hm Hk w. unfold tryCatch. specialize (Hm w).
  destruct (body w) as [[e|a] w1]; [|done].
  eapply evolves_trans; [exact Hm|apply Hk].
Qed.

Lemma evolving_if {A} pid (c : bool) (m k : Run A) :
  evolving pid m -> evolving pid k -> evolving pid (if c then m else k).
Proof. by destruct c. Qed.

Lemma evolving_sendProgressUpdate pid ev :
  evolving pid (sendProgressUpdate pid ev).
Proof. intros w. rewrite sendProgressUpdate_sent. apply evolves_sent. Qed.

Lemma evolving_addLog pid message type : evolving pid (addLog pid message type).
Proof.
  intros w. unfold addLog, getGeneration. rewrite run_bind.
  destruct (activeGenerations w !! pid) as [g|] eqn:Hg; [|apply evolves_refl].
  rewrite run_bind. simpl.
  eapply evolves_trans; [|apply evolving_sendProgressUpdate].
  by eapply evolves_session.
Qed.

Lemma evolving_updateStats pid updates : evolving pid (updateStats pid updates).
Proof.
  intros w. unfold updateStats, getGeneration. rewrite run_bind.
  destruct (activeGenerations w !! pid) as [g|] eqn:Hg; [|apply evolves_refl].
  rewrite run_bind. simpl.
  eapply evolves_trans; [|apply evolving_sendProgressUpdate].
  by eapply evolves_session.
Qed.

Lemma evolving_updatePhase pid phaseId status n :
  evolving pid (updatePhase pid phaseId status n).
Proof.
  intros w. unfold updatePhase, getGeneration. rewrite run_bind.
  destruct (activeGenerations w !! pid) as [g|] eqn:Hg; [|apply evolves_refl].
  destruct (setPhase phaseId status n (gen_phases g)) as [phases|] eqn:Hset;
    [|apply evolves_refl].
  rewrite run_bind. simpl.
  eapply evolves_trans; [|apply evolving_sendProgressUpdate].
  eapply evolves_session; [done|done|]. intros [Hbatch _]. split; [|done].
  by eapply setPhase_batchPhases.
Qed.

Lemma evolving_updateProject pid u :
  Project.u_ports u = None -> evolving pid (updateProject pid u).
Proof. intros Hu w. apply evolves_updateProject. by rewrite Hu. Qed.

Lemma evolving_assignPorts env pid name : evolving pid (assignPorts env pid name).
Proof. intros w. apply evolves_assignPorts. Qed.

Lemma evolving_onDisk {A} pid (m : FileSystem.FS A) :
  removesNothing m -> evolving pid (onDisk m).
Proof. intros Hm w. by apply evolves_onDisk. Qed.

(** *** The stretches of the orchestrator *)

Lemma evolving_runBlock env pid config b l :
  evolving pid (runBlock env pid config b l).
Proof.
  unfold runBlock.
  apply evolving_bind; [apply evolving_updatePhase|intros _].
  apply evolving_bind; [apply evolving_addLog|intros _].
  apply evolving_bind.
  { apply evolving_if; [apply evolving_addLog|apply evolving_ret]. }
  intros _. apply evolving_tryCatch.
  - destruct (generateSinglePhase env (blk_phase b) config) as [e|result];
      [apply evolving_throw|].
    apply evolving_bind; [apply evolving_addLog|intros _].
    apply evolving_bind.
    { destruct (blk_critical b) as [needle|]; [|apply evolving_ret].
      apply evolving_if; [apply evolving_ret|apply evolving_addLog]. }
    intros _.
    apply evolving_bind; [apply evolving_updateStats|intros _].
    apply evolving_bind; [apply evolving_updatePhase|intros _].
    apply evolving_ret.
  - intros message.
    apply evolving_bind; [apply evolving_addLog|intros _].
    apply evolving_bind; [apply evolving_updatePhase|intros _].
    apply evolving_ret.
Qed.

Lemma evolving_runBlocks env pid config blocks l :
  evolving pid (runBlocks env pid config blocks l).
Proof.
  revert l. induction blocks as [|b blocks IH]; intros l; simpl.
  - apply evolving_ret.
  - apply evolving_bind; [apply evolving_runBlock|intros l'; apply IH].
Qed.

Section WithRuntime.
Context {rt : Runtime}.

Lemma evolving_setupPhase env pid config :
  evolving pid (setupPhase env pid config).
Proof.
  unfold setupPhase.
  apply evolving_bind; [apply evolving_updatePhase|intros _].
  apply evolving_bind; [apply evolving_addLog|intros _].
  apply evolving_bind.
  { apply evolving_onDisk, writesNothing_removesNothing,
      createProjectStructure_disk. }
  intros [path slug].
  apply evolving_bind; [apply evolving_addLog|intros _].
  apply evolving_bind; [apply evolving_updatePhase|intros _].
  apply evolving_ret.
Qed.

Lemma evolving_ensureManifest env pid config path files backend saved :
  evolving pid (ensureManifest env pid config path files backend saved).
Proof.
  unfold ensureManifest. case_bool_decide; [apply evolving_ret|].
  apply evolving_bind.
  { apply evolving_onDisk. destruct backend;
      [apply removesNothing_createBackendPackageJson
      |apply removesNothing_createFrontendPackageJson]. }
  intros _. apply evolving_bind; [apply evolving_addLog|intros _].
  apply evolving_ret.
Qed.

Lemma evolving_writeEnvFiles env pid config path :
  evolving pid (writeEnvFiles env pid config path).
Proof.
  unfold writeEnvFiles.
  apply evolving_bind; [apply evolving_addLog|intros _].
  apply evolving_bind; [apply evolving_assignPorts|intros ports].
  apply evolving_bind;
    [apply evolving_onDisk, removesNothing_writeFile|intros _].
  apply evolving_bind;
    [apply evolving_onDisk, removesNothing_writeFile|intros _].
  apply evolving_bind; [apply evolving_addLog|intros _].
  apply evolving_ret.
Qed.

Lemma evolving_smokeTest env pid path saved :
  evolving pid (smokeTest env pid path saved).
Proof.
  unfold smokeTest. destruct (findServerFile saved) as [serverFile|].
  - apply evolving_bind; [apply evolving_addLog|intros _].
    destruct (testCode env _) as [e|testResult]; [apply evolving_throw|].
    apply evolving_bind; [|intros _; apply evolving_ret].
    apply evolving_if; apply evolving_addLog.
  - apply evolving_bind; [apply evolving_addLog|intros _].
    apply evolving_ret.
Qed.

(** *** Pre- and postconditions *)

Lemma triple_bind {A B} (P : World -> Prop) (m : Run A) (k : A -> Run B)
  (Q : A -> World -> Prop) (R : B -> World -> Prop) (E : World -> Prop) :
  triple P m Q E -> (forall a, triple (Q a) (k a) R E) ->
  triple P (m ≫= k) R E.
Proof.
  intros Hm Hk w Hw. rewrite run_bind. specialize (Hm w Hw).
  destruct (m w) as [[e|a] w1]; [done|]. by apply Hk.
Qed.

Lemma triple_ret {A} (a : A) (Q : A -> World -> Prop) (E : World -> Prop) :
  triple (Q a) (mret a) Q E.
Proof. by intros w Hw. Qed.

Lemma triple_weaken {A} (P P' : World -> Prop) (m : Run A)
  (Q Q' : A -> World -> Prop) (E : World -> Prop) :
  (forall w, P' w -> P w) -> (forall a w, Q a w -> Q' a w) ->
  triple P m Q E -> triple P' m Q' E.
Proof.
  intros HP HQ Hm w Hw. specialize (Hm w (HP w Hw)).
  destruct (m w) as [[e|a] w1]; [done|]. by apply HQ.
Qed.

(** A computation that lets the world evolve keeps every fact that
    evolution keeps. *)
Lemma triple_keep {A} pid w0 (F : World -> Prop) (m : Run A) :
  evolving pid m ->
  (forall w w', evolves pid w w' -> F w -> F w') ->
  triple (fun w => evolves pid w0 w /\ F w) m
    (fun _ w => evolves pid w0 w /\ F w) (evolves pid w0).
Proof.
  intros Hm HF w [Hw Hf]. specialize (Hm w).
  destruct (m w) as [[e|a] w1]; simpl in Hm.
  - by eapply evolves_trans.
  - split; [by eapply evolves_trans|by eapply HF].
Qed.

Lemma triple_step {A} pid w0 (m : Run A) :
  evolving pid m ->
  triple (evolves pid w0) m (fun _ => evolves pid w0) (evolves pid w0).
Proof.
  intros Hm w Hw. specialize (Hm w).
  destruct (m w) as [[e|a] w1]; simpl in Hm; by eapply evolves_trans.
Qed.

Lemma assigned_evolves pid a w w' :
  evolves pid w w' -> assigned pid a w -> assigned pid a w'.
Proof.
  intros Hev Ha. unfold assigned, PortManager.getAssignment in *.
  destruct (ev_allocated _ _ _ Hev) as [->|(name & now & ->)]; [done|].
  by apply assignPorts_kept.
Qed.

(** After [assignPorts] the store holds the assignment returned. *)
Lemma assignPorts_assigned env pid name w0 :
  triple (evolves pid w0) (assignPorts env pid name)
    (fun a w => evolves pid w0 w /\ assigned pid a w) (evolves pid w0).
Proof.
  intros w Hw. pose proof (evolves_assignPorts env pid name w) as Hev.
  unfold assignPorts in *.
  pose proof (assignPorts_found (portAssignments w) pid name (isoNow env))
    as Hfound.
  destruct (PortManager.assignPorts (portAssignments w) pid name (isoNow env))
    as [a s] eqn:Ha. simpl in Hfound.
  destruct (PortManager.findAssignment (portAssignments w) pid) as [b|] eqn:Hb.
  - simpl in *. split; [by eapply evolves_trans|]. exact Hfound.
  - destruct (portStoreError env); simpl in *.
    + by eapply evolves_trans.
    + split; [by eapply evolves_trans|]. exact Hfound.
Qed.

Lemma writeEnvFiles_assigned env pid config path w0 :
  triple (evolves pid w0) (writeEnvFiles env pid config path)
    (fun a w => evolves pid w0 w /\ assigned pid a w) (evolves pid w0).
Proof.
  unfold writeEnvFiles.
  eapply triple_bind; [apply triple_step, evolving_addLog|intros _u; cbv beta; clear _u].
  eapply triple_bind; [apply assignPorts_assigned|intros ports; cbv beta].
  eapply triple_bind.
  { apply triple_keep; [|apply assigned_evolves].
    apply evolving_onDisk, removesNothing_writeFile. }
  intros _u; cbv beta; clear _u. eapply triple_bind.
  { apply triple_keep; [|apply assigned_evolves].
    apply evolving_onDisk, removesNothing_writeFile. }
  intros _u; cbv beta; clear _u. eapply triple_bind.
  { apply triple_keep; [apply evolving_addLog|apply assigned_evolves]. }
  intros _u; cbv beta; clear _u. by intros w Hw.
Qed.

(** The last stretch cannot fail; it ends with the timer. *)
Lemma conclude_ran pid path saved stats test w0 :
  triple (evolves pid w0) (conclude pid path saved stats test)
    (fun _ w' => exists w1, evolves pid w0 w1 /\ w' = addTimer pid w1)
    (evolves pid w0).
Proof.
  unfold conclude.
  eapply triple_bind; [by apply triple_step, evolving_updateProject|intros _u; cbv beta; clear _u].
  eapply triple_bind; [apply triple_step, evolving_addLog|intros _u; cbv beta; clear _u].
  eapply triple_bind; [apply triple_step, evolving_addLog|intros _u; cbv beta; clear _u].
  eapply triple_bind.
  { apply triple_step, evolving_if; [apply evolving_addLog|apply evolving_ret]. }
  intros _u; cbv beta; clear _u.
  eapply triple_bind; [apply triple_step, evolving_sendProgressUpdate|intros _u; cbv beta; clear _u].
  intros w Hw. simpl. by exists w.
Qed.

Lemma finalizePhase_ran env pid config path slug l w0 :
  triple (evolves pid w0) (finalizePhase env pid config path slug l)
    (fun _ w' => exists w1, evolves pid w0 w1 /\ w' = addTimer pid w1)
    (evolves pid w0).
Proof.
  unfold finalizePhase.
  eapply triple_bind; [apply triple_step, evolving_updatePhase|intros _u; cbv beta; clear _u].
  eapply triple_bind; [apply triple_step, evolving_addLog|intros _u; cbv beta; clear _u].
  eapply triple_bind.
  { apply triple_step, evolving_if; [apply evolving_throw|apply evolving_ret]. }
  intros _u; cbv beta; clear _u.
  eapply triple_bind; [apply triple_step, evolving_addLog|intros _u; cbv beta; clear _u].
  eapply triple_bind.
  { apply triple_step, evolving_onDisk, removesNothing_saveMultipleFiles. }
  intros saved0; cbv beta.
  eapply triple_bind; [apply triple_step, evolving_ensureManifest|intros saved1; cbv beta].
  eapply triple_bind; [apply triple_step, evolving_ensureManifest|intros saved2; cbv beta].
  eapply triple_bind; [apply writeEnvFiles_assigned|intros ports; cbv beta].
  eapply triple_bind.
  { apply triple_keep; [|apply assigned_evolves].
    apply evolving_onDisk, removesNothing_saveProjectMetadata. }
  intros _u; cbv beta; clear _u. eapply (triple_bind _ _ _ (fun _ => evolves pid w0)).
  { intros w [Hw Ha]. simpl. eapply evolves_trans; [exact Hw|].
    apply evolves_updateProject. simpl. by intros a [= <-]. }
  intros _u; cbv beta; clear _u.
  eapply triple_bind; [apply triple_step, evolving_smokeTest|intros test; cbv beta].
  eapply triple_bind; [apply triple_step, evolving_updatePhase|intros _u; cbv beta; clear _u].
  apply conclude_ran.
Qed.

Lemma runBatchBody_ran env pid config w0 :
  triple (evolves pid w0) (runBatchBody env pid config)
    (fun _ w' => exists w1, evolves pid w0 w1 /\ w' = addTimer pid w1)
    (evolves pid w0).
Proof.
  unfold runBatchBody.
  eapply triple_bind; [apply triple_step, evolving_setupPhase|].
  intros [path slug]; cbv beta.
  eapply triple_bind; [apply triple_step, evolving_runBlocks|intros l; cbv beta].
  apply finalizePhase_ran.
Qed.

Lemma runBatchCatch_ran pid message w0 :
  triple (evolves pid w0) (runBatchCatch pid message)
    (fun _ w' => exists w1, evolves pid w0 w1 /\ w' = dropSession pid w1)
    (evolves pid w0).
Proof.
  unfold runBatchCatch.
  eapply triple_bind; [apply triple_step, evolving_addLog|intros _u; cbv beta; clear _u].
  eapply triple_bind;
    [by apply triple_step, evolving_updateProject|intros _u; cbv beta; clear _u].
  eapply triple_bind;
    [apply triple_step, evolving_sendProgressUpdate|intros _u; cbv beta; clear _u].
  intros w Hw. simpl. by exists w.
Qed.

(** Whatever the environment answers, a run returns; it lets the world
    evolve and then schedules the removal of the session or removes
    it. *)
Lemma runBatchGeneration_ran env pid config w :
  exists res,
    fst (runBatchGeneration env pid config w) = inr res
    /\ ran pid w (snd (runBatchGeneration env pid config w)).
Proof.
  unfold runBatchGeneration, tryCatch.
  pose proof (runBatchBody_ran env pid config w w (evolves_refl pid w)) as Hbody.
  destruct (runBatchBody env pid config w) as [[e|res] w1].
  - pose proof (runBatchCatch_ran pid e w w1 Hbody) as Hcatch.
    destruct (runBatchCatch_result pid e w1) as (wa & change & _ & Heq).
    rewrite Heq in Hcatch |- *. eexists. split; [done|].
    destruct Hcatch as (w3 & Hev & Hw3).
    exists w3. split; [done|by right].
  - exists res. split; [done|]. simpl. destruct Hbody as (w2 & Hev & ->).
    exists w2. split; [done|by left].
Qed.

End WithRuntime.

End Evolves.

(* ===================================================================== *)
(** ** generate.js: what a run leaves alone, and what always holds        *)
(* ===================================================================== *)

Section RunFrame.
Import MultiFileGenerator Progress Generate.
Context {rt : Runtime}.


End RunFrame.

(* ===================================================================== *)
(** ** Invariants of the backend across its operations                    *)
(* ===================================================================== *)

Section PlatformInvariants.
Import MultiFileGenerator Progress Generate.
Context {rt : Runtime}.

(** *** Sessions *)

Lemma soundSession_new status clients logs stats :
  soundSession (mkGeneration status clients initialPhases 0%Q logs stats).
Proof. split; reflexivity. Qed.

Lemma synced_ran pid w w' :
  ran pid w w' -> (forall q, synced w q) -> forall q, synced w' q.
Proof.
  intros (w1 & Hev & Hend) Hw q g.
  destruct (decide (q = pid)) as [->|Hq].
  - destruct Hend as [->| ->]; simpl.
    + apply (ev_synced _ _ _ Hev), Hw.
    + by rewrite lookup_delete_eq.
  - assert (activeGenerations w' !! q = activeGenerations w !! q) as ->.
    { destruct Hend as [->| ->]; simpl; rewrite ?lookup_delete_ne by done;
        by apply (ev_sessions _ _ _ Hev). }
    apply (Hw q).
Qed.

Lemma step_synced op w :
  (forall q, synced w q) -> forall q, synced (Platform.step op w) q.
Proof.
  intros Hw. destruct op as [newId data|pid prompt|env pid config|pid client
                             |pid client|pid|pid|installError pid|pid|pid|pid];
    simpl.
  - done.
  - unfold startGeneration.
    destruct (Project.getProjectById _ _) as [project|]; [|done].
    case_bool_decide; [done|]. simpl. intros q g. simpl.
    destruct (decide (q = pid)) as [->|Hq].
    + rewrite lookup_insert_eq. intros [= <-]. apply soundSession_new.
    + rewrite lookup_insert_ne by done. apply (Hw q).
  - apply (synced_ran pid w); [|done].
    destruct (runBatchGeneration_ran env pid config w) as (res & _ & Hran).
    exact Hran.
  - unfold subscribe.
    destruct (Project.getProjectById _ _) as [project|]; [|done].
    simpl. intros q g. simpl. destruct (decide (q = pid)) as [->|Hq].
    + rewrite lookup_insert_eq. intros [= <-]. simpl.
      destruct (activeGenerations w !! pid) as [g0|] eqn:Hg0.
      * exact (Hw pid g0 Hg0).
      * apply soundSession_new.
    + rewrite lookup_insert_ne by done. apply (Hw q).
  - unfold unsubscribe.
    destruct (activeGenerations w !! pid) as [g0|] eqn:Hg0; [|done].
    simpl. intros q g. simpl. destruct (decide (q = pid)) as [->|Hq].
    + rewrite lookup_insert_eq. intros [= <-]. exact (Hw pid g0 Hg0).
    + rewrite lookup_insert_ne by done. apply (Hw q).
  - unfold cancel.
    destruct (Project.getProjectById _ _) as [project|]; [|done].
    destruct (negb _); [done|]. simpl.
    rewrite run_bind, sendProgressUpdate_sent. simpl.
    intros q g Hg. simpl in Hg. apply lookup_delete_Some in Hg as [_ Hg]. by eapply Hw.
  - unfold expire. simpl.
    intros q g Hg. simpl in Hg. apply lookup_delete_Some in Hg as [_ Hg]. by eapply Hw.
  - unfold DeploymentManager.deployLocal.
    destruct (Project.getProjectById _ _) as [project|]; [|done].
    destruct (PortManager.getAssignment _ _) as [ports|]; [|done].
    case_bool_decide; [done|]. by destruct installError.
  - done.
  - unfold DeploymentManager.stopApp. by case_bool_decide.
  - unfold Platform.deleteProject.
    by destruct (projects w !! pid) as [project|].
Qed.

Lemma weighted_nonneg phases : batchPhases phases -> (0 <= weighted phases)%Q.
Proof.
  intros H. apply batchPhases_inv in H.
  destruct H as (s1 & s2 & s3 & s4 & s5 & s6 & s7 & n1 & n2 & n3 & n4 & n5
                 & n6 & n7 & ->).
  unfold weighted. simpl.
  pose proof (contributes_bounds s1). pose proof (contributes_bounds s2).
  pose proof (contributes_bounds s3). pose proof (contributes_bounds s4).
  pose proof (contributes_bounds s5). pose proof (contributes_bounds s6).
  pose proof (contributes_bounds s7). lra.
Qed.

(** X6.  Whatever requests the backend has served, every session it
    holds has the seven phases of [BATCH_PHASES] in their order, and the
    progress stored with it is the sum of the weights of its completed
    phases plus half the weights of its phases in progress: a number
    between 0 and 100.  No handler stores a progress that its phases do
    not account for. *)
Theorem session_progress_accounted (w : World) (q : jsstring)
  (g : Generation) :
  Platform.reachable w ->
  activeGenerations w !! q = Some g ->
  batchPhases (gen_phases g)
  /\ (gen_progress g == weighted (gen_phases g))%Q
  /\ (0 <= gen_progress g <= 100)%Q.
Proof.
  intros [ops ->] Hg.
  assert (forall q, synced (Platform.run ops emptyWorld) q) as Hall.
  { clear q g Hg. induction ops as [|op ops IH] using rev_ind.
    - intros q g. simpl. by rewrite lookup_empty.
    - unfold Platform.run. rewrite foldl_app. simpl. by apply step_synced. }
  destruct (Hall q g Hg) as [Hbatch Hprogress].
  split; [done|].
  destruct (batchPhases_full _ Hbatch) as [Hle _].
  pose proof (weighted_nonneg _ Hbatch) as Hge.
  assert (gen_progress g == weighted (gen_phases g))%Q as Heq.
  { rewrite Hprogress, computeProgress_weighted. by apply Q.min_r. }
  split; [done|]. rewrite Heq. done.
Qed.

(** *** Ports *)





End PlatformInvariants.

Lemma session_progress_accounted_witness :
  exists g,
    activeGenerations Example.stopped !! js:"p1" = Some g
    /\ (Progress.gen_progress g == 100)%Q
    /\ (0 <= Progress.gen_progress g <= 100)%Q.
Proof.
  assert (exists g, activeGenerations Example.stopped !! js:"p1" = Some g
                    /\ (Progress.gen_progress g == 100)%Q)
    as (g & Hg & Hfull) by (eexists; split; vm_compute; reflexivity).
  exists g. split; [exact Hg|]. split; [exact Hfull|].
  apply (session_progress_accounted (rt := Sample.runtime)
           Example.stopped js:"p1" g).
  - by eexists.
  - exact Hg.
Defined.


(* ===================================================================== *)
(** ** Facts about joined paths                                           *)
(* ===================================================================== *)

Section PathFacts.
Import Path.










End PathFacts.

(* ===================================================================== *)
(** ** The finalizing phase of a run that returned, in detail             *)
(* ===================================================================== *)

Section FinalizeExact.
Import MultiFileGenerator Progress Generate.
Context {rt : Runtime}.

Lemma wrote_refl w : wrote w w.
Proof. split; try done. apply grows_refl. Qed.

Lemma wrote_trans w1 w2 w3 : wrote w1 w2 -> wrote w2 w3 -> wrote w1 w3.
Proof.
  intros [P1 A1 R1 T1 C1 D1 S1] [P2 A2 R2 T2 C2 D2 S2].
  split; try congruence.
  - by eapply grows_trans.
  - by etrans.
Qed.

Lemma tracked_wrote pid change w w' : tracked pid change w w' -> wrote w w'.
Proof.
  intros [P Q A D T C H S]. split; try done. rewrite D. apply grows_refl.
Qed.

Lemma onDisk_wrote {A} (m : FileSystem.FS A) w r w' :
  removesNothing m -> onDisk m w = (r, w') ->
  wrote w w' /\ m (disk w) = (r, disk w').
Proof.
  intros Hm. unfold onDisk. specialize (Hm (disk w)).
  destruct (m (disk w)) as [r' d]. intros [= <- <-]. split; [|done].
  by split.
Qed.

(** Inversion of a sequence that returned: its first step returned;
    and the same for a first step that cannot fail and only tracks. *)
Tactic Notation "run_ok" hyp(H) "as" ident(a) ident(w1) ident(Hm) :=
  apply run_bind_inv in H as [(? & _ & [=]) | (a & w1 & Hm & H)];
  cbv beta in H.

Tactic Notation "run_wrote" hyp(H) "as" ident(w1) ident(Hw) "by" uconstr(lem) :=
  let a := fresh "a" in
  let Hm := fresh "Hm" in
  run_ok H as a w1 Hm;
  eapply yields_inv in Hm as [_ Hw]; [|by apply lem];
  apply tracked_wrote in Hw.

Lemma ensureManifest_wrote env pid config path files backend saved w saved' w' :
  ensureManifest env pid config path files backend saved w = (inr saved', w') ->
  let manifest :=
    if backend then js:"backend/package.json" else js:"frontend/package.json" in
  wrote w w'
  /\ saved'
     = saved ++ (if bool_decide (is_Some (files !! manifest)) then []
                 else [manifest])
  /\ (~ is_Some (files !! manifest) ->
      is_Some (disk w' !! Path.join path manifest)).
Proof.
  unfold ensureManifest. cbv zeta. case_bool_decide as Hin.
  - intros [= <- <-]. split; [apply wrote_refl|]. by rewrite app_nil_r.
  - intros H. run_ok H as a w1 Hm.
    apply onDisk_wrote in Hm as [Hw1 Hd]; cycle 1.
    { destruct backend;
        [apply removesNothing_createBackendPackageJson
        |apply removesNothing_createFrontendPackageJson]. }
    run_wrote H as w2 Hw2 by (tracks_addLog pid).
    injection H as <- <-. split; [exact (wrote_trans _ _ _ Hw1 Hw2)|].
    split; [done|].
    intros _. apply (wr_disk _ _ Hw2).
    destruct backend.
    + unfold FileSystem.createBackendPackageJson in Hd.
      rewrite fs_bind in Hd.
      destruct (FileSystem.saveFile env path _ _ (disk w)) as [[e|p] d] eqn:Hs;
        [done|].
      assert (d = disk w1) as -> by (by injection Hd).
      by eapply saveFile_written.
    + unfold FileSystem.createFrontendPackageJson in Hd.
      rewrite fs_bind in Hd.
      destruct (FileSystem.saveFile env path _ _ (disk w)) as [[e|p] d] eqn:Hs;
        [done|].
      assert (d = disk w1) as -> by (by injection Hd).
      by eapply saveFile_written.
Qed.

Tactic Notation "run_tracked" hyp(H) "as" ident(w1) ident(Ht) "by" uconstr(lem) :=
  let a := fresh "a" in
  let Hm := fresh "Hm" in
  run_ok H as a w1 Hm;
  eapply yields_inv in Hm as [_ Ht]; [|by apply lem].

Lemma writeEnvFiles_exact env pid config path w ports w' :
  writeEnvFiles env pid config path w = (inr ports, w') ->
  let assignment :=
    PortManager.assignPorts (portAssignments w) pid (cfg_name config)
      (isoNow env) in
  ports = fst assignment
  /\ portAssignments w' = snd assignment
  /\ projects w' = projects w
  /\ runningApps w' = runningApps w
  /\ timers w' = timers w
  /\ (forall q,
        gen_clients <$> activeGenerations w' !! q
        = gen_clients <$> activeGenerations w !! q)
  /\ sent w `prefix_of` sent w'
  /\ disk w'
     = <[Path.join path js:"frontend/.env.local" := FileSystem.FrontendEnv ports]>
         (<[Path.join path js:"backend/.env" :=
              FileSystem.BackendEnv ports
                (FileSystem.slugify (cfg_name config)) pid]> (disk w)).
Proof.
  unfold writeEnvFiles. intros H.
  run_tracked H as w1 T1 by (tracks_addLog pid).
  run_ok H as ports' w2 Hm2.
  run_ok H as a3 w3 Hm3.
  run_ok H as a4 w4 Hm4.
  run_tracked H as w5 T5 by (tracks_addLog pid).
  injection H as <- <-.
  destruct T1 as [P1 Q1 A1 D1 M1 C1 _ S1], T5 as [P5 Q5 A5 D5 M5 C5 _ S5].
  unfold assignPorts in Hm2. rewrite Q1 in Hm2.
  destruct (PortManager.assignPorts (portAssignments w) pid (cfg_name config)
              (isoNow env)) as [asg s] eqn:Ha.
  assert (ports' = asg /\ w2 = mkWorld (projects w1) (activeGenerations w1) s
                                (runningApps w1) (disk w1) (sent w1) (timers w1))
    as [-> ->].
  { destruct (PortManager.findAssignment (portAssignments w) pid),
             (portStoreError env);
      rewrite ?run_bind in Hm2; unfold withPorts in Hm2; simpl in Hm2;
      try done; by injection Hm2 as <- <-. }
  clear Hm2. unfold onDisk, FileSystem.writeFile in Hm3, Hm4. simpl in Hm3.
  destruct (writeError env (Path.join path js:"backend/.env")); [done|].
  simplify_eq. simpl in Hm4.
  destruct (writeError env (Path.join path js:"frontend/.env.local")); [done|].
  simplify_eq. simpl in *.
  repeat split; try congruence. by etrans.
Qed.

Lemma smokeTest_tracked env pid path saved w test w' :
  smokeTest env pid path saved w = (inr test, w') -> tracked pid id w w'.
Proof.
  unfold smokeTest. destruct (findServerFile saved) as [serverFile|]; intros H.
  - run_tracked H as w1 T1 by (tracks_addLog pid).
    destruct (testCode env _) as [e|testResult]; [done|].
    run_tracked H as w2 T2
      by (yields_if pid id (Project.test_success testResult) _ _ tt
            (tracks_addLog _ _ _ _) (tracks_addLog _ _ _ _)).
    injection H as <- <-.
    eapply tracked_ext; [|exact (tracked_trans _ _ _ _ _ _ T1 T2)]. done.
  - run_tracked H as w1 T1 by (tracks_addLog pid).
    by injection H as <- <-.
Qed.

Lemma prefix_app_exists {A} (l k : list A) :
  l `prefix_of` k -> exists rest, k = l ++ rest.
Proof. by intros [rest ->]; exists rest. Qed.

(** The last stretch, statement by statement. *)
Lemma conclude_exact pid path saved stats test w r w' :
  conclude pid path saved stats test w = (r, w') ->
  let ok :=
    bool_decide
      (finalStatus (fs_phases stats) (Project.test_success test)
       = Project.DEPLOYED) in
  r = inr (mkBatchResult ok None (Some path) saved (fs_phases stats)
             (Some test))
  /\ projects w'
     = Project.updateProject (projects w) pid
         (finalUpdate (fs_phases stats) test)
  /\ portAssignments w' = portAssignments w
  /\ runningApps w' = runningApps w
  /\ disk w' = disk w
  /\ timers w' = timers w ++ [pid]
  /\ (forall q,
        gen_clients <$> activeGenerations w' !! q
        = gen_clients <$> activeGenerations w !! q)
  /\ exists earlier,
       sent w'
       = sent w ++ earlier
         ++ ((fun client => (client, EvComplete ok path saved stats))
               <$> clientsAt w pid).
Proof.
  intros H ok. unfold conclude in H. fold ok in H.
  rewrite run_bind in H. simpl in H.
  rewrite run_bind in H.
  match type of H with
  | context [addLog pid MsgDone success ?w0] => set (w1 := w0) in H
  end.
  destruct (addLog pid MsgDone success w1) as [r2 w2] eqn:Hm2.
  eapply (yields_inv pid) in Hm2 as [Hr T2]; [|apply tracks_addLog]. subst r2.
  rewrite run_bind in H.
  destruct (addLog pid _ success w2) as [r3 w3] eqn:Hm3.
  eapply (yields_inv pid) in Hm3 as [Hr T3]; [|apply tracks_addLog]. subst r3.
  rewrite run_bind in H.
  destruct ((if (0 <? length (failedPhases (fs_phases stats)))%nat
             then addLog pid _ warning else mret tt) w3) as [r4 w4] eqn:Hm4.
  eapply (yields_inv pid) in Hm4 as [Hr T4];
    [|apply yields_if; [apply tracks_addLog|apply tracks_ret]].
  subst r4.
  rewrite run_bind, sendProgressUpdate_sent in H. simpl in H.
  injection H as <- <-. simpl.
  pose proof (tracked_trans _ _ _ _ _ _ (tracked_trans _ _ _ _ _ _ T2 T3) T4)
    as [P Q A D M C _ S].
  subst w1. simpl in *.
  repeat split; try congruence; [done|].
  apply prefix_app_exists in S as [rest Hrest]. exists rest.
  rewrite Hrest, <- app_assoc. do 3 f_equal. unfold clientsAt.
  specialize (C pid).
  destruct (activeGenerations w4 !! pid), (activeGenerations w !! pid);
    by simplify_eq/=.
Qed.

Lemma clientsAt_eq w w' pid :
  gen_clients <$> activeGenerations w' !! pid
  = gen_clients <$> activeGenerations w !! pid ->
  clientsAt w' pid = clientsAt w pid.
Proof.
  unfold clientsAt. intros H.
  destruct (activeGenerations w' !! pid), (activeGenerations w !! pid);
    by simplify_eq/=.
Qed.

(** Phase 6 of a run that returned. *)
Lemma finalizePhase_exact env pid config path slug l w res w' :
  finalizePhase env pid config path slug l w = (inr res, w') ->
  FileSystem.getProjectPath env pid slug = inr path ->
  exists test d earlier,
    returnedWith env pid config path slug l test d earlier w w' res.
Proof.
  unfold finalizePhase. intros H Hpath.
  run_tracked H as w1 T1 by (tracks_updatePhase pid).
  run_tracked H as w2 T2 by (tracks_addLog pid).
  case_bool_decide as Hsize.
  { apply run_bind_inv in H as [(? & _ & [=]) | (? & ? & [=] & _)]. }
  run_ok H as a3 w3 Hm3. injection Hm3 as _ <-.
  run_tracked H as w4 T4 by (tracks_addLog pid).
  run_ok H as saved0 w5 Hm5.
  apply onDisk_wrote in Hm5 as [W5 Hsaved];
    [|apply removesNothing_saveMultipleFiles].
  apply saveMultipleFiles_saved in Hsaved as [-> Hdisk5].
  run_ok H as saved1 w6 Hm6.
  apply ensureManifest_wrote in Hm6 as (W6 & -> & Hman1).
  run_ok H as saved2 w7 Hm7.
  apply ensureManifest_wrote in Hm7 as (W7 & -> & Hman2).
  assert (wrote w w7) as W.
  { apply tracked_wrote in T1, T2, T4.
    exact (wrote_trans _ _ _
             (wrote_trans _ _ _
                (wrote_trans _ _ _
                   (wrote_trans _ _ _ (wrote_trans _ _ _ T1 T2) T4) W5) W6)
             W7). }
  clear T1 T2 T4 W5.
  run_ok H as ports w8 Hm8.
  apply writeEnvFiles_exact in Hm8 as (Hports & Hstore & P8 & A8 & M8 & C8 & S8 & D8).
  run_ok H as a9 w9 Hm9.
  unfold onDisk, FileSystem.saveProjectMetadata in Hm9. rewrite Hpath in Hm9.
  rewrite fs_bind in Hm9.
  pose proof (writesNothing_ensureDir env path (disk w8)) as Hdir.
  destruct (FileSystem.ensureDir env path (disk w8)) as [[e|[]] d9]; [done|].
  cbn [snd] in Hdir. subst d9. unfold FileSystem.writeFile in Hm9.
  destruct (writeError env (Path.join path js:"project.json")); [done|].
  injection Hm9 as _ <-.
  run_ok H as a10 w10 Hm10. injection Hm10 as _ <-.
  run_ok H as test w11 Hm11. apply (smokeTest_tracked _ pid) in Hm11.
  run_tracked H as w12 T12 by (tracks_updatePhase pid).
  apply conclude_exact in H
    as (Hres & P13 & Q13 & A13 & D13 & M13 & C13 & earlier & S13).
  pose proof (tracked_trans _ _ _ _ _ _ Hm11 T12) as [P Q A D M C _ S].
  simpl in *. destruct W as [WP WQ WA WM WC WD WS].
  assert (exists before, sent w12 = sent w ++ before) as [before Hbefore].
  { apply prefix_app_exists. etrans; [exact WS|]. etrans; [exact S8|]. done. }
  exists test, (disk w7), (before ++ earlier).
  assert (ports
          = fst (PortManager.assignPorts (portAssignments w) pid
                   (cfg_name config) (isoNow env))) as Hports'
    by (by rewrite Hports, WQ).
  assert (forall q,
            gen_clients <$> activeGenerations w12 !! q
            = gen_clients <$> activeGenerations w !! q) as Hclients.
  { intros q. by rewrite C, C8, WC. }
  set (keys := (map_to_list (allFiles l)).*1) in *.
  set (m1 := if bool_decide (is_Some (allFiles l !! js:"backend/package.json"))
             then [] else [js:"backend/package.json"]) in *.
  set (m2 := if bool_decide (is_Some (allFiles l !! js:"frontend/package.json"))
             then [] else [js:"frontend/package.json"]) in *.
  assert (((keys ++ m1) ++ m2) ++ [js:"backend/.env"; js:"frontend/.env.local"]
          = savedBeforeMetadata (allFiles l)) as Hbm.
  { unfold savedBeforeMetadata, defaultManifests. by rewrite <- !app_assoc. }
  rewrite Hbm in *. fold (savedFiles (allFiles l)) in *.
  fold (finalStatsOf (allFiles l) (phaseResults l)) in *.
  split.
  - by injection Hres as ->.
  - by rewrite Q13, Q, Hstore, WQ.
  - rewrite P13, P. simpl. rewrite P8, WP. unfold testingUpdate.
    by rewrite <- Hports'.
  - by rewrite A13, A, A8, WA.
  - by rewrite M13, M, M8, WM.
  - intros q. by rewrite C13, Hclients.
  - rewrite S13, Hbefore, <- !app_assoc. do 2 f_equal.
    by rewrite (clientsAt_eq w w12 pid (Hclients pid)).
  - rewrite D13, D. simpl. by rewrite D8, <- Hports'.
  - done.
  - intros rel Hrel. apply (wr_disk _ _ W7), (wr_disk _ _ W6). by apply Hdisk5.
  - intros manifest. unfold defaultManifests. fold m1 m2. rewrite elem_of_app.
    unfold m1, m2. intros [Hin|Hin].
    + case_bool_decide as Hb; [by apply elem_of_nil in Hin|].
      apply list_elem_of_singleton in Hin as ->.
      apply (wr_disk _ _ W7). by apply Hman1.
    + case_bool_decide as Hf; [by apply elem_of_nil in Hin|].
      apply list_elem_of_singleton in Hin as ->. by apply Hman2.
Qed.

(** What setup returns: the slug of the name, and the path
    [getProjectPath] gives for it. *)
Lemma createProjectStructure_returns env pid name d path slug d' :
  FileSystem.createProjectStructure env pid name d = (inr (path, slug), d') ->
  slug = FileSystem.slugify name
  /\ FileSystem.getProjectPath env pid slug = inr path.
Proof.
  unfold FileSystem.createProjectStructure. rewrite fs_bind.
  destruct (FileSystem.ensureDir env (GENERATED_APPS_PATH env) d)
    as [[e|[]] d1]; [done|].
  destruct (FileSystem.getProjectPath env pid (FileSystem.slugify name))
    as [e|path'] eqn:Hpath; [done|].
  rewrite fs_bind.
  destruct (FileSystem.ensureDir env path' d1) as [[e|[]] d2]; [done|].
  rewrite fs_bind.
  destruct (FileSystem.forEachFS _ FileSystem.PROJECT_STRUCTURE d2)
    as [[e|[]] d3]; [done|].
  by intros [= <- <- <-].
Qed.

Lemma setupPhase_returns env pid config w path slug w1 :
  setupPhase env pid config w = (inr (path, slug), w1) ->
  slug = FileSystem.slugify (cfg_name config)
  /\ FileSystem.getProjectPath env pid slug = inr path
  /\ tracked pid setupMarks w w1.
Proof.
  intros H. pose proof (setupPhase_tracked env pid config w) as T.
  rewrite H in T. split; [|split]; [| |done]; clear T.
  all: unfold setupPhase in H.
  all: run_tracked H as w2 T1 by (tracks_updatePhase pid).
  all: run_tracked H as w3 T2 by (tracks_addLog pid).
  all: run_ok H as ps w4 Hm; destruct ps as [path' slug'].
  all: unfold onDisk in Hm.
  all: destruct (FileSystem.createProjectStructure env pid (cfg_name config)
                   (disk w3)) as [r d] eqn:Hcreate.
  all: injection Hm as -> _.
  all: apply createProjectStructure_returns in Hcreate as [Hslug Hpath].
  all: run_tracked H as w5 T4 by (tracks_addLog pid).
  all: run_tracked H as w6 T5 by (tracks_updatePhase pid).
  all: injection H as <- <- _; done.
Qed.

(** A run that returned, seen from a world that only tracked up to the
    one it started in. *)
Lemma returnedWith_tracked env pid config path slug l test d earlier
  change w0 w w' res :
  tracked pid change w0 w ->
  returnedWith env pid config path slug l test d earlier w w' res ->
  exists earlier',
    returnedWith env pid config path slug l test d earlier' w0 w' res.
Proof.
  intros [P Q A D T C H S] [R1 R2 R3 R4 R5 R6 R7 R8 R9 R10 R11].
  apply prefix_app_exists in S as [before Hbefore].
  exists (before ++ earlier). split; try done.
  - by rewrite R2, Q.
  - by rewrite R3, P, Q.
  - by rewrite R4, A.
  - by rewrite R5, T.
  - intros q. by rewrite R6, C.
  - rewrite R7, Hbefore, <- !app_assoc. do 3 f_equal.
    by rewrite (clientsAt_eq w0 w pid (C pid)).
  - by rewrite R8, Q.
  - by rewrite <- D.
Qed.

(** The [try] block of a run that returned. *)
Lemma runBatchBody_exact env pid config w res w' :
  runBatchBody env pid config w = (inr res, w') ->
  let slug := FileSystem.slugify (cfg_name config) in
  exists path test d earlier,
    FileSystem.getProjectPath env pid slug = inr path
    /\ returnedWith env pid config path slug (finalLocals env config)
         test d earlier w w' res.
Proof.
  intros H. cbv zeta. unfold runBatchBody in H.
  run_ok H as ps w1 Hm1. destruct ps as [path slug].
  apply setupPhase_returns in Hm1 as (-> & Hpath & T1).
  run_ok H as l w2 Hm2.
  eapply (yields_inv pid) in Hm2 as [Hl T2]; [|apply runBlocks_yields].
  injection Hl as ->. fold (finalLocals env config) in H.
  apply finalizePhase_exact in H as (test & d & earlier & R); [|done].
  destruct (returnedWith_tracked _ _ _ _ _ _ _ _ _ _ _ _ _ _
              (tracked_trans _ _ _ _ _ _ T1 T2) R) as [earlier' R'].
  by exists path, test, d, earlier'.
Qed.

End FinalizeExact.

(* ===================================================================== *)
(** ** generate.js: what a run leaves behind                              *)
(* ===================================================================== *)

Section RunOutcomes.
Import MultiFileGenerator Progress Generate.
Context {rt : Runtime}.

Lemma lookup_updateProject (ps : Project.Store) pid u :
  Project.updateProject ps pid u !! pid
  = (fun project => Project.merge project u) <$> ps !! pid.
Proof.
  unfold Project.updateProject. destruct (ps !! pid) as [p|] eqn:Hp.
  - by rewrite lookup_insert_eq.
  - by rewrite Hp.
Qed.

(** The record of the project after a run that returned. *)
Lemma returnedWith_record env pid config path slug l test d earlier w w' res
  project' :
  returnedWith env pid config path slug l test d earlier w w' res ->
  projects w' !! pid = Some project' ->
  exists project,
    projects w !! pid = Some project
    /\ project'
       = Project.merge
           (Project.merge project
              (testingUpdate path slug (allFiles l)
                 (fst (PortManager.assignPorts (portAssignments w) pid
                         (cfg_name config) (isoNow env)))))
           (finalUpdate (phaseResults l) test).
Proof.
  intros R. rewrite (rw_projects _ _ _ _ _ _ _ _ _ _ _ _ R).
  rewrite !lookup_updateProject.
  destruct (projects w !! pid) as [project|]; [|done].
  simpl. intros [= <-]. by exists project.
Qed.

(** What the [catch] block leaves, from the world the run started in. *)
Lemma runBatchGeneration_threw env pid config w res w' message :
  runBatchGeneration env pid config w = (inr res, w') ->
  res_error res = Some message ->
  res = mkBatchResult false (Some message) None [] [] None
  /\ exists w0 w1 change,
       evolves pid w w0
       /\ tracked pid change w0 w1
       /\ w' = mkWorld
                 (Project.updateProject (projects w1) pid
                    (Project.mkUpdates (Some Project.FAILED) None None None
                       None None (Some (Some message)) None))
                 (delete pid (activeGenerations w1)) (portAssignments w1)
                 (runningApps w1) (disk w1)
                 (sent w1
                    ++ ((fun client => (client, EvError message))
                          <$> clientsAt w1 pid))
                 (timers w1).
Proof.
  unfold runBatchGeneration, tryCatch. intros H Herr.
  pose proof (runBatchBody_ran env pid config w w (evolves_refl pid w)) as Hbody.
  destruct (runBatchBody env pid config w) as [[e|res'] w0] eqn:Hrun.
  - destruct (runBatchCatch_result pid e w0) as (w1 & change & T & Heq).
    rewrite Heq in H. injection H as <- <-. simpl in Herr.
    injection Herr as ->. split; [done|]. by exists w0, w1, change.
  - injection H as -> ->.
    apply runBatchBody_exact in Hrun as (path & test & d & earlier & _ & R).
    rewrite (rw_res _ _ _ _ _ _ _ _ _ _ _ _ R) in Herr. done.
Qed.

(** X8.  Whatever the model, the disk, the port file and the smoke test
    answer, [runBatchGeneration] returns and does not throw.  Its result
    has [success] exactly when it has no [error]; the status stored for
    the project is then [deployed], also when content phases threw or
    the smoke test failed, and it is [failed] otherwise, with the message
    of the result as the [error] of the record. *)
Theorem run_succeeds_or_reports
  (env : Env) (projectId : jsstring) (config : Config) (w : World) :
  exists res,
    let w' := snd (runBatchGeneration env projectId config w) in
    fst (runBatchGeneration env projectId config w) = inr res
    /\ (res_success res = true <-> res_error res = None)
    /\ (forall project',
          projects w' !! projectId = Some project' ->
          Project.status project'
          = if res_success res then Project.DEPLOYED else Project.FAILED)
    /\ (forall message project',
          res_error res = Some message ->
          projects w' !! projectId = Some project' ->
          Project.error project' = Some message).
Proof.
  destruct (runBatchGeneration_ran env projectId config w) as (res & Hres & _).
  exists res. cbv zeta. split; [done|].
  destruct (runBatchGeneration env projectId config w) as [r w'] eqn:Hrun.
  simpl in *. subst r.
  destruct (res_error res) as [message|] eqn:Herr.
  - destruct (runBatchGeneration_threw _ _ _ _ _ _ _ Hrun Herr)
      as (-> & w0 & w1 & change & _ & _ & ->).
    simpl. split; [done|].
    split.
    + intros project' Hp. rewrite lookup_updateProject in Hp.
      destruct (projects w1 !! projectId); simpl in Hp; [|done]. by injection Hp as <-.
    + intros message' project' [= <-] Hp. rewrite lookup_updateProject in Hp.
      destruct (projects w1 !! projectId); simpl in Hp; [|done]. by injection Hp as <-.
  - apply runBatchGeneration_returned in Hrun; [|done].
    destruct (runBatchBody_returns _ _ _ _ _ _ Hrun) as [Hsize _].
    apply runBatchBody_exact in Hrun as (path & test & d & earlier & _ & R).
    pose proof (finalStatus_with_files env config (Project.test_success test)
                  Hsize) as Hstatus.
    pose proof (rw_res _ _ _ _ _ _ _ _ _ _ _ _ R) as Hres.
    rewrite Hstatus in Hres. subst res. simpl.
    split; [done|]. split; [|done].
    intros project' Hp.
    destruct (returnedWith_record _ _ _ _ _ _ _ _ _ _ _ _ _ R Hp)
      as (project & _ & ->).
    simpl. by rewrite Hstatus.
Qed.

(** X9.  A run that reports an error, at whichever statement of the
    [try] block it was thrown: the result carries nothing but the
    message; the last events written are the error event, once to each
    client the session had when the run started; the session is removed
    at once and no removal is scheduled; and the record of the project,
    if it is in the store, is marked [failed] with the message as its
    error. *)
Theorem failed_run_cleans_up
  (env : Env) (projectId : jsstring) (config : Config) (w w' : World)
  (res : BatchResult) (message : jsstring) :
  runBatchGeneration env projectId config w = (inr res, w') ->
  res_error res = Some message ->
  res = mkBatchResult false (Some message) None [] [] None
  /\ (exists earlier,
        sent w'
        = sent w ++ earlier
          ++ ((fun client => (client, EvError message))
                <$> clientsAt w projectId))
  /\ activeGenerations w' !! projectId = None
  /\ timers w' = timers w
  /\ (forall project,
        projects w !! projectId = Some project ->
        exists project',
          projects w' !! projectId = Some project'
          /\ Project.status project' = Project.FAILED
          /\ Project.error project' = Some message).
Proof.
  intros Hrun Herr.
  destruct (runBatchGeneration_threw _ _ _ _ _ _ _ Hrun Herr)
    as (-> & w0 & w1 & change & Hev & Htr & ->).
  destruct Hev as [O X R S C Y A P D T N].
  destruct Htr as [P1 Q1 A1 D1 T1 C1 H1 S1]. simpl.
  split; [done|]. split; [|split; [|split]].
  - apply prefix_app_exists in N as [earlier0 Hsent0].
    apply prefix_app_exists in S1 as [earlier1 ->]. rewrite Hsent0.
    exists (earlier0 ++ earlier1).
    rewrite <- !app_assoc. do 2 f_equal.
    rewrite (clientsAt_eq w w1 projectId); [done|]. by rewrite C1, C.
  - apply lookup_delete_eq.
  - by rewrite T1, T.
  - intros project Hp. rewrite lookup_updateProject, P1.
    assert (is_Some (projects w0 !! projectId)) as [project0 Hp0]
      by (by apply X).
    rewrite Hp0. simpl. by eexists.
Qed.




(** X12.  After a run that reports no error, the last events written
    are the completion event, once to each client the session had when
    the run started; the event carries [success], the output path and
    the list of files of the result, and statistics whose [totalFiles]
    is one less than the length of that list, [project.json] being
    added after the count.  The session is still there with its
    clients; its removal is scheduled once, and once the scheduled
    removal has run the session is gone. *)
Theorem completion_sent_and_removal_scheduled
  (env : Env) (projectId : jsstring) (config : Config) (w w' : World)
  (res : BatchResult) :
  runBatchGeneration env projectId config w = (inr res, w') ->
  res_error res = None ->
  (exists earlier path stats,
      sent w'
      = sent w ++ earlier
        ++ ((fun client =>
               (client,
                EvComplete (res_success res) path (res_filesGenerated res)
                  stats))
              <$> clientsAt w projectId)
      /\ res_outputPath res = Some path
      /\ S (fs_totalFiles stats) = length (res_filesGenerated res)
      /\ fs_phases stats = res_phaseResults res)
  /\ timers w' = timers w ++ [projectId]
  /\ (forall q,
        gen_clients <$> activeGenerations w' !! q
        = gen_clients <$> activeGenerations w !! q)
  /\ activeGenerations (expire projectId w') !! projectId = None.
Proof.
  intros Hrun Herr.
  apply runBatchGeneration_returned in Hrun; [|done].
  apply runBatchBody_exact in Hrun as (path & test & d & earlier & _ & R).
  pose proof (rw_res _ _ _ _ _ _ _ _ _ _ _ _ R) as ->. simpl.
  split; [|split; [|split]].
  - exists earlier, path,
      (finalStatsOf (allFiles (finalLocals env config))
         (phaseResults (finalLocals env config))).
    split; [exact (rw_sent _ _ _ _ _ _ _ _ _ _ _ _ R)|].
    split; [done|]. split; [|done].
    unfold savedFiles. rewrite length_app. simpl. lia.
  - exact (rw_timers _ _ _ _ _ _ _ _ _ _ _ _ R).
  - exact (rw_clients _ _ _ _ _ _ _ _ _ _ _ _ R).
  - apply lookup_delete_eq.
Qed.

End RunOutcomes.

Lemma failed_run_cleans_up_witness :
  let run :=
    Example.batch
      (Example.env Example.allSucceed Example.schemaUnwritable true) in
  activeGenerations (snd run) !! js:"p1" = None
  /\ timers (snd run) = []
  /\ exists earlier,
       sent (snd run)
       = earlier ++ [(7%nat, Progress.EvError js:"ENOSPC")].
Proof.
  cbv zeta.
  assert (match fst (Example.batch
                       (Example.env Example.allSucceed
                          Example.schemaUnwritable true)) with
          | inr res => Generate.res_error res = Some js:"ENOSPC"
          | inl _ => False
          end) as Hres by (vm_compute; reflexivity).
  destruct (Example.batch _) as [[message|res] w'] eqn:Hrun;
    cbn [fst snd] in *; [destruct Hres|].
  unfold Example.batch in Hrun.
  destruct (failed_run_cleans_up (rt := Sample.runtime) _ _ _ _ _ _ _
              Hrun Hres)
    as (_ & (earlier & Hsent) & Hgone & Htimers & _).
  split; [exact Hgone|]. split; [exact Htimers|].
  exists (sent Example.accepted ++ earlier).
  rewrite Hsent, <- app_assoc. reflexivity.
Defined.



Lemma completion_sent_and_removal_scheduled_witness :
  let run :=
    Example.batch (Example.env Example.allSucceed Example.diskWorks true) in
  timers (snd run) = [js:"p1"]
  /\ Progress.gen_clients <$> activeGenerations (snd run) !! js:"p1"
     = Some [7%nat].
Proof.
  cbv zeta.
  assert (match fst (Example.batch
                       (Example.env Example.allSucceed Example.diskWorks
                          true)) with
          | inr res => Generate.res_error res = None
          | inl _ => False
          end) as Hres by (vm_compute; reflexivity).
  destruct (Example.batch _) as [[message|res] w'] eqn:Hrun;
    cbn [fst snd] in *; [destruct Hres|].
  unfold Example.batch in Hrun.
  destruct (completion_sent_and_removal_scheduled (rt := Sample.runtime)
              _ _ _ _ _ _ Hrun Hres)
    as (_ & Htimers & Hclients & _).
  split; [exact Htimers|]. rewrite Hclients. reflexivity.
Defined.

(* ===================================================================== *)
(** ** generate.js: the route handlers                                    *)
(* ===================================================================== *)

Section Routes.
Import MultiFileGenerator Progress Generate.
Context {rt : Runtime}.

(** A run leaves its project [deployed] or [failed]. *)
Lemma runBatchGeneration_status env pid config w project' :
  projects (snd (runBatchGeneration env pid config w)) !! pid = Some project' ->
  Project.status project' = Project.DEPLOYED
  \/ Project.status project' = Project.FAILED.
Proof.
  destruct (runBatchGeneration_ran env pid config w) as (res & Hres & _).
  destruct (runBatchGeneration env pid config w) as [r w'] eqn:Hrun.
  simpl in *. subst r. intros Hp.
  destruct (res_error res) as [message|] eqn:Herr.
  - destruct (runBatchGeneration_threw _ _ _ _ _ _ _ Hrun Herr)
      as (_ & w0 & w1 & change & _ & _ & ->).
    simpl in Hp. rewrite lookup_updateProject in Hp.
    destruct (projects w1 !! pid); simpl in Hp; [|done].
    injection Hp as <-. by right.
  - apply runBatchGeneration_returned in Hrun; [|done].
    destruct (runBatchBody_returns _ _ _ _ _ _ Hrun) as [Hsize _].
    apply runBatchBody_exact in Hrun as (path & test & d & earlier & _ & R).
    destruct (returnedWith_record _ _ _ _ _ _ _ _ _ _ _ _ _ R Hp)
      as (project & _ & ->).
    left. simpl. by apply finalStatus_with_files.
Qed.

(** What an accepted start leaves. *)
Lemma startGeneration_accepted pid prompt w :
  (startGeneration pid prompt w).1.1 = Accepted202 ->
  exists project description,
    projects w !! pid = Some project
    /\ Project.status project <> Project.GENERATING
    /\ snd (startGeneration pid prompt w)
       = mkWorld
           (<[pid := Project.merge project
                       (Project.mkUpdates (Some Project.GENERATING)
                          (Some description) None None None None None None)]>
              (projects w))
           (<[pid := newGeneration]> (activeGenerations w))
           (portAssignments w) (runningApps w) (disk w) (sent w) (timers w).
Proof.
  unfold startGeneration, Project.getProjectById.
  destruct (projects w !! pid) as [project|] eqn:Hp; [|done].
  case_bool_decide as Hs; [done|]. intros _.
  eexists project, _. split; [done|]. split; [done|].
  simpl. unfold Project.updateProject. by rewrite Hp.
Qed.

(** X13.  Once [POST /api/generate] has accepted a request for a
    project (a request that carries a project id), the project has
    status [generating] and a fresh session: no clients, whoever had
    subscribed before, and progress 0.  A second request for the project
    is answered 409 and changes nothing; once the run has ended, with
    whatever outcome, a request is accepted again. *)
Theorem start_is_exclusive
  (env : Env) (projectId : jsstring) (prompt prompt' : option jsstring)
  (config : Config) (w : World) :
  JS.truthyString projectId = true ->
  (startGeneration projectId prompt w).1.1 = Accepted202 ->
  let w1 := snd (startGeneration projectId prompt w) in
  statusAt w1 projectId = Some Project.GENERATING
  /\ clientsAt w1 projectId = []
  /\ progressOf w1 projectId = 0%Q
  /\ startGeneration projectId prompt' w1 = (Conflict409, None, w1)
  /\ (startGeneration projectId prompt'
        (snd (runBatchGeneration env projectId config w1))).1.1
     = Accepted202.
Proof.
  intros _ Hok. cbv zeta.
  destruct (startGeneration_accepted _ _ _ Hok)
    as (project & description & Hp & Hs & Hw1).
  rewrite Hw1. clear Hw1.
  set (w1 := mkWorld _ _ _ _ _ _ _).
  assert (projects w1 !! projectId
          = Some (Project.merge project
                    (Project.mkUpdates (Some Project.GENERATING)
                       (Some description) None None None None None None)))
    as Hp1 by apply lookup_insert_eq.
  split; [|split; [|split; [|split]]].
  - unfold statusAt. by rewrite Hp1.
  - unfold clientsAt. simpl. by rewrite lookup_insert_eq.
  - unfold progressOf. simpl. by rewrite lookup_insert_eq.
  - unfold startGeneration, Project.getProjectById. by rewrite Hp1.
  - destruct (runBatchGeneration_ran env projectId config w1)
      as (res & _ & w2 & Hev & Hend).
    assert (is_Some (projects (snd (runBatchGeneration env projectId config w1))
                       !! projectId)) as [project' Hp'].
    { destruct Hend as [-> | ->]; simpl; apply (ev_exists _ _ _ Hev);
        by rewrite Hp1. }
    pose proof (runBatchGeneration_status _ _ _ _ _ Hp') as Hstatus.
    unfold startGeneration, Project.getProjectById. rewrite Hp'.
    rewrite bool_decide_false; [done|].
    destruct Hstatus as [-> | ->]; by vm_compute.
Qed.

(** X14.  [POST /api/generate/:projectId/cancel], when it answers 200:
    the cancellation event is written once to each client of the
    session and to nobody else, the session is removed, and the project
    goes back to [draft] with the error [Generation cancelled by user];
    nothing else changes.  A second cancel is answered 400 and changes
    nothing, and a new generation can be started. *)
Theorem cancel_resets_project
  (projectId : jsstring) (prompt : option jsstring) (w : World) :
  (cancel projectId w).1 = Ok200 ->
  let w1 := snd (cancel projectId w) in
  sent w1
  = sent w ++ ((fun client => (client, EvCancelled)) <$> clientsAt w projectId)
  /\ activeGenerations w1 = delete projectId (activeGenerations w)
  /\ (exists project,
        projects w1 !! projectId = Some project
        /\ Project.status project = Project.DRAFT
        /\ Project.error project = Some js:"Generation cancelled by user")
  /\ (forall q, q <> projectId -> projects w1 !! q = projects w !! q)
  /\ portAssignments w1 = portAssignments w
  /\ runningApps w1 = runningApps w
  /\ disk w1 = disk w
  /\ timers w1 = timers w
  /\ cancel projectId w1 = (BadRequest400, w1)
  /\ (startGeneration projectId prompt w1).1.1 = Accepted202.
Proof.
  unfold cancel at 1 2, Project.getProjectById.
  destruct (projects w !! projectId) as [project|] eqn:Hp; [|done].
  destruct (negb _) eqn:Hs; [done|]. intros _. cbv zeta.
  rewrite run_bind, sendProgressUpdate_sent. simpl.
  set (w1 := mkWorld _ _ _ _ _ _ _).
  assert (projects w1 !! projectId
          = Some (Project.merge project
                    (Project.mkUpdates (Some Project.DRAFT) None None None
                       None None
                       (Some (Some js:"Generation cancelled by user")) None)))
    as Hp1.
  { unfold w1. simpl. unfold Project.updateProject. rewrite Hp.
    apply lookup_insert_eq. }
  repeat (split; [done|]).
  split; [by eexists|]. split.
  { intros q Hq. unfold w1. simpl. unfold Project.updateProject. rewrite Hp.
    by rewrite lookup_insert_ne. }
  repeat (split; [done|]). split.
  - unfold cancel, Project.getProjectById. by rewrite Hp1.
  - unfold startGeneration, Project.getProjectById. by rewrite Hp1.
Qed.

(** X15.  A client that subscribes to the stream of a project is added
    at the end of the clients of its session, so every later progress
    update is written to the clients that were there and then to the
    new one.  When its connection closes, the client is removed and the
    others stay, in their order: the clients are again those from
    before the subscription if the client was not among them. *)
Theorem subscribe_then_close
  (projectId : jsstring) (client : Client) (w : World) :
  is_Some (projects w !! projectId) ->
  let w1 := snd (subscribe projectId client w) in
  clientsAt w1 projectId = clientsAt w projectId ++ [client]
  /\ (forall event,
        sent (snd (sendProgressUpdate projectId event w1))
        = sent w1
          ++ ((fun c => (c, event)) <$> clientsAt w projectId)
          ++ [(client, event)])
  /\ clientsAt (unsubscribe projectId client w1) projectId
     = List.filter (fun c => negb (bool_decide (c = client)))
         (clientsAt w projectId)
  /\ (client ∉ clientsAt w projectId ->
      clientsAt (unsubscribe projectId client w1) projectId
      = clientsAt w projectId).
Proof.
  intros [project Hp]. cbv zeta.
  unfold subscribe, Project.getProjectById. rewrite Hp. simpl.
  set (g := match activeGenerations w !! projectId with
            | Some g => g
            | None => _
            end).
  assert (gen_clients g = clientsAt w projectId) as Hg.
  { unfold g, clientsAt. by destruct (activeGenerations w !! projectId). }
  set (w1 := mkWorld _ _ _ _ _ _ _).
  assert (clientsAt w1 projectId = clientsAt w projectId ++ [client]) as H1.
  { unfold clientsAt at 1. simpl. rewrite lookup_insert_eq. simpl.
    by rewrite Hg. }
  assert (clientsAt (unsubscribe projectId client w1) projectId
          = List.filter (fun c => negb (bool_decide (c = client)))
              (clientsAt w projectId)) as H2.
  { unfold unsubscribe. simpl. rewrite lookup_insert_eq. simpl.
    unfold clientsAt at 1. simpl. rewrite lookup_insert_eq. simpl.
    rewrite Hg, List.filter_app. simpl. rewrite bool_decide_true by done.
    simpl. by rewrite app_nil_r. }
  split; [done|]. split; [|split; [done|]].
  - intros event. rewrite sendProgressUpdate_sent. simpl.
    by rewrite H1, fmap_app.
  - intros Hnot. rewrite H2. clear -Hnot.
    induction (clientsAt w projectId) as [|c l IH]; [done|].
    apply not_elem_of_cons in Hnot as [Hne Hnot]. simpl.
    rewrite bool_decide_false by done. simpl. by rewrite IH.
Qed.

End Routes.

Lemma start_is_exclusive_witness :
  let w :=
    Platform.run (rt := Sample.runtime)
      [Platform.OpCreate js:"p1" Example.data] emptyWorld in
  Generate.startGeneration js:"p1" (Some js:"again")
    (snd (Generate.startGeneration js:"p1" None w))
  = (Generate.Conflict409, None, snd (Generate.startGeneration js:"p1" None w)).
Proof.
  cbv zeta.
  apply (start_is_exclusive (rt := Sample.runtime)
           (Example.env Example.allSucceed Example.diskWorks true)
           js:"p1" None (Some js:"again") Example.config);
    vm_compute; reflexivity.
Defined.

Lemma cancel_resets_project_witness :
  statusAt (snd (Generate.cancel js:"p1" Example.accepted)) js:"p1"
  = Some Project.DRAFT
  /\ sent (snd (Generate.cancel js:"p1" Example.accepted))
     = [(7%nat, Progress.EvCancelled)].
Proof.
  destruct (cancel_resets_project js:"p1" None Example.accepted)
    as (Hsent & _ & (project & Hp & Hs & _) & _).
  { vm_compute. reflexivity. }
  split.
  - unfold statusAt. rewrite Hp. simpl. by rewrite Hs.
  - rewrite Hsent. vm_compute. reflexivity.
Defined.

Lemma subscribe_then_close_witness :
  clientsAt
    (Generate.unsubscribe js:"p1" 8%nat
       (snd (Generate.subscribe js:"p1" 8%nat Example.accepted)))
    js:"p1"
  = [7%nat].
Proof.
  destruct (subscribe_then_close js:"p1" 8%nat Example.accepted)
    as (_ & _ & _ & Hback).
  { vm_compute. eauto. }
  rewrite Hback; [vm_compute; reflexivity|].
  vm_compute. intros H. apply list_elem_of_singleton in H. discriminate H.
Defined.

(* ===================================================================== *)
(** ** fileSystem.js: slugs                                               *)
(* ===================================================================== *)

Section Slug.
Import FileSystem.

Lemma replaceAll_skip (m : JS.matcher unit) (by_ s : jsstring) (k : nat) :
  JS.replaceAll m by_ k s = JS.replaceAll m by_ 0 (drop k s).
Proof.
  revert k. induction s as [|c s IH]; intros k; [by destruct k|].
  destruct k as [|k]; [done|]. simpl. apply IH.
Qed.

Lemma span_split (p : N -> bool) (s : jsstring) :
  s = (JS.span p s).1 ++ (JS.span p s).2.
Proof.
  induction s as [|c s IH]; [done|]. simpl.
  destruct (p c); [|done]. destruct (JS.span p s) as [a b]. simpl in *.
  by rewrite IH at 1.
Qed.

Lemma span_rest (p : N -> bool) (s : jsstring) :
  match (JS.span p s).2 with [] => True | c :: _ => p c = false end.
Proof.
  induction s as [|c s IH]; [done|]. simpl.
  destruct (p c) eqn:Hc; [|done]. by destruct (JS.span p s) as [a b].
Qed.

Lemma span_rest_length (p : N -> bool) (s : jsstring) :
  (length (JS.span p s).2 <= length s)%nat.
Proof.
  rewrite (span_split p s) at 2. rewrite length_app. lia.
Qed.

Lemma span_rest_filter (p q : N -> bool) (s : jsstring) :
  (forall c, p c = true -> q c = false) ->
  List.filter q (JS.span p s).2 = List.filter q s.
Proof.
  intros Hpq. induction s as [|c s IH]; [done|]. simpl.
  destruct (p c) eqn:Hc; [|done]. rewrite (Hpq c Hc).
  by destruct (JS.span p s) as [a b].
Qed.

(** The replacement, one character at a time: a letter or digit is
    kept, and a run of other characters becomes one hyphen. *)
Lemma replaceNonSlug_cons (c : N) (s : jsstring) :
  JS.replaceAll matchNonSlug js:"-" 0 (c :: s)
  = if isSlugChar c then c :: JS.replaceAll matchNonSlug js:"-" 0 s
    else HYPHEN
         :: JS.replaceAll matchNonSlug js:"-" 0
              (JS.span (fun c => negb (isSlugChar c)) s).2.
Proof.
  cbn [JS.replaceAll]. unfold matchNonSlug at 1. cbn [JS.span].
  destruct (isSlugChar c); [done|]. cbn [negb].
  pose proof (span_split (fun c => negb (isSlugChar c)) s) as Hsplit.
  destruct (JS.span _ s) as [a b]. cbn [fst snd pred length] in *.
  rewrite replaceAll_skip. rewrite Hsplit at 1.
  by rewrite drop_app_length.
Qed.

Lemma isSlugChar_HYPHEN : isSlugChar HYPHEN = false.
Proof. reflexivity. Qed.

Lemma replaceNonSlug_shape (n : nat) (s : jsstring) :
  (length s <= n)%nat ->
  let r := JS.replaceAll matchNonSlug js:"-" 0 s in
  hyphenated r
  /\ head r = (fun c => if isSlugChar c then c else HYPHEN) <$> head s
  /\ List.filter isSlugChar r = List.filter isSlugChar s.
Proof.
  revert s. induction n as [|n IH]; intros s Hlen; cbv zeta.
  { destruct s; [done|simpl in Hlen; lia]. }
  destruct s as [|c s]; [done|]. simpl in Hlen.
  rewrite replaceNonSlug_cons. destruct (isSlugChar c) eqn:Hc.
  - destruct (IH s ltac:(lia)) as (Hshape & Hhead & Hfilter).
    split; [|split].
    + simpl. split; [by left|done].
    + simpl. by rewrite Hc.
    + simpl. by rewrite Hc, Hfilter.
  - pose proof (span_rest (fun c => negb (isSlugChar c)) s) as Hrest.
    pose proof (span_rest_length (fun c => negb (isSlugChar c)) s) as Hle.
    pose proof (span_rest_filter (fun c => negb (isSlugChar c)) isSlugChar s)
      as Hkeep.
    destruct (IH (JS.span (fun c => negb (isSlugChar c)) s).2 ltac:(lia))
      as (Hshape & Hhead & Hfilter).
    split; [|split].
    + simpl. split; [|done]. right. split; [done|].
      destruct (JS.replaceAll _ _ _ _) as [|c' r'] eqn:Hr; [done|].
      destruct (JS.span _ s).2 as [|c2 rest]; [done|]. simpl in *.
      apply negb_false_iff in Hrest. rewrite Hrest in Hhead.
      by injection Hhead as ->.
    + simpl. by rewrite Hc.
    + cbn [List.filter]. rewrite isSlugChar_HYPHEN, Hc, Hfilter. apply Hkeep.
      intros c0 H0. by apply negb_true_iff in H0.
Qed.

Lemma hyphenated_app (s t : jsstring) : hyphenated (s ++ t) -> hyphenated s.
Proof.
  induction s as [|c s IH]; [done|]. simpl. intros [Hc Hs].
  split; [|by apply IH]. destruct Hc as [Hc|[-> Hnext]]; [by left|].
  right. split; [done|]. by destruct s.
Qed.

Lemma hyphenated_Forall (s : jsstring) :
  hyphenated s -> Forall (fun c => isSlugChar c = true \/ c = HYPHEN) s.
Proof.
  induction s as [|c s IH]; [done|]. simpl. intros [Hc Hs].
  apply Forall_cons. split; [|by apply IH]. destruct Hc as [Hc|[-> _]]; auto.
Qed.

Lemma hyphenated_lookup (s : jsstring) (i : nat) (c : N) :
  hyphenated s -> s !! i = Some HYPHEN -> s !! S i = Some c ->
  isSlugChar c = true.
Proof.
  revert i. induction s as [|c0 s IH]; intros i; [done|].
  simpl. intros [Hc Hs]. destruct i as [|i]; simpl.
  - intros [= ->]. destruct Hc as [Hc|[_ Hnext]]; [done|].
    destruct s; [done|]. by intros [= <-].
  - by apply IH.
Qed.

(** What [stripHyphens] makes of a hyphenated string. *)
Lemma stripHyphens_shape (t : jsstring) :
  hyphenated t ->
  let s := stripHyphens t in
  hyphenated s
  /\ (forall c, head s = Some c -> isSlugChar c = true)
  /\ (forall c, last s = Some c -> isSlugChar c = true)
  /\ List.filter isSlugChar s = List.filter isSlugChar t.
Proof.
  intros Ht. cbv zeta. unfold stripHyphens.
  set (s1 := match t with
             | c :: s' => if c =? HYPHEN then s' else t
             | [] => []
             end).
  assert (hyphenated s1
          /\ (forall c, head s1 = Some c -> isSlugChar c = true)
          /\ List.filter isSlugChar s1 = List.filter isSlugChar t)
    as (H1 & Hhead1 & Hfilter1).
  { unfold s1. destruct t as [|c t']; [done|].
    destruct (N.eqb_spec c HYPHEN) as [->|Hne].
    - simpl in Ht. destruct Ht as [[?|[_ Hnext]] Ht']; [done|].
      split; [done|]. split; [|done].
      intros c Hc. destruct t'; [done|]. by injection Hc as <-.
    - split; [done|]. split; [|done]. intros c0 [= <-].
      simpl in Ht. by destruct Ht as [[?|[? _]] _]. }
  clearbody s1. clear Ht.
  destruct s1 as [|c0 s1'] using rev_ind; [done|]. clear IHs1'.
  rewrite reverse_snoc.
  destruct (N.eqb_spec c0 HYPHEN) as [->|Hne].
  - rewrite reverse_involutive.
    split; [by eapply hyphenated_app|]. split; [|split].
    + intros c Hc. apply Hhead1. destruct s1'; [done|]. done.
    + intros c Hc. destruct s1' as [|c1 s1' _] using rev_ind; [done|].
      rewrite last_snoc in Hc. injection Hc as ->.
      rewrite <- app_assoc in H1. simpl in H1.
      assert (forall u, hyphenated (u ++ [c; HYPHEN]) ->
                isSlugChar c = true) as Hlast.
      { clear. induction u as [|x u IH]; simpl.
        - intros [[?|[-> Hn]] _]; done.
        - intros [_ Hu]. by apply IH. }
      by eapply Hlast.
    + rewrite <- Hfilter1, List.filter_app. cbn [List.filter].
      by rewrite isSlugChar_HYPHEN, app_nil_r.
  - split; [done|]. split; [done|]. split; [|done].
    intros c. rewrite last_snoc. intros [= <-].
    apply hyphenated_Forall in H1. apply Forall_app in H1 as [_ H1].
    apply List.Forall_inv in H1. simpl in H1.
    destruct H1 as [Hc|Hc]; [exact Hc|congruence].
Qed.

Context {rt : Runtime}.

(** The slug once the hyphens at the ends are removed, before the cut
    at 50 characters. *)
Lemma slugify_shape (name : jsstring) :
  exists s,
    slugify name = take 50 s
    /\ hyphenated s
    /\ (forall c, head s = Some c -> isSlugChar c = true)
    /\ (forall c, last s = Some c -> isSlugChar c = true)
    /\ List.filter isSlugChar s = List.filter isSlugChar (toLowerCase name).
Proof.
  unfold slugify.
  destruct (replaceNonSlug_shape _ (toLowerCase name) (Nat.le_refl _))
    as (Hshape & _ & Hfilter).
  destruct (stripHyphens_shape _ Hshape) as (H1 & H2 & H3 & H4).
  eexists. split; [done|]. repeat split; try done. by rewrite H4.
Qed.

Lemma filter_nil_Forall (f : N -> bool) (s : jsstring) :
  List.filter f s = [] <-> Forall (fun c => f c = false) s.
Proof.
  induction s as [|c s IH]; [done|]. simpl. destruct (f c) eqn:Hc.
  - split; [done|]. intros H. apply Forall_cons in H as [H _]. congruence.
  - rewrite IH. split.
    + intros H. apply Forall_cons. by split.
    + intros H. by apply Forall_cons in H as [_ H].
Qed.

(** The slug is empty exactly when the lower-cased name has no letter
    or digit. *)
Lemma slugify_empty (name : jsstring) :
  slugify name = []
  <-> Forall (fun c => isSlugChar c = false) (toLowerCase name).
Proof.
  destruct (slugify_shape name) as (s & -> & Hshape & Hhead & _ & Hfilter).
  rewrite <- filter_nil_Forall, <- Hfilter. split.
  - destruct s as [|c s]; [done|]. done.
  - destruct s as [|c s]; [done|]. simpl.
    rewrite (Hhead c eq_refl). done.
Qed.

(** X16.  The slug [slugify] makes of a name has at most 50
    characters, all of them lower-case letters, digits or hyphens; it
    does not begin with a hyphen and has no two hyphens in a row; it can
    end with a hyphen only where the cut at 50 characters left one; and
    it is empty exactly when the lower-cased name has no letter or
    digit.  Its letters and digits are the first of those of the
    lower-cased name, in their order. *)
Theorem slug_is_well_formed (name : jsstring) :
  let slug := slugify name in
  (length slug <= 50)%nat
  /\ Forall (fun c => isSlugChar c = true \/ c = HYPHEN) slug
  /\ head slug <> Some HYPHEN
  /\ (forall i, slug !! i = Some HYPHEN -> slug !! S i <> Some HYPHEN)
  /\ (last slug = Some HYPHEN -> length slug = 50%nat)
  /\ (slug = []
      <-> Forall (fun c => isSlugChar c = false) (toLowerCase name))
  /\ List.filter isSlugChar slug
     `prefix_of` List.filter isSlugChar (toLowerCase name).
Proof.
  cbv zeta. pose proof (slugify_empty name) as Hempty.
  destruct (slugify_shape name) as (s & Hs & Hshape & Hhead & Hlast & Hfilter).
  rewrite Hs in *. clear Hs.
  assert (hyphenated (take 50 s)) as Hcut.
  { apply (hyphenated_app _ (drop 50 s)). by rewrite take_drop. }
  split; [|split; [|split; [|split; [|split; [|split]]]]].
  - rewrite length_take. lia.
  - by apply hyphenated_Forall.
  - intros Hh. assert (head s = Some HYPHEN) as Hh'.
    { destruct s; [done|]. done. }
    by apply Hhead in Hh'.
  - intros i Hi Hnext.
    by pose proof (hyphenated_lookup _ _ _ Hcut Hi Hnext).
  - intros Hl. destruct (decide (length s <= 50)%nat) as [Hle|Hgt].
    + rewrite take_ge in Hl by done. by apply Hlast in Hl.
    + rewrite length_take. lia.
  - done.
  - rewrite <- Hfilter. rewrite <- (take_drop 50 s) at 2.
    rewrite List.filter_app. by apply prefix_app_r.
Qed.

End Slug.

(* ===================================================================== *)
(** ** generate.js: a name without letters or digits                      *)
(* ===================================================================== *)

Section NoSlug.
Import MultiFileGenerator Progress Generate.
Context {rt : Runtime}.

(** With an empty slug the folder structure is not created. *)
Lemma createProjectStructure_no_slug env pid name d :
  FileSystem.slugify name = [] ->
  mkdirError env (GENERATED_APPS_PATH env) = None ->
  FileSystem.createProjectStructure env pid name d
  = (inl js:"require is not defined", d).
Proof.
  intros Hslug Hmkdir.
  unfold FileSystem.createProjectStructure, FileSystem.ensureDir.
  rewrite Hmkdir, fs_bind. simpl.
  unfold FileSystem.getProjectPath. by rewrite Hslug.
Qed.

(** X17.  A project whose name, lower-cased, has no letter from a to z
    and no digit cannot be generated: where the generated-apps folder
    exists or can be created, the run fails during setup with the
    message [require is not defined], before any phase is generated;
    nothing is written to disk, no ports are assigned, the session is
    removed, and the project, if it is in the store, ends [failed]. *)
Theorem name_without_letters_fails
  (env : Env) (projectId : jsstring) (config : Config) (w : World) :
  Forall (fun c => FileSystem.isSlugChar c = false)
    (toLowerCase (cfg_name config)) ->
  mkdirError env (GENERATED_APPS_PATH env) = None ->
  exists w',
    runBatchGeneration env projectId config w
    = (inr (mkBatchResult false (Some js:"require is not defined") None [] []
              None), w')
    /\ disk w' = disk w
    /\ portAssignments w' = portAssignments w
    /\ activeGenerations w' !! projectId = None
    /\ (forall project,
          projects w !! projectId = Some project ->
          statusAt w' projectId = Some Project.FAILED).
Proof.
  intros Hname Hmkdir. apply slugify_empty in Hname.
  unfold runBatchGeneration, tryCatch, runBatchBody, setupPhase.
  rewrite !run_bind.
  destruct (updatePhase projectId js:"setup" in_progress 0 w) as [r1 w1] eqn:H1.
  eapply (yields_inv projectId) in H1 as [Hr1 T1]; [|apply tracks_updatePhase].
  subst r1. rewrite !run_bind.
  destruct (addLog projectId MsgCreatingStructure info w1) as [r2 w2] eqn:H2.
  eapply (yields_inv projectId) in H2 as [Hr2 T2]; [|apply tracks_addLog].
  subst r2. rewrite !run_bind. unfold onDisk at 1.
  rewrite (createProjectStructure_no_slug _ _ _ _ Hname Hmkdir).
  destruct (runBatchCatch_result projectId js:"require is not defined"
              (mkWorld (projects w2) (activeGenerations w2)
                 (portAssignments w2) (runningApps w2) (disk w2) (sent w2)
                 (timers w2)))
    as (w3 & change & T3 & ->).
  destruct T1 as [P1 Q1 A1 D1 M1 C1 F1 S1].
  destruct T2 as [P2 Q2 A2 D2 M2 C2 F2 S2].
  destruct T3 as [P3 Q3 A3 D3 M3 C3 F3 S3]. simpl in *.
  eexists. split; [done|]. simpl.
  split; [congruence|]. split; [congruence|]. split.
  - by rewrite lookup_delete_eq.
  - intros project Hp. unfold statusAt. simpl.
    rewrite lookup_updateProject, P3, P2, P1, Hp. done.
Qed.

End NoSlug.

Lemma name_without_letters_fails_witness :
  let config := mkConfig js:"!!!" js:"a web shop" [] false js:"basic" in
  fst (Generate.runBatchGeneration (rt := Sample.runtime)
         (Example.env Example.allSucceed Example.diskWorks true) js:"p1"
         config Example.accepted)
  = inr (Generate.mkBatchResult false (Some js:"require is not defined") None
           [] [] None).
Proof.
  cbv zeta.
  destruct (name_without_letters_fails (rt := Sample.runtime)
              (Example.env Example.allSucceed Example.diskWorks true) js:"p1"
              (mkConfig js:"!!!" js:"a web shop" [] false js:"basic")
              Example.accepted) as (w' & Hrun & _).
  { vm_compute. repeat constructor. }
  { reflexivity. }
  by rewrite Hrun.
Defined.

(* ===================================================================== *)
(** ** fileSystem.js: saving the files of a map                           *)
(* ===================================================================== *)

Section Save.
Import FileSystem.




End Save.

(* ===================================================================== *)
(** ** multiFileGenerator.js: what the parser returns on any response     *)
(* ===================================================================== *)

Section ParserMore.
Import MultiFileGenerator.

Lemma span_Forall (p : N -> bool) (s : jsstring) :
  Forall (fun c => p c = true) (JS.span p s).1.
Proof.
  induction s as [|c s IH]; [done|]. simpl.
  destruct (p c) eqn:Hc; [|done]. destruct (JS.span p s) as [a b].
  simpl in *. apply Forall_cons. by split.
Qed.

Lemma startsWith_nil (p : jsstring) : p <> [] -> JS.startsWith p [] = false.
Proof. by destruct p. Qed.

Lemma includes_prefix (p u v : jsstring) :
  p <> [] -> JS.includes p (u ++ v) = false -> JS.includes p u = false.
Proof.
  intros Hp. induction u as [|c u IH]; simpl.
  - intros _. by rewrite startsWith_nil.
  - intros H. apply orb_false_iff in H as [Hstart Hrest].
    rewrite IH by done. rewrite orb_false_r.
    destruct (JS.startsWith p (c :: u)) eqn:Hu; [|done].
    apply startsWith_app in Hu as [rest Hu].
    assert (JS.startsWith p (c :: u ++ v) = true) as Htrue.
    { apply startsWith_app. exists (rest ++ v).
      change (c :: u ++ v) with ((c :: u) ++ v).
      by rewrite Hu, <- app_assoc. }
    congruence.
Qed.

Lemma includes_suffix (p s : jsstring) (i : nat) :
  JS.includes p s = false -> JS.includes p (drop i s) = false.
Proof.
  intros Hs. destruct (JS.includes p (drop i s)) eqn:Hd; [|done].
  apply includes_drop in Hd as [j Hj]. rewrite drop_drop in Hj.
  assert (JS.includes p s = true) as Htrue
      by (apply includes_drop; by eexists).
  congruence.
Qed.

Lemma includes_middle (p u v : jsstring) : JS.includes p (u ++ p ++ v) = true.
Proof.
  apply includes_drop. exists (length u). rewrite drop_app_length.
  apply startsWith_app. by exists v.
Qed.

(** The text before the first occurrence of a marker does not contain
    the marker. *)
Lemma splitAtFirst_Some (p s a b : jsstring) :
  p <> [] -> JS.splitAtFirst p s = Some (a, b) ->
  s = a ++ p ++ b /\ JS.includes p a = false.
Proof.
  intros Hp. revert a. induction s as [|c s IH]; intros a;
    rewrite splitAtFirst_unfold.
  - rewrite startsWith_nil by done. done.
  - destruct (JS.startsWith p (c :: s)) eqn:Hstart.
    + intros [= <- <-]. apply startsWith_app in Hstart as [rest Hrest].
      rewrite Hrest, drop_app_length. split; [done|].
      simpl. by rewrite startsWith_nil.
    + destruct (JS.splitAtFirst p s) as [[a' b']|] eqn:Hsplit; [|done].
      intros [= <- <-]. destruct (IH a' eq_refl) as [-> Hnot].
      split; [done|]. simpl. rewrite Hnot, orb_false_r.
      destruct (JS.startsWith p (c :: a')) eqn:Ha; [|done].
      apply startsWith_app in Ha as [rest Ha].
      assert (JS.startsWith p (c :: a' ++ p ++ b') = true) as Htrue.
      { apply startsWith_app. exists (rest ++ p ++ b').
        change (c :: a' ++ p ++ b') with ((c :: a') ++ p ++ b').
        by rewrite Ha, <- app_assoc. }
      congruence.
Qed.

(** *** Trimming *)

Lemma trimStart_split (s : jsstring) :
  exists u,
    s = u ++ JS.trimStart s
    /\ Forall (fun c => JS.isWhiteSpace c = true) u.
Proof.
  induction s as [|c s (u & Hu & Hws)]; [by exists []|]. simpl.
  destruct (JS.isWhiteSpace c) eqn:Hc; [|by exists []].
  exists (c :: u). split; [by rewrite Hu at 1|]. apply Forall_cons. by split.
Qed.

Lemma trimEnd_split (s : jsstring) :
  exists v,
    s = JS.trimEnd s ++ v
    /\ Forall (fun c => JS.isWhiteSpace c = true) v.
Proof.
  destruct (trimStart_split (reverse s)) as (u & Hu & Hws).
  exists (reverse u). split.
  - unfold JS.trimEnd. rewrite <- reverse_app, <- Hu.
    by rewrite reverse_involutive.
  - by apply Forall_reverse.
Qed.

Lemma trimStart_idem (s : jsstring) :
  JS.trimStart (JS.trimStart s) = JS.trimStart s.
Proof.
  induction s as [|c s IH]; [done|]. simpl.
  destruct (JS.isWhiteSpace c) eqn:Hc; [done|]. simpl. by rewrite Hc.
Qed.

Lemma trimEnd_idem (s : jsstring) : JS.trimEnd (JS.trimEnd s) = JS.trimEnd s.
Proof.
  unfold JS.trimEnd. by rewrite reverse_involutive, trimStart_idem.
Qed.

Lemma trimStart_trimEnd (s : jsstring) :
  JS.trimStart s = s -> JS.trimStart (JS.trimEnd s) = JS.trimEnd s.
Proof.
  intros Hs. destruct s as [|c s]; [done|].
  pose proof (trimStart_head _ _ Hs) as Hc.
  destruct (trimEnd_split (c :: s)) as (v & Hv & Hws).
  destruct (JS.trimEnd (c :: s)) as [|c' r]; [done|].
  injection Hv as <- _. simpl. by rewrite Hc.
Qed.

Lemma trim_idem (s : jsstring) : JS.trim (JS.trim s) = JS.trim s.
Proof.
  unfold JS.trim.
  rewrite (trimStart_trimEnd (JS.trimStart s)) by apply trimStart_idem.
  apply trimEnd_idem.
Qed.

Lemma includes_trim (p s : jsstring) :
  p <> [] -> JS.includes p s = false -> JS.includes p (JS.trim s) = false.
Proof.
  intros Hp Hs. unfold JS.trim.
  destruct (trimStart_split s) as (u & Hu & _).
  destruct (trimEnd_split (JS.trimStart s)) as (v & Hv & _).
  apply (includes_prefix p _ v Hp). rewrite <- Hv.
  assert (JS.trimStart s = drop (length u) s) as ->.
  { rewrite Hu at 2. by rewrite drop_app_length. }
  by apply includes_suffix.
Qed.

(** *** Matches *)

(** What one match of the block expression captures, and where it
    ends. *)
Lemma matchFileBlock_Some (s path body : jsstring) (n : nat) :
  matchFileBlock s = Some ((path, body), n) ->
  path <> []
  /\ Forall (fun c => isPathChar c = true) path
  /\ JS.includes END_FILE body = false
  /\ JS.includes END_FILE s = true.
Proof.
  unfold matchFileBlock.
  destruct (JS.stripPrefix FILE_OPEN s) as [s1|] eqn:H1; [|done].
  apply stripPrefix_Some in H1 as ->.
  pose proof (span_split JS.isWhiteSpace s1) as Hs1.
  destruct (JS.span JS.isWhiteSpace s1) as [ws1 s2]. simpl in Hs1.
  pose proof (span_split isPathChar s2) as Hs2.
  pose proof (span_Forall isPathChar s2) as Hpath.
  destruct (JS.span isPathChar s2) as [path' s3]. simpl in Hs2, Hpath.
  destruct path' as [|c path']; [done|].
  pose proof (span_split JS.isWhiteSpace s3) as Hs3.
  destruct (JS.span JS.isWhiteSpace s3) as [ws2 s4]. simpl in Hs3.
  destruct (JS.stripPrefix FILE_CLOSE s4) as [s5|] eqn:H4; [|done].
  apply stripPrefix_Some in H4 as ->.
  destruct (JS.splitAtFirst END_FILE s5) as [[body' rest]|] eqn:H5; [|done].
  apply splitAtFirst_Some in H5 as [-> Hbody]; [|done].
  intros [= <- <- _]. split; [done|]. split; [done|]. split; [done|].
  subst s1 s2 s3.
  rewrite !app_assoc. rewrite <- (app_assoc _ END_FILE rest).
  apply includes_middle.
Qed.

(** Every match of a global search is a match at some position. *)
Lemma execAll_elem {A} (m : JS.matcher A) (s : jsstring) (k : nat) (x : A) :
  x ∈ JS.execAll m k s -> exists i n, m (drop i s) = Some (x, n).
Proof.
  revert k. induction s as [|c s IH]; intros k; simpl.
  { intros H. by apply elem_of_nil in H. }
  destruct k as [|k].
  - destruct (m (c :: s)) as [[a n]|] eqn:Hm.
    + intros [->|Hin]%elem_of_cons; [by exists 0%nat, n|].
      destruct (IH _ Hin) as (i & n' & Hi). by exists (S i), n'.
    + intros Hin. destruct (IH _ Hin) as (i & n' & Hi). by exists (S i), n'.
  - intros Hin. destruct (IH _ Hin) as (i & n' & Hi). by exists (S i), n'.
Qed.

(** The entries the parser assigns are plain. *)
Lemma foldl_assign_plain (matches : list (jsstring * jsstring))
  (acc : FileMap) :
  Forall (fun entry =>
            entry.1 <> [] /\ Forall (fun c => isPathChar c = true) entry.1
            /\ JS.includes END_FILE entry.2 = false) matches ->
  (forall path content,
     acc !! path = Some content -> plainPath path /\ plainContent content) ->
  forall path content,
    foldl (fun (files : FileMap) '(filePath, content) =>
             assignFile (JS.trim filePath) (JS.trim content) files)
          acc matches !! path = Some content ->
    plainPath path /\ plainContent content.
Proof.
  revert acc. induction matches as [|[p body] matches IH]; intros acc Hall Hacc;
    [done|].
  apply Forall_cons in Hall as [(Hne & Hchars & Hbody) Hall]. simpl in *.
  apply IH; [done|]. intros path content. unfold assignFile.
  rewrite (trim_path p Hchars).
  case_bool_decide as Hproto; [apply Hacc|].
  destruct (decide (p = path)) as [->|Hother].
  - rewrite lookup_insert_eq. intros [= <-]. split; [done|].
    split; [apply trim_idem|]. by apply includes_trim.
  - rewrite lookup_insert_ne by done. apply Hacc.
Qed.

(** X19.  Whatever the response, every path of the map the parser
    returns is a non-empty token without white space or equals sign and
    is not [__proto__], and every content is trimmed and does not
    contain the end marker; so writing the map out in the marker format
    and parsing it again gives the same map.  A response that does not
    contain the end marker gives no file at all. *)
Theorem parser_output_is_stable (response : jsstring) :
  let files := parseMultiFileResponse response in
  (forall path content,
      files !! path = Some content -> plainPath path /\ plainContent content)
  /\ parseMultiFileResponse (serialize files) = files
  /\ (JS.includes END_FILE response = false -> files = ∅).
Proof.
  cbv zeta.
  assert (forall path content,
            parseMultiFileResponse response !! path = Some content ->
            plainPath path /\ plainContent content) as Hplain.
  { unfold parseMultiFileResponse. apply foldl_assign_plain.
    - apply Forall_forall. intros [path body] Hin.
      apply execAll_elem in Hin as (i & n & Hm).
      apply matchFileBlock_Some in Hm as (H1 & H2 & H3 & _). done.
    - intros path content. by rewrite lookup_empty. }
  split; [done|]. split.
  - assert (Forall (fun entry => plainPath entry.1 /\ plainContent entry.2)
              (map_to_list (parseMultiFileResponse response))) as Hall.
    { apply Forall_forall. intros [path content] Hin.
      apply elem_of_map_to_list in Hin. by apply Hplain. }
    unfold parseMultiFileResponse at 1. unfold serialize.
    rewrite execAll_serialize, foldl_assign by done.
    apply foldl_insert_map_to_list.
  - intros Hnone. unfold parseMultiFileResponse.
    destruct (JS.execAll matchFileBlock 0 response) as [|[path body] l] eqn:Hl;
      [done|].
    assert ((path, body) ∈ JS.execAll matchFileBlock 0 response) as Hin.
    { rewrite Hl. apply elem_of_cons. by left. }
    apply execAll_elem in Hin as (i & n & Hm).
    apply matchFileBlock_Some in Hm as (_ & _ & _ & Hinc).
    pose proof (includes_suffix _ _ i Hnone). congruence.
Qed.

End ParserMore.

(* ===================================================================== *)
(** ** multiFileGenerator.js: what the fixer leaves and what it ensures   *)
(* ===================================================================== *)

Section FixerMore.
Import Value MultiFileGenerator.
Context {rt : Runtime}.

(** X20.  The validator/fixer returns unchanged every file that is not
    one of the two manifests, not one of the three environment files,
    and not a backend JavaScript file requiring [bcrypt]: frontend
    sources, the schema, the documentation and the like come out as
    they went in.  A manifest that is empty or does not parse is
    returned as it is, too. *)
Theorem fixer_leaves_other_files (files : FileMap) (config : Config) :
  let fixed := (validateAndFixFiles files config).1 in
  (forall path content,
      files !! path = Some content ->
      path ∉ ENV_FILES ->
      path ∉ [BACKEND_PACKAGE_JSON; FRONTEND_PACKAGE_JSON] ->
      isBackendJs path && mentionsBcrypt content = false ->
      fixed !! path = Some content)
  /\ (forall key content,
        key ∈ [BACKEND_PACKAGE_JSON; FRONTEND_PACKAGE_JSON] ->
        files !! key = Some content ->
        JS.truthyString content = false \/ JSON_parse content = None ->
        fixed !! key = Some content).
Proof.
  cbv zeta. split.
  - intros path content Hfile Henv Hmanifest Hjs.
    rewrite validateAndFixFiles_lookup, bool_decide_false by done.
    rewrite Hfile. simpl. unfold entryFixed, bcryptFixed.
    rewrite !bool_decide_false; [by rewrite Hjs| |];
      intros ->; apply Hmanifest; set_solver.
  - intros key content Hkey Hfile Hskip.
    rewrite validateAndFixFiles_lookup.
    rewrite bool_decide_false by (by apply manifest_kept).
    rewrite Hfile. simpl.
    assert (forall body,
              manifestFixed (fun c _ => fixPackageJson body c) config content
              = content) as Hsame.
    { intros body. unfold manifestFixed, fixPackageJson.
      destruct Hskip as [Hempty|Hparse]; [by rewrite Hempty|]. rewrite Hparse. by destruct (JS.truthyString _). }
    repeat (apply elem_of_cons in Hkey as [->|Hkey]);
      [| |by apply elem_of_nil in Hkey].
    + rewrite entryFixed_backend. f_equal. apply Hsame.
    + rewrite entryFixed_frontend. f_equal. apply Hsame.
Qed.



End FixerMore.


(* ===================================================================== *)
(** ** multiFileGenerator.js: retries and the batch                       *)
(* ===================================================================== *)

Section PhaseGeneratorFacts.
Import MultiFileGenerator PhaseGenerator.

(** One level of [generatePhase]. *)
Lemma generatePhase_step fuel api phase config retryCount calls :
  generatePhase (S fuel) api phase config retryCount calls
  = match attempt api phase config calls with
    | inl e => Some (inl e, S calls)
    | inr (message, files) =>
        if negb (fst (validatePhaseFiles phase files))
           && (retryCount <? 2)%nat
        then generatePhase fuel api phase config (retryCount + 1) (S calls)
        else Some (inr (mkGenerated files (statsOf message files)), S calls)
    end.
Proof.
  unfold attempt. cbn [generatePhase].
  destruct (api phase config calls) as [e|message]; [done|].
  by destruct (msg_content message) as [[text|]|].
Qed.

(** With [k] retries left, [generatePhase] makes at most [k + 1]
    requests. *)
Lemma generatePhase_from api phase config (k retryCount calls : nat) :
  (retryCount + k = 2)%nat ->
  exists r calls',
    (forall fuel,
        (S k <= fuel)%nat ->
        generatePhase fuel api phase config retryCount calls
        = Some (r, calls'))
    /\ (calls < calls' <= calls + S k)%nat
    /\ (forall i,
          (calls <= i < calls' - 1)%nat ->
          exists message files,
            attempt api phase config i = inr (message, files)
            /\ fst (validatePhaseFiles phase files) = false)
    /\ match r with
       | inl e => attempt api phase config (calls' - 1) = inl e
       | inr result =>
           exists message,
             attempt api phase config (calls' - 1)
             = inr (message, g_files result)
             /\ g_stats result = statsOf message (g_files result)
             /\ (fst (validatePhaseFiles phase (g_files result)) = true
                 \/ calls' = (calls + S k)%nat)
       end.
Proof.
  revert retryCount calls. induction k as [|k IH]; intros retryCount calls Hk.
  - destruct (attempt api phase config calls) as [e|[message files]] eqn:Ha.
    + exists (inl e), (S calls). split; [|split; [lia|split]].
      * intros [|fuel] Hfuel; [lia|]. by rewrite generatePhase_step, Ha.
      * intros i Hi. lia.
      * by replace (S calls - 1)%nat with calls by lia.
    + exists (inr (mkGenerated files (statsOf message files))), (S calls).
      split; [|split; [lia|split]].
      * intros [|fuel] Hfuel; [lia|]. rewrite generatePhase_step, Ha.
        replace (retryCount <? 2)%nat with false
          by (symmetry; apply Nat.ltb_ge; lia).
        by rewrite andb_false_r.
      * intros i Hi. lia.
      * replace (S calls - 1)%nat with calls by lia.
        exists message. split; [done|]. split; [done|]. right. lia.
  - assert ((retryCount <? 2)%nat = true) as Hretry
        by (apply Nat.ltb_lt; lia).
    destruct (attempt api phase config calls) as [e|[message files]] eqn:Ha.
    + exists (inl e), (S calls). split; [|split; [lia|split]].
      * intros [|fuel] Hfuel; [lia|]. by rewrite generatePhase_step, Ha.
      * intros i Hi. lia.
      * by replace (S calls - 1)%nat with calls by lia.
    + destruct (fst (validatePhaseFiles phase files)) eqn:Hvalid.
      * exists (inr (mkGenerated files (statsOf message files))), (S calls).
        split; [|split; [lia|split]].
        -- intros [|fuel] Hfuel; [lia|].
           by rewrite generatePhase_step, Ha, Hvalid.
        -- intros i Hi. lia.
        -- replace (S calls - 1)%nat with calls by lia.
           exists message. split; [done|]. split; [done|]. by left.
      * destruct (IH (retryCount + 1)%nat (S calls) ltac:(lia))
          as (r & calls' & Hrun & Hcalls & Hearlier & Hlast).
        exists r, calls'. split; [|split; [lia|split]].
        -- intros [|fuel] Hfuel; [lia|].
           rewrite generatePhase_step, Ha, Hvalid, Hretry. simpl.
           apply Hrun. lia.
        -- intros i Hi. destruct (decide (i = calls)) as [->|Hne].
           ++ by exists message, files.
           ++ apply Hearlier. lia.
        -- destruct r as [e|result]; [done|].
           destruct Hlast as (message' & H1 & H2 & H3).
           exists message'. split; [done|]. split; [done|].
           destruct H3 as [H3|H3]; [by left|right; lia].
Qed.

(** X22.  [generatePhase] asks the model at most three times and never
    loops: with any bound of three or more on its recursion it gives
    the same outcome.  It asks again only after an answer whose text
    lacks a critical file of the phase; an error of a request, or an
    answer that is not text, is thrown at once and not retried.  What
    it returns are the files of the last answer, valid or else those of
    the third answer with critical files still missing, and statistics
    that count the tokens of that last answer only. *)
Theorem generatePhase_retries
  (api : Api) (phase : Phase) (config : Config) (calls : nat) :
  exists r calls',
    (forall fuel,
        (3 <= fuel)%nat ->
        generatePhase fuel api phase config 0 calls = Some (r, calls'))
    /\ (calls < calls' <= calls + 3)%nat
    /\ (forall i,
          (calls <= i < calls' - 1)%nat ->
          exists message files,
            attempt api phase config i = inr (message, files)
            /\ fst (validatePhaseFiles phase files) = false)
    /\ match r with
       | inl e => attempt api phase config (calls' - 1) = inl e
       | inr result =>
           exists message,
             attempt api phase config (calls' - 1)
             = inr (message, g_files result)
             /\ g_stats result = statsOf message (g_files result)
             /\ (fst (validatePhaseFiles phase (g_files result)) = true
                 \/ calls' = (calls + 3)%nat)
       end.
Proof.
  destruct (generatePhase_from api phase config 2 0 calls eq_refl)
    as (r & calls' & Hrun & Hcalls & Hearlier & Hlast).
  exists r, calls'. split; [done|]. split; [done|]. split; [done|].
  destruct r as [e|result]; [done|].
  destruct Hlast as (message & H1 & H2 & H3). by exists message.
Qed.

(** One turn of the loop of [generateMultipleFiles]. *)
Lemma batchTurn_total fuel api config st i phase :
  (3 <= fuel)%nat ->
  exists st' entry,
    batchTurn fuel api config st i phase = Some st'
    /\ pe_phase entry = phase
    /\ b_phaseStats st' = b_phaseStats st ++ [entry]
    /\ rep_phase <$> b_reports st'
       = (rep_phase <$> b_reports st) ++ [phase; phase]
    /\ rep_phaseIndex <$> b_reports st'
       = (rep_phaseIndex <$> b_reports st) ++ [i; i]
    /\ rep_status <$> b_reports st'
       = (rep_status <$> b_reports st) ++ [Generating; finishStatus entry]
    /\ (b_calls st < b_calls st' <= b_calls st + 3)%nat
    /\ (forall message,
          pe_outcome entry = inl message -> b_allFiles st' = b_allFiles st).
Proof.
  intros Hfuel.
  destruct (generatePhase_from api phase config 2 0 (b_calls st) eq_refl)
    as (r & calls' & Hrun & Hcalls & _).
  unfold batchTurn. rewrite (Hrun fuel Hfuel).
  destruct r as [message|result].
  - eexists _, (mkPhaseEntry phase (inl message)). split; [done|].
    simpl. rewrite !fmap_app. repeat split; try done; lia.
  - eexists _, (mkPhaseEntry phase (inr (g_stats result))). split; [done|].
    simpl. rewrite !fmap_app. repeat split; try done; lia.
Qed.

Lemma batchLoop_total fuel api config rest st i :
  (3 <= fuel)%nat ->
  exists st' entries,
    batchLoop fuel api config st i rest = Some st'
    /\ pe_phase <$> entries = rest
    /\ b_phaseStats st' = b_phaseStats st ++ entries
    /\ rep_phase <$> b_reports st'
       = (rep_phase <$> b_reports st) ++ (rest ≫= fun p => [p; p])
    /\ rep_phaseIndex <$> b_reports st'
       = (rep_phaseIndex <$> b_reports st)
         ++ (seq i (length rest) ≫= fun j => [j; j])
    /\ rep_status <$> b_reports st'
       = (rep_status <$> b_reports st)
         ++ (entries ≫= fun entry => [Generating; finishStatus entry])
    /\ (b_calls st + length rest <= b_calls st'
        <= b_calls st + 3 * length rest)%nat
    /\ (Forall (fun entry => exists message, pe_outcome entry = inl message)
          entries ->
        b_allFiles st' = b_allFiles st).
Proof.
  intros Hfuel. revert st i. induction rest as [|phase rest IH]; intros st i.
  - exists st, []. simpl. rewrite !app_nil_r. repeat split; try done; lia.
  - destruct (batchTurn_total fuel api config st i phase Hfuel)
      as (st1 & entry & Hturn & Hphase & Hstats & Hp & Hi & Hs & Hcalls
          & Hfiles).
    destruct (IH st1 (S i))
      as (st' & entries & Hloop & Hphases & Hstats' & Hp' & Hi' & Hs'
          & Hcalls' & Hfiles').
    exists st', (entry :: entries). cbn [batchLoop]. rewrite Hturn.
    split; [done|]. split; [by rewrite fmap_cons, Hphase, Hphases|].
    split; [by rewrite Hstats', Hstats, <- app_assoc|].
    split; [by rewrite Hp', Hp, <- app_assoc|].
    split; [by rewrite Hi', Hi, <- app_assoc|].
    split; [by rewrite Hs', Hs, <- app_assoc|].
    split; [simpl; lia|].
    intros Hall. apply Forall_cons in Hall as [[message Hentry] Hall].
    rewrite Hfiles' by done. by eapply Hfiles.
Qed.

Context {rt : Runtime}.

Lemma validateAndFixFiles_empty config :
  (validateAndFixFiles ∅ config).1 = ∅.
Proof.
  apply map_eq. intros path. rewrite validateAndFixFiles_lookup.
  rewrite !lookup_empty. by case_bool_decide.
Qed.

(** X23.  With an API key in the environment, [generateMultipleFiles]
    never throws: every one of the five phases is attempted, in order,
    whatever happened to the phases before it, with between 5 and 15
    requests in all, and a result is returned even when every phase
    failed, its file map then being empty.  [phases] has one entry for
    each phase, and [onProgress] is told of each phase twice: that it is
    being generated and then that it is completed or, with the message
    of the error, that it failed.  Without an API key the function
    throws before any request or report. *)
Theorem batch_attempts_every_phase
  (fuel : nat) (api : Api) (key : jsstring) (config : Config) (calls : nat) :
  (3 <= fuel)%nat ->
  JS.truthyString key = true ->
  (exists out reports calls',
      generateMultipleFiles fuel api (Some key) config calls
      = Some (inr out, reports, calls')
      /\ pe_phase <$> bo_phases out = phases
      /\ bs_phases (bo_stats out) = bo_phases out
      /\ rep_phase <$> reports = (phases ≫= fun p => [p; p])
      /\ rep_phaseIndex <$> reports
         = [0; 0; 1; 1; 2; 2; 3; 3; 4; 4]%nat
      /\ rep_status <$> reports
         = (bo_phases out ≫= fun entry => [Generating; finishStatus entry])
      /\ (calls + 5 <= calls' <= calls + 15)%nat
      /\ (Forall (fun entry => exists message, pe_outcome entry = inl message)
            (bo_phases out) ->
          bo_files out = ∅))
  /\ (forall key',
        from_option JS.truthyString false key' = false ->
        generateMultipleFiles fuel api key' config calls
        = Some (inl API_KEY_NOT_SET, [], calls)).
Proof.
  intros Hfuel Hkey. split.
  - unfold generateMultipleFiles. cbn [from_option]. rewrite Hkey.
    cbn [negb].
    destruct (batchLoop_total fuel api config phases
                (mkBatch ∅ [] 0 0 [] calls) 0 Hfuel)
      as (st & entries & -> & Hphases & Hstats & Hp & Hi & Hs & Hcalls
          & Hfiles).
    simpl in *.
    destruct (validateAndFixFiles (b_allFiles st) config)
      as [fixedFiles fixes] eqn:Hfix.
    eexists _, _, _. split; [done|]. simpl. rewrite Hstats.
    do 5 (split; [done|]). split; [lia|].
    intros Hall. rewrite (Hfiles Hall) in Hfix.
    pose proof (validateAndFixFiles_empty config) as Hempty.
    by rewrite Hfix in Hempty.
  - intros key' Hnone. unfold generateMultipleFiles. by rewrite Hnone.
Qed.

End PhaseGeneratorFacts.

Lemma batch_attempts_every_phase_witness :
  exists out reports calls',
    PhaseGenerator.generateMultipleFiles (rt := Sample.runtime) 3 Scenario.api
      (Some js:"sk-test") Example.config 0
    = Some (inr out, reports, calls')
    /\ length reports = 10%nat
    /\ (5 <= calls' <= 15)%nat.
Proof.
  destruct (batch_attempts_every_phase (rt := Sample.runtime) 3 Scenario.api
              js:"sk-test" Example.config 0)
    as [(out & reports & calls' & Hrun & _ & _ & _ & Hindex & _ & Hcalls & _)
          _].
  { lia. }
  { reflexivity. }
  exists out, reports, calls'. split; [exact Hrun|]. split; [|exact Hcalls].
  rewrite <- (length_fmap PhaseGenerator.rep_phaseIndex), Hindex. reflexivity.
Defined.

(* ===================================================================== *)
(** ** generate.js: the removal timer and the next generation             *)
(* ===================================================================== *)

Section StaleTimer.
Import MultiFileGenerator Progress Generate.

Lemma quiet_ret {A} pid (a : A) : quiet pid (mret a).
Proof. by intros w Hw. Qed.

Lemma quiet_throw {A} pid e : quiet pid (@throw A e).
Proof. by intros w Hw. Qed.

Lemma quiet_bind {A B} pid (m : Run A) (k : A -> Run B) :
  quiet pid m -> (forall a, quiet pid (k a)) -> quiet pid (m ≫= k).
Proof.
  intros Hm Hk w Hw. rewrite run_bind. destruct (Hm w Hw) as [H1 H2].
  destruct (m w) as [[e|a] w1]; [done|]. simpl in *.
  destruct (Hk a w1 H1) as [H3 H4]. split; [done|]. by rewrite H4.
Qed.

Lemma quiet_tryCatch {A} pid (body : Run A) handler :
  quiet pid body -> (forall e, quiet pid (handler e)) ->
  quiet pid (tryCatch body handler).
Proof.
  intros Hm Hk w Hw. unfold tryCatch. destruct (Hm w Hw) as [H1 H2].
  destruct (body w) as [[e|a] w1]; [|done]. simpl in *.
  destruct (Hk e w1 H1) as [H3 H4]. split; [done|]. by rewrite H4.
Qed.

Lemma quiet_if {A} pid (c : bool) (m k : Run A) :
  quiet pid m -> quiet pid k -> quiet pid (if c then m else k).
Proof. by destruct c. Qed.

(** Without a session the four helpers do nothing. *)
Lemma quiet_sendProgressUpdate pid ev : quiet pid (sendProgressUpdate pid ev).
Proof.
  intros w Hw. rewrite sendProgressUpdate_sent. simpl.
  split; [done|]. unfold clientsAt. rewrite Hw. simpl. by rewrite app_nil_r.
Qed.

Lemma quiet_addLog pid message type : quiet pid (addLog pid message type).
Proof.
  intros w Hw. unfold addLog, getGeneration. rewrite run_bind. simpl.
  by rewrite Hw.
Qed.

Lemma quiet_updatePhase pid phaseId status n :
  quiet pid (updatePhase pid phaseId status n).
Proof.
  intros w Hw. unfold updatePhase, getGeneration. rewrite run_bind. simpl.
  by rewrite Hw.
Qed.

Lemma quiet_updateStats pid updates : quiet pid (updateStats pid updates).
Proof.
  intros w Hw. unfold updateStats, getGeneration. rewrite run_bind. simpl.
  by rewrite Hw.
Qed.

Lemma quiet_onDisk {A} pid (m : FileSystem.FS A) : quiet pid (onDisk m).
Proof. intros w Hw. unfold onDisk. by destruct (m (disk w)). Qed.

Lemma quiet_updateProject pid u : quiet pid (updateProject pid u).
Proof. by intros w Hw. Qed.

Lemma quiet_assignPorts env pid name : quiet pid (assignPorts env pid name).
Proof.
  intros w Hw. unfold assignPorts.
  destruct (PortManager.assignPorts _ _ _ _) as [a s].
  by destruct (PortManager.findAssignment _ _), (portStoreError env).
Qed.

Lemma quiet_runBlock env pid config b l : quiet pid (runBlock env pid config b l).
Proof.
  unfold runBlock.
  apply quiet_bind; [apply quiet_updatePhase|intros _].
  apply quiet_bind; [apply quiet_addLog|intros _].
  apply quiet_bind;
    [apply quiet_if; [apply quiet_addLog|apply quiet_ret]|intros _].
  apply quiet_tryCatch.
  - destruct (generateSinglePhase env (blk_phase b) config) as [e|result];
      [apply quiet_throw|].
    apply quiet_bind; [apply quiet_addLog|intros _].
    apply quiet_bind.
    { destruct (blk_critical b) as [needle|]; [|apply quiet_ret].
      apply quiet_if; [apply quiet_ret|apply quiet_addLog]. }
    intros _. apply quiet_bind; [apply quiet_updateStats|intros _].
    apply quiet_bind; [apply quiet_updatePhase|intros _]. apply quiet_ret.
  - intros message.
    apply quiet_bind; [apply quiet_addLog|intros _].
    apply quiet_bind; [apply quiet_updatePhase|intros _]. apply quiet_ret.
Qed.

Lemma quiet_runBlocks env pid config blocks l :
  quiet pid (runBlocks env pid config blocks l).
Proof.
  revert l. induction blocks as [|b blocks IH]; intros l; [apply quiet_ret|].
  simpl. apply quiet_bind; [apply quiet_runBlock|]. intros l'. apply IH.
Qed.

Context {rt : Runtime}.

Lemma quiet_runBatchGeneration env pid config :
  quiet pid (runBatchGeneration env pid config).
Proof.
  unfold runBatchGeneration. apply quiet_tryCatch.
  - unfold runBatchBody. apply quiet_bind.
    { unfold setupPhase.
      apply quiet_bind; [apply quiet_updatePhase|intros _].
      apply quiet_bind; [apply quiet_addLog|intros _].
      apply quiet_bind; [apply quiet_onDisk|intros [path slug]].
      apply quiet_bind; [apply quiet_addLog|intros _].
      apply quiet_bind; [apply quiet_updatePhase|intros _]. apply quiet_ret. }
    intros [path slug].
    apply quiet_bind; [apply quiet_runBlocks|intros l].
    unfold finalizePhase.
    apply quiet_bind; [apply quiet_updatePhase|intros _].
    apply quiet_bind; [apply quiet_addLog|intros _].
    apply quiet_bind;
      [apply quiet_if; [apply quiet_throw|apply quiet_ret]|intros _].
    apply quiet_bind; [apply quiet_addLog|intros _].
    apply quiet_bind; [apply quiet_onDisk|intros saved0].
    assert (forall backend saved,
              quiet pid (ensureManifest env pid config path (allFiles l)
                           backend saved)) as Hmanifest.
    { intros backend saved. unfold ensureManifest.
      apply quiet_if; [apply quiet_ret|].
      apply quiet_bind; [apply quiet_onDisk|intros _].
      apply quiet_bind; [apply quiet_addLog|intros _]. apply quiet_ret. }
    apply quiet_bind; [apply Hmanifest|intros saved1].
    apply quiet_bind; [apply Hmanifest|intros saved2].
    apply quiet_bind.
    { unfold writeEnvFiles.
      apply quiet_bind; [apply quiet_addLog|intros _].
      apply quiet_bind; [apply quiet_assignPorts|intros ports].
      apply quiet_bind; [apply quiet_onDisk|intros _].
      apply quiet_bind; [apply quiet_onDisk|intros _].
      apply quiet_bind; [apply quiet_addLog|intros _]. apply quiet_ret. }
    intros ports.
    apply quiet_bind; [apply quiet_onDisk|intros _].
    apply quiet_bind; [apply quiet_updateProject|intros _].
    apply quiet_bind.
    { unfold smokeTest. destruct (findServerFile _) as [serverFile|].
      - apply quiet_bind; [apply quiet_addLog|intros _].
        destruct (testCode env _) as [e|test]; [apply quiet_throw|].
        apply quiet_bind; [|intros _; apply quiet_ret].
        apply quiet_if; apply quiet_addLog.
      - apply quiet_bind; [apply quiet_addLog|intros _]. apply quiet_ret. }
    intros test.
    apply quiet_bind; [apply quiet_updatePhase|intros _].
    unfold conclude.
    apply quiet_bind; [apply quiet_updateProject|intros _].
    apply quiet_bind; [apply quiet_addLog|intros _].
    apply quiet_bind; [apply quiet_addLog|intros _].
    apply quiet_bind;
      [apply quiet_if; [apply quiet_addLog|apply quiet_ret]|intros _].
    apply quiet_bind; [apply quiet_sendProgressUpdate|intros _].
    apply quiet_bind; [by intros w Hw|intros _]. apply quiet_ret.
  - intros message. unfold runBatchCatch.
    apply quiet_bind; [apply quiet_addLog|intros _].
    apply quiet_bind; [apply quiet_updateProject|intros _].
    apply quiet_bind; [apply quiet_sendProgressUpdate|intros _].
    apply quiet_bind; [|intros _; apply quiet_ret].
    intros w Hw. simpl. split; [|done]. by rewrite lookup_delete_eq.
Qed.

(** X24.  The removal of a session that a finished run scheduled is
    not cancelled when a new generation of the project is accepted: the
    timer stays pending, and when it fires it deletes the session of the
    new generation together with the clients that subscribed to it,
    while the project stays [generating].  The run of the new generation,
    finding no session, then writes nothing to any client, whatever it
    does and however it ends. *)
Theorem pending_removal_silences_next_run
  (env : Env) (projectId : jsstring) (prompt : option jsstring)
  (config : Config) (client : Client) (w : World) :
  projectId ∈ timers w ->
  (startGeneration projectId prompt w).1.1 = Accepted202 ->
  let w1 := snd (subscribe projectId client
                   (snd (startGeneration projectId prompt w))) in
  let w2 := expire projectId w1 in
  let w3 := snd (runBatchGeneration env projectId config w2) in
  projectId ∈ timers w1
  /\ clientsAt w1 projectId = [client]
  /\ activeGenerations w2 !! projectId = None
  /\ statusAt w2 projectId = Some Project.GENERATING
  /\ sent w3 = sent w2
  /\ activeGenerations w3 !! projectId = None.
Proof.
  intros Htimer Hok. cbv zeta.
  destruct (startGeneration_accepted _ _ _ Hok)
    as (project & description & Hp & Hs & ->).
  unfold subscribe, Project.getProjectById. simpl.
  rewrite !lookup_insert_eq. simpl.
  set (w2 := expire projectId _).
  assert (activeGenerations w2 !! projectId = None) as Hnone
      by apply lookup_delete_eq.
  destruct (quiet_runBatchGeneration env projectId config w2 Hnone)
    as [Hquiet Hsent].
  split; [done|]. split.
  { unfold clientsAt. simpl. by rewrite lookup_insert_eq. }
  split; [done|]. split; [|done].
  unfold statusAt, w2. simpl. by rewrite lookup_insert_eq.
Qed.

End StaleTimer.

Lemma pending_removal_silences_next_run_witness :
  let w := snd (Example.batch
                  (Example.env Example.allSucceed Example.diskWorks true)) in
  let w2 :=
    Generate.expire js:"p1"
      (snd (Generate.subscribe js:"p1" 9%nat
              (snd (Generate.startGeneration js:"p1" None w)))) in
  timers w = [js:"p1"]
  /\ sent (snd (Generate.runBatchGeneration (rt := Sample.runtime)
                  (Example.env Example.allSucceed Example.diskWorks true)
                  js:"p1" Example.config w2))
     = sent w2.
Proof.
  cbv zeta. split; [vm_compute; reflexivity|].
  apply (pending_removal_silences_next_run (rt := Sample.runtime)
           (Example.env Example.allSucceed Example.diskWorks true)
           js:"p1" None Example.config 9%nat).
  - vm_compute. apply elem_of_cons. by left.
  - vm_compute. reflexivity.
Defined.

(* ===================================================================== *)
(** ** deploymentManager.js: an app that is started, exits or is stopped  *)
(* ===================================================================== *)

Section DeployLifecycle.
Import Generate DeploymentManager.



End DeployLifecycle.

